(** * Chinese Law MCP: numeral codec, citation resolver, deduplication,
      fetcher retry loop, provision extractor and query normaliser

    A shallow embedding of the TypeScript sources.  JavaScript strings are
    sequences of UTF-16 code units, so a string is a [list Z] of code units;
    every glyph the sources mention lies in the Basic Multilingual Plane and
    is therefore exactly one unit.  JavaScript numbers are modelled by [Z]:
    all numbers that reach the modelled functions are integers (results of
    [parseInt], digit arithmetic, counters). *)

From Stdlib Require Import String Ascii ZArith List Bool Lia.
Import ListNotations.
Open Scope Z_scope.

(* ===================================================================== *)
(** * Part I: the embedding                                               *)
(* ===================================================================== *)

(** ** JavaScript string primitives *)

Module JS.

(** A code unit, and a string of code units. *)
Abbreviation char := Z (only parsing).
Abbreviation jsstring := (list Z) (only parsing).

(** Code units of an ASCII literal of the source. *)
Definition lit (s : string) : jsstring :=
  map (fun a => Z.of_N (N_of_ascii a)) (list_ascii_of_string s).

Fixpoint str_eqb (a b : jsstring) : bool :=
  match a, b with
  | [], [] => true
  | x :: a', y :: b' => (x =? y) && str_eqb a' b'
  | _, _ => false
  end.

(** ECMAScript WhiteSpace and LineTerminator code units: what
    [String.prototype.trim], [parseInt] and the regular expression class
    [\s] treat as blank. *)
Definition isLineTerminator (c : char) : bool :=
  (c =? 0x0A) || (c =? 0x0D) || (c =? 0x2028) || (c =? 0x2029).

Definition isWhiteSpace (c : char) : bool :=
  (c =? 0x09) || (c =? 0x0B) || (c =? 0x0C) || (c =? 0x20) || (c =? 0xA0)
  || (c =? 0x1680) || ((0x2000 <=? c) && (c <=? 0x200A))
  || (c =? 0x202F) || (c =? 0x205F) || (c =? 0x3000) || (c =? 0xFEFF).

Definition isSpace (c : char) : bool := isWhiteSpace c || isLineTerminator c.

Definition isDigit (c : char) : bool := (48 <=? c) && (c <=? 57).

Fixpoint trimStart (s : jsstring) : jsstring :=
  match s with
  | c :: s' => if isSpace c then trimStart s' else s
  | [] => []
  end.

Definition trimEnd (s : jsstring) : jsstring := rev (trimStart (rev s)).

(** [s.trim()] *)
Definition trim (s : jsstring) : jsstring := trimEnd (trimStart s).

(** [s.slice(0, n)] for a non-negative [n]. *)
Definition slice0 (n : nat) (s : jsstring) : jsstring := firstn n s.

(** [parts.join(sep)] *)
Fixpoint join (sep : jsstring) (parts : list jsstring) : jsstring :=
  match parts with
  | [] => []
  | [p] => p
  | p :: rest => p ++ sep ++ join sep rest
  end.

(** [String(n)] for an integer [n] (decimal digits, a leading minus sign for
    negative values).  The numbers of the source are doubles: [String]
    switches to exponent notation from 1e21 on, and above 2^53 - 1 not every
    integer is a double.  The model is the source on the safe integers
    ([safeInteger] below). *)
Fixpoint uint_units (u : Decimal.uint) : jsstring :=
  match u with
  | Decimal.Nil => []
  | Decimal.D0 u' => 48 :: uint_units u'
  | Decimal.D1 u' => 49 :: uint_units u'
  | Decimal.D2 u' => 50 :: uint_units u'
  | Decimal.D3 u' => 51 :: uint_units u'
  | Decimal.D4 u' => 52 :: uint_units u'
  | Decimal.D5 u' => 53 :: uint_units u'
  | Decimal.D6 u' => 54 :: uint_units u'
  | Decimal.D7 u' => 55 :: uint_units u'
  | Decimal.D8 u' => 56 :: uint_units u'
  | Decimal.D9 u' => 57 :: uint_units u'
  end.

Definition toString (n : Z) : jsstring :=
  match Z.to_int n with
  | Decimal.Pos u => uint_units u
  | Decimal.Neg u => 45 :: uint_units u
  end.

(** The longest prefix of decimal digits, read as a number; [None] when the
    prefix is empty. *)
Fixpoint digitsPrefix (acc : option Z) (s : jsstring) : option Z :=
  match s with
  | c :: s' =>
      if isDigit c
      then digitsPrefix (Some (10 * match acc with Some a => a | None => 0 end
                               + (c - 48))) s'
      else acc
  | [] => acc
  end.

(** [parseInt(s, 10)]: leading blanks are skipped, one sign is accepted, the
    longest digit prefix is read; [None] stands for [NaN].  The source
    returns a double, rounded when the digits name a number above 2^53 - 1;
    the model is the source when they name a safe integer. *)
Definition parseInt (s : jsstring) : option Z :=
  match trimStart s with
  | c :: s' =>
      if c =? 45 then option_map Z.opp (digitsPrefix None s')
      else if c =? 43 then digitsPrefix None s'
      else digitsPrefix None (c :: s')
  | [] => None
  end.

(** [Number.MAX_SAFE_INTEGER], 2^53 - 1, and the integers every step of the
    source computes without rounding. *)
Definition MAX_SAFE_INTEGER : Z := 9007199254740991.

Definition safeInteger (n : Z) : bool :=
  (- MAX_SAFE_INTEGER <=? n) && (n <=? MAX_SAFE_INTEGER).

Definition optSafeInteger (m : option Z) : bool :=
  match m with Some k => safeInteger k | None => true end.

(** Truthiness of an optional string ([undefined] and [''] are falsy). *)
Definition truthy (o : option jsstring) : bool :=
  match o with
  | Some (_ :: _) => true
  | _ => false
  end.

End JS.
Import JS.

(** ** Numeral codec ([src/utils/chinese-numerals.ts]) *)

Module Numerals.

(** Glyphs named by the source, as code units. *)
Definition zh_ling : char := 0x96F6.   (* 零 *)
Definition zh_ling2 : char := 0x3007.  (* 〇 *)
Definition zh_yi : char := 0x4E00.     (* 一 *)
Definition zh_er : char := 0x4E8C.     (* 二 *)
Definition zh_san : char := 0x4E09.    (* 三 *)
Definition zh_si : char := 0x56DB.     (* 四 *)
Definition zh_wu : char := 0x4E94.     (* 五 *)
Definition zh_liu : char := 0x516D.    (* 六 *)
Definition zh_qi : char := 0x4E03.     (* 七 *)
Definition zh_ba : char := 0x516B.     (* 八 *)
Definition zh_jiu : char := 0x4E5D.    (* 九 *)
Definition zh_shi : char := 0x5341.    (* 十 *)
Definition zh_shi2 : char := 0x62FE.   (* 拾 *)
Definition zh_bai : char := 0x767E.    (* 百 *)
Definition zh_bai2 : char := 0x4F70.   (* 佰 *)
Definition zh_qian : char := 0x5343.   (* 千 *)
Definition zh_qian2 : char := 0x4EDF.  (* 仟 *)
Definition zh_di : char := 0x7B2C.     (* 第 *)
Definition zh_tiao : char := 0x6761.   (* 条 *)
Definition zh_kuan : char := 0x6B3E.   (* 款 *)

(** [CHINESE_DIGITS]: common and formal digit glyphs. *)
Definition CHINESE_DIGITS (c : char) : option Z :=
  if (c =? zh_ling) || (c =? zh_ling2) then Some 0
  else if (c =? zh_yi) || (c =? 0x58F9) then Some 1
  else if (c =? zh_er) || (c =? 0x8D30) || (c =? 0x4E24) then Some 2
  else if (c =? zh_san) || (c =? 0x53C1) then Some 3
  else if (c =? zh_si) || (c =? 0x8086) then Some 4
  else if (c =? zh_wu) || (c =? 0x4F0D) then Some 5
  else if (c =? zh_liu) || (c =? 0x9646) then Some 6
  else if (c =? zh_qi) || (c =? 0x67D2) then Some 7
  else if (c =? zh_ba) || (c =? 0x634C) then Some 8
  else if (c =? zh_jiu) || (c =? 0x7396) then Some 9
  else None.

(** [CHINESE_MULTIPLIERS] *)
Definition CHINESE_MULTIPLIERS (c : char) : option Z :=
  if (c =? zh_shi) || (c =? zh_shi2) then Some 10
  else if (c =? zh_bai) || (c =? zh_bai2) then Some 100
  else if (c =? zh_qian) || (c =? zh_qian2) then Some 1000
  else None.

(** [ARABIC_TO_CHINESE] *)
Definition ARABIC_TO_CHINESE : list jsstring :=
  [[zh_ling]; [zh_yi]; [zh_er]; [zh_san]; [zh_si];
   [zh_wu]; [zh_liu]; [zh_qi]; [zh_ba]; [zh_jiu]].

(** The three locals of the scanning loop of [chineseToArabic]. *)
Record scan := mkScan { result : Z; currentNum : Z; lastMultiplier : Z }.

Definition scan0 : scan := mkScan 0 0 1.

(** One iteration of the [for] loop, at index [i] on glyph [c]. *)
Definition scanStep (i : Z) (c : char) (st : scan) : scan :=
  match CHINESE_DIGITS c with
  | Some d => mkScan (result st) d (lastMultiplier st)
  | None =>
      match CHINESE_MULTIPLIERS c with
      | Some multiplier =>
          if (currentNum st =? 0) && (multiplier =? 10) && (i =? 0)
          then mkScan (result st + 10) 0 multiplier
          else mkScan (result st + currentNum st * multiplier) 0 multiplier
      | None => st
      end
  end.

Fixpoint scanFrom (i : Z) (chars : jsstring) (st : scan) : scan :=
  match chars with
  | [] => st
  | c :: rest => scanFrom (i + 1) rest (scanStep i c st)
  end.

Definition chineseToArabic (chinese : jsstring) : Z :=
  let chars := trim chinese in
  match chars with
  | [] => 0
  | [c] =>
      match CHINESE_DIGITS c with
      | Some d => d
      | None => if c =? zh_shi then 10 else 0
      end
  | _ =>
      let st := scanFrom 0 chars scan0 in
      result st + currentNum st
  end.

(** [ARABIC_TO_CHINESE[d]]; the index is a decimal digit at every use. *)
Definition digitGlyph (d : Z) : jsstring := nth (Z.to_nat d) ARABIC_TO_CHINESE [].

Definition arabicToChinese (num : Z) : jsstring :=
  if (num <? 0) || (num >? 9999) then toString num
  else if num =? 0 then [zh_ling]
  else
    let thousands := num / 1000 in
    let hundreds := (num mod 1000) / 100 in
    let tens := (num mod 100) / 10 in
    let ones := num mod 10 in
    let parts1 :=
      if thousands >? 0 then [digitGlyph thousands ++ [zh_qian]] else [] in
    let parts2 :=
      if hundreds >? 0 then parts1 ++ [digitGlyph hundreds ++ [zh_bai]]
      else if (thousands >? 0) && ((tens >? 0) || (ones >? 0))
           then parts1 ++ [[zh_ling]]
           else parts1 in
    let parts3 :=
      if tens >? 0 then
        if (tens =? 1) && (thousands =? 0) && (hundreds =? 0)
        then parts2 ++ [[zh_shi]]
        else parts2 ++ [digitGlyph tens ++ [zh_shi]]
      else if (hundreds >? 0) && (ones >? 0)
           then parts2 ++ [[zh_ling]]
           else parts2 in
    let parts4 :=
      if ones >? 0 then parts3 ++ [digitGlyph ones] else parts3 in
    join [] parts4.

(** [buildChineseRef(article, paragraph)]; [None] is an absent paragraph. *)
Definition buildChineseRef (article : Z) (paragraph : option Z) : jsstring :=
  let ref := [zh_di] ++ arabicToChinese article ++ [zh_tiao] in
  match paragraph with
  | Some p =>
      if p >? 0 then ref ++ [zh_di] ++ arabicToChinese p ++ [zh_kuan] else ref
  | None => ref
  end.

(** Reading a string "with the unrecognised glyphs ignored": a glyph is
    recognised when one of the two tables has it. *)
Definition recognised (c : char) : bool :=
  match CHINESE_DIGITS c, CHINESE_MULTIPLIERS c with
  | None, None => false
  | _, _ => true
  end.

Definition dropUnrecognised (s : jsstring) : jsstring := filter recognised s.

Definition isTen (c : char) : bool :=
  match CHINESE_MULTIPLIERS c with
  | Some m => m =? 10
  | None => false
  end.

(** The leading-ten rule of the loop tests the index [i === 0].  It reads the
    same before and after dropping unrecognised glyphs when the first
    recognised glyph is no ten multiplier, or when the string starts with
    the common ten glyph. *)
Definition leadingTenStable (t : jsstring) : bool :=
  match dropUnrecognised t with
  | [] => true
  | c :: _ =>
      negb (isTen c) || match t with x :: _ => x =? zh_shi | [] => false end
  end.

(** What [chineseToArabic] does once the input is trimmed. *)
Definition readTrimmed (chars : jsstring) : Z :=
  match chars with
  | [] => 0
  | [c] =>
      match CHINESE_DIGITS c with
      | Some d => d
      | None => if c =? zh_shi then 10 else 0
      end
  | _ => let st := scanFrom 0 chars scan0 in result st + currentNum st
  end.

Definition scanAll (chars : jsstring) : Z :=
  let st := scanFrom 0 chars scan0 in result st + currentNum st.

(** The supported range 1..9999 and the round-trip test at one value. *)
Definition codecRange : list Z := map Z.of_nat (seq 1 (Z.to_nat 9999)).

Definition roundTripsAt (n : Z) : bool :=
  chineseToArabic (arabicToChinese n) =? n.

End Numerals.
Import Numerals.

(** ** Deduplication and merge ([scripts/build-db.ts]) *)

Module Dedup.

(** [interface ProvisionSeed]; optional fields are options. *)
Record ProvisionSeed := mkProvision {
  provision_ref : jsstring;
  chapter : option jsstring;
  section : jsstring;
  title : option jsstring;
  content : jsstring;
  language : option jsstring;
  metadata : option jsstring
}.

Record ProvisionDedupStats := mkStats {
  duplicate_refs : Z;
  conflicting_duplicates : Z
}.

(** [text.replace(/\s+/g, ' ')]: every maximal run of blanks becomes one
    space; [inRun] tells that the previous unit was a blank. *)
Fixpoint collapseBlanks (inRun : bool) (text : jsstring) : jsstring :=
  match text with
  | [] => []
  | c :: rest =>
      if isSpace c
      then if inRun then collapseBlanks true rest
           else 32 :: collapseBlanks true rest
      else c :: collapseBlanks false rest
  end.

Definition normalizeWhitespace (text : jsstring) : jsstring :=
  trim (collapseBlanks false text).

(** [a ?? b] on optional values. *)
Definition nullish {A : Type} (a b : option A) : option A :=
  match a with
  | Some x => Some x
  | None => b
  end.

Definition withTitle (p : ProvisionSeed) (t : option jsstring) : ProvisionSeed :=
  mkProvision (provision_ref p) (chapter p) (section p) t
              (content p) (language p) (metadata p).

Definition withRef (p : ProvisionSeed) (r : jsstring) : ProvisionSeed :=
  mkProvision r (chapter p) (section p) (title p)
              (content p) (language p) (metadata p).

Definition pickPreferredProvision (existing incoming : ProvisionSeed) : ProvisionSeed :=
  let existingContent := normalizeWhitespace (content existing) in
  let incomingContent := normalizeWhitespace (content incoming) in
  if (length existingContent <? length incomingContent)%nat
  then withTitle incoming (nullish (title incoming) (title existing))
  else withTitle existing (nullish (title existing) (title incoming)).

(** A JavaScript [Map] with string keys: entries in insertion order;
    [set] on a present key replaces the value where it stands. *)
Definition jsmap := list (jsstring * ProvisionSeed).

Fixpoint mapGet (k : jsstring) (m : jsmap) : option ProvisionSeed :=
  match m with
  | [] => None
  | (k', v) :: m' => if str_eqb k k' then Some v else mapGet k m'
  end.

Fixpoint mapSet (k : jsstring) (v : ProvisionSeed) (m : jsmap) : jsmap :=
  match m with
  | [] => [(k, v)]
  | (k', v') :: m' =>
      if str_eqb k k' then (k, v) :: m' else (k', v') :: mapSet k v m'
  end.

Definition mapValues (m : jsmap) : list ProvisionSeed := map snd m.

Definition zh : jsstring := lit "zh".

(** The grouping key [`${provision_ref}:${language ?? 'zh'}`]. *)
Definition keyOf (p : ProvisionSeed) : jsstring :=
  provision_ref p ++ lit ":" ++ match language p with Some l => l | None => zh end.

(** One iteration of the loop of [dedupeProvisions]. *)
Definition dedupeStep (st : jsmap * ProvisionDedupStats) (provision : ProvisionSeed)
  : jsmap * ProvisionDedupStats :=
  let (byRef, stats) := st in
  let key := keyOf provision in
  match mapGet key byRef with
  | None =>
      (mapSet key (withRef provision (trim (provision_ref provision))) byRef, stats)
  | Some existing =>
      let existingContent := normalizeWhitespace (content existing) in
      let incomingContent := normalizeWhitespace (content provision) in
      let stats' :=
        mkStats (duplicate_refs stats + 1)
                (if str_eqb existingContent incomingContent
                 then conflicting_duplicates stats
                 else conflicting_duplicates stats + 1) in
      (mapSet key (pickPreferredProvision existing provision) byRef, stats')
  end.

Definition dedupeProvisions (provisions : list ProvisionSeed)
  : list ProvisionSeed * ProvisionDedupStats :=
  let (byRef, stats) := fold_left dedupeStep provisions ([], mkStats 0 0) in
  (mapValues byRef, stats).

Definition deduped (provisions : list ProvisionSeed) : list ProvisionSeed :=
  fst (dedupeProvisions provisions).

(** A title that is "empty" in the sense of the specification: absent or
    the empty string. *)
Definition emptyTitle (t : option jsstring) : bool := negb (truthy t).

(** Which of the two candidates the merge retains. *)
Inductive side := Existing | Incoming.

Definition winner (existing incoming : ProvisionSeed) : side :=
  if (length (normalizeWhitespace (content existing))
      <? length (normalizeWhitespace (content incoming)))%nat
  then Incoming else Existing.

(** A plain seed: only reference, content and title vary. *)
Definition seed (ref : jsstring) (t : option jsstring) (c : jsstring) : ProvisionSeed :=
  mkProvision ref None ref t c None None.

(** Where every reference is already trimmed the second pass changes
    nothing: the entries of the map carry pairwise different keys, each the
    key of its own value. *)
Definition keyed (m : jsmap) : Prop :=
  NoDup (map fst m) /\
  Forall (fun kv => keyOf (snd kv) = fst kv /\
                    trim (provision_ref (snd kv)) = provision_ref (snd kv)) m.

End Dedup.

(** ** Rate-limited fetcher ([scripts/lib/fetcher.ts]) *)

Module Fetcher.

Record FetchResult := mkFetchResult {
  status : Z;
  body : jsstring;
  contentType : jsstring
}.

(** What one call of [fetch] does: it resolves to a response, or it rejects
    (transport failure, abort on timeout). *)
Inductive outcome :=
| Response (r : FetchResult)
| Rejected (error : jsstring).

(** How the promise returned by [fetchWithRateLimit] settles. *)
Inductive completion :=
| Returned (r : FetchResult)
| Thrown (error : jsstring).

(** The observable run: the completion, the number of calls of [fetch] and
    the backoff delays slept, in milliseconds. *)
Record run := mkRun {
  settled : completion;
  attempts : nat;
  backoffs : list Z
}.

Definition backoffMs (attempt : nat) : Z := 2 ^ (Z.of_nat attempt + 1) * 1000.

Definition retryable (st : Z) : bool := (st =? 429) || (500 <=? st).

(** The [for (attempt = 0; attempt <= maxRetries; attempt++)] loop; [net k]
    is the outcome of the call of [fetch] made by attempt [k]; [fuel] counts
    the iterations left, [maxRetries + 1 - attempt].  Running out of
    iterations reaches the [throw] behind the loop.  The rate limiter's wall
    clock, run once before the loop, is outside the model. *)
Fixpoint attemptLoop (net : nat -> outcome) (url : jsstring) (maxRetries : nat)
         (fuel attempt : nat) (slept : list Z) : run :=
  match fuel with
  | O =>
      mkRun (Thrown (lit "Failed to fetch " ++ url ++ lit " after "
                     ++ toString (Z.of_nat maxRetries) ++ lit " retries"))
            attempt slept
  | S fuel' =>
      match net attempt with
      | Response r =>
          if retryable (status r) && (attempt <? maxRetries)%nat
          then attemptLoop net url maxRetries fuel' (S attempt)
                           (slept ++ [backoffMs attempt])
          else mkRun (Returned r) (S attempt) slept
      | Rejected error =>
          if (attempt <? maxRetries)%nat
          then attemptLoop net url maxRetries fuel' (S attempt)
                           (slept ++ [backoffMs attempt])
          else mkRun (Thrown error) (S attempt) slept
      end
  end.

Definition fetchWithRateLimit (net : nat -> outcome) (url : jsstring)
           (maxRetries : nat) : run :=
  attemptLoop net url maxRetries (S maxRetries) 0 [].

(** A network that answers attempt [k] with the [k]-th response of a list
    and rejects afterwards. *)
Definition scripted (responses : list FetchResult) : nat -> outcome :=
  fun k => match nth_error responses k with
           | Some r => Response r
           | None => Rejected (lit "network down")
           end.

Definition isThrown (c : completion) : bool :=
  match c with Thrown _ => true | Returned _ => false end.

End Fetcher.

(** ** Regular expressions

    The fragment of ECMAScript regular expressions the sources use, with the
    backtracking semantics of the language: [run] lists the ways a pattern
    can match at the current position, in the order the engine tries them,
    so that the head of the list is the match the engine reports.
    Quantifiers occur in the sources on single-character atoms ([Rep]) and
    as [?] on groups ([Opt]) only. *)

Module Regex.

Definition captures := list (nat * jsstring).

(** The text captured by group [n]; [None] is [undefined]. *)
Fixpoint group (n : nat) (c : captures) : option jsstring :=
  match c with
  | [] => None
  | (k, v) :: c' => if (k =? n)%nat then Some v else group n c'
  end.

Inductive re :=
| Eps
| Bol                                   (* ^ *)
| Eol                                   (* $ *)
| WordB                                 (* \b *)
| Cls (p : char -> bool)                (* one code unit of a class *)
| Rep (greedy : bool) (lo : nat) (hi : option nat) (p : char -> bool)
                                        (* class{lo,hi}, greedy or lazy *)
| Opt (r : re)                          (* r? *)
| Seq (a b : re)
| Alt (a b : re)
| Grp (n : nat) (r : re).               (* capturing group number n *)

(** One way to match: the text matched, the text left, the captures. *)
Definition result := (jsstring * jsstring * captures)%type.

(** The code unit before the current position, after matching [m]. *)
Definition lastp (prev : option char) (m : jsstring) : option char :=
  fold_left (fun _ c => Some c) m prev.

Fixpoint spanLen (p : char -> bool) (s : jsstring) : nat :=
  match s with
  | x :: s' => if p x then S (spanLen p s') else O
  | [] => O
  end.

(** The repetition counts a quantifier tries when [k] units in a row
    satisfy the class: downwards for a greedy one, upwards for a lazy one. *)
Definition counts (greedy : bool) (lo : nat) (hi : option nat) (k : nat) : list nat :=
  let k' := match hi with Some h => Nat.min h k | None => k end in
  let asc := seq lo (S k' - lo) in
  if greedy then rev asc else asc.

Definition isLower (c : char) : bool := (97 <=? c) && (c <=? 122).
Definition isUpper (c : char) : bool := (65 <=? c) && (c <=? 90).
Definition isAlpha (c : char) : bool := isLower c || isUpper c.
(** [\w] *)
Definition isWord (c : char) : bool := isAlpha c || isDigit c || (c =? 95).
(** [.] *)
Definition isDot (c : char) : bool := negb (isLineTerminator c).

Definition isNil (m : jsstring) : bool :=
  match m with [] => true | _ => false end.

Definition seqResult (m1 : jsstring) (r : result) : result :=
  let '(m2, s2, c2) := r in (m1 ++ m2, s2, c2).

Definition grpResult (n : nat) (r : result) : result :=
  let '(m, s', c') := r in (m, s', (n, m) :: c').

Definition nonEmpty (r : result) : bool :=
  let '(m, _, _) := r in negb (isNil m).

Fixpoint run (r : re) (prev : option char) (s : jsstring) (c : captures)
  : list result :=
  match r with
  | Eps => [([], s, c)]
  | Bol => match prev with None => [([], s, c)] | Some _ => [] end
  | Eol => match s with [] => [([], s, c)] | _ :: _ => [] end
  | WordB =>
      let a := match prev with Some x => isWord x | None => false end in
      let b := match s with x :: _ => isWord x | [] => false end in
      if xorb a b then [([], s, c)] else []
  | Cls p =>
      match s with
      | x :: s' => if p x then [([x], s', c)] else []
      | [] => []
      end
  | Rep g lo hi p =>
      map (fun i => (firstn i s, skipn i s, c)) (counts g lo hi (spanLen p s))
  | Opt r' =>
      (* an iteration that matches the empty string is rejected *)
      filter nonEmpty (run r' prev s c) ++ [([], s, c)]
  | Seq a b =>
      flat_map (fun r1 => let '(m1, s1, c1) := r1 in
                          map (seqResult m1) (run b (lastp prev m1) s1 c1))
               (run a prev s c)
  | Alt a b => run a prev s c ++ run b prev s c
  | Grp n r' => map (grpResult n) (run r' prev s c)
  end.

(** A match as [RegExp.prototype.exec] reports it. *)
Record found := mkFound {
  index : nat;
  matched : jsstring;
  after : jsstring;
  caps : captures
}.

(** The engine tries the start positions from left to right. *)
Fixpoint execFrom (r : re) (prev : option char) (s : jsstring) (idx : nat)
  : option found :=
  match run r prev s [] with
  | (m, rest, c) :: _ => Some (mkFound idx m rest c)
  | [] =>
      match s with
      | [] => None
      | x :: s' => execFrom r (Some x) s' (S idx)
      end
  end.

(** [s.match(r)] for a pattern without the [g] flag. *)
Definition exec (r : re) (s : jsstring) : option found := execFrom r None s O.

(** [r.test(s)] *)
Definition test (r : re) (s : jsstring) : bool :=
  match exec r s with Some _ => true | None => false end.

(** [s.replace(r, repl)] for a pattern without the [g] flag. *)
Definition replace (r : re) (repl : jsstring) (s : jsstring) : jsstring :=
  match exec r s with
  | Some f => firstn (index f) s ++ repl ++ after f
  | None => s
  end.

(** Pattern syntax. *)
Definition seqs (rs : list re) : re := fold_right Seq Eps rs.

Definition chr (c : char) : re := Cls (Z.eqb c).

Definition lower (c : char) : char := if isUpper c then c + 32 else c.

(** A literal under the [i] flag: outside ASCII nothing folds onto an ASCII
    letter (the engine compares single code units after upper-casing and
    never maps a unit above 127 into ASCII). *)
Definition chri (c : char) : re := Cls (fun x => lower x =? lower c).

Definition str (s : jsstring) : re := seqs (map chr s).
Definition stri (s : jsstring) : re := seqs (map chri s).

Definition star (p : char -> bool) : re := Rep true 0 None p.
Definition plus (p : char -> bool) : re := Rep true 1 None p.
Definition lazyPlus (p : char -> bool) : re := Rep false 1 None p.

(** The capturing groups of a pattern. *)
Fixpoint groupsOf (r : re) : list nat :=
  match r with
  | Opt r' => groupsOf r'
  | Seq a b | Alt a b => groupsOf a ++ groupsOf b
  | Grp n r' => n :: groupsOf r'
  | _ => []
  end.

(** Patterns without assertions on what comes before the position. *)
Fixpoint contextFree (r : re) : bool :=
  match r with
  | Bol | WordB => false
  | Opt r' | Grp _ r' => contextFree r'
  | Seq a b | Alt a b => contextFree a && contextFree b
  | _ => true
  end.

(** What a way to match consumes and leaves, captures apart. *)
Definition shape (l : list result) : list (list Z * list Z) :=
  map (fun r => (fst (fst r), snd (fst r))) l.

(** A property of the captures of the match the engine reports. *)
Definition firstCaps (l : list result) (Q : captures -> Prop) : Prop :=
  match l with
  | (_, _, c) :: _ => Q c
  | [] => False
  end.

(** The string is empty or starts with a unit outside the class. *)
Definition stopsAt (p : Z -> bool) (s : list Z) : bool :=
  match s with
  | x :: _ => negb (p x)
  | [] => true
  end.

Definition noMatch (l : list result) : bool :=
  match l with [] => true | _ :: _ => false end.

(** A literal and a text agree unit by unit, letter case apart. *)
Fixpoint ciMatch (w w' : list Z) : bool :=
  match w, w' with
  | [], [] => true
  | c :: w1, x :: w1' => (lower x =? lower c) && ciMatch w1 w1'
  | _, _ => false
  end.

End Regex.
Import Regex.

(** ** Citation resolver ([src/citation/formatter.ts], [src/citation/parser.ts]) *)

Module Citation.

Inductive CitationFormat := full | short | pinpoint | chinese | english.

Inductive CitationType := statute | administrative_regulation | unknown.

(** [interface ParsedCitation]; optional fields are options. *)
Record ParsedCitation := mkCitation {
  valid : bool;
  type : CitationType;
  title : option jsstring;
  title_en : option jsstring;
  article : option jsstring;
  paragraph : option jsstring;
  error : option jsstring
}.

Definition orEmpty (o : option jsstring) : jsstring :=
  match o with Some s => s | None => [] end.

Definition nullish (a b : option jsstring) : option jsstring :=
  match a with Some x => Some x | None => b end.

(** [/,\s*$/] *)
Definition TRAILING_COMMA : re := seqs [chr 44; star isSpace; Eol].

(** ["Article N" / "Art. N"], with the paragraph when it is truthy. *)
Definition refText (art para : jsstring) (parsed : ParsedCitation) : jsstring :=
  let ref := art ++ orEmpty (article parsed) in
  if truthy (paragraph parsed) then ref ++ para ++ orEmpty (paragraph parsed) else ref.

(** [formatCitation(parsed, format)].  [parseInt] yielding [NaN] is [None];
    for the paragraph an absent value and [NaN] behave alike, since
    [buildChineseRef] only prints a paragraph that is greater than 0. *)
Definition formatCitation (parsed : ParsedCitation) (format : CitationFormat) : jsstring :=
  if negb (valid parsed) || negb (truthy (article parsed)) then []
  else
    let articleNum := parseInt (orEmpty (article parsed)) in
    let paragraphNum :=
      if truthy (paragraph parsed) then parseInt (orEmpty (paragraph parsed))
      else None in
    let title := orEmpty (nullish (title parsed) (title_en parsed)) in
    match format with
    | chinese =>
        let ref := buildChineseRef (match articleNum with Some n => n | None => 0 end)
                                   paragraphNum in
        trim (ref ++ lit " " ++ title)
    | english =>
        let ref := refText (lit "Article ") (lit ", Paragraph ") parsed in
        let name := orEmpty (nullish (title_en parsed) (Some title)) in
        replace TRAILING_COMMA [] (trim (ref ++ lit ", " ++ name))
    | full =>
        let ref := refText (lit "Article ") (lit ", Paragraph ") parsed in
        replace TRAILING_COMMA [] (trim (ref ++ lit ", " ++ title))
    | short =>
        let ref := refText (lit "Art. ") (lit ", Para. ") parsed in
        trim (ref ++ lit " " ++ title)
    | pinpoint =>
        refText (lit "Art. ") (lit ", Para. ") parsed
    end.

(** Glyphs of the patterns. *)
Definition zh_fa : char := 0x6CD5.      (* 法 *)
Definition zh_dian : char := 0x5178.    (* 典 *)
Definition zh_li : char := 0x4F8B.      (* 例 *)
Definition zh_comma : char := 0xFF0C.   (* ， *)
(** 中华人民共和国 *)
Definition zh_prc : jsstring :=
  [0x4E2D; 0x534E; 0x4EBA; 0x6C11; 0x5171; 0x548C; 0x56FD].

Definition isComma (c : char) : bool := (c =? 44) || (c =? zh_comma).
Definition isWordOrDash (c : char) : bool := isWord c || (c =? 45).

(** [(?:法|典|条例)] *)
Definition LAW_SUFFIX : re :=
  Alt (chr zh_fa) (Alt (chr zh_dian) (str [zh_tiao; zh_li])).

(** [/第(.+?)条/] of [extractArticleNumber]. *)
Definition ARTICLE_REF : re :=
  seqs [chr zh_di; Grp 1 (lazyPlus isDot); chr zh_tiao].

(** [(?:第(.+?)款)], the optional paragraph of the Chinese patterns, with
    its group number. *)
Definition CHINESE_PARAGRAPH (n : nat) : re :=
  seqs [chr zh_di; Grp n (lazyPlus isDot); chr zh_kuan].

(** [^第(.+?)条(?:第(.+?)款)?\s*[,，]?\s*(?:中华人民共和国)?(.+?)(?:法|典|条例)$] *)
Definition CHINESE_CITATION : re :=
  seqs [Bol; chr zh_di; Grp 1 (lazyPlus isDot); chr zh_tiao;
        Opt (CHINESE_PARAGRAPH 2);
        star isSpace; Opt (Cls isComma); star isSpace;
        Opt (str zh_prc); Grp 3 (lazyPlus isDot); LAW_SUFFIX; Eol].

(** [^(?:中华人民共和国)?(.+?(?:法|典|条例))\s*[,，]?\s*第(.+?)条(?:第(.+?)款)?$] *)
Definition CHINESE_LAW_FIRST : re :=
  seqs [Bol; Opt (str zh_prc); Grp 1 (seqs [lazyPlus isDot; LAW_SUFFIX]);
        star isSpace; Opt (Cls isComma); star isSpace;
        chr zh_di; Grp 2 (lazyPlus isDot); chr zh_tiao;
        Opt (CHINESE_PARAGRAPH 3); Eol].

(** [(?:\s*,?\s*Paragraph\s+(\d+))], the optional paragraph of the English
    patterns. *)
Definition ENGLISH_PARAGRAPH : re :=
  seqs [star isSpace; Opt (chr 44); star isSpace;
        stri (lit "Paragraph"); plus isSpace; Grp 2 (plus isDigit)].

(** [^Article\s+(\d+)(?:\s*,?\s*Paragraph\s+(\d+))?\s*,?\s+(.+?)$] with [i] *)
Definition ENGLISH_CITATION : re :=
  seqs [Bol; stri (lit "Article"); plus isSpace; Grp 1 (plus isDigit);
        Opt ENGLISH_PARAGRAPH;
        star isSpace; Opt (chr 44); plus isSpace; Grp 3 (lazyPlus isDot); Eol].

(** [(?:\s*,?\s* P? (\d+))] with [P] = [(?:Para?\.?\s* )], the optional
    paragraph of the short pattern; the blanks around [P] are not part of
    the pattern. *)
Definition SHORT_PARAGRAPH : re :=
  seqs [star isSpace; Opt (chr 44); star isSpace;
        Opt (seqs [stri (lit "Par"); Opt (chri 97); Opt (chr 46); star isSpace]);
        Grp 2 (plus isDigit)].

(** [^Art\.?\s*(\d+) G? \s*,?\s+(.+?)(?:\s+(\d{4}))?$] with [i], where [G] is
    the optional paragraph above. *)
Definition SHORT_CITATION : re :=
  seqs [Bol; stri (lit "Art"); Opt (chr 46); star isSpace; Grp 1 (plus isDigit);
        Opt SHORT_PARAGRAPH;
        star isSpace; Opt (chr 44); plus isSpace; Grp 3 (lazyPlus isDot);
        Opt (seqs [plus isSpace; Grp 4 (Rep true 4 (Some 4%nat) isDigit)]); Eol].

(** [^([a-z][\w-]+(?:-\d{4})?)\s*,?\s*(?:art\.?|article)\s*(\d+)
     (?:\s*,?\s*(?:para?\.?|paragraph)\s*(\d+))?$] with [i] *)
Definition ID_CITATION : re :=
  seqs [Bol;
        Grp 1 (seqs [Cls isAlpha; plus isWordOrDash;
                     Opt (seqs [chr 45; Rep true 4 (Some 4%nat) isDigit])]);
        star isSpace; Opt (chr 44); star isSpace;
        Alt (seqs [stri (lit "art"); Opt (chr 46)]) (stri (lit "article"));
        star isSpace; Grp 2 (plus isDigit);
        Opt (seqs [star isSpace; Opt (chr 44); star isSpace;
                   Alt (seqs [stri (lit "par"); Opt (chri 97); Opt (chr 46)])
                       (stri (lit "paragraph"));
                   star isSpace; Grp 3 (plus isDigit)]);
        Eol].

(** [^第(.+?)条(?:第(.+?)款)?$] *)
Definition BARE_CHINESE_ARTICLE : re :=
  seqs [Bol; chr zh_di; Grp 1 (lazyPlus isDot); chr zh_tiao;
        Opt (CHINESE_PARAGRAPH 2); Eol].

(** [^Article\s+(\d+)(?:\s*,?\s*Paragraph\s+(\d+))?$] with [i] *)
Definition BARE_ENGLISH_ARTICLE : re :=
  seqs [Bol; stri (lit "Article"); plus isSpace; Grp 1 (plus isDigit);
        Opt ENGLISH_PARAGRAPH; Eol].

(** [(?:法|典|条例)$] *)
Definition SUFFIX_AT_END : re := seqs [LAW_SUFFIX; Eol].

(** [extractArticleNumber(ref)]; [None] is [null]. *)
Definition extractArticleNumber (ref : jsstring) : option Z :=
  match exec ARTICLE_REF ref with
  | None => None
  | Some m =>
      let numStr := trim (orEmpty (group 1 (caps m))) in
      match parseInt numStr with
      | Some arabicNum => Some arabicNum
      | None => Some (chineseToArabic numStr)
      end
  end.

(** [parseChineseNumber(numStr)] *)
Definition parseChineseNumber (numStr : jsstring) : option Z :=
  match parseInt numStr with
  | Some arabic => Some arabic
  | None => extractArticleNumber ([zh_di] ++ numStr ++ [zh_tiao])
  end.

(** [x || undefined] *)
Definition orUndefined (o : option jsstring) : option jsstring :=
  if truthy o then o else None.

(** [match[2] ? parseChineseNumber(match[2]) : undefined], then
    [paragraph != null ? String(paragraph) : undefined]. *)
Definition chineseParagraph (g : option jsstring) : option jsstring :=
  if truthy g then option_map toString (parseChineseNumber (orEmpty g)) else None.

(** [article != null ? String(article) : match[k]] *)
Definition chineseArticle (g : option jsstring) : option jsstring :=
  match parseChineseNumber (orEmpty g) with
  | Some n => Some (toString n)
  | None => g
  end.

Definition parseError (trimmed : jsstring) : jsstring :=
  lit "Could not parse Chinese law citation: " ++ [34] ++ trimmed ++ [34].

Definition parseCitation (citation : jsstring) : ParsedCitation :=
  let trimmed := trim citation in
  match exec ID_CITATION trimmed with
  | Some m =>
      mkCitation true statute (group 1 (caps m)) None (group 2 (caps m))
                 (orUndefined (group 3 (caps m))) None
  | None =>
  match exec CHINESE_CITATION trimmed with
  | Some m =>
      let lawName :=
        trim (orEmpty (group 3 (caps m)))
        ++ match exec SUFFIX_AT_END trimmed with
           | Some f => matched f
           | None => lit "undefined"
           end in
      mkCitation true statute (Some lawName) None
                 (chineseArticle (group 1 (caps m)))
                 (chineseParagraph (group 2 (caps m))) None
  | None =>
  match exec CHINESE_LAW_FIRST trimmed with
  | Some m =>
      mkCitation true statute (Some (trim (orEmpty (group 1 (caps m))))) None
                 (chineseArticle (group 2 (caps m)))
                 (chineseParagraph (group 3 (caps m))) None
  | None =>
  match exec ENGLISH_CITATION trimmed with
  | Some m =>
      mkCitation true statute None (Some (trim (orEmpty (group 3 (caps m)))))
                 (group 1 (caps m)) (orUndefined (group 2 (caps m))) None
  | None =>
  match exec SHORT_CITATION trimmed with
  | Some m =>
      mkCitation true statute (Some (trim (orEmpty (group 3 (caps m))))) None
                 (group 1 (caps m)) (orUndefined (group 2 (caps m))) None
  | None =>
  match exec BARE_CHINESE_ARTICLE trimmed with
  | Some m =>
      mkCitation true statute None None
                 (chineseArticle (group 1 (caps m)))
                 (chineseParagraph (group 2 (caps m))) None
  | None =>
  match exec BARE_ENGLISH_ARTICLE trimmed with
  | Some m =>
      mkCitation true statute None None
                 (group 1 (caps m)) (orUndefined (group 2 (caps m))) None
  | None =>
      mkCitation false unknown None None None None (Some (parseError trimmed))
  end end end end end end end.

(** The seven surface-syntax patterns, in the order they are tried. *)
Definition PATTERNS : list re :=
  [ID_CITATION; CHINESE_CITATION; CHINESE_LAW_FIRST; ENGLISH_CITATION;
   SHORT_CITATION; BARE_CHINESE_ARTICLE; BARE_ENGLISH_ARTICLE].

(** *** What the round trip needs of a citation

    The texts [formatCitation] prints for a citation with article [a],
    optional paragraph [po] and title [t], piece by piece. *)
Definition englishText (a : list Z) (po : option (list Z)) (t : list Z) : list Z :=
  lit "Article" ++ [32] ++ a ++
  match po with
  | Some p => [44] ++ [32] ++ lit "Paragraph" ++ [32] ++ p ++ [44] ++ [32] ++ t
  | None => [44] ++ [32] ++ t
  end.

Definition shortText (a : list Z) (po : option (list Z)) (t : list Z) : list Z :=
  lit "Art" ++ [46] ++ [32] ++ a ++
  match po with
  | Some p => [44] ++ [32] ++ lit "Par" ++ [97] ++ [46] ++ [32] ++ p ++ [32] ++ t
  | None => [32] ++ t
  end.

Definition chineseText (na : list Z) (npo : option (list Z)) (t : list Z) : list Z :=
  [zh_di] ++ na ++ zh_tiao ::
  match npo with
  | Some np => [zh_di] ++ np ++ zh_kuan :: [32] ++ t
  | None => [32] ++ t
  end.

(** A title without blanks at its ends and without line terminators. *)
Definition plainTitle (t : list Z) : bool :=
  match t with
  | [] => false
  | x :: _ => negb (isSpace x) && negb (isSpace (last t 0)) && forallb isDot t
  end.

(** The statute suffix a title ends in, with something in front of it. *)
Definition lawSuffixOf (t : list Z) : option (list Z) :=
  match rev t with
  | x :: y :: r =>
      if (x =? zh_fa) || (x =? zh_dian) then Some [x]
      else if (x =? zh_li) && (y =? zh_tiao) && negb (isNil r) then Some [y; x]
      else None
  | _ => None
  end.

Definition inCodecRange (n : Z) : bool := (1 <=? n) && (n <=? 9999).

Definition optInCodecRange (m : option Z) : bool :=
  match m with Some k => inCodecRange k | None => true end.

Definition hasValue {A : Type} (o : option A) : bool :=
  match o with Some _ => true | None => false end.

(** The title a style prints. *)
Definition printedName (parsed : ParsedCitation) (format : CitationFormat) : list Z :=
  let title := orEmpty (nullish (title parsed) (title_en parsed)) in
  match format with
  | english => orEmpty (nullish (title_en parsed) (Some title))
  | _ => title
  end.

(** The titles for which the printed text reads back: plain; for the
    Chinese style ending in a statute suffix, which the Chinese pattern
    asks for; for the other styles free of the article glyph 第 (or the
    law-name-first pattern could claim the text), and, when the citation has
    no paragraph, not opening with text that the optional paragraph part of
    the pattern takes for a paragraph number; for the English styles not
    ending in a comma, which the formatter would strip. *)
Definition roundTripTitle (format : CitationFormat) (hasParagraph : bool)
           (name : list Z) : bool :=
  plainTitle name &&
  match format with
  | chinese => hasValue (lawSuffixOf name)
  | english | full =>
      negb (last name 0 =? 44) && negb (existsb (Z.eqb zh_di) name)
      && (hasParagraph
          || noMatch (run ENGLISH_PARAGRAPH None ([44] ++ [32] ++ name) []))
  | short =>
      negb (existsb (Z.eqb zh_di) name)
      && (hasParagraph || noMatch (run SHORT_PARAGRAPH None ([32] ++ name) []))
  | pinpoint => false
  end.

(** A first unit with which no title is taken for a paragraph number: no
    blank, no digit, no comma, neither p nor P. *)
Definition ordinaryStart (t : list Z) : bool :=
  match t with
  | x :: _ =>
      negb (isSpace x) && negb (isDigit x) && negb (x =? 44)
      && negb (lower x =? 112)
  | [] => false
  end.

(** A Chinese law title, 网络安全法. *)
Definition csl_title : list Z := [0x7F51; 0x7EDC; 0x5B89; 0x5168; zh_fa].

(** What the round trip uses of a number of the codec range: its numeral is
    non-empty, holds neither line terminators nor the article and paragraph
    glyphs nor blanks, is no number to [parseInt] and reads back as the
    number; its decimal form is a non-empty digit string that [parseInt]
    reads back. *)
Definition numeralFacts (n : Z) : bool :=
  let na := arabicToChinese n in
  let a := toString n in
  negb (isNil na) && forallb isDot na
  && negb (existsb (Z.eqb zh_tiao) na) && negb (existsb (Z.eqb zh_kuan) na)
  && negb (hasValue (parseInt na)) && (chineseToArabic na =? n)
  && str_eqb (trim na) na
  && negb (isNil a) && forallb isDigit a
  && match parseInt a with Some k => k =? n | None => false end.

End Citation.

(** ** Provision extractor ([scripts/lib/parser.ts]) *)

Module Extractor.

Record ParsedProvision := mkParsed {
  provision_ref : jsstring;
  section : jsstring;
  title : jsstring;
  content : jsstring;
  language : jsstring
}.

Inductive LawType := statute | administrative_regulation.
Inductive LawStatus := in_force | amended.

Record ParsedLaw := mkLaw {
  id : jsstring;
  type : LawType;
  law_title : jsstring;
  title_en : jsstring;
  short_name : jsstring;
  status : LawStatus;
  issued_date : jsstring;
  in_force_date : jsstring;
  url : jsstring;
  provisions : list ParsedProvision;
  law_language : jsstring
}.

(** [[\s　]]; U+3000 is a blank already. *)
Definition isBlank (c : char) : bool := isSpace c || (c =? 0x3000).

(** [[一二三四五六七八九十百千零〇\d]] *)
Definition isNumeralGlyph (c : char) : bool :=
  (c =? zh_yi) || (c =? zh_er) || (c =? zh_san) || (c =? zh_si) || (c =? zh_wu)
  || (c =? zh_liu) || (c =? zh_qi) || (c =? zh_ba) || (c =? zh_jiu)
  || (c =? zh_shi) || (c =? zh_bai) || (c =? zh_qian)
  || (c =? zh_ling) || (c =? zh_ling2) || isDigit c.

(** [[章节编]] *)
Definition isHeadingUnit (c : char) : bool :=
  (c =? 0x7AE0) || (c =? 0x8282) || (c =? 0x7F16).

(** [/^[\s　]*第([一二三四五六七八九十百千零〇\d]+)条[\s　]*/] *)
Definition ARTICLE_PATTERN : re :=
  seqs [Bol; star isBlank; chr zh_di; Grp 1 (plus isNumeralGlyph); chr zh_tiao;
        star isBlank].

(** [/^[\s　]*第([一二三四五六七八九十百千零〇\d]+)[章节编]/] *)
Definition CHAPTER_PATTERN : re :=
  seqs [Bol; star isBlank; chr zh_di; Grp 1 (plus isNumeralGlyph);
        Cls isHeadingUnit].

(** [/^\d+$/] *)
Definition ALL_DIGITS : re := seqs [Bol; plus isDigit; Eol].

(** The locals of the paragraph loop of [parseNpcHtml]. *)
Record state := mkState {
  collected : list ParsedProvision;
  currentArticleNum : jsstring;
  currentArticleContent : list jsstring
}.

Definition state0 : state := mkState [] [] [].

Definition nonEmptyStr (s : jsstring) : bool :=
  match s with [] => false | _ :: _ => true end.

Definition nonEmptyList (l : list jsstring) : bool :=
  match l with [] => false | _ :: _ => true end.

(** The provision an open article becomes when it is saved. *)
Definition provisionOf (language : jsstring) (st : state) : ParsedProvision :=
  mkParsed (currentArticleNum st) (currentArticleNum st) []
           (trim (join [10] (currentArticleContent st))) language.

(** The guarded [provisions.push] that precedes a new article and follows
    the loop. *)
Definition flush (language : jsstring) (st : state) : list ParsedProvision :=
  if nonEmptyStr (currentArticleNum st) && nonEmptyList (currentArticleContent st)
  then collected st ++ [provisionOf language st]
  else collected st.

(** [String(arabicNum)] for the numeral of an article marker. *)
Definition articleNumber (numStr : jsstring) : jsstring :=
  if test ALL_DIGITS numStr
  then match parseInt numStr with
       | Some n => toString n
       | None => lit "NaN"
       end
  else toString (chineseToArabic numStr).

(** One iteration of [for (const para of paragraphs)]. *)
Definition step (language : jsstring) (st : state) (para : jsstring) : state :=
  match exec ARTICLE_PATTERN para with
  | Some articleMatch =>
      let numStr :=
        match group 1 (caps articleMatch) with Some g => g | None => [] end in
      let content := trim (replace ARTICLE_PATTERN [] para) in
      mkState (flush language st) (articleNumber numStr)
              (if nonEmptyStr content then [content] else [])
  | None =>
      if nonEmptyStr (currentArticleNum st)
      then if negb (test CHAPTER_PATTERN para)
           then mkState (collected st) (currentArticleNum st)
                        (currentArticleContent st ++ [para])
           else st
      else st
  end.

(** The article loop and the final save, on the paragraphs of the body. *)
Definition extractProvisions (language : jsstring) (paragraphs : list jsstring)
  : list ParsedProvision :=
  flush language (fold_left (step language) paragraphs state0).

Definition buildLaw (lawId lawTitle lawTitleEn : jsstring)
           (ps : list ParsedProvision) (language : jsstring) : ParsedLaw :=
  mkLaw lawId statute lawTitle lawTitleEn [] in_force [] [] [] ps language.

(** [parseNpcHtml].  Locating the body container and collecting its
    paragraph texts is the work of the HTML library; its outcome is the
    argument [body]: [None] when no container qualifies, else the
    paragraph texts in document order. *)
Definition parseNpcHtml (body : option (list jsstring))
           (lawId lawTitle lawTitleEn language : jsstring) : ParsedLaw :=
  match body with
  | None => buildLaw lawId lawTitle lawTitleEn [] language
  | Some paragraphs =>
      buildLaw lawId lawTitle lawTitleEn (extractProvisions language paragraphs)
               language
  end.

(** The paragraphs of the extractor scenario: "第一条 内容甲", "第二条 内容乙",
    and a marker that stands alone. *)
Definition para_1 : jsstring := [zh_di; zh_yi; zh_tiao; 32; 0x5185; 0x5BB9; 0x7532].
Definition para_2 : jsstring := [zh_di; zh_er; zh_tiao; 32; 0x5185; 0x5BB9; 0x4E59].
Definition bare_1 : jsstring := [zh_di; zh_yi; zh_tiao].

End Extractor.

(** ** Query normaliser ([src/utils/fts-query.ts]) *)

Module Fts.

Record FtsQueryVariants := mkVariants {
  primary : jsstring;
  fallback : option jsstring
}.

Definition MAX_QUERY_LENGTH : nat := Z.to_nat 1000.

Definition quote : char := 34.

(** [/[QQQ]|(\bAND\b)|(\bOR\b)|(\bNOT\b)|\*$/], where the class [QQQ]
    holds the ASCII double quote three times. *)
Definition EXPLICIT_FTS_SYNTAX : re :=
  Alt (Cls (fun c => (c =? quote) || (c =? quote) || (c =? quote)))
  (Alt (Grp 1 (seqs [WordB; str (lit "AND"); WordB]))
  (Alt (Grp 2 (seqs [WordB; str (lit "OR"); WordB]))
  (Alt (Grp 3 (seqs [WordB; str (lit "NOT"); WordB]))
       (seqs [chr 42; Eol])))).

(** [.replace(/[“”]/g, Q)], with [Q] the ASCII double quote. *)
Definition straightenQuotes (s : jsstring) : jsstring :=
  map (fun c => if (c =? 0x201C) || (c =? 0x201D) then quote else c) s.

(** [.replace(/;/g, '')] *)
Definition stripSemicolons (s : jsstring) : jsstring :=
  filter (fun c => negb (c =? 59)) s.

(** [.replace(/--/g, '')]: one pass from the left over non-overlapping
    matches. *)
Fixpoint stripDashPairs (s : jsstring) : jsstring :=
  match s with
  | [] => []
  | a :: rest =>
      match rest with
      | b :: rest' =>
          if (a =? 45) && (b =? 45) then stripDashPairs rest'
          else a :: stripDashPairs rest
      | [] => [a]
      end
  end.

(** [(normalised.match(/Q/g) ?? []).length], with [Q] the ASCII double
    quote. *)
Definition quoteCount (s : jsstring) : nat :=
  length (filter (fun c => c =? quote) s).

Definition balanceQuotes (normalised : jsstring) : jsstring :=
  if Nat.even (quoteCount normalised) then normalised else normalised ++ [quote].

(** [trimmed.split(/\s+/).filter(t => t.length > 0)]: the maximal runs of
    non-blank units. *)
Fixpoint splitBlanks (cur : jsstring) (s : jsstring) : list jsstring :=
  match s with
  | [] => match cur with [] => [] | _ => [cur] end
  | c :: rest =>
      if isSpace c
      then match cur with [] => splitBlanks [] rest
                     | _ => cur :: splitBlanks [] rest end
      else splitBlanks (cur ++ [c]) rest
  end.

Section Variants.

(** [sanitiseToken] deletes what is neither a Unicode letter, a Unicode
    number, [_] nor [-].  The Unicode property tables are not in the
    sources: the function is a parameter. *)
Variable sanitiseToken : jsstring -> jsstring.

Definition buildFtsQueryVariants (query : jsstring) : FtsQueryVariants :=
  let trimmed := slice0 MAX_QUERY_LENGTH (trim query) in
  match trimmed with
  | [] => mkVariants [quote; quote] None
  | _ =>
      if test EXPLICIT_FTS_SYNTAX trimmed then
        let normalised :=
          slice0 MAX_QUERY_LENGTH
                 (stripDashPairs (stripSemicolons (straightenQuotes trimmed))) in
        mkVariants (balanceQuotes normalised) None
      else
        let tokens :=
          filter (fun t => negb (isNil t))
                 (map sanitiseToken (splitBlanks [] trimmed)) in
        match tokens with
        | [] => mkVariants [quote; quote] None
        | _ =>
            mkVariants
              (join (lit " ") (map (fun t => [quote] ++ t ++ [quote; 42]) tokens))
              (Some (join (lit " OR ") (map (fun t => t ++ [42]) tokens)))
        end
  end.

End Variants.

(** The repair the specification describes: the input kept as it is, with
    the semicolons and the pairs of dashes deleted and a closing quote added
    when the quotes are unbalanced. *)
Definition verbatimRepair (trimmed : jsstring) : jsstring :=
  balanceQuotes (stripDashPairs (stripSemicolons trimmed)).

Fixpoint hasDashPair (s : jsstring) : bool :=
  match s with
  | a :: rest =>
      match rest with
      | b :: _ => ((a =? 45) && (b =? 45)) || hasDashPair rest
      | [] => false
      end
  | [] => false
  end.

Definition hasSemicolon (s : jsstring) : bool := existsb (fun c => c =? 59) s.

End Fts.

(** ** References in Chinese notation ([src/utils/chinese-numerals.ts], the
    rest of the file) *)

Module NumeralRefs.
Import Citation.

(** [/第(.+?)款/] of [extractParagraphNumber]. *)
Definition PARAGRAPH_REF : re :=
  seqs [chr zh_di; Grp 1 (lazyPlus isDot); chr zh_kuan].

(** [extractParagraphNumber(ref)]; [None] is [null]. *)
Definition extractParagraphNumber (ref : jsstring) : option Z :=
  match exec PARAGRAPH_REF ref with
  | None => None
  | Some m =>
      let numStr := trim (orEmpty (group 1 (caps m))) in
      match parseInt numStr with
      | Some arabicNum => Some arabicNum
      | None => Some (chineseToArabic numStr)
      end
  end.

(** The common glyph of each formal (banker's) glyph and of the variant
    zero and two of the two tables; every other unit is left as it is. *)
Definition toCommon (c : char) : char :=
  if c =? zh_ling2 then zh_ling
  else if c =? 0x58F9 then zh_yi
  else if (c =? 0x8D30) || (c =? 0x4E24) then zh_er
  else if c =? 0x53C1 then zh_san
  else if c =? 0x8086 then zh_si
  else if c =? 0x4F0D then zh_wu
  else if c =? 0x9646 then zh_liu
  else if c =? 0x67D2 then zh_qi
  else if c =? 0x634C then zh_ba
  else if c =? 0x7396 then zh_jiu
  else if c =? zh_shi2 then zh_shi
  else if c =? zh_bai2 then zh_bai
  else if c =? zh_qian2 then zh_qian
  else c.

(** The numbers from [lo] on, [k] of them. *)
Fixpoint countUp (lo : Z) (k : nat) : list Z :=
  match k with
  | O => []
  | S k' => lo :: countUp (Z.succ lo) k'
  end.

(** The numbers [arabicToChinese] writes in Chinese notation, 1 to 9999,
    and those among them whose numeral opens with the ten glyph. *)
Definition numeralRange : list Z := countUp 1 (Z.to_nat 9999).
Definition teens : list Z := countUp 10 (Z.to_nat 10).

(** The thirteen glyphs [arabicToChinese] writes. *)
Definition commonGlyph (c : char) : bool :=
  existsb (Z.eqb c)
          [zh_ling; zh_yi; zh_er; zh_san; zh_si; zh_wu; zh_liu; zh_qi; zh_ba;
           zh_jiu; zh_shi; zh_bai; zh_qian].

Definition commonNumeral (n : Z) : bool :=
  let na := arabicToChinese n in
  negb (isNil na) && forallb commonGlyph na.

Definition opensWithDigit (na : jsstring) : bool :=
  match na with
  | x :: _ => match CHINESE_DIGITS x with Some _ => true | None => false end
  | [] => false
  end.

Definition isTeen (n : Z) : bool := (10 <=? n) && (n <=? 19).

(** What the loop of [chineseToArabic] holds after the numeral of [a]:
    the tens and above in [result], the ones in [currentNum].  Outside 10
    to 19 the numeral opens with a digit glyph. *)
Definition scansTo (a : Z) : bool :=
  let na := arabicToChinese a in
  let st := scanFrom 0 na scan0 in
  (Numerals.result st =? a - a mod 10) && (currentNum st =? a mod 10)
  && (isTeen a || opensWithDigit na).

(** What reading the numeral of [p] adds when the loop is past index 0 and
    holds the pending digit [d]: a numeral that opens with the ten glyph
    (10 to 19) multiplies the pending digit, any other numeral replaces it. *)
Definition readAfter (d p : Z) : Z :=
  if (10 <=? p) && (p <=? 19) then 10 * d + (p - 10) else p.

Definition continuesTo (p : Z) : bool :=
  forallb (fun d =>
             let st := scanFrom 1 (arabicToChinese p) (mkScan 0 d 1) in
             Numerals.result st + currentNum st =? readAfter d p)
          [0; 1; 2; 3; 4; 5; 6; 7; 8; 9].


End NumeralRefs.

(** ** Callers of the retry loop ([scripts/lib/fetcher.ts], the rest of the
    file) *)

Module FetcherCallers.
Import Fetcher.

Definition MIN_DELAY_MS : Z := 1000.

(** The default of the parameter [maxRetries]. *)
Definition DEFAULT_MAX_RETRIES : nat := 3.

(** [fetchNpcLaw], [fetchNpcEnglish] and [fetchGovCn] call
    [fetchWithRateLimit(url)] and leave the budget to its default. *)
Definition fetchNpcLaw (net : nat -> outcome) (url : jsstring) : run :=
  fetchWithRateLimit net url DEFAULT_MAX_RETRIES.

Definition fetchNpcEnglish (net : nat -> outcome) (url : jsstring) : run :=
  fetchWithRateLimit net url DEFAULT_MAX_RETRIES.

Definition fetchGovCn (net : nat -> outcome) (url : jsstring) : run :=
  fetchWithRateLimit net url DEFAULT_MAX_RETRIES.

(** How the outcome of the attempt that ends the loop settles the promise. *)
Definition settle (o : outcome) : completion :=
  match o with
  | Response r => Returned r
  | Rejected error => Thrown error
  end.

(** An outcome after which the loop sleeps and tries again, budget
    permitting: a response with status 429 or at least 500, or a rejection. *)
Definition retried (o : outcome) : bool :=
  match o with
  | Response r => retryable (status r)
  | Rejected _ => true
  end.

(** The time slept in backoffs, in milliseconds. *)
Definition totalBackoff (out : run) : Z := fold_right Z.add 0 (backoffs out).

End FetcherCallers.

(** ** Deduplication: what the properties speak of *)

Module DedupFacts.
Import Dedup.

(** [prov.language ?? 'zh'], as in the grouping key and in the insert. *)
Definition languageOf (p : ProvisionSeed) : jsstring :=
  match language p with Some l => l | None => zh end.

(** The length the merge compares. *)
Definition weight (p : ProvisionSeed) : nat :=
  length (normalizeWhitespace (content p)).

(** What the first occurrence of a key is stored as. *)
Definition stored (p : ProvisionSeed) : ProvisionSeed :=
  withRef p (trim (provision_ref p)).

(** Blanks are single and are the ASCII space; [prevBlank] tells that the
    unit before the text is a blank. *)
Fixpoint spaced (prevBlank : bool) (s : jsstring) : bool :=
  match s with
  | [] => true
  | c :: r =>
      if isSpace c then negb prevBlank && (c =? 32) && spaced true r
      else spaced false r
  end.

(** The same, and the text does not end in a blank. *)
Fixpoint singleSpaced (prevBlank : bool) (s : jsstring) : bool :=
  match s with
  | [] => negb prevBlank
  | c :: r =>
      if isSpace c then negb prevBlank && (c =? 32) && singleSpaced true r
      else singleSpaced false r
  end.

(** A normalised text: empty, or without a blank at either end and with
    single ASCII spaces as its only blanks. *)
Definition tidy (s : jsstring) : bool :=
  match s with
  | [] => true
  | _ :: _ => singleSpaced true s
  end.

Definition nonBlank (c : char) : bool := negb (isSpace c).

(** What holds of the map after every step: each entry sits under the key
    of a reference that trims to its own, with its own language, and that
    language holds no colon. *)
Definition entryOk (kv : jsstring * ProvisionSeed) : Prop :=
  exists r, fst kv = r ++ 58 :: languageOf (snd kv)
            /\ trim (provision_ref (snd kv)) = trim r
            /\ ~ In 58 (languageOf (snd kv)).

End DedupFacts.

(** The state the loop of [dedupeProvisions] ends in, under one name in the
    goal and in a hypothesis. *)
Ltac name_fold F :=
  match goal with
  | |- context [@fold_left ?A ?B ?f ?l ?a] => set (F := @fold_left A B f l a)
  end.

Ltac fold_in H F :=
  match type of H with
  | context [@fold_left ?A ?B ?f ?l ?a] => change (@fold_left A B f l a) with F in H
  end.

(** ** Index page and text normaliser ([scripts/lib/parser.ts], the rest of
    the file) *)

Module NpcIndex.

Record LawIndexEntry := mkEntry {
  title : jsstring;
  title_en : jsstring;
  url : jsstring;
  adopted_date : jsstring;
  effective_date : jsstring
}.

(** What the HTML library hands over for one [a] element: the [href]
    attribute, absent or a string, and the text content. *)
Record anchor := mkAnchor {
  href : option jsstring;
  text : jsstring
}.

(** [s.startsWith(prefix)] *)
Fixpoint startsWith (prefix s : jsstring) : bool :=
  match prefix, s with
  | [], _ => true
  | a :: prefix', b :: s' => (a =? b) && startsWith prefix' s'
  | _ :: _, [] => false
  end.

(** [s.includes(needle)] *)
Fixpoint includes (needle s : jsstring) : bool :=
  startsWith needle s
  || match s with
     | [] => false
     | _ :: s' => includes needle s'
     end.

Definition NPC_ORIGIN : jsstring := lit "https://www.npc.gov.cn".

(** [text.includes('法') || text.includes('条例') || text.includes('典')] *)
Definition namesLaw (text : jsstring) : bool :=
  includes [Citation.zh_fa] text || includes [zh_tiao; Citation.zh_li] text
  || includes [Citation.zh_dian] text.

(** The body of the callback of [$('a').each]: the entry it pushes, if any. *)
Definition indexEntry (a : anchor) : option LawIndexEntry :=
  let text := trim (text a) in
  match href a with
  | Some href =>
      if negb (isNil href) && negb (isNil text) && namesLaw text
      then Some (mkEntry text []
                         (if startsWith (lit "http") href then href
                          else NPC_ORIGIN ++ href)
                         [] [])
      else None
  | None => None
  end.

Definition parseNpcIndex (anchors : list anchor) : list LawIndexEntry :=
  flat_map (fun a => match indexEntry a with Some e => [e] | None => [] end)
           anchors.

(** [normalizeChineseText(text)]: the ideographic space becomes a space,
    runs of blanks collapse, the ends are trimmed. *)
Definition normalizeChineseText (text : jsstring) : jsstring :=
  trim (Dedup.collapseBlanks false
          (map (fun c => if c =? 0x3000 then 32 else c) text)).

End NpcIndex.

(** ** The content container of a law page ([scripts/lib/parser.ts],
    [parseNpcHtml] before its paragraph loop) *)

Module NpcPage.

(** What the HTML library hands over for one selector of [contentSelectors]
    that matches ([el.length > 0]): the text of the selection, [el.text()],
    and the texts of the [p], [div.p] and [span.p] elements inside it, in
    document order. *)
Record selection := mkSelection {
  selectionText : jsstring;
  paragraphTexts : list jsstring
}.

(** The loop over [contentSelectors], on the selections that match, in the
    order of the selectors: the first one with more than 100 units of
    trimmed text. *)
Definition contentOf (selections : list selection) : option selection :=
  find (fun el => (100 <? length (trim (selectionText el)))%nat) selections.

(** [fullText.split(/[\n\r]+/)]: [cur] holds the piece being read, in
    reverse; [inRun] says that the unit before was a separator. *)
Fixpoint splitLinesFrom (cur : jsstring) (inRun : bool) (s : jsstring)
  : list jsstring :=
  match s with
  | [] => [rev cur]
  | c :: s' =>
      if (c =? 10) || (c =? 13)
      then if inRun then splitLinesFrom cur true s'
           else rev cur :: splitLinesFrom [] true s'
      else splitLinesFrom (c :: cur) false s'
  end.

Definition splitLines (s : jsstring) : list jsstring := splitLinesFrom [] false s.

(** The texts, trimmed, that are not empty. *)
Definition nonEmptyTrimmed (texts : list jsstring) : list jsstring :=
  filter Extractor.nonEmptyStr (map trim texts).

(** The paragraphs of the container: those of its paragraph elements, or,
    when there is none, the lines of its text. *)
Definition paragraphsOf (el : selection) : list jsstring :=
  match nonEmptyTrimmed (paragraphTexts el) with
  | [] => nonEmptyTrimmed (splitLines (selectionText el))
  | paragraphs => paragraphs
  end.

(** [parseNpcHtml] on the selections of a page. *)
Definition parseNpcHtml (selections : list selection)
           (lawId lawTitle lawTitleEn language : jsstring) : Extractor.ParsedLaw :=
  Extractor.parseNpcHtml (option_map paragraphsOf (contentOf selections))
                         lawId lawTitle lawTitleEn language.

(** A page that holds the two paragraphs of the extractor scenario and
    nothing else, and one whose container holds further text besides. *)
Definition scenarioOnly : selection :=
  mkSelection (Extractor.para_1 ++ Extractor.para_2)
              [Extractor.para_1; Extractor.para_2].

Definition scenarioWithin : selection :=
  mkSelection (repeat 0x6CD5 101 ++ Extractor.para_1 ++ Extractor.para_2)
              [Extractor.para_1; Extractor.para_2].

End NpcPage.

(** ** Provision extractor: what the properties speak of *)

Module ExtractorFacts.
Import Extractor.

(** A reference as the extractor writes it: a non-empty string of digits. *)
Definition decimal (s : jsstring) : bool :=
  negb (isNil s) && forallb isDigit s.

(** The numeral of an article marker, [articleMatch[1]]; empty for a
    paragraph that is no marker.  With at most 15 units it names a safe
    integer, in digits or in glyphs. *)
Definition markerNumeral (para : jsstring) : jsstring :=
  match exec ARTICLE_PATTERN para with
  | Some m => match group 1 (caps m) with Some g => g | None => [] end
  | None => []
  end.

Definition shortNumeral (para : jsstring) : bool :=
  (length (markerNumeral para) <=? 15)%nat.

(** What every provision of the extractor satisfies. *)
Definition refOk (language : jsstring) (p : ParsedProvision) : Prop :=
  provision_ref p <> [] /\ forallb isDigit (provision_ref p) = true
  /\ section p = provision_ref p /\ title p = []
  /\ Extractor.language p = language.

(** The current article number is unset or a decimal number. *)
Definition numOk (st : state) : Prop :=
  currentArticleNum st = [] \/ decimal (currentArticleNum st) = true.

(** Every content line of the open article holds a unit that is not a
    blank. *)
Definition linesOk (st : state) : Prop :=
  Forall (fun l => trim l <> []) (currentArticleContent st).

End ExtractorFacts.

(** ** Query normaliser: what the properties speak of *)

Module FtsFacts.

(** A unit that the repair of an explicit query keeps where it stands: the
    double quote, the asterisk, an ASCII capital. *)
Definition kept (c : char) : bool := (c =? 34) || (c =? 42) || isUpper c.

End FtsFacts.

(** ** Patterns: what a match is bound to set *)

Module PatternFacts.

(** Every match of the pattern takes at least one unit. *)
Fixpoint consumes (r : re) : bool :=
  match r with
  | Cls _ => true
  | Rep _ lo _ _ => (1 <=? lo)%nat
  | Seq a b => consumes a || consumes b
  | Alt a b => consumes a && consumes b
  | Grp _ r' => consumes r'
  | _ => false
  end.

(** Every match of the pattern leaves group [k] set to a non-empty text:
    the group is met on every path, outside any optional part, and what it
    encloses takes at least one unit. *)
Fixpoint binds (k : nat) (r : re) : bool :=
  match r with
  | Seq a b =>
      binds k b || (binds k a && negb (existsb (Nat.eqb k) (groupsOf b)))
  | Alt a b => binds k a && binds k b
  | Grp n r' => if (n =? k)%nat then consumes r' else binds k r'
  | _ => false
  end.

(** The pattern starts with [^]. *)
Definition anchored (r : re) : bool :=
  match r with
  | Seq Bol _ => true
  | _ => false
  end.

End PatternFacts.

(** ** The format_citation tool ([src/tools/format-citation.ts]) *)

Module FormatTool.
Import Citation.

(** [interface FormatCitationResult]; the envelope with the response
    metadata, built by a function outside these sources, is left out. *)
Record FormatCitationResult := mkResult {
  input : jsstring;
  formatted : jsstring;
  formatted_chinese : jsstring;
  formatted_english : jsstring;
  type : jsstring;
  valid : bool;
  error : option jsstring
}.

(** The string a citation type is. *)
Definition typeName (t : CitationType) : jsstring :=
  match t with
  | statute => lit "statute"
  | administrative_regulation => lit "administrative_regulation"
  | unknown => lit "unknown"
  end.

Definition emptyCitation : FormatCitationResult :=
  mkResult [] [] [] [] (lit "unknown") false (Some (lit "Empty citation")).

(** [formatCitationTool(input)]; an absent [citation] or [format] is
    [None]. *)
Definition formatCitationTool (citation : option jsstring)
           (format : option CitationFormat) : FormatCitationResult :=
  match citation with
  | None => emptyCitation
  | Some c =>
      if isNil c || isNil (trim c) then emptyCitation
      else
        let parsed := parseCitation c in
        if negb (Citation.valid parsed)
        then mkResult c c [] [] (lit "unknown") false (Citation.error parsed)
        else mkResult c
                      (formatCitation parsed
                         (match format with Some f => f | None => full end))
                      (formatCitation parsed chinese)
                      (formatCitation parsed english)
                      (typeName (Citation.type parsed)) true None
  end.

End FormatTool.

(** ** Citations without a title, and citations by statute id *)

Module CitationTexts.
Import Citation.

(** A statute id as [ID_CITATION] reads one: a letter, then at least one
    word character or dash. *)
Definition statuteId (id : jsstring) : bool :=
  match id with
  | x :: w => isAlpha x && negb (isNil w) && forallb isWordOrDash w
  | [] => false
  end.

(** A non-empty run of decimal digits. *)
Definition digits (a : jsstring) : bool :=
  negb (isNil a) && forallb isDigit a.

Definition optDigits (po : option jsstring) : bool :=
  match po with Some p => digits p | None => true end.

(** ["<id>, art. <a>"], with [", para. <p>"] when there is a paragraph. *)
Definition idText (id a : jsstring) (po : option jsstring) : jsstring :=
  id ++ [44] ++ [32] ++ lit "art" ++ [46] ++ [32] ++ a ++
  match po with
  | Some p => [44] ++ [32] ++ lit "par" ++ [97] ++ [46] ++ [32] ++ p
  | None => []
  end.



(** ["Article <a>"] *)
Definition bareArticle (a : jsstring) : jsstring := lit "Article" ++ [32] ++ a.

(** One of the glyphs a statute suffix ends in: 法, 典, 例. *)
Definition suffixGlyph (c : char) : bool :=
  (c =? zh_fa) || (c =? zh_dian) || (c =? zh_li).

(** ["第<na>条"], with ["第<np>款"] when there is a paragraph. *)
Definition bareReference (na : jsstring) (npo : option jsstring) : jsstring :=
  [zh_di] ++ na ++ zh_tiao ::
  match npo with
  | Some np => [zh_di] ++ np ++ zh_kuan :: []
  | None => []
  end.

End CitationTexts.

(** ** Ingestion pipeline ([scripts/ingest.ts]) *)

Module Ingest.
Import Fetcher FetcherCallers.

(** One entry of [eu_references]. *)
Record EuReference := mkEuReference {
  eu_document_id : jsstring;
  eu_type : jsstring;
  eu_year : Z;
  eu_number : Z;
  eu_title : jsstring;
  eu_short_name : jsstring;
  reference_type : jsstring;
  is_primary : bool;
  description : jsstring
}.

(** [interface LawDefinition]; [url_en], which [main] never reads, is left
    out. *)
Record LawDefinition := mkLawDefinition {
  id : jsstring;
  title : jsstring;
  title_en : jsstring;
  short_name : jsstring;
  url : jsstring;
  issued_date : jsstring;
  in_force_date : jsstring;
  status : Extractor.LawStatus;
  type : Extractor.LawType;
  eu_references : option (list EuReference)
}.

(** The object [main] hands to [JSON.stringify] for a seed file.  The
    minimal seed has no [language]. *)
Record Seed := mkSeed {
  seed_id : jsstring;
  seed_type : Extractor.LawType;
  seed_title : jsstring;
  seed_title_en : jsstring;
  seed_short_name : jsstring;
  seed_status : Extractor.LawStatus;
  seed_issued_date : jsstring;
  seed_in_force_date : jsstring;
  seed_url : jsstring;
  seed_provisions : list Extractor.ParsedProvision;
  seed_language : option jsstring;
  seed_eu_references : list EuReference
}.

(** [law.eu_references ?? []] *)
Definition euReferencesOf (law : LawDefinition) : list EuReference :=
  match eu_references law with Some l => l | None => [] end.

Definition minimalSeed (law : LawDefinition) : Seed :=
  mkSeed (id law) (type law) (title law) (title_en law) (short_name law)
         (status law) (issued_date law) (in_force_date law) (url law)
         [] None (euReferencesOf law).

(** [{ ...parsed, short_name: law.short_name, ... }] *)
Definition fullSeed (law : LawDefinition) (parsed : Extractor.ParsedLaw) : Seed :=
  mkSeed (Extractor.id parsed) (Extractor.type parsed)
         (Extractor.law_title parsed) (Extractor.title_en parsed)
         (short_name law) (status law) (issued_date law) (in_force_date law)
         (url law) (Extractor.provisions parsed)
         (Some (Extractor.law_language parsed)) (euReferencesOf law).

(** [limit: number | null]: [None] is [null], [Some None] is [NaN]. *)
Definition limitValue := option (option Z).

(** The loop of [parseArgs] over [process.argv.slice(2)]: an argument
    [--limit] followed by a non-empty argument sets the limit and skips the
    value. *)
Fixpoint parseArgsFrom (args : list jsstring) (limit : limitValue) : limitValue :=
  match args with
  | [] => limit
  | a :: rest =>
      if str_eqb a (lit "--limit")
      then match rest with
           | v :: rest' =>
               if negb (isNil v) then parseArgsFrom rest' (Some (parseInt v))
               else parseArgsFrom rest limit
           | [] => limit
           end
      else parseArgsFrom rest limit
  end.

Definition parseArgs (args : list jsstring) : limitValue :=
  parseArgsFrom args None.

(** [limit ? ... : ...]: a number other than 0 and [NaN]. *)
Definition limitSet (limit : limitValue) : option Z :=
  match limit with
  | Some (Some n) => if n =? 0 then None else Some n
  | _ => None
  end.

(** [laws.slice(0, n)] for an integer [n]: a negative end counts from the
    end of the array. *)
Definition sliceTo {A : Type} (n : Z) (l : list A) : list A :=
  if n <? 0 then firstn (Z.to_nat (Z.max (Z.of_nat (length l) + n) 0)) l
  else firstn (Z.to_nat n) l.

(** [limit ? KEY_LAWS.slice(0, limit) : KEY_LAWS] *)
Definition selectLaws (limit : limitValue) (laws : list LawDefinition)
  : list LawDefinition :=
  match limitSet limit with
  | Some n => sliceTo n laws
  | None => laws
  end.

Section Pipeline.

(** The table [KEY_LAWS] of the script. *)
Variable KEY_LAWS : list LawDefinition.

(** [path.join(SEED_DIR, `${id}.json`)], the path of the seed of a law. *)
Variable seedFile : jsstring -> jsstring.

(** What a file holds, and [JSON.stringify(seed, null, 2)]. *)
Variable fileContent : Type.
Variable stringify : Seed -> fileContent.

(** The paragraph texts the HTML library finds in a response body, as
    [Extractor.parseNpcHtml] takes them. *)
Variable bodyOf : jsstring -> option (list jsstring).

(** The files of the seed directory, latest write first. *)
Definition directory := list (jsstring * fileContent).

Fixpoint readFile (path : jsstring) (dir : directory) : option fileContent :=
  match dir with
  | [] => None
  | (p, c) :: dir' => if str_eqb path p then Some c else readFile path dir'
  end.

Definition existsSync (path : jsstring) (dir : directory) : bool :=
  match readFile path dir with Some _ => true | None => false end.

Definition writeFileSync (path : jsstring) (c : fileContent) (dir : directory)
  : directory := (path, c) :: dir.

(** What a run of [main] leaves: the seed directory, the URLs it asked
    [fetchNpcLaw] for, in order, and the three counters it prints.  The
    lines printed along the way and the creation of the directory are left
    out. *)
Record report := mkReport {
  files : directory;
  fetched : list jsstring;
  processed : Z;
  failed : Z;
  totalProvisions : Z
}.

(** One iteration of [for (const law of laws)]; [net] is the network as the
    retry loop of this law's fetch sees it.  Of the calls in the [try] block
    the fetch is the one taken to throw. *)
Definition ingestLaw (net : nat -> outcome) (law : LawDefinition) (st : report)
  : report :=
  let seedPath := seedFile (id law) in
  if existsSync seedPath (files st)
  then mkReport (files st) (fetched st) (processed st + 1) (failed st)
                (totalProvisions st)
  else
    match settled (fetchNpcLaw net (url law)) with
    | Returned result =>
        if negb (Fetcher.status result =? 200)
        then mkReport (writeFileSync seedPath (stringify (minimalSeed law))
                                     (files st))
                      (fetched st ++ [url law]) (processed st + 1)
                      (failed st + 1) (totalProvisions st)
        else
          let parsed :=
            Extractor.parseNpcHtml (bodyOf (body result)) (id law) (title law)
                                   (title_en law) (lit "zh") in
          mkReport (writeFileSync seedPath (stringify (fullSeed law parsed))
                                  (files st))
                   (fetched st ++ [url law]) (processed st + 1) (failed st)
                   (totalProvisions st
                    + Z.of_nat (length (Extractor.provisions parsed)))
    | Thrown _ =>
        mkReport (if negb (existsSync seedPath (files st))
                  then writeFileSync seedPath (stringify (minimalSeed law))
                                     (files st)
                  else files st)
                 (fetched st ++ [url law]) (processed st + 1) (failed st + 1)
                 (totalProvisions st)
    end.

(** The seed an iteration that fetches stores: the parsed law when the fetch
    answers 200, the minimal seed when it answers another status or
    throws. *)
Definition writtenSeed (net : nat -> outcome) (law : LawDefinition) : Seed :=
  match settled (fetchNpcLaw net (url law)) with
  | Returned result =>
      if Fetcher.status result =? 200
      then fullSeed law (Extractor.parseNpcHtml (bodyOf (body result)) (id law)
                                                (title law) (title_en law)
                                                (lit "zh"))
      else minimalSeed law
  | Thrown _ => minimalSeed law
  end.

(** The loop; [net i] is the network during iteration [i]. *)
Fixpoint ingestLoop (net : nat -> nat -> outcome) (i : nat)
         (laws : list LawDefinition) (st : report) : report :=
  match laws with
  | [] => st
  | law :: rest => ingestLoop net (S i) rest (ingestLaw (net i) law st)
  end.

(** [main()], on the arguments of the command line, the seed directory as
    it stands and the network. *)
Definition main (args : list jsstring) (dir : directory)
           (net : nat -> nat -> outcome) : report :=
  let limit := parseArgs args in
  ingestLoop net 0 (selectLaws limit KEY_LAWS) (mkReport dir [] 0 0 0).

End Pipeline.

End Ingest.

(* ===================================================================== *)
(** * Part II: properties                                                 *)
(* ===================================================================== *)

Example known_21 : chineseToArabic [zh_er; zh_shi; zh_yi] = 21.
Proof. reflexivity. Qed.
Example known_103 : chineseToArabic [zh_yi; zh_bai; zh_ling; zh_san] = 103.
Proof. reflexivity. Qed.
Example known_11 : chineseToArabic [zh_shi; zh_yi] = 11.
Proof. reflexivity. Qed.
Example known_10 : chineseToArabic [zh_shi] = 10.
Proof. reflexivity. Qed.
Example render_103 : arabicToChinese 103 = [zh_yi; zh_bai; zh_ling; zh_san].
Proof. reflexivity. Qed.
Example render_1010 :
  arabicToChinese 1010 = [zh_yi; zh_qian; zh_ling; zh_yi; zh_shi].
Proof. reflexivity. Qed.

(** ** Numeral codec *)

Section NumeralRoundTrip.

Lemma roundTrip_table : forallb roundTripsAt codecRange = true.
Proof. vm_compute. reflexivity. Qed.

Lemma in_range_table (n : Z) :
  1 <= n <= 9999 -> In n codecRange.
Proof.
  intros Hn. apply in_map_iff. exists (Z.to_nat n). split.
  - lia.
  - apply in_seq. lia.
Qed.

(** C1: for every integer n with 1 <= n <= 9999, converting n to a numeral
    string with arabicToChinese and back with chineseToArabic yields n. *)
Theorem C1_numeral_round_trip (n : Z) :
  1 <= n <= 9999 -> chineseToArabic (arabicToChinese n) = n.
Proof.
  intros Hn.
  pose proof roundTrip_table as T.
  rewrite forallb_forall in T.
  specialize (T n (in_range_table n Hn)).
  unfold roundTripsAt in T. now apply Z.eqb_eq in T.
Qed.

Lemma C1_numeral_round_trip_witness :
  chineseToArabic (arabicToChinese 1010) = 1010.
Proof. apply (C1_numeral_round_trip 1010). lia. Defined.

End NumeralRoundTrip.

(** ** Lenient scanning of malformed numerals *)

Section LenientScan.

Lemma recognised_not_space (c : char) : recognised c = true -> isSpace c = false.
Proof.
  unfold recognised, CHINESE_DIGITS, CHINESE_MULTIPLIERS.
  repeat match goal with
         | |- context [c =? ?k] =>
             destruct (Z.eqb_spec c k) as [->|]; [intros _; reflexivity|]; simpl
         end.
  discriminate.
Qed.





Lemma trimStart_no_space (s : jsstring) :
  Forall (fun c => isSpace c = false) s -> trimStart s = s.
Proof.
  intros H. destruct H as [|c s Hc _]; [reflexivity|]. simpl. now rewrite Hc.
Qed.

Lemma trim_no_space (s : jsstring) :
  Forall (fun c => isSpace c = false) s -> trim s = s.
Proof.
  intros H. unfold trim, trimEnd.
  rewrite (trimStart_no_space s H), trimStart_no_space.
  - apply rev_involutive.
  - now apply Forall_rev.
Qed.



(** An unrecognised glyph leaves the three locals of the loop untouched. *)
Lemma scanStep_unrecognised (i : Z) (c : char) (st : scan) :
  recognised c = false -> scanStep i c st = st.
Proof.
  unfold recognised, scanStep.
  destruct (CHINESE_DIGITS c), (CHINESE_MULTIPLIERS c); congruence.
Qed.

(** Away from index 0 the step does not look at the index. *)
Lemma scanStep_index (i j : Z) (c : char) (st : scan) :
  i <> 0 -> j <> 0 -> scanStep i c st = scanStep j c st.
Proof.
  intros Hi Hj. unfold scanStep.
  destruct (CHINESE_DIGITS c); [reflexivity|].
  destruct (CHINESE_MULTIPLIERS c); [|reflexivity].
  destruct (Z.eqb_spec i 0), (Z.eqb_spec j 0); try contradiction.
  now rewrite !andb_false_r.
Qed.

Lemma scanStep_not_ten (i j : Z) (c : char) (st : scan) :
  isTen c = false -> scanStep i c st = scanStep j c st.
Proof.
  unfold isTen, scanStep. intros H.
  destruct (CHINESE_DIGITS c); [reflexivity|].
  destruct (CHINESE_MULTIPLIERS c); [|reflexivity].
  now rewrite H, andb_false_r.
Qed.

Lemma scanFrom_drop (s : jsstring) :
  forall i j st, 0 < i -> 0 < j ->
    scanFrom i s st = scanFrom j (dropUnrecognised s) st.
Proof.
  induction s as [|c s IH]; intros i j st Hi Hj; [reflexivity|].
  simpl. destruct (recognised c) eqn:E.
  - simpl. rewrite (scanStep_index i j) by lia. apply IH; lia.
  - rewrite (scanStep_unrecognised i c st E). apply IH; lia.
Qed.

Lemma scanFrom_0_1 (f : jsstring) (st : scan) :
  match f with c :: _ => isTen c = false | [] => True end ->
  scanFrom 0 f st = scanFrom 1 f st.
Proof.
  destruct f as [|c f]; intros H; [reflexivity|]. simpl.
  rewrite (scanStep_not_ten 0 1 c st H).
  rewrite (scanFrom_drop f (0 + 1) (1 + 1)) by lia.
  now rewrite <- (scanFrom_drop f (1 + 1) (1 + 1)) by lia.
Qed.

Lemma shi_recognised : recognised zh_shi = true.
Proof. reflexivity. Qed.

Lemma scanFrom_stable (t : jsstring) (st : scan) :
  leadingTenStable t = true ->
  scanFrom 0 t st = scanFrom 0 (dropUnrecognised t) st.
Proof.
  unfold leadingTenStable. destruct t as [|c t]; [reflexivity|].
  simpl. destruct (recognised c) eqn:E; intros H.
  - simpl. apply scanFrom_drop; lia.
  - rewrite (scanStep_unrecognised 0 c st E).
    rewrite (scanFrom_drop t (0 + 1) 1) by lia.
    symmetry. apply scanFrom_0_1.
    destruct (dropUnrecognised t) as [|d f]; [exact I|].
    apply orb_true_iff in H. destruct H as [H|H].
    + now apply negb_true_iff.
    + apply Z.eqb_eq in H. subst c. rewrite shi_recognised in E. discriminate.
Qed.

Lemma readTrimmed_long (chars : jsstring) :
  length chars <> 1%nat -> readTrimmed chars = scanAll chars.
Proof.
  destruct chars as [|a [|b chars]]; simpl; intros H;
    [reflexivity | contradiction | reflexivity].
Qed.

Lemma multiplier_cases (c : char) (m : Z) :
  CHINESE_MULTIPLIERS c = Some m ->
  (c = zh_shi /\ m = 10) \/ (c = zh_shi2 /\ m = 10) \/ (c <> zh_shi /\ m <> 10).
Proof.
  unfold CHINESE_MULTIPLIERS.
  destruct (Z.eqb_spec c zh_shi); simpl.
  { intros [= <-]. now left. }
  destruct (Z.eqb_spec c zh_shi2); simpl.
  { intros [= <-]. right. now left. }
  destruct ((c =? zh_bai) || (c =? zh_bai2)).
  { intros [= <-]. right. right. split; [assumption | discriminate]. }
  destruct ((c =? zh_qian) || (c =? zh_qian2)); [|discriminate].
  intros [= <-]. right. right. split; [assumption | discriminate].
Qed.

(** A lone glyph reads the same through the one-glyph branch and through
    the loop, the formal ten glyph excepted: the one-glyph branch only knows
    the common one. *)
Lemma single_is_scan (c : char) :
  c <> zh_shi2 -> readTrimmed [c] = scanAll [c].
Proof.
  intros Hc. unfold scanAll. simpl. unfold scanStep.
  destruct (CHINESE_DIGITS c) eqn:D; [simpl; lia|].
  destruct (CHINESE_MULTIPLIERS c) eqn:M; simpl.
  - destruct (multiplier_cases c z M) as [[-> ->]|[[-> ->]|[H1 H2]]].
    + reflexivity.
    + contradiction.
    + destruct (Z.eqb_spec c zh_shi); [contradiction|].
      destruct (Z.eqb_spec z 10); [contradiction|]. reflexivity.
  - destruct (Z.eqb_spec c zh_shi) as [->|]; [discriminate M | reflexivity].
Qed.

Lemma chineseToArabic_readTrimmed (s : jsstring) :
  chineseToArabic s = readTrimmed (trim s).
Proof. reflexivity. Qed.

Lemma readTrimmed_drop (t : jsstring) :
  leadingTenStable t = true ->
  readTrimmed t = readTrimmed (dropUnrecognised t).
Proof.
  intros H.
  assert (S : scanAll t = scanAll (dropUnrecognised t)).
  { unfold scanAll. now rewrite (scanFrom_stable t scan0 H). }
  destruct (Nat.eq_dec (length t) 1) as [L|L].
  - destruct t as [|c [|? ?]]; try discriminate. simpl.
    destruct (recognised c) eqn:E; [reflexivity|]. simpl.
    unfold recognised in E.
    destruct (CHINESE_DIGITS c); [destruct (CHINESE_MULTIPLIERS c); discriminate|].
    destruct (Z.eqb_spec c zh_shi) as [->|]; [discriminate E | reflexivity].
  - rewrite (readTrimmed_long t L), S.
    destruct (Nat.eq_dec (length (dropUnrecognised t)) 1) as [L'|L'].
    + destruct (dropUnrecognised t) as [|c [|? ?]] eqn:F; try discriminate.
      symmetry. apply single_is_scan. intros ->.
      unfold leadingTenStable in H. rewrite F in H. simpl in H.
      destruct t as [|x t]; [discriminate|].
      apply Z.eqb_eq in H. subst x.
      simpl in F. discriminate F.
    + now rewrite (readTrimmed_long _ L').
Qed.


End LenientScan.

(** ** Deduplication and merge *)

Section DedupProperties.
Import Dedup.

Lemma str_eqb_eq (a b : jsstring) : str_eqb a b = true <-> a = b.
Proof.
  revert b. induction a as [|x a IH]; intros [|y b]; simpl;
    try (split; [discriminate | discriminate]); [tauto|].
  rewrite andb_true_iff, Z.eqb_eq, IH. split.
  - intros [-> ->]. reflexivity.
  - intros [= -> ->]. tauto.
Qed.

Lemma str_eqb_refl (a : jsstring) : str_eqb a a = true.
Proof. now apply str_eqb_eq. Qed.

Lemma str_eqb_neq (a b : jsstring) : a <> b -> str_eqb a b = false.
Proof.
  intros H. destruct (str_eqb a b) eqn:E; [|reflexivity].
  apply str_eqb_eq in E. contradiction.
Qed.

(** C5 (amended): when dedupe meets a provision whose key already has a
    holder, the map keeps, under that key, the candidate with the longer
    whitespace-normalised content, the holder on a tie; the kept candidate
    keeps its own title whenever it has one, the empty string included, and
    takes the other candidate's title only when its own is absent. *)
Theorem C5_merge_policy (byRef : jsmap) (stats : ProvisionDedupStats)
        (provision existing : ProvisionSeed) :
  mapGet (keyOf provision) byRef = Some existing ->
  let kept := pickPreferredProvision existing provision in
  let le := length (normalizeWhitespace (content existing)) in
  let li := length (normalizeWhitespace (content provision)) in
  fst (dedupeStep (byRef, stats) provision) = mapSet (keyOf provision) kept byRef
  /\ ((le < li)%nat ->
      kept = withTitle provision (nullish (title provision) (title existing)))
  /\ ((li <= le)%nat ->
      kept = withTitle existing (nullish (title existing) (title provision)))
  /\ (forall t, title (match winner existing provision with
                       | Existing => existing | Incoming => provision end) = Some t ->
                title kept = Some t)
  /\ (title (match winner existing provision with
             | Existing => existing | Incoming => provision end) = None ->
      title kept = title (match winner existing provision with
                          | Existing => provision | Incoming => existing end)).
Proof.
  intros Hget kept le li. subst kept le li.
  unfold dedupeStep, pickPreferredProvision, winner. rewrite Hget. simpl.
  destruct (Nat.ltb_spec (length (normalizeWhitespace (content existing)))
                         (length (normalizeWhitespace (content provision))));
    (split; [reflexivity|]); (split; [intros; (reflexivity || lia)|]);
    (split; [intros; (reflexivity || lia)|]); simpl; split.
  - intros t ->. reflexivity.
  - intros ->. reflexivity.
  - intros t ->. reflexivity.
  - intros ->. reflexivity.
Qed.

Lemma C5_merge_policy_witness :
  let existing := seed (lit "1") None (lit "short") in
  let provision := seed (lit "1") (Some (lit "T")) (lit "much  longer") in
  pickPreferredProvision existing provision = provision.
Proof.
  intros existing provision.
  destruct (C5_merge_policy [(lit "1:zh", existing)] (mkStats 0 0) provision existing
              eq_refl) as (_ & H & _).
  rewrite H; [reflexivity | vm_compute; lia].
Defined.

(** C5, as stated, fails on the empty string: the holder wins the tie, its
    own title is [''], the incoming title is non-empty, and the kept title
    is still ['']. *)
Lemma C5_counterexample :
  let existing := seed (lit "1") (Some []) (lit "a") in
  let incoming := seed (lit "1") (Some (lit "T")) (lit "a") in
  winner existing incoming = Existing /\
  emptyTitle (title existing) = true /\
  emptyTitle (title incoming) = false /\
  title (pickPreferredProvision existing incoming) = Some [] /\
  ~ (forall e i,
        emptyTitle (title (match winner e i with Existing => e | Incoming => i end)) = true ->
        emptyTitle (title (match winner e i with Existing => i | Incoming => e end)) = false ->
        title (pickPreferredProvision e i)
        = title (match winner e i with Existing => i | Incoming => e end)).
Proof.
  intros existing incoming. repeat (split; [reflexivity|]).
  intros H. specialize (H existing incoming eq_refl eq_refl). discriminate H.
Qed.

(** C3 at a failing input: the second reference differs from the first only
    by a leading blank.  The key is built from the untrimmed reference, so
    the first pass keeps both, trimmed to the same reference; the second
    pass merges them. *)
Theorem C3_dedupe_twice_differs :
  let p1 := mkProvision (lit " 1") None (lit "1") None (lit "a") None None in
  let p2 := mkProvision (lit "1") None (lit "1") None (lit "b") None None in
  let q1 := mkProvision (lit "1") None (lit "1") None (lit "a") None None in
  deduped [p1; p2] = [q1; p2] /\
  deduped (deduped [p1; p2]) = [q1] /\
  deduped (deduped [p1; p2]) <> deduped [p1; p2].
Proof.
  intros p1 p2 q1. split; [reflexivity|]. split; [reflexivity|]. discriminate.
Qed.

(** The merge path does not trim either: a longer incoming duplicate is
    stored with its untrimmed reference, and a second pass trims it. *)
Lemma dedupe_merge_keeps_blank :
  let p1 := seed (lit " 1") None (lit "a") in
  let p2 := seed (lit " 1") None (lit "bb") in
  deduped [p1; p2] = [p2] /\
  deduped (deduped [p1; p2]) = [withRef p2 (lit "1")].
Proof. intros p1 p2. split; reflexivity. Qed.

Lemma mapGet_None (k : jsstring) (m : jsmap) :
  mapGet k m = None <-> ~ In k (map fst m).
Proof.
  induction m as [|[k' v] m IH]; simpl; [tauto|].
  destruct (str_eqb k k') eqn:E.
  - apply str_eqb_eq in E. subst. split; [discriminate | intros H; exfalso; auto].
  - rewrite IH. split.
    + intros H [->|H']; [now rewrite str_eqb_refl in E | auto].
    + intros H H'. auto.
Qed.

Lemma mapGet_Some_In (k : jsstring) (m : jsmap) (v : ProvisionSeed) :
  mapGet k m = Some v -> In (k, v) m.
Proof.
  induction m as [|[k' v'] m IH]; simpl; [discriminate|].
  destruct (str_eqb k k') eqn:E.
  - apply str_eqb_eq in E. subst. intros [= ->]. now left.
  - intros H. right. auto.
Qed.

Lemma mapSet_absent (k : jsstring) (v : ProvisionSeed) (m : jsmap) :
  ~ In k (map fst m) -> mapSet k v m = m ++ [(k, v)].
Proof.
  induction m as [|[k' v'] m IH]; simpl; intros H; [reflexivity|].
  rewrite str_eqb_neq by (intros ->; auto).
  rewrite IH by auto. reflexivity.
Qed.

Lemma mapSet_keys_present (k : jsstring) (v v0 : ProvisionSeed) (m : jsmap) :
  In (k, v0) m -> map fst (mapSet k v m) = map fst m.
Proof.
  induction m as [|[k' v'] m IH]; simpl; [contradiction|].
  destruct (str_eqb k k') eqn:E.
  - apply str_eqb_eq in E. now subst.
  - intros [[= -> ->]|H]; [now rewrite str_eqb_refl in E|].
    simpl. now rewrite IH.
Qed.

Lemma mapSet_Forall (P : jsstring * ProvisionSeed -> Prop) k v (m : jsmap) :
  P (k, v) -> Forall P m -> Forall P (mapSet k v m).
Proof.
  intros Hk. induction 1 as [|[k' v'] m Hx Hm IH]; simpl.
  - auto.
  - destruct (str_eqb k k'); constructor; auto.
Qed.

Lemma keyOf_withTitle p t : keyOf (withTitle p t) = keyOf p.
Proof. reflexivity. Qed.

Lemma pick_key (e i : ProvisionSeed) (k : jsstring) :
  keyOf e = k -> keyOf i = k -> keyOf (pickPreferredProvision e i) = k.
Proof.
  intros He Hi. unfold pickPreferredProvision.
  destruct (_ <? _)%nat; now rewrite keyOf_withTitle.
Qed.

Lemma pick_ref_trimmed (e i : ProvisionSeed) :
  trim (provision_ref e) = provision_ref e ->
  trim (provision_ref i) = provision_ref i ->
  trim (provision_ref (pickPreferredProvision e i))
  = provision_ref (pickPreferredProvision e i).
Proof.
  intros He Hi. unfold pickPreferredProvision. destruct (_ <? _)%nat; assumption.
Qed.

Lemma withRef_trimmed (p : ProvisionSeed) :
  trim (provision_ref p) = provision_ref p -> withRef p (trim (provision_ref p)) = p.
Proof. intros ->. now destruct p. Qed.

Lemma dedupeStep_keyed (m : jsmap) (stats : ProvisionDedupStats) (p : ProvisionSeed) :
  trim (provision_ref p) = provision_ref p ->
  keyed m -> keyed (fst (dedupeStep (m, stats) p)).
Proof.
  intros Hp [Hnd Hall]. unfold dedupeStep.
  destruct (mapGet (keyOf p) m) as [e|] eqn:G; simpl.
  - pose proof (mapGet_Some_In _ _ _ G) as Hin.
    split.
    + now rewrite (mapSet_keys_present _ _ e).
    + rewrite Forall_forall in Hall. destruct (Hall _ Hin) as [Hk Ht]. simpl in *.
      apply mapSet_Forall; [|now apply Forall_forall].
      simpl. split; [now apply pick_key | now apply pick_ref_trimmed].
  - apply mapGet_None in G. rewrite (mapSet_absent _ _ _ G).
    rewrite (withRef_trimmed p Hp). split.
    + rewrite map_app. simpl. apply NoDup_app; [assumption | repeat constructor; auto |].
      intros k Hk [<-|[]]. auto.
    + apply Forall_app. split; [assumption|]. repeat constructor; assumption.
Qed.

Lemma fold_keyed (ps : list ProvisionSeed) :
  Forall (fun p => trim (provision_ref p) = provision_ref p) ps ->
  forall st, keyed (fst st) -> keyed (fst (fold_left dedupeStep ps st)).
Proof.
  induction 1 as [|p ps Hp Hps IH]; intros [m stats] Hm; simpl; [assumption|].
  apply IH. now apply dedupeStep_keyed.
Qed.

Lemma second_pass (m2 : jsmap) :
  forall m1 stats, keyed (m1 ++ m2) ->
    fold_left dedupeStep (mapValues m2) (m1, stats) = (m1 ++ m2, stats).
Proof.
  induction m2 as [|[k v] m2 IH]; intros m1 stats Hk.
  - simpl. now rewrite app_nil_r.
  - destruct Hk as [Hnd Hall].
    pose proof Hall as Hall'. apply Forall_app in Hall' as [_ Hv].
    inversion Hv as [|? ? [Hkey Htrim] _]; subst. simpl in Hkey, Htrim.
    assert (Hfresh : ~ In k (map fst m1)).
    { rewrite map_app in Hnd. simpl in Hnd.
      apply NoDup_remove_2 in Hnd. intros H. apply Hnd, in_or_app. now left. }
    assert (Hstep : dedupeStep (m1, stats) v = (m1 ++ [(k, v)], stats)).
    { unfold dedupeStep. rewrite Hkey.
      destruct (mapGet k m1) eqn:G.
      { apply mapGet_Some_In in G. exfalso. apply Hfresh.
        change k with (fst (k, p)). now apply in_map. }
      now rewrite (mapSet_absent _ _ _ Hfresh), (withRef_trimmed v Htrim). }
    change (fold_left dedupeStep (mapValues ((k, v) :: m2)) (m1, stats))
      with (fold_left dedupeStep (mapValues m2) (dedupeStep (m1, stats) v)).
    rewrite Hstep, IH.
    + now rewrite <- app_assoc.
    + rewrite <- app_assoc. split; assumption.
Qed.

Lemma dedupe_idempotent_trimmed (ps : list ProvisionSeed) :
  Forall (fun p => trim (provision_ref p) = provision_ref p) ps ->
  deduped (deduped ps) = deduped ps.
Proof.
  intros H. unfold deduped, dedupeProvisions.
  destruct (fold_left dedupeStep ps ([], mkStats 0 0)) as [m stats] eqn:F.
  assert (K : keyed m).
  { change m with (fst (m, stats)). rewrite <- F.
    apply fold_keyed; [assumption|]. split; constructor. }
  simpl. rewrite (second_pass m [] (mkStats 0 0) K). reflexivity.
Qed.

End DedupProperties.

(** ** Fetcher retry loop *)

Section FetcherProperties.
Import Fetcher.

Variable url : jsstring.

(** The loop never calls [fetch] more than [maxRetries + 1] times. *)
Lemma attemptLoop_bound (net : nat -> outcome) (maxRetries : nat) :
  forall fuel attempt slept,
    (attempts (attemptLoop net url maxRetries fuel attempt slept)
     <= attempt + fuel)%nat.
Proof.
  induction fuel as [|fuel IH]; intros attempt slept; simpl; [lia|].
  destruct (net attempt) as [r|e].
  - destruct (retryable (status r) && (attempt <? maxRetries)%nat); simpl.
    + specialize (IH (S attempt) (slept ++ [backoffMs attempt])). lia.
    + lia.
  - destruct (attempt <? maxRetries)%nat; simpl.
    + specialize (IH (S attempt) (slept ++ [backoffMs attempt])). lia.
    + lia.
Qed.

(** Only the outcomes of the first [maxRetries + 1] attempts matter. *)
Lemma attemptLoop_ext (net net' : nat -> outcome) (maxRetries : nat) :
  forall fuel attempt slept,
    (forall k, (k < attempt + fuel)%nat -> net k = net' k) ->
    attemptLoop net url maxRetries fuel attempt slept
    = attemptLoop net' url maxRetries fuel attempt slept.
Proof.
  induction fuel as [|fuel IH]; intros attempt slept H; simpl; [reflexivity|].
  rewrite <- (H attempt) by lia.
  destruct (net attempt) as [r|e].
  - destruct (retryable (status r) && (attempt <? maxRetries)%nat);
      [apply IH; intros k Hk; apply H; lia | reflexivity].
  - destruct (attempt <? maxRetries)%nat;
      [apply IH; intros k Hk; apply H; lia | reflexivity].
Qed.

(** The loop always settles inside its [maxRetries + 1] iterations: it
    returns the response of some attempt, or rethrows the rejection of the
    last one; the [throw] behind the loop is never reached. *)
Lemma attemptLoop_settles (net : nat -> outcome) (maxRetries : nat) :
  forall fuel attempt slept,
    (attempt + fuel = S maxRetries)%nat -> (0 < fuel)%nat ->
    let out := attemptLoop net url maxRetries fuel attempt slept in
    (exists k r, (k <= maxRetries)%nat /\ net k = Response r /\
                 settled out = Returned r /\ attempts out = S k)
    \/ (exists e, net maxRetries = Rejected e /\
                  settled out = Thrown e /\ attempts out = S maxRetries).
Proof.
  induction fuel as [|fuel IH]; intros attempt slept Hsum Hpos; [lia|].
  cbn [attemptLoop]. destruct (net attempt) as [r|e] eqn:Hnet.
  - destruct (retryable (status r) && (attempt <? maxRetries)%nat) eqn:Hretry.
    + apply andb_true_iff in Hretry. destruct Hretry as [_ Hlt].
      apply Nat.ltb_lt in Hlt. apply IH; lia.
    + left. exists attempt, r. repeat split; [lia | assumption].
  - destruct (Nat.ltb_spec attempt maxRetries) as [Hlt|Hge].
    + apply IH; lia.
    + right. assert (attempt = maxRetries) by lia. subst.
      exists e. repeat split. assumption.
Qed.

(** When every attempt meets a retryable status, the loop stops after
    [maxRetries + 1] attempts and returns the last response as its result. *)
Lemma exhausted_returns_last (net : nat -> outcome) (maxRetries : nat)
      (r : nat -> FetchResult) :
  (forall k, (k <= maxRetries)%nat ->
             net k = Response (r k) /\ retryable (status (r k)) = true) ->
  forall fuel attempt slept,
    (attempt + fuel = S maxRetries)%nat -> (0 < fuel)%nat ->
    let out := attemptLoop net url maxRetries fuel attempt slept in
    settled out = Returned (r maxRetries) /\ attempts out = S maxRetries.
Proof.
  intros H. induction fuel as [|fuel IH]; intros attempt slept Hsum Hpos; [lia|].
  destruct (H attempt) as [Hnet Hretry]; [lia|].
  cbn [attemptLoop]. rewrite Hnet, Hretry. cbn [andb].
  destruct (Nat.ltb_spec attempt maxRetries) as [Hlt|Hge].
  - apply IH; lia.
  - assert (attempt = maxRetries) by lia. subst. split; reflexivity.
Qed.

(** C2 (amended): with a budget of 3 retries, the responses 500, 500, 200
    give the 200 response after three attempts, with backoffs of 2000 and
    4000 ms; four responses 500 in a row end the retries after the fourth
    attempt, and what the caller gets is that fourth response itself,
    returned as an ordinary result with status 500 and not thrown.  Whatever
    the network does and whatever the budget, no more than maxRetries + 1
    attempts are made (4 with the budget of 3), and the promise rejects only
    by rethrowing the rejection of the last attempt the budget allows: if it
    rejects with an error, attempt number maxRetries was rejected with that
    error after maxRetries + 1 attempts; when the last attempt is answered,
    whatever its status, the promise resolves. *)
Theorem C2_retry_budget (net : nat -> outcome) (b0 b1 b2 b3 c0 c1 c2 c3 : jsstring) :
  (net 0%nat = Response (mkFetchResult 500 b0 c0) ->
   net 1%nat = Response (mkFetchResult 500 b1 c1) ->
   net 2%nat = Response (mkFetchResult 200 b2 c2) ->
   fetchWithRateLimit net url 3
   = mkRun (Returned (mkFetchResult 200 b2 c2)) 3 [2000; 4000])
  /\ (net 0%nat = Response (mkFetchResult 500 b0 c0) ->
      net 1%nat = Response (mkFetchResult 500 b1 c1) ->
      net 2%nat = Response (mkFetchResult 500 b2 c2) ->
      net 3%nat = Response (mkFetchResult 500 b3 c3) ->
      fetchWithRateLimit net url 3
      = mkRun (Returned (mkFetchResult 500 b3 c3)) 4 [2000; 4000; 8000])
  /\ (forall maxRetries,
        (attempts (fetchWithRateLimit net url maxRetries) <= S maxRetries)%nat)
  /\ (attempts (fetchWithRateLimit net url 3) <= 4)%nat
  /\ (forall maxRetries error,
        settled (fetchWithRateLimit net url maxRetries) = Thrown error ->
        net maxRetries = Rejected error
        /\ attempts (fetchWithRateLimit net url maxRetries) = S maxRetries)
  /\ (forall maxRetries r,
        net maxRetries = Response r ->
        isThrown (settled (fetchWithRateLimit net url maxRetries)) = false).
Proof.
  assert (Thrown_only : forall maxRetries error,
             settled (fetchWithRateLimit net url maxRetries) = Thrown error ->
             net maxRetries = Rejected error
             /\ attempts (fetchWithRateLimit net url maxRetries) = S maxRetries).
  { intros maxRetries error H. unfold fetchWithRateLimit in *.
    destruct (attemptLoop_settles net maxRetries (S maxRetries) 0 []
                ltac:(lia) ltac:(lia))
      as [(k & r & _ & _ & E & _)|(e & Hn & E & Ha)].
    - rewrite E in H. discriminate H.
    - rewrite E in H. injection H as <-. now split. }
  unfold fetchWithRateLimit in *.
  split; [|split; [|split; [|split; [|split]]]].
  - intros H0 H1 H2. simpl. rewrite H0. simpl. rewrite H1. simpl. rewrite H2.
    reflexivity.
  - intros H0 H1 H2 H3. simpl. rewrite H0. simpl. rewrite H1. simpl.
    rewrite H2. simpl. rewrite H3. reflexivity.
  - intros maxRetries. apply (attemptLoop_bound net maxRetries (S maxRetries) 0 []).
  - apply (attemptLoop_bound net 3 4 0 []).
  - exact Thrown_only.
  - intros maxRetries r Hr.
    destruct (settled (attemptLoop net url maxRetries (S maxRetries) 0 []))
      as [r'|e] eqn:E; [reflexivity|].
    destruct (Thrown_only maxRetries e E) as [Hn _]. congruence.
Qed.

End FetcherProperties.

Lemma C2_retry_budget_witness :
  let r s b := Fetcher.mkFetchResult s b (lit "text/html") in
  Fetcher.fetchWithRateLimit
    (Fetcher.scripted [r 500 (lit "e1"); r 500 (lit "e2"); r 200 (lit "page")])
    (lit "u") 3
  = Fetcher.mkRun (Fetcher.Returned (r 200 (lit "page"))) 3 [2000; 4000].
Proof.
  intros r.
  apply (C2_retry_budget (lit "u")
           (Fetcher.scripted [r 500 (lit "e1"); r 500 (lit "e2"); r 200 (lit "page")])
           (lit "e1") (lit "e2") (lit "page") [] (lit "text/html") (lit "text/html")
           (lit "text/html") []);
    reflexivity.
Defined.

(** C2, as stated, fails on its second half: after four responses 500 the
    promise resolves with a result whose status is 500; nothing is thrown. *)
Lemma C2_counterexample :
  let r b := Fetcher.mkFetchResult 500 b (lit "text/html") in
  let net := Fetcher.scripted [r (lit "e1"); r (lit "e2"); r (lit "e3"); r (lit "e4")] in
  Fetcher.settled (Fetcher.fetchWithRateLimit net (lit "u") 3)
  = Fetcher.Returned (r (lit "e4")) /\
  Fetcher.isThrown (Fetcher.settled (Fetcher.fetchWithRateLimit net (lit "u") 3))
  = false.
Proof. intros r net. split; reflexivity. Qed.

(** ** Citation resolver: the failure paths *)

Section CitationFailure.
Import Citation.

(** C10: formatCitation returns the empty string for every citation whose
    valid flag is false or whose article field is absent, whatever the
    requested style. *)
Theorem C10_format_invalid_is_empty (parsed : ParsedCitation) (format : CitationFormat) :
  valid parsed = false \/ article parsed = None ->
  formatCitation parsed format = [].
Proof.
  intros [H|H]; unfold formatCitation; rewrite H; simpl.
  - reflexivity.
  - now rewrite orb_true_r.
Qed.

Lemma C10_format_invalid_is_empty_witness :
  formatCitation (mkCitation true statute (Some (lit "CSL")) None None
                             (Some (lit "2")) None) short = [].
Proof. apply C10_format_invalid_is_empty. right. reflexivity. Defined.

(** C9: a citation string that none of the seven surface-syntax patterns
    matches yields the structured invalid result: valid is false, the type
    is unknown, and the error field carries the readable reason, the fixed
    message followed by the quoted input.  parseCitation is a total function:
    no input makes it fail. *)
Theorem C9_no_match_is_invalid (citation : jsstring) :
  Forall (fun r => exec r (trim citation) = None) PATTERNS ->
  parseCitation citation
  = mkCitation false unknown None None None None
      (Some (lit "Could not parse Chinese law citation: "
             ++ [34] ++ trim citation ++ [34])).
Proof.
  intros H. unfold PATTERNS in H.
  repeat match goal with
         | H : Forall _ (_ :: _) |- _ => inversion_clear H
         end.
  unfold parseCitation.
  repeat match goal with
         | E : exec ?r _ = None |- _ => rewrite E; clear E
         end.
  reflexivity.
Qed.

(** Conversely a match of any of the seven patterns gives a valid result. *)
Lemma parseCitation_invalid_only_without_match (citation : jsstring) :
  valid (parseCitation citation) = false ->
  Forall (fun r => exec r (trim citation) = None) PATTERNS.
Proof.
  unfold parseCitation, PATTERNS.
  repeat match goal with
         | |- context [match exec ?r ?s with _ => _ end] =>
             destruct (exec r s) eqn:?; [discriminate|]
         end.
  intros _. repeat constructor; assumption.
Qed.

Lemma C9_no_match_is_invalid_witness :
  parseCitation (lit " see the statute ")
  = mkCitation false unknown None None None None
      (Some (lit "Could not parse Chinese law citation: "
             ++ [34] ++ lit "see the statute" ++ [34])).
Proof.
  apply (C9_no_match_is_invalid (lit " see the statute ")).
  repeat constructor.
Defined.

End CitationFailure.

(** ** Provision extractor *)

Section ExtractorProperties.
Import Extractor.

(** C6, as stated, fails when the open article has no content line yet: the
    marker "第一条" opens article 1, the next marker does not save it, and the
    law comes out without a provision "1". *)
Lemma C6_counterexample :
  let st := step (lit "zh") state0 bare_1 in
  currentArticleNum st = lit "1" /\
  test ARTICLE_PATTERN para_2 = true /\
  collected (step (lit "zh") st para_2) = [] /\
  extractProvisions (lit "zh") [bare_1; para_2]
  = [mkParsed (lit "2") (lit "2") [] [0x5185; 0x5BB9; 0x4E59] (lit "zh")].
Proof. intros st. repeat split. Qed.

End ExtractorProperties.

(** ** Query normaliser *)

Section FtsProperties.
Import Fts.

Variable sanitiseToken : jsstring -> jsstring.

(** Properties of the one-pass deletion of dash pairs are proved for a
    string and for the string with one more unit in front at once, since the
    function recurses two units down. *)
Lemma stripSemicolons_length (s : jsstring) :
  (length (stripSemicolons s) <= length s)%nat.
Proof. apply filter_length_le. Qed.

Lemma stripDashPairs_ind2 (P : jsstring -> Prop) :
  P [] ->
  (forall a, P [a]) ->
  (forall rest, P rest -> P (45 :: 45 :: rest)) ->
  (forall a b rest, (a =? 45) && (b =? 45) = false ->
                    P (b :: rest) -> P (a :: b :: rest)) ->
  forall s, P s.
Proof.
  intros H0 H1 H2 H3 s.
  assert (J : P s /\ forall c, P (c :: s)).
  { induction s as [|b s [IH1 IH2]].
    - split; [exact H0 | exact H1].
    - split; [apply IH2|]. intros a.
      destruct ((a =? 45) && (b =? 45)) eqn:E.
      + apply andb_true_iff in E. destruct E as [Ea Eb].
        apply Z.eqb_eq in Ea, Eb. subst. now apply H2.
      + apply H3; [assumption | apply IH2]. }
  apply J.
Qed.

Lemma stripDashPairs_pair (rest : list Z) :
  stripDashPairs (45 :: 45 :: rest) = stripDashPairs rest.
Proof. reflexivity. Qed.

Lemma stripDashPairs_keep (a b : Z) (rest : list Z) :
  (a =? 45) && (b =? 45) = false ->
  stripDashPairs (a :: b :: rest) = a :: stripDashPairs (b :: rest).
Proof. intros H. cbn [stripDashPairs]. now rewrite H. Qed.

Lemma stripDashPairs_length (s : jsstring) :
  (length (stripDashPairs s) <= length s)%nat.
Proof.
  induction s as [| a | rest IH | a b rest E IH] using stripDashPairs_ind2.
  - simpl. lia.
  - simpl. lia.
  - rewrite stripDashPairs_pair. simpl. lia.
  - rewrite (stripDashPairs_keep a b rest E). simpl in *. lia.
Qed.

Lemma stripDashPairs_In (c : char) (s : jsstring) :
  In c (stripDashPairs s) -> In c s.
Proof.
  induction s as [| a | rest IH | a b rest E IH] using stripDashPairs_ind2.
  - auto.
  - auto.
  - rewrite stripDashPairs_pair. intros H. right. right. auto.
  - rewrite (stripDashPairs_keep a b rest E). intros [->|H]; [now left | right; auto].
Qed.

Lemma stripDashPairs_head (s : jsstring) (x : char) (r : jsstring) :
  stripDashPairs s = x :: r -> x = 45 -> exists r', s = 45 :: r'.
Proof.
  destruct s as [|a [|b rest]].
  - discriminate.
  - simpl. intros [= -> _] ->. now exists [].
  - destruct ((a =? 45) && (b =? 45)) eqn:E.
    + apply andb_true_iff in E. destruct E as [Ea _]. apply Z.eqb_eq in Ea.
      subst. intros _ _. now exists (b :: rest).
    + rewrite (stripDashPairs_keep a b rest E). intros [= -> _] ->.
      now exists (b :: rest).
Qed.

Lemma hasDashPair_cons (a : Z) (s : list Z) :
  hasDashPair (a :: s)
  = match s with
    | b :: _ => ((a =? 45) && (b =? 45)) || hasDashPair s
    | [] => false
    end.
Proof. reflexivity. Qed.

(** After the pass no two dashes stand side by side. *)
Lemma stripDashPairs_clean (s : jsstring) : hasDashPair (stripDashPairs s) = false.
Proof.
  induction s as [| a | rest IH | a b rest E IH] using stripDashPairs_ind2.
  - reflexivity.
  - reflexivity.
  - now rewrite stripDashPairs_pair.
  - rewrite (stripDashPairs_keep a b rest E), hasDashPair_cons.
    destruct (stripDashPairs (b :: rest)) as [|x r] eqn:S; [reflexivity|].
    rewrite IH, orb_false_r.
    destruct (Z.eqb_spec a 45) as [->|]; [|reflexivity].
    destruct (Z.eqb_spec x 45) as [->|]; [|reflexivity].
    destruct (stripDashPairs_head _ _ _ S eq_refl) as [r' [= ->]].
    discriminate E.
Qed.

Lemma hasDashPair_snoc (s : jsstring) (q : char) :
  q <> 45 -> hasDashPair (s ++ [q]) = hasDashPair s.
Proof.
  intros Hq. induction s as [|a s IH]; [reflexivity|].
  change ((a :: s) ++ [q]) with (a :: (s ++ [q])).
  rewrite !hasDashPair_cons, IH.
  destruct s as [|b s]; simpl; [|reflexivity].
  destruct (Z.eqb_spec q 45); [contradiction|]. now rewrite andb_false_r.
Qed.

Lemma hasSemicolon_false (s : jsstring) :
  hasSemicolon s = false <-> ~ In 59 s.
Proof.
  unfold hasSemicolon. split.
  - intros H Hin. assert (E : existsb (fun c => c =? 59) s = true).
    { apply existsb_exists. exists 59. split; [assumption | reflexivity]. }
    congruence.
  - intros H. destruct (existsb _ s) eqn:E; [|reflexivity].
    apply existsb_exists in E. destruct E as (c & Hc & Ec).
    apply Z.eqb_eq in Ec. subst. contradiction.
Qed.

Lemma stripSemicolons_clean (s : jsstring) : ~ In 59 (stripSemicolons s).
Proof.
  unfold stripSemicolons. intros H. apply filter_In in H. destruct H as [_ H].
  discriminate H.
Qed.

Lemma balanceQuotes_cases (n : jsstring) :
  balanceQuotes n = n \/ balanceQuotes n = n ++ [quote].
Proof. unfold balanceQuotes. destruct (Nat.even _); auto. Qed.

Lemma quoteCount_snoc (n : jsstring) : quoteCount (n ++ [quote]) = S (quoteCount n).
Proof.
  unfold quoteCount. rewrite filter_app, length_app. simpl. lia.
Qed.

Lemma balanceQuotes_even (n : jsstring) :
  Nat.even (quoteCount (balanceQuotes n)) = true.
Proof.
  unfold balanceQuotes. destruct (Nat.even (quoteCount n)) eqn:E; [assumption|].
  rewrite quoteCount_snoc, Nat.even_succ. unfold Nat.odd. now rewrite E.
Qed.

Lemma straightenQuotes_length (s : jsstring) :
  length (straightenQuotes s) = length s.
Proof. apply length_map. Qed.

Lemma test_explicit_nonempty (t : jsstring) :
  test EXPLICIT_FTS_SYNTAX t = true -> t <> [].
Proof. intros H ->. discriminate H. Qed.

(** C8 (amended): for every query whose trimmed text, cut to 1000 units,
    holds explicit index syntax (a double quote, a word-bounded AND, OR or
    NOT, or a trailing asterisk), buildFtsQueryVariants returns a primary
    variant and no fallback; the primary is that text with the typographic
    double quotes replaced by the ASCII one, then every semicolon and every
    pair of dashes deleted, then a closing quote appended when the number of
    double quotes is odd; no semicolon and no pair of dashes is left in it,
    and its number of double quotes is even. *)
Theorem C8_explicit_syntax_repair (query : jsstring) :
  let trimmed := slice0 MAX_QUERY_LENGTH (trim query) in
  test EXPLICIT_FTS_SYNTAX trimmed = true ->
  let v := buildFtsQueryVariants sanitiseToken query in
  fallback v = None
  /\ primary v
     = balanceQuotes (stripDashPairs (stripSemicolons (straightenQuotes trimmed)))
  /\ hasSemicolon (primary v) = false
  /\ hasDashPair (primary v) = false
  /\ Nat.even (quoteCount (primary v)) = true.
Proof.
  intros trimmed Htest v.
  assert (Hlen : (length trimmed <= MAX_QUERY_LENGTH)%nat)
    by apply firstn_le_length.
  set (n := stripDashPairs (stripSemicolons (straightenQuotes trimmed))).
  assert (Hn : (length n <= MAX_QUERY_LENGTH)%nat).
  { pose proof (stripDashPairs_length (stripSemicolons (straightenQuotes trimmed))).
    pose proof (stripSemicolons_length (straightenQuotes trimmed)).
    pose proof (straightenQuotes_length trimmed). subst n. lia. }
  assert (Hv : v = mkVariants (balanceQuotes n) None).
  { subst v. unfold buildFtsQueryVariants. fold trimmed.
    destruct trimmed as [|c t] eqn:T; [discriminate Htest|].
    rewrite Htest. fold n. unfold slice0. now rewrite firstn_all2. }
  rewrite Hv. simpl. split; [reflexivity|]. split; [reflexivity|].
  assert (Hsemi : ~ In 59 n).
  { intros H. apply stripDashPairs_In in H. now apply stripSemicolons_clean in H. }
  split; [|split].
  - apply hasSemicolon_false.
    destruct (balanceQuotes_cases n) as [-> | ->]; [assumption|].
    intros H. apply in_app_or in H. destruct H as [H|[H|[]]]; [auto | discriminate H].
  - destruct (balanceQuotes_cases n) as [-> | ->].
    + apply stripDashPairs_clean.
    + rewrite hasDashPair_snoc by discriminate. apply stripDashPairs_clean.
  - apply balanceQuotes_even.
Qed.

End FtsProperties.

Lemma C8_explicit_syntax_repair_witness :
  Fts.primary (Fts.buildFtsQueryVariants (fun t => t)
                 (lit " a AND b;c--d ---e " ++ [34]))
  = lit "a AND bcd -e " ++ [34; 34].
Proof.
  destruct (C8_explicit_syntax_repair (fun t => t)
              (lit " a AND b;c--d ---e " ++ [34]) eq_refl) as (_ & H & _).
  rewrite H. reflexivity.
Defined.

(** C8, as stated, fails on "otherwise preserved verbatim": in a query that
    opens with a typographic quote and closes with an ASCII one, the
    typographic quote is rewritten, where the verbatim repair would keep it
    and append a closing quote. *)
Lemma C8_counterexample :
  let query := [0x201C] ++ lit "a" ++ [34] in
  Regex.test Fts.EXPLICIT_FTS_SYNTAX query = true /\
  Fts.buildFtsQueryVariants (fun t => t) query
  = Fts.mkVariants ([34] ++ lit "a" ++ [34]) None /\
  Fts.verbatimRepair query = [0x201C] ++ lit "a" ++ [34; 34] /\
  Fts.primary (Fts.buildFtsQueryVariants (fun t => t) query)
  <> Fts.verbatimRepair query.
Proof. intros query. repeat split. discriminate. Qed.

(** ** Facts about the backtracking matcher *)

Section RegexFacts.

Lemma in_seqResult (m1 : list Z) (x : result) (l : list result) :
  In x (map (seqResult m1) l) ->
  exists m2 s2 c2, In (m2, s2, c2) l /\ x = (m1 ++ m2, s2, c2).
Proof.
  intros H. apply in_map_iff in H. destruct H as ([[m2 s2] c2] & <- & Hin).
  now exists m2, s2, c2.
Qed.

Lemma in_run_Seq (a b : re) prev s c (x : result) :
  In x (run (Seq a b) prev s c) <->
  exists m1 s1 c1 m2 s2 c2,
    In (m1, s1, c1) (run a prev s c) /\
    In (m2, s2, c2) (run b (lastp prev m1) s1 c1) /\
    x = (m1 ++ m2, s2, c2).
Proof.
  cbn [run]. rewrite in_flat_map. split.
  - intros ([[m1 s1] c1] & H1 & H2).
    apply in_seqResult in H2. destruct H2 as (m2 & s2 & c2 & H2 & ->).
    now exists m1, s1, c1, m2, s2, c2.
  - intros (m1 & s1 & c1 & m2 & s2 & c2 & H1 & H2 & ->).
    exists (m1, s1, c1). split; [assumption|].
    apply in_map_iff. now exists (m2, s2, c2).
Qed.

(** Every way to match splits the input into the matched text and the rest. *)
Lemma run_split (r : re) :
  forall prev s c m rest c',
    In (m, rest, c') (run r prev s c) -> s = m ++ rest.
Proof.
  induction r as [| | | |p|g lo hi p|r IH|a IHa b IHb|a IHa b IHb|n r IH];
    intros prev s c m rest c' H.
  - destruct H as [[= <- <- _]|[]]. reflexivity.
  - simpl in H. destruct prev; [contradiction|].
    destruct H as [[= <- <- _]|[]]. reflexivity.
  - simpl in H. destruct s; [|contradiction].
    destruct H as [[= <- <- _]|[]]. reflexivity.
  - simpl in H. destruct (xorb _ _); [|contradiction].
    destruct H as [[= <- <- _]|[]]. reflexivity.
  - simpl in H. destruct s as [|x s]; [contradiction|].
    destruct (p x); [|contradiction].
    destruct H as [[= <- <- _]|[]]. reflexivity.
  - simpl in H. apply in_map_iff in H. destruct H as (i & [= <- <- _] & _).
    symmetry. apply firstn_skipn.
  - simpl in H. apply in_app_or in H. destruct H as [H|[[= <- <- _]|[]]].
    + apply filter_In in H. destruct H as [H _]. eauto.
    + reflexivity.
  - apply in_run_Seq in H.
    destruct H as (m1 & s1 & c1 & m2 & s2 & c2 & H1 & H2 & [= -> -> ->]).
    apply IHa in H1. apply IHb in H2. subst. now rewrite app_assoc.
  - simpl in H. apply in_app_or in H. destruct H; eauto.
  - simpl in H. apply in_map_iff in H.
    destruct H as ([[m0 s0] c0] & [= -> -> _] & H). eauto.
Qed.

Lemma group_app_notin (k : nat) (extra c : captures) :
  ~ In k (map fst extra) -> group k (extra ++ c) = group k c.
Proof.
  induction extra as [|[j v] extra IH]; simpl; intros H; [reflexivity|].
  destruct (Nat.eqb_spec j k) as [->|]; [exfalso; auto|]. apply IH. auto.
Qed.

(** Matching only adds captures, and only for the groups of the pattern. *)
Lemma run_caps (r : re) :
  forall prev s c m rest c',
    In (m, rest, c') (run r prev s c) ->
    exists extra, c' = extra ++ c /\ incl (map fst extra) (groupsOf r).
Proof.
  induction r as [| | | |p|g lo hi p|r IH|a IHa b IHb|a IHa b IHb|n r IH];
    intros prev s c m rest c' H.
  - destruct H as [[= _ _ <-]|[]]. exists []. split; [reflexivity | easy].
  - simpl in H. destruct prev; [contradiction|].
    destruct H as [[= _ _ <-]|[]]. exists []. split; [reflexivity | easy].
  - simpl in H. destruct s; [|contradiction].
    destruct H as [[= _ _ <-]|[]]. exists []. split; [reflexivity | easy].
  - simpl in H. destruct (xorb _ _); [|contradiction].
    destruct H as [[= _ _ <-]|[]]. exists []. split; [reflexivity | easy].
  - simpl in H. destruct s as [|x s]; [contradiction|].
    destruct (p x); [|contradiction].
    destruct H as [[= _ _ <-]|[]]. exists []. split; [reflexivity | easy].
  - simpl in H. apply in_map_iff in H. destruct H as (i & [= _ _ <-] & _).
    exists []. split; [reflexivity | easy].
  - simpl in H. apply in_app_or in H. destruct H as [H|[[= _ _ <-]|[]]].
    + apply filter_In in H. destruct H as [H _]. eauto.
    + exists []. split; [reflexivity | easy].
  - apply in_run_Seq in H.
    destruct H as (m1 & s1 & c1 & m2 & s2 & c2 & H1 & H2 & [= -> -> ->]).
    apply IHa in H1. apply IHb in H2.
    destruct H1 as (e1 & -> & I1). destruct H2 as (e2 & -> & I2).
    exists (e2 ++ e1). split; [now rewrite app_assoc|].
    rewrite map_app. simpl. intros k Hk. apply in_app_or in Hk.
    apply in_or_app. destruct Hk; [right | left]; auto.
  - simpl in H. apply in_app_or in H. simpl.
    destruct H as [H|H]; [apply IHa in H | apply IHb in H];
      destruct H as (e & -> & I); exists e; (split; [reflexivity|]);
      intros k Hk; apply in_or_app; [left | right]; auto.
  - simpl in H. apply in_map_iff in H.
    destruct H as ([[m0 s0] c0] & [= -> -> <-] & H).
    apply IH in H. destruct H as (e & -> & I).
    exists ((n, m) :: e). split; [reflexivity|].
    simpl. intros k [<-|Hk]; [now left | right; auto].
Qed.

Lemma run_group_kept (r : re) (k : nat) prev s c m rest c' :
  ~ In k (groupsOf r) ->
  In (m, rest, c') (run r prev s c) -> group k c' = group k c.
Proof.
  intros Hk H. apply run_caps in H. destruct H as (e & -> & I).
  apply group_app_notin. intros Hin. apply Hk, I, Hin.
Qed.

(** Captures and the unit before the position do not steer a pattern
    without assertions. *)
Lemma shape_flat_map (f1 f2 : result -> list result) (l1 l2 : list result) :
  shape l1 = shape l2 ->
  (forall m s c1 c2, shape (f1 (m, s, c1)) = shape (f2 (m, s, c2))) ->
  shape (flat_map f1 l1) = shape (flat_map f2 l2).
Proof.
  intros Hl Hf. revert l2 Hl.
  induction l1 as [|[[m s] c1] l1 IH]; intros [|[[m' s'] c2] l2] Hl;
    try discriminate; [reflexivity|].
  simpl in Hl. injection Hl as -> -> Hl.
  unfold shape in *. simpl. rewrite !map_app. f_equal; [apply Hf | now apply IH].
Qed.

Lemma shape_filter (l1 l2 : list result) :
  shape l1 = shape l2 ->
  shape (filter nonEmpty l1) = shape (filter nonEmpty l2).
Proof.
  revert l2. induction l1 as [|[[m s] c1] l1 IH]; intros [|[[m' s'] c2] l2] Hl;
    try discriminate; [reflexivity|].
  simpl in Hl. injection Hl as -> -> Hl. simpl.
  destruct (negb (isNil m')); simpl; [f_equal|]; now apply IH.
Qed.

Lemma run_shape (r : re) :
  contextFree r = true ->
  forall prev prev' s c c',
    shape (run r prev s c) = shape (run r prev' s c').
Proof.
  induction r as [| | | |p|g lo hi p|r IH|a IHa b IHb|a IHa b IHb|n r IH];
    intros Hcf prev prev' s c c'; try discriminate Hcf; simpl in Hcf.
  - reflexivity.
  - simpl. destruct s; reflexivity.
  - simpl. destruct s as [|x s]; [reflexivity|]. destruct (p x); reflexivity.
  - simpl. unfold shape. rewrite !map_map. reflexivity.
  - simpl. unfold shape in *. rewrite !map_app. f_equal.
    apply shape_filter. now apply IH.
  - apply andb_true_iff in Hcf. destruct Hcf as [Ha Hb].
    cbn [run]. apply shape_flat_map; [now apply IHa|].
    intros m s1 c1 c2. unfold shape. rewrite !map_map.
    specialize (IHb Hb (lastp prev m) (lastp prev' m) s1 c1 c2).
    unfold shape in IHb.
    revert IHb. generalize (run b (lastp prev m) s1 c1) (run b (lastp prev' m) s1 c2).
    induction l as [|[[m2 s2] c3] l IHl]; intros [|[[m3 s3] c4] l'] E;
      try discriminate; [reflexivity|].
    simpl in E. injection E as -> -> E. simpl. f_equal. now apply IHl.
  - apply andb_true_iff in Hcf. destruct Hcf as [Ha Hb].
    simpl. unfold shape in *. rewrite !map_app. f_equal; auto.
  - simpl. unfold shape in *. rewrite !map_map.
    specialize (IH Hcf prev prev' s c c').
    revert IH. generalize (run r prev s c) (run r prev' s c').
    induction l as [|[[m2 s2] c3] l IHl]; intros [|[[m3 s3] c4] l'] E;
      try discriminate; [reflexivity|].
    simpl in E. injection E as -> -> E. simpl. f_equal. now apply IHl.
Qed.

Lemma run_nil_shape (r : re) prev prev' s c c' :
  contextFree r = true -> run r prev s c = [] -> run r prev' s c' = [].
Proof.
  intros Hcf H. pose proof (run_shape r Hcf prev prev' s c c') as E.
  rewrite H in E. destruct (run r prev' s c'); [reflexivity | discriminate E].
Qed.

End RegexFacts.

(** ** The match the engine reports: stepping through a pattern *)

Section Stepping.

Lemma hd_error_app_Some {A : Type} (l1 l2 : list A) (x : A) :
  hd_error l1 = Some x -> hd_error (l1 ++ l2) = Some x.
Proof. destruct l1; [discriminate | auto]. Qed.

Lemma hd_error_map {A B : Type} (f : A -> B) (l : list A) (x : A) :
  hd_error l = Some x -> hd_error (map f l) = Some (f x).
Proof. destruct l; [discriminate|]. now intros [= ->]. Qed.

Lemma hd_error_In {A : Type} (l : list A) (x : A) :
  hd_error l = Some x -> In x l.
Proof. destruct l; [discriminate|]. intros [= ->]. now left. Qed.

Lemma In_hd_error {A : Type} (l : list A) (x : A) :
  In x l -> exists y, hd_error l = Some y.
Proof. destruct l as [|y l]; [contradiction|]. now exists y. Qed.

Lemma hd_seq (a b : re) prev s c m1 s1 c1 m2 s2 c2 :
  hd_error (run a prev s c) = Some (m1, s1, c1) ->
  hd_error (run b (lastp prev m1) s1 c1) = Some (m2, s2, c2) ->
  hd_error (run (Seq a b) prev s c) = Some (m1 ++ m2, s2, c2).
Proof.
  intros Ha Hb. cbn [run].
  destruct (run a prev s c) as [|x l]; [discriminate|].
  injection Ha as ->. cbn [flat_map].
  apply hd_error_app_Some.
  now rewrite (hd_error_map (seqResult m1) _ _ Hb).
Qed.

Lemma hd_cls (p : Z -> bool) prev x s c :
  p x = true -> hd_error (run (Cls p) prev (x :: s) c) = Some ([x], s, c).
Proof. intros H. simpl. now rewrite H. Qed.

Lemma hd_grp (n : nat) (r : re) prev s c m s' c' :
  hd_error (run r prev s c) = Some (m, s', c') ->
  hd_error (run (Grp n r) prev s c) = Some (m, s', (n, m) :: c').
Proof. intros H. cbn [run]. now rewrite (hd_error_map (grpResult n) _ _ H). Qed.

Lemma hd_opt_some (r : re) prev s c x m s' c' :
  hd_error (run r prev s c) = Some (x :: m, s', c') ->
  hd_error (run (Opt r) prev s c) = Some (x :: m, s', c').
Proof.
  intros H. cbn [run]. destruct (run r prev s c) as [|y l]; [discriminate|].
  injection H as ->. reflexivity.
Qed.

Lemma hd_opt_none (r : re) prev s c :
  run r prev s c = [] -> hd_error (run (Opt r) prev s c) = Some ([], s, c).
Proof. intros H. cbn [run]. now rewrite H. Qed.

Lemma hd_alt_l (a b : re) prev s c x :
  hd_error (run a prev s c) = Some x ->
  hd_error (run (Alt a b) prev s c) = Some x.
Proof. intros H. cbn [run]. now apply hd_error_app_Some. Qed.

Lemma hd_alt_r (a b : re) prev s c x :
  run a prev s c = [] ->
  hd_error (run b prev s c) = Some x ->
  hd_error (run (Alt a b) prev s c) = Some x.
Proof. intros Ha H. cbn [run]. now rewrite Ha. Qed.

(** Class quantifiers. *)
Lemma spanLen_app (p : Z -> bool) (xs s' : list Z) :
  forallb p xs = true -> stopsAt p s' = true ->
  spanLen p (xs ++ s') = length xs.
Proof.
  intros Hxs Hs. induction xs as [|x xs IH].
  - destruct s' as [|y s']; [reflexivity|]. simpl in *.
    destruct (p y); [discriminate Hs | reflexivity].
  - simpl in *. apply andb_true_iff in Hxs. destruct Hxs as [-> Hxs].
    now rewrite IH.
Qed.

Lemma spanLen_ge (p : Z -> bool) (xs s' : list Z) :
  forallb p xs = true -> (length xs <= spanLen p (xs ++ s'))%nat.
Proof.
  intros Hxs. induction xs as [|x xs IH]; simpl in *; [lia|].
  apply andb_true_iff in Hxs. destruct Hxs as [-> Hxs].
  specialize (IH Hxs). lia.
Qed.

Lemma firstn_length_app (xs s' : list Z) : firstn (length xs) (xs ++ s') = xs.
Proof.
  rewrite firstn_app, Nat.sub_diag, firstn_all. simpl. apply app_nil_r.
Qed.

Lemma skipn_length_app (xs s' : list Z) : skipn (length xs) (xs ++ s') = s'.
Proof.
  rewrite skipn_app, Nat.sub_diag, skipn_all. reflexivity.
Qed.

Lemma counts_greedy_head (lo k : nat) :
  (lo <= k)%nat -> exists tl, counts true lo None k = k :: tl.
Proof.
  intros H. unfold counts.
  replace (S k - lo)%nat with (S (k - lo)) by lia.
  rewrite seq_S, rev_app_distr. simpl.
  replace (lo + (k - lo))%nat with k by lia. eauto.
Qed.

Lemma hd_rep_greedy (lo : nat) (p : Z -> bool) prev (xs s' : list Z) c :
  (lo <= length xs)%nat -> forallb p xs = true -> stopsAt p s' = true ->
  hd_error (run (Rep true lo None p) prev (xs ++ s') c) = Some (xs, s', c).
Proof.
  intros Hlo Hxs Hs. cbn [run].
  rewrite (spanLen_app p xs s' Hxs Hs).
  destruct (counts_greedy_head lo (length xs) Hlo) as [tl ->].
  simpl. now rewrite firstn_length_app, skipn_length_app.
Qed.

Lemma in_rep (g : bool) (lo : nat) (p : Z -> bool) prev (xs s' : list Z) c :
  (lo <= length xs)%nat -> forallb p xs = true ->
  In (xs, s', c) (run (Rep g lo None p) prev (xs ++ s') c).
Proof.
  intros Hlo Hxs. cbn [run]. apply in_map_iff. exists (length xs).
  split; [now rewrite firstn_length_app, skipn_length_app|].
  pose proof (spanLen_ge p xs s' Hxs) as Hk.
  unfold counts.
  assert (I : In (length xs) (seq lo (S (spanLen p (xs ++ s')) - lo))).
  { apply in_seq. lia. }
  destruct g; [now apply in_rev in I | exact I].
Qed.

(** A lazy quantifier in a group, followed by a literal the run of the class
    does not hold: the group takes everything up to the first occurrence of
    that literal after which the rest of the pattern matches. *)
Lemma flat_map_first (F : result -> list result) (G : nat -> result)
      (j : nat) (y : result) :
  hd_error (F (G j)) = Some y ->
  forall len i0,
    (i0 <= j < i0 + len)%nat ->
    (forall i, (i0 <= i < j)%nat -> F (G i) = []) ->
    hd_error (flat_map F (map G (seq i0 len))) = Some y.
Proof.
  intros Hj. induction len as [|len IH]; intros i0 Hr Hnil; [lia|].
  cbn [seq map flat_map].
  destruct (Nat.eq_dec i0 j) as [->|Hne].
  - now apply hd_error_app_Some.
  - rewrite (Hnil i0) by lia. simpl. apply IH; [lia|].
    intros i Hi. apply Hnil. lia.
Qed.

Lemma skipn_inside (xs : list Z) (stop : Z) (s' : list Z) (i : nat) :
  (i < length xs)%nat ->
  exists x rest, skipn i (xs ++ stop :: s') = x :: rest /\ In x xs.
Proof.
  revert i. induction xs as [|x xs IH]; intros i Hi; simpl in Hi; [lia|].
  destruct i as [|i].
  - exists x, (xs ++ stop :: s'). split; [reflexivity | now left].
  - destruct (IH i) as (y & rest & E & Hy); [lia|].
    exists y, rest. split; [exact E | now right].
Qed.

Lemma hd_lazy_until (n : nat) (p : Z -> bool) (stop : Z) (K : re)
      prev (xs s' : list Z) c m2 s2 c2 :
  xs <> [] -> forallb p xs = true -> ~ In stop xs ->
  hd_error (run K (Some stop) s' ((n, xs) :: c)) = Some (m2, s2, c2) ->
  hd_error (run (Seq (Grp n (Rep false 1 None p)) (Seq (chr stop) K))
                prev (xs ++ stop :: s') c)
  = Some (xs ++ [stop] ++ m2, s2, c2).
Proof.
  intros Hne Hxs Hstop HK.
  set (s := xs ++ stop :: s').
  set (F := fun r1 : result =>
              let '(m1, s1, c1) := r1 in
              map (seqResult m1) (run (Seq (chr stop) K) (lastp prev m1) s1 c1)).
  set (G := fun i => grpResult n (firstn i s, skipn i s, c)).
  assert (E : run (Seq (Grp n (Rep false 1 None p)) (Seq (chr stop) K)) prev s c
              = flat_map F (map G (seq 1 (S (spanLen p s) - 1)))).
  { cbn [run]. unfold counts. now rewrite map_map. }
  rewrite E. clear E.
  assert (Hlen : (1 <= length xs)%nat) by (destruct xs; [contradiction | simpl; lia]).
  apply (flat_map_first F G (length xs)).
  - unfold G, F, s. rewrite firstn_length_app, skipn_length_app. cbn [grpResult].
    change (Some (xs ++ [stop] ++ m2, s2, c2))
      with (Some (seqResult xs ([stop] ++ m2, s2, c2))).
    apply hd_error_map.
    apply (hd_seq (chr stop) K _ _ _ [stop] s' ((n, xs) :: c)).
    + apply hd_cls. apply Z.eqb_refl.
    + exact HK.
  - pose proof (spanLen_ge p xs (stop :: s') Hxs). fold s in H. lia.
  - intros i Hi. unfold G, F. cbn [grpResult].
    destruct (skipn_inside xs stop s' i) as (x & rest & Ex & Hx); [lia|].
    fold s in Ex. rewrite Ex. cbn [run chr flat_map].
    destruct (Z.eqb_spec stop x) as [->|]; [contradiction|]. reflexivity.
Qed.

(** The rest of a pattern, after the groups of interest are set: it is
    enough that it can match at all. *)
Lemma tail_hd (K : re) prev s c (x : result) :
  In x (run K prev s c) ->
  exists m rest c',
    hd_error (run K prev s c) = Some (m, rest, c') /\
    forall k, ~ In k (groupsOf K) -> group k c' = group k c.
Proof.
  intros H. destruct (In_hd_error _ _ H) as ([[m rest] c'] & Hy).
  exists m, rest, c'. split; [assumption|].
  intros k Hk. apply (run_group_kept K k prev s c m rest c' Hk).
  now apply hd_error_In.
Qed.

(** A pattern that opens with [^] is tried at index 0 only. *)
Lemma execFrom_bol_later (r : re) (s : list Z) :
  forall x idx, execFrom (Seq Bol r) (Some x) s idx = None.
Proof.
  induction s as [|y s IH]; intros x idx; simpl; [reflexivity | apply IH].
Qed.

Lemma exec_bol_none (r : re) (s : list Z) :
  run (Seq Bol r) None s [] = [] -> exec (Seq Bol r) s = None.
Proof.
  intros H. unfold exec. destruct s as [|x s]; cbn [execFrom]; rewrite H.
  - reflexivity.
  - apply execFrom_bol_later.
Qed.

Lemma exec_hd (r : re) (s : list Z) m rest c :
  hd_error (run r None s []) = Some (m, rest, c) ->
  exec r s = Some (mkFound 0 m rest c).
Proof.
  intros H. unfold exec. destruct s as [|x s]; cbn [execFrom];
    destruct (run r None _ []) as [|y l]; try discriminate;
    injection H as ->; reflexivity.
Qed.

(** A pattern that needs a literal the input does not hold cannot match. *)
Lemma seq_blocked (a K : re) prev s c :
  (forall m1 s1 c1, In (m1, s1, c1) (run a prev s c) ->
                    run K (lastp prev m1) s1 c1 = []) ->
  run (Seq a K) prev s c = [].
Proof.
  intros H. destruct (run (Seq a K) prev s c) as [|x l] eqn:E; [reflexivity|].
  assert (Hin : In x (run (Seq a K) prev s c)) by (rewrite E; now left).
  apply in_run_Seq in Hin.
  destruct Hin as (m1 & s1 & c1 & m2 & s2 & c2 & H1 & H2 & _).
  rewrite (H m1 s1 c1 H1) in H2. contradiction.
Qed.

Lemma chr_blocked (x : Z) (K : re) prev s c :
  ~ In x s -> run (Seq (chr x) K) prev s c = [].
Proof.
  intros H. cbn [run chr]. destruct s as [|y s]; [reflexivity|].
  destruct (Z.eqb_spec x y) as [->|]; [|reflexivity].
  exfalso. apply H. now left.
Qed.

Lemma seq_blocked_step (x : Z) (a K : re) :
  (forall prev s c, ~ In x s -> run K prev s c = []) ->
  forall prev s c, ~ In x s -> run (Seq a K) prev s c = [].
Proof.
  intros HK prev s c Hs. apply seq_blocked. intros m1 s1 c1 H1.
  apply HK. apply run_split in H1. subst s. intros Hin. apply Hs.
  apply in_or_app. now right.
Qed.

End Stepping.

(** ** Literals, membership and trimming *)

Section MoreSteps.

Lemma hd_stri (w : list Z) :
  forall w' prev s c,
    ciMatch w w' = true ->
    hd_error (run (stri w) prev (w' ++ s) c) = Some (w', s, c).
Proof.
  induction w as [|x w IH]; intros [|y w'] prev s c H; try discriminate.
  - reflexivity.
  - simpl in H. apply andb_true_iff in H. destruct H as [Hx Hw].
    change (stri (x :: w)) with (Seq (chri x) (stri w)).
    change ((y :: w') ++ s) with (y :: (w' ++ s)).
    change (y :: w') with ([y] ++ w').
    apply (hd_seq (chri x) (stri w) prev _ c [y] (w' ++ s) c).
    + apply hd_cls. exact Hx.
    + now apply IH.
Qed.

Lemma hd_str (w : list Z) :
  forall prev s c, hd_error (run (str w) prev (w ++ s) c) = Some (w, s, c).
Proof.
  induction w as [|x w IH]; intros prev s c; [reflexivity|].
  change (str (x :: w)) with (Seq (chr x) (str w)).
  change ((x :: w) ++ s) with (x :: (w ++ s)).
  change (x :: w) with ([x] ++ w).
  apply (hd_seq (chr x) (str w) prev _ c [x] (w ++ s) c).
  - apply hd_cls. apply Z.eqb_refl.
  - apply IH.
Qed.

Lemma hd_chr (x : Z) prev s c :
  hd_error (run (chr x) prev ([x] ++ s) c) = Some ([x], s, c).
Proof. apply hd_cls. apply Z.eqb_refl. Qed.

Lemma hd_rep_zero (p : Z -> bool) prev s c :
  stopsAt p s = true ->
  hd_error (run (Rep true 0 None p) prev s c) = Some ([], s, c).
Proof. intros H. now apply (hd_rep_greedy 0 p prev [] s c). Qed.

Lemma hd_opt_take (r : re) prev s c m s' c' :
  hd_error (run r prev s c) = Some (m, s', c') -> isNil m = false ->
  hd_error (run (Opt r) prev s c) = Some (m, s', c').
Proof.
  intros H Hm. destruct m as [|x m]; [discriminate|]. now apply hd_opt_some.
Qed.

Lemma hd_opt_chr (x : Z) prev s c :
  hd_error (run (Opt (chr x)) prev ([x] ++ s) c) = Some ([x], s, c).
Proof. apply hd_opt_take; [apply hd_chr | reflexivity]. Qed.

Lemma hd_eps prev s c : hd_error (run Eps prev s c) = Some ([], s, c).
Proof. reflexivity. Qed.

(** Membership, for the part of a pattern that only has to match somehow. *)
Lemma in_seq_run (a b : re) prev s c m1 s1 c1 m2 s2 c2 :
  In (m1, s1, c1) (run a prev s c) ->
  In (m2, s2, c2) (run b (lastp prev m1) s1 c1) ->
  In (m1 ++ m2, s2, c2) (run (Seq a b) prev s c).
Proof.
  intros H1 H2. apply in_run_Seq. now exists m1, s1, c1, m2, s2, c2.
Qed.

Lemma in_rep_zero (g : bool) (p : Z -> bool) prev s c :
  In ([], s, c) (run (Rep g 0 None p) prev s c).
Proof. apply (in_rep g 0 p prev [] s c); [simpl; lia | reflexivity]. Qed.

Lemma in_rep_all (g : bool) (lo : nat) (p : Z -> bool) prev xs c :
  (lo <= length xs)%nat -> forallb p xs = true ->
  In (xs, [], c) (run (Rep g lo None p) prev xs c).
Proof.
  intros Hlo Hxs. pose proof (in_rep g lo p prev xs [] c Hlo Hxs) as H.
  now rewrite app_nil_r in H.
Qed.

Lemma in_opt_skip (r : re) prev s c : In ([], s, c) (run (Opt r) prev s c).
Proof. cbn [run]. apply in_or_app. right. now left. Qed.

Lemma in_opt_take (r : re) prev s c m s' c' :
  In (m, s', c') (run r prev s c) -> isNil m = false ->
  In (m, s', c') (run (Opt r) prev s c).
Proof.
  intros H Hm. cbn [run]. apply in_or_app. left. apply filter_In.
  split; [assumption|]. simpl. now rewrite Hm.
Qed.

Lemma in_grp (n : nat) (r : re) prev s c m s' c' :
  In (m, s', c') (run r prev s c) ->
  In (m, s', (n, m) :: c') (run (Grp n r) prev s c).
Proof.
  intros H. cbn [run]. apply in_map_iff. now exists (m, s', c').
Qed.

Lemma in_chr (x : Z) prev s c : In ([x], s, c) (run (chr x) prev (x :: s) c).
Proof. cbn [run chr]. rewrite Z.eqb_refl. now left. Qed.

Lemma in_eol prev c : In ([], [], c) (run Eol prev [] c).
Proof. now left. Qed.

Lemma in_eps prev s c : In ([], s, c) (run Eps prev s c).
Proof. now left. Qed.

Lemma in_alt_l (a b : re) prev s c x :
  In x (run a prev s c) -> In x (run (Alt a b) prev s c).
Proof. intros H. cbn [run]. apply in_or_app. now left. Qed.

Lemma in_alt_r (a b : re) prev s c x :
  In x (run b prev s c) -> In x (run (Alt a b) prev s c).
Proof. intros H. cbn [run]. apply in_or_app. now right. Qed.

(** Trimming a string that has no blank at either end. *)
Lemma trimEnd_id (s : list Z) :
  isSpace (last s 0) = false -> trimEnd s = s.
Proof.
  intros H. unfold trimEnd.
  destruct s as [|x s0]; [reflexivity|].
  destruct (exists_last (l := x :: s0)) as (s' & z & E); [discriminate|].
  rewrite E in *. rewrite last_last in H. rewrite rev_app_distr. simpl.
  rewrite H. simpl. now rewrite rev_involutive.
Qed.

Lemma trim_id (x : Z) (s : list Z) :
  isSpace x = false -> isSpace (last (x :: s) 0) = false ->
  trim (x :: s) = x :: s.
Proof.
  intros Hx Hl. unfold trim. cbn [trimStart]. rewrite Hx. now apply trimEnd_id.
Qed.

Lemma last_app_right (a b : list Z) (d : Z) :
  b <> [] -> last (a ++ b) d = last b d.
Proof.
  intros Hb. destruct (exists_last Hb) as (b' & z & ->).
  now rewrite app_assoc, !last_last.
Qed.

Lemma last_cons_right (x : Z) (b : list Z) (d : Z) :
  b <> [] -> last (x :: b) d = last b d.
Proof. intros Hb. apply (last_app_right [x] b d Hb). Qed.

Lemma spanLen_le (p : Z -> bool) (s : list Z) : (spanLen p s <= length s)%nat.
Proof.
  induction s as [|x s IH]; simpl; [lia|]. destruct (p x); simpl; lia.
Qed.

Lemma spanLen_full (p : Z -> bool) (s : list Z) :
  spanLen p s = length s -> s <> [] -> p (last s 0) = true.
Proof.
  induction s as [|x s IH]; intros H Hne; [contradiction|].
  simpl in H. destruct (p x) eqn:Px; [|discriminate].
  injection H as H. destruct s as [|y s]; [exact Px|].
  change (last (x :: y :: s) 0) with (last (y :: s) 0).
  apply IH; [assumption | discriminate].
Qed.

End MoreSteps.

(** ** Citation round trip *)

Section CitationRoundTrip.
Import Citation.

Lemma step_seq (a K : re) prev s c m1 s1 c1 (Q : captures -> Prop) :
  hd_error (run a prev s c) = Some (m1, s1, c1) ->
  firstCaps (run K (lastp prev m1) s1 c1) Q ->
  firstCaps (run (Seq a K) prev s c) Q.
Proof.
  intros Ha HK. unfold firstCaps in *.
  destruct (run K (lastp prev m1) s1 c1) as [|[[m2 s2] c2] l] eqn:E;
    [contradiction|].
  assert (H : hd_error (run K (lastp prev m1) s1 c1) = Some (m2, s2, c2))
    by now rewrite E.
  pose proof (hd_seq a K prev s c m1 s1 c1 m2 s2 c2 Ha H) as H'.
  destruct (run (Seq a K) prev s c) as [|y l']; [discriminate|].
  injection H' as ->. exact HK.
Qed.

Lemma step_tail (K : re) prev s c (x : result) (Q : captures -> Prop) :
  In x (run K prev s c) ->
  (forall c', (forall k, ~ In k (groupsOf K) -> group k c' = group k c) -> Q c') ->
  firstCaps (run K prev s c) Q.
Proof.
  intros Hin HQ. destruct (tail_hd K prev s c x Hin) as (m & rest & c' & Hhd & Hg).
  unfold firstCaps. destruct (run K prev s c) as [|y l]; [discriminate|].
  injection Hhd as ->. now apply HQ.
Qed.

Lemma exec_first (r : re) (s : list Z) (Q : captures -> Prop) :
  firstCaps (run r None s []) Q ->
  exists f, exec r s = Some f /\ Q (caps f).
Proof.
  unfold firstCaps. intros H.
  destruct (run r None s []) as [|[[m rest] c] l] eqn:E; [contradiction|].
  exists (mkFound 0 m rest c). split; [|exact H].
  apply exec_hd. now rewrite E.
Qed.

(** Decimal digits are neither blanks nor separators nor glyphs. *)
Lemma digit_cases (d : Z) :
  isDigit d = true ->
  d = 48 \/ d = 49 \/ d = 50 \/ d = 51 \/ d = 52 \/
  d = 53 \/ d = 54 \/ d = 55 \/ d = 56 \/ d = 57.
Proof.
  unfold isDigit. intros H. apply andb_true_iff in H.
  destruct H as [H1 H2]. apply Z.leb_le in H1, H2. lia.
Qed.

Lemma digit_not_space (d : Z) : isDigit d = true -> isSpace d = false.
Proof.
  intros H. apply digit_cases in H.
  repeat (destruct H as [->|H]; [reflexivity|]). now subst.
Qed.

Lemma digit_is_dot (d : Z) : isDigit d = true -> isDot d = true.
Proof.
  intros H. apply digit_cases in H.
  repeat (destruct H as [->|H]; [reflexivity|]). now subst.
Qed.

Lemma digits_stop_space (a X : list Z) :
  a <> [] -> forallb isDigit a = true -> stopsAt isSpace (a ++ X) = true.
Proof.
  destruct a as [|d a]; [contradiction|]. intros _ H. simpl in *.
  apply andb_true_iff in H. destruct H as [H _].
  now rewrite (digit_not_space d H).
Qed.

Lemma length_pos (a : list Z) : a <> [] -> (1 <= length a)%nat.
Proof. destruct a; [contradiction | simpl; lia]. Qed.

Lemma plainTitle_inv (t : list Z) :
  plainTitle t = true ->
  exists x t', t = x :: t' /\ isSpace x = false /\
               isSpace (last t 0) = false /\ forallb isDot t = true.
Proof.
  unfold plainTitle. destruct t as [|x t']; [discriminate|]. intros H.
  apply andb_true_iff in H. destruct H as [H H3].
  apply andb_true_iff in H. destruct H as [H1 H2].
  apply negb_true_iff in H1, H2. now exists x, t'.
Qed.

Lemma noMatch_nil (l : list result) : noMatch l = true -> l = [].
Proof. destruct l; [reflexivity | discriminate]. Qed.

(** The rest of the English pattern, [\s*,?\s+(.+?)$], on the separator and
    the title. *)
Lemma english_tail_matches (t : list Z) prev c :
  plainTitle t = true ->
  exists x,
    In x (run (seqs [star isSpace; Opt (chr 44); plus isSpace;
                     Grp 3 (lazyPlus isDot); Eol])
              prev ([44] ++ [32] ++ t) c).
Proof.
  intros Ht. destruct (plainTitle_inv t Ht) as (x & t' & E & Hx & _ & Hdot).
  eexists. unfold seqs. cbn [fold_right].
  eapply in_seq_run; [apply in_rep_zero|].
  eapply in_seq_run; [apply in_opt_take; [apply (in_chr 44) | reflexivity]|].
  eapply in_seq_run;
    [apply (in_rep true 1 isSpace _ [32] t); [simpl; lia | reflexivity]|].
  eapply in_seq_run;
    [apply in_grp; apply (in_rep_all false 1 isDot _ t);
     [subst t; simpl; lia | exact Hdot]|].
  eapply in_seq_run; [apply in_eol | apply in_eps].
Qed.

Lemma english_exec (a : list Z) (po : option (list Z)) (t : list Z) :
  a <> [] -> forallb isDigit a = true ->
  (forall p, po = Some p -> p <> [] /\ forallb isDigit p = true) ->
  plainTitle t = true ->
  (po = None -> run ENGLISH_PARAGRAPH None ([44] ++ [32] ++ t) [] = []) ->
  exists f, exec ENGLISH_CITATION (englishText a po t) = Some f /\
            group 1 (caps f) = Some a /\ group 2 (caps f) = po.
Proof.
  intros Ha Hda Hpo Ht Hnone.
  apply (exec_first _ _ (fun c => group 1 c = Some a /\ group 2 c = po)).
  unfold ENGLISH_CITATION, englishText, seqs. cbn [fold_right].
  eapply step_seq; [reflexivity|].
  eapply step_seq; [apply (hd_stri _ (lit "Article")); reflexivity|].
  eapply step_seq;
    [apply (hd_rep_greedy 1 isSpace _ [32]);
     [simpl; lia | reflexivity | now apply digits_stop_space]|].
  destruct po as [p|].
  - destruct (Hpo p eq_refl) as [Hp Hdp].
    eapply step_seq;
      [apply hd_grp; apply (hd_rep_greedy 1 isDigit _ a);
       [now apply length_pos | exact Hda | reflexivity]|].
    eapply step_seq.
    { eapply hd_opt_take.
      - unfold ENGLISH_PARAGRAPH, seqs. cbn [fold_right].
        eapply hd_seq; [apply hd_rep_zero; reflexivity|].
        eapply hd_seq; [apply hd_opt_chr|].
        eapply hd_seq;
          [apply (hd_rep_greedy 0 isSpace _ [32]);
           [simpl; lia | reflexivity | reflexivity]|].
        eapply hd_seq; [apply (hd_stri _ (lit "Paragraph")); reflexivity|].
        eapply hd_seq;
          [apply (hd_rep_greedy 1 isSpace _ [32]);
           [simpl; lia | reflexivity | now apply digits_stop_space]|].
        eapply hd_seq;
          [apply hd_grp; apply (hd_rep_greedy 1 isDigit _ p);
           [now apply length_pos | exact Hdp | reflexivity] | apply hd_eps].
      - reflexivity. }
    destruct (english_tail_matches t
                (lastp (lastp (lastp (lastp (lastp None []) (lit "Article")) [32]) a)
                   ([] ++ [44] ++ [32] ++ lit "Paragraph" ++ [32] ++ p ++ []))
                ((2%nat, p) :: (1%nat, a) :: []) Ht) as [x Hx].
    eapply step_tail; [exact Hx|].
    intros c' Hc'. cbv beta. split; rewrite Hc'; try reflexivity;
      simpl; intros H; repeat (destruct H as [H|H]; try discriminate H); exact H.
  - eapply step_seq;
      [apply hd_grp; apply (hd_rep_greedy 1 isDigit _ a);
       [now apply length_pos | exact Hda | reflexivity]|].
    eapply step_seq.
    { apply hd_opt_none.
      apply (run_nil_shape ENGLISH_PARAGRAPH None _ _ [] _ eq_refl).
      now apply Hnone. }
    destruct (english_tail_matches t
                (lastp (lastp (lastp (lastp (lastp None []) (lit "Article")) [32]) a) [])
                ((1%nat, a) :: []) Ht) as [x Hx].
    eapply step_tail; [exact Hx|].
    intros c' Hc'. cbv beta. split; rewrite Hc'; try reflexivity;
      simpl; intros H; repeat (destruct H as [H|H]; try discriminate H); exact H.
Qed.


Lemma hd_cls_app (p : Z -> bool) prev x s c :
  p x = true -> hd_error (run (Cls p) prev ([x] ++ s) c) = Some ([x], s, c).
Proof. apply hd_cls. Qed.

(** The rest of the short pattern on the blank and the title. *)
Lemma short_tail_matches (t : list Z) prev c :
  plainTitle t = true ->
  exists x,
    In x (run (seqs [star isSpace; Opt (chr 44); plus isSpace;
                     Grp 3 (lazyPlus isDot);
                     Opt (seqs [plus isSpace;
                                Grp 4 (Rep true 4 (Some 4%nat) isDigit)]);
                     Eol])
              prev ([32] ++ t) c).
Proof.
  intros Ht. destruct (plainTitle_inv t Ht) as (x & t' & E & Hx & _ & Hdot).
  eexists. unfold seqs. cbn [fold_right].
  eapply in_seq_run; [apply in_rep_zero|].
  eapply in_seq_run; [apply in_opt_skip|].
  eapply in_seq_run;
    [apply (in_rep true 1 isSpace _ [32] t); [simpl; lia | reflexivity]|].
  eapply in_seq_run;
    [apply in_grp; apply (in_rep_all false 1 isDot _ t);
     [subst t; simpl; lia | exact Hdot]|].
  eapply in_seq_run; [apply in_opt_skip|].
  eapply in_seq_run; [apply in_eol | apply in_eps].
Qed.

Lemma short_exec (a : list Z) (po : option (list Z)) (t : list Z) :
  a <> [] -> forallb isDigit a = true ->
  (forall p, po = Some p -> p <> [] /\ forallb isDigit p = true) ->
  plainTitle t = true ->
  (po = None -> run SHORT_PARAGRAPH None ([32] ++ t) [] = []) ->
  exists f, exec SHORT_CITATION (shortText a po t) = Some f /\
            group 1 (caps f) = Some a /\ group 2 (caps f) = po.
Proof.
  intros Ha Hda Hpo Ht Hnone.
  apply (exec_first _ _ (fun c => group 1 c = Some a /\ group 2 c = po)).
  unfold SHORT_CITATION, shortText, seqs. cbn [fold_right].
  eapply step_seq; [reflexivity|].
  eapply step_seq; [apply (hd_stri _ (lit "Art")); reflexivity|].
  eapply step_seq; [apply hd_opt_chr|].
  eapply step_seq;
    [apply (hd_rep_greedy 0 isSpace _ [32]);
     [simpl; lia | reflexivity | now apply digits_stop_space]|].
  destruct po as [p|].
  - destruct (Hpo p eq_refl) as [Hp Hdp].
    eapply step_seq;
      [apply hd_grp; apply (hd_rep_greedy 1 isDigit _ a);
       [now apply length_pos | exact Hda | reflexivity]|].
    eapply step_seq.
    { eapply hd_opt_take.
      - unfold SHORT_PARAGRAPH, seqs. cbn [fold_right].
        eapply hd_seq; [apply hd_rep_zero; reflexivity|].
        eapply hd_seq; [apply hd_opt_chr|].
        eapply hd_seq;
          [apply (hd_rep_greedy 0 isSpace _ [32]);
           [simpl; lia | reflexivity | reflexivity]|].
        eapply hd_seq.
        { eapply hd_opt_take.
          - eapply hd_seq; [apply (hd_stri _ (lit "Par")); reflexivity|].
            eapply hd_seq;
              [apply hd_opt_take; [apply (hd_cls_app _ _ 97); reflexivity | reflexivity]|].
            eapply hd_seq; [apply hd_opt_chr|].
            eapply hd_seq;
              [apply (hd_rep_greedy 0 isSpace _ [32]);
               [simpl; lia | reflexivity | now apply digits_stop_space]
              | apply hd_eps].
          - reflexivity. }
        eapply hd_seq;
          [apply hd_grp; apply (hd_rep_greedy 1 isDigit _ p);
           [now apply length_pos | exact Hdp | reflexivity] | apply hd_eps].
      - reflexivity. }
    destruct (short_tail_matches t
                (lastp (lastp (lastp (lastp (lastp (lastp None []) (lit "Art")) [46]) [32]) a)
                   ([] ++ [44] ++ [32]
                    ++ (lit "Par" ++ [97] ++ [46] ++ [32] ++ []) ++ p ++ []))
                ((2%nat, p) :: (1%nat, a) :: []) Ht) as [x Hx].
    eapply step_tail; [exact Hx|].
    intros c' Hc'. cbv beta. split; rewrite Hc'; try reflexivity;
      simpl; intros H; repeat (destruct H as [H|H]; try discriminate H); exact H.
  - eapply step_seq;
      [apply hd_grp; apply (hd_rep_greedy 1 isDigit _ a);
       [now apply length_pos | exact Hda | reflexivity]|].
    eapply step_seq.
    { apply hd_opt_none.
      apply (run_nil_shape SHORT_PARAGRAPH None _ _ [] _ eq_refl).
      now apply Hnone. }
    destruct (short_tail_matches t
                (lastp (lastp (lastp (lastp (lastp (lastp None []) (lit "Art")) [46]) [32]) a) [])
                ((1%nat, a) :: []) Ht) as [x Hx].
    eapply step_tail; [exact Hx|].
    intros c' Hc'. cbv beta. split; rewrite Hc'; try reflexivity;
      simpl; intros H; repeat (destruct H as [H|H]; try discriminate H); exact H.
Qed.

(** The Chinese pattern. *)
Lemma step_lazy_until (n : nat) (p : Z -> bool) (stop : Z) (K : re)
      prev (xs s' : list Z) c (Q : captures -> Prop) :
  xs <> [] -> forallb p xs = true -> ~ In stop xs ->
  firstCaps (run K (Some stop) s' ((n, xs) :: c)) Q ->
  firstCaps (run (Seq (Grp n (lazyPlus p)) (Seq (chr stop) K))
                 prev (xs ++ stop :: s') c) Q.
Proof.
  intros Hne Hxs Hstop HK. unfold firstCaps in *.
  destruct (run K (Some stop) s' ((n, xs) :: c)) as [|[[m2 s2] c2] l] eqn:E;
    [contradiction|].
  assert (H : hd_error (run K (Some stop) s' ((n, xs) :: c)) = Some (m2, s2, c2))
    by now rewrite E.
  pose proof (hd_lazy_until n p stop K prev xs s' c m2 s2 c2 Hne Hxs Hstop H) as H'.
  unfold lazyPlus.
  destruct (run (Seq (Grp n (Rep false 1 None p)) (Seq (chr stop) K)) prev
                (xs ++ stop :: s') c) as [|y l']; [discriminate|].
  injection H' as ->. exact HK.
Qed.

Lemma lawSuffixOf_inv (t suf : list Z) :
  lawSuffixOf t = Some suf ->
  exists body, t = body ++ suf /\ body <> [] /\
               (suf = [zh_fa] \/ suf = [zh_dian] \/ suf = [zh_tiao; zh_li]).
Proof.
  unfold lawSuffixOf. intros H.
  destruct (rev t) as [|x [|y r]] eqn:R; try discriminate.
  assert (Et : t = rev r ++ [y] ++ [x]).
  { rewrite <- (rev_involutive t), R. simpl. now rewrite <- app_assoc. }
  destruct ((x =? zh_fa) || (x =? zh_dian)) eqn:E1.
  - injection H as <-. exists (rev r ++ [y]). split; [now rewrite <- app_assoc|].
    split; [intros C; now apply app_eq_nil in C as [_ C]|].
    apply orb_true_iff in E1. destruct E1 as [E|E]; apply Z.eqb_eq in E; subst; auto.
  - destruct ((x =? zh_li) && (y =? zh_tiao) && negb (isNil r)) eqn:E2; [|discriminate].
    injection H as <-.
    apply andb_true_iff in E2. destruct E2 as [E2 E3].
    apply andb_true_iff in E2. destruct E2 as [Ex Ey].
    apply Z.eqb_eq in Ex, Ey. subst x y. exists (rev r). split; [assumption|].
    split; [|auto]. destruct r; [discriminate E3|]. simpl.
    intros C. now apply app_eq_nil in C as [_ C].
Qed.

Lemma chinese_tail_matches (body suf : list Z) prev c :
  body <> [] -> forallb isDot body = true ->
  suf = [zh_fa] \/ suf = [zh_dian] \/ suf = [zh_tiao; zh_li] ->
  exists x,
    In x (run (seqs [star isSpace; Opt (Cls isComma); star isSpace;
                     Opt (str zh_prc); Grp 3 (lazyPlus isDot); LAW_SUFFIX; Eol])
              prev ([32] ++ body ++ suf) c).
Proof.
  intros Hb Hdot Hsuf.
  assert (Hpre : forall K x0,
             In x0 (run K (lastp (lastp (lastp (lastp (lastp prev [32]) []) []) [])
                                 body) suf ((3%nat, body) :: c)) ->
             exists x,
               In x (run (Seq (star isSpace) (Seq (Opt (Cls isComma))
                            (Seq (star isSpace) (Seq (Opt (str zh_prc))
                               (Seq (Grp 3 (lazyPlus isDot)) K)))))
                         prev ([32] ++ body ++ suf) c)).
  { intros K [[m0 s0] c0] H0. eexists.
    eapply in_seq_run;
      [apply (in_rep true 0 isSpace _ [32] (body ++ suf));
       [simpl; lia | reflexivity]|].
    eapply in_seq_run; [apply in_opt_skip|].
    eapply in_seq_run; [apply in_rep_zero|].
    eapply in_seq_run; [apply in_opt_skip|].
    eapply in_seq_run;
      [apply in_grp; apply (in_rep false 1 isDot _ body suf);
       [now apply length_pos | exact Hdot]|].
    exact H0. }
  unfold seqs. cbn [fold_right]. unfold LAW_SUFFIX.
  destruct Hsuf as [-> | [-> | ->]].
  - eapply Hpre.
    eapply in_seq_run; [apply in_alt_l; apply in_chr|].
    eapply in_seq_run; [apply in_eol | apply in_eps].
  - eapply Hpre.
    eapply in_seq_run; [apply in_alt_r; apply in_alt_l; apply in_chr|].
    eapply in_seq_run; [apply in_eol | apply in_eps].
  - eapply Hpre.
    eapply in_seq_run.
    { apply in_alt_r. apply in_alt_r. unfold str, seqs. cbn [map fold_right].
      eapply in_seq_run; [apply in_chr|].
      eapply in_seq_run; [apply in_chr | apply in_eps]. }
    eapply in_seq_run; [apply in_eol | apply in_eps].
Qed.

Lemma chinese_exec (na : list Z) (npo : option (list Z)) (t suf : list Z) :
  na <> [] -> forallb isDot na = true -> ~ In zh_tiao na ->
  (forall np, npo = Some np ->
              np <> [] /\ forallb isDot np = true /\ ~ In zh_kuan np) ->
  plainTitle t = true -> lawSuffixOf t = Some suf ->
  exists f, exec CHINESE_CITATION (chineseText na npo t) = Some f /\
            group 1 (caps f) = Some na /\ group 2 (caps f) = npo.
Proof.
  intros Hna Hdna Htiao Hnpo Ht Hsuf.
  destruct (lawSuffixOf_inv t suf Hsuf) as (body & Et & Hbody & Hcases).
  destruct (plainTitle_inv t Ht) as (x & t' & _ & _ & _ & Hdot).
  assert (Hdb : forallb isDot body = true).
  { rewrite Et, forallb_app in Hdot. now apply andb_true_iff in Hdot. }
  apply (exec_first _ _ (fun c => group 1 c = Some na /\ group 2 c = npo)).
  unfold CHINESE_CITATION, chineseText, seqs. cbn [fold_right].
  eapply step_seq; [reflexivity|].
  eapply step_seq; [apply hd_chr|].
  apply step_lazy_until; [assumption..|].
  destruct npo as [np|].
  - destruct (Hnpo np eq_refl) as (Hnp & Hdnp & Hkuan).
    eapply step_seq.
    { eapply hd_opt_take.
      - unfold CHINESE_PARAGRAPH, seqs. cbn [fold_right].
        eapply hd_seq; [apply hd_chr|].
        apply hd_lazy_until; [assumption.. | apply hd_eps].
      - reflexivity. }
    rewrite Et.
    destruct (chinese_tail_matches body suf
                (lastp (Some zh_tiao) ([zh_di] ++ np ++ [zh_kuan] ++ []))
                ((2%nat, np) :: (1%nat, na) :: []) Hbody Hdb Hcases) as [y Hy].
    eapply step_tail; [exact Hy|].
    intros c' Hc'. cbv beta. split; rewrite Hc'; try reflexivity;
      simpl; intros H; repeat (destruct H as [H|H]; try discriminate H); exact H.
  - eapply step_seq; [apply hd_opt_none; reflexivity|].
    rewrite Et.
    destruct (chinese_tail_matches body suf (lastp (Some zh_tiao) [])
                ((1%nat, na) :: []) Hbody Hdb Hcases) as [y Hy].
    eapply step_tail; [exact Hy|].
    intros c' Hc'. cbv beta. split; rewrite Hc'; try reflexivity;
      simpl; intros H; repeat (destruct H as [H|H]; try discriminate H); exact H.
Qed.


(** *** The patterns tried before the right one do not match *)

Lemma existsb_false_notin (x : Z) (s : list Z) :
  existsb (Z.eqb x) s = false -> ~ In x s.
Proof.
  intros H Hin. assert (E : existsb (Z.eqb x) s = true).
  { apply existsb_exists. exists x. split; [assumption | apply Z.eqb_refl]. }
  congruence.
Qed.

Lemma digits_no_di (a : list Z) :
  forallb isDigit a = true -> existsb (Z.eqb zh_di) a = false.
Proof.
  induction a as [|d a IH]; [reflexivity|]. simpl. intros H.
  apply andb_true_iff in H. destruct H as [Hd Ha]. rewrite (IH Ha).
  apply digit_cases in Hd.
  repeat (destruct Hd as [->|Hd]; [reflexivity|]). now subst.
Qed.

Lemma law_first_blocked (s : list Z) :
  ~ In zh_di s -> exec CHINESE_LAW_FIRST s = None.
Proof.
  intros H. unfold CHINESE_LAW_FIRST, seqs. cbn [fold_right].
  apply exec_bol_none. revert H. generalize (@None Z) s (@nil (nat * list Z)).
  do 6 apply seq_blocked_step.
  intros prev s0 c H. now apply chr_blocked.
Qed.

Lemma english_no_di (a : list Z) (po : option (list Z)) (t : list Z) :
  forallb isDigit a = true ->
  (forall p, po = Some p -> p <> [] /\ forallb isDigit p = true) ->
  existsb (Z.eqb zh_di) t = false ->
  ~ In zh_di (englishText a po t).
Proof.
  intros Ha Hpo Ht. apply existsb_false_notin. unfold englishText.
  rewrite !existsb_app, (digits_no_di a Ha). destruct po as [p|].
  - destruct (Hpo p eq_refl) as [_ Hp].
    rewrite !existsb_app, (digits_no_di p Hp), Ht. reflexivity.
  - rewrite !existsb_app, Ht. reflexivity.
Qed.

Lemma short_no_di (a : list Z) (po : option (list Z)) (t : list Z) :
  forallb isDigit a = true ->
  (forall p, po = Some p -> p <> [] /\ forallb isDigit p = true) ->
  existsb (Z.eqb zh_di) t = false ->
  ~ In zh_di (shortText a po t).
Proof.
  intros Ha Hpo Ht. apply existsb_false_notin. unfold shortText.
  rewrite !existsb_app, (digits_no_di a Ha). destruct po as [p|].
  - destruct (Hpo p eq_refl) as [_ Hp].
    rewrite !existsb_app, (digits_no_di p Hp), Ht. reflexivity.
  - rewrite !existsb_app, Ht. reflexivity.
Qed.

Lemma id_fails_english (a : list Z) (po : option (list Z)) (t : list Z) :
  a <> [] -> forallb isDigit a = true ->
  exec ID_CITATION (englishText a po t) = None.
Proof.
  intros Ha Hda. destruct a as [|d a]; [contradiction|].
  simpl in Hda. apply andb_true_iff in Hda. destruct Hda as [Hd _].
  unfold ID_CITATION, seqs. cbn [fold_right]. apply exec_bol_none.
  apply digit_cases in Hd.
  repeat (destruct Hd as [->|Hd]; [vm_compute; reflexivity|]).
  subst. vm_compute. reflexivity.
Qed.

Lemma cc_fails_english (a : list Z) (po : option (list Z)) (t : list Z) :
  exec CHINESE_CITATION (englishText a po t) = None.
Proof.
  unfold CHINESE_CITATION, seqs. cbn [fold_right]. apply exec_bol_none.
  reflexivity.
Qed.

Lemma id_fails_short (a : list Z) (po : option (list Z)) (t : list Z) :
  exec ID_CITATION (shortText a po t) = None.
Proof.
  unfold ID_CITATION, seqs. cbn [fold_right]. apply exec_bol_none.
  vm_compute. reflexivity.
Qed.

Lemma cc_fails_short (a : list Z) (po : option (list Z)) (t : list Z) :
  exec CHINESE_CITATION (shortText a po t) = None.
Proof.
  unfold CHINESE_CITATION, seqs. cbn [fold_right]. apply exec_bol_none.
  reflexivity.
Qed.

Lemma english_fails_short (a : list Z) (po : option (list Z)) (t : list Z) :
  exec ENGLISH_CITATION (shortText a po t) = None.
Proof.
  unfold ENGLISH_CITATION, seqs. cbn [fold_right]. apply exec_bol_none.
  vm_compute. reflexivity.
Qed.

Lemma id_fails_chinese (na : list Z) (npo : option (list Z)) (t : list Z) :
  exec ID_CITATION (chineseText na npo t) = None.
Proof.
  unfold ID_CITATION, seqs. cbn [fold_right]. apply exec_bol_none.
  reflexivity.
Qed.


(** *** What the formatter prints *)

Lemma trailing_comma_from (s : list Z) :
  forall prev idx,
    (s <> [] -> isSpace (last s 0) = false /\ last s 0 <> 44) ->
    execFrom TRAILING_COMMA prev s idx = None.
Proof.
  induction s as [|x s IH]; intros prev idx H; [reflexivity|].
  destruct H as [Hsp Hc]; [discriminate|].
  assert (Hrun : run TRAILING_COMMA prev (x :: s) [] = []).
  { unfold TRAILING_COMMA, seqs. cbn [fold_right].
    apply seq_blocked. intros m1 s1 c1 H1.
    cbn [run chr] in H1. destruct (Z.eqb_spec 44 x) as [<-|]; [|contradiction].
    destruct H1 as [[= <- <- <-]|[]].
    apply seq_blocked. intros m2 s2 c2 H2.
    destruct s2 as [|y s2]; [|reflexivity]. exfalso.
    cbn [run star] in H2. apply in_map_iff in H2.
    destruct H2 as (i & [= _ Hskip] & Hi).
    unfold counts in Hi. apply in_rev, in_seq in Hi.
    pose proof (spanLen_le isSpace s) as Hle.
    assert (Hlen : (length s <= i)%nat).
    { destruct (Nat.le_gt_cases (length s) i) as [|Hlt]; [assumption|].
      pose proof (length_skipn i s) as L. rewrite Hskip in L. simpl in L. lia. }
    destruct s as [|z s']; [now apply Hc|].
    rewrite last_cons_right in Hsp by discriminate.
    rewrite (spanLen_full isSpace (z :: s')) in Hsp; [discriminate | lia | discriminate]. }
  cbn [execFrom]. rewrite Hrun. apply IH. intros Hs.
  rewrite last_cons_right in Hsp, Hc by assumption. now split.
Qed.

Lemma trailing_comma_none (s : list Z) :
  isSpace (last s 0) = false -> last s 0 <> 44 ->
  replace TRAILING_COMMA [] s = s.
Proof.
  intros H1 H2. unfold replace, exec.
  now rewrite (trailing_comma_from s None 0%nat (fun _ => conj H1 H2)).
Qed.

Lemma trim_text (pre t : list Z) (x : Z) :
  isSpace x = false -> t <> [] -> isSpace (last t 0) = false ->
  trim ((x :: pre) ++ t) = (x :: pre) ++ t.
Proof.
  intros Hx Ht Hl. change ((x :: pre) ++ t) with (x :: (pre ++ t)).
  apply trim_id; [assumption|].
  change (x :: pre ++ t) with ((x :: pre) ++ t). now rewrite last_app_right.
Qed.

Lemma englishText_split (a : list Z) (po : option (list Z)) (t : list Z) :
  exists pre, englishText a po t = (65 :: pre) ++ t.
Proof.
  unfold englishText. destruct po as [p|].
  - exists (lit "rticle" ++ [32] ++ a ++ [44] ++ [32] ++ lit "Paragraph" ++ [32]
            ++ p ++ [44] ++ [32]).
    change (lit "Article") with (65 :: lit "rticle").
    repeat (rewrite <- app_assoc || rewrite <- app_comm_cons). reflexivity.
  - exists (lit "rticle" ++ [32] ++ a ++ [44] ++ [32]).
    change (lit "Article") with (65 :: lit "rticle").
    repeat (rewrite <- app_assoc || rewrite <- app_comm_cons). reflexivity.
Qed.

Lemma shortText_split (a : list Z) (po : option (list Z)) (t : list Z) :
  exists pre, shortText a po t = (65 :: pre) ++ t.
Proof.
  unfold shortText. destruct po as [p|].
  - exists (lit "rt" ++ [46] ++ [32] ++ a ++ [44] ++ [32] ++ lit "Par" ++ [97]
            ++ [46] ++ [32] ++ p ++ [32]).
    change (lit "Art") with (65 :: lit "rt").
    repeat (rewrite <- app_assoc || rewrite <- app_comm_cons). reflexivity.
  - exists (lit "rt" ++ [46] ++ [32] ++ a ++ [32]).
    change (lit "Art") with (65 :: lit "rt").
    repeat (rewrite <- app_assoc || rewrite <- app_comm_cons). reflexivity.
Qed.

Lemma chineseText_split (na : list Z) (npo : option (list Z)) (t : list Z) :
  exists pre, chineseText na npo t = (zh_di :: pre) ++ t.
Proof.
  unfold chineseText. destruct npo as [np|].
  - exists (na ++ [zh_tiao] ++ [zh_di] ++ np ++ [zh_kuan] ++ [32]).
    repeat (rewrite <- app_assoc || rewrite <- app_comm_cons). reflexivity.
  - exists (na ++ [zh_tiao] ++ [32]).
    repeat (rewrite <- app_assoc || rewrite <- app_comm_cons). reflexivity.
Qed.

Lemma plainTitle_ne (t : list Z) : plainTitle t = true -> t <> [].
Proof. intros H ->. discriminate H. Qed.

Lemma plainTitle_last (t : list Z) :
  plainTitle t = true -> isSpace (last t 0) = false.
Proof. intros H. now destruct (plainTitle_inv t H) as (? & ? & _ & _ & ? & _). Qed.


(** *** Titles that are never taken for a paragraph number *)

Lemma run_rep_exact (g : bool) (lo : nat) (p : Z -> bool) prev (xs s' : list Z) c :
  forallb p xs = true -> stopsAt p s' = true ->
  run (Rep g lo None p) prev (xs ++ s') c
  = map (fun i => (firstn i (xs ++ s'), skipn i (xs ++ s'), c))
        (counts g lo None (length xs)).
Proof. intros Hxs Hs. cbn [run]. now rewrite (spanLen_app p xs s' Hxs Hs). Qed.

Lemma seq_rep_nil (g : bool) (lo : nat) (p : Z -> bool) (K : re)
      prev (xs s' : list Z) c :
  forallb p xs = true -> stopsAt p s' = true ->
  (forall i, In i (counts g lo None (length xs)) ->
             run K (lastp prev (firstn i (xs ++ s'))) (skipn i (xs ++ s')) c = []) ->
  run (Seq (Rep g lo None p) K) prev (xs ++ s') c = [].
Proof.
  intros Hxs Hs H. apply seq_blocked. intros m1 s1 c1 Hin.
  rewrite (run_rep_exact g lo p prev xs s' c Hxs Hs) in Hin.
  apply in_map_iff in Hin. destruct Hin as (i & [= <- <- <-] & Hi). now apply H.
Qed.

Lemma seq_opt_skip_only (r K : re) prev s c :
  run r prev s c = [] -> run K prev s c = [] ->
  run (Seq (Opt r) K) prev s c = [].
Proof.
  intros Hr HK. apply seq_blocked. intros m1 s1 c1 Hin.
  cbn [run] in Hin. rewrite Hr in Hin. destruct Hin as [[= <- <- <-]|[]].
  exact HK.
Qed.

Lemma seq_opt_chr_take (y : Z) (K : re) prev s' c :
  run K (Some y) s' c = [] -> run K prev (y :: s') c = [] ->
  run (Seq (Opt (chr y)) K) prev (y :: s') c = [].
Proof.
  intros H1 H2. apply seq_blocked. intros m1 s1 c1 Hin.
  cbn [run chr] in Hin. rewrite Z.eqb_refl in Hin.
  destruct Hin as [[= <- <- <-]|[[= <- <- <-]|[]]]; assumption.
Qed.

Lemma chr_nil (y x : Z) prev s c :
  (y =? x) = false -> run (chr y) prev (x :: s) c = [].
Proof. intros H. cbn [run chr]. now rewrite H. Qed.

Lemma seq_stri_nil (c0 : Z) (w : list Z) (K : re) prev x s c :
  (lower x =? lower c0) = false ->
  run (Seq (stri (c0 :: w)) K) prev (x :: s) c = [].
Proof.
  intros H. apply seq_blocked. intros m1 s1 c1 Hin.
  change (stri (c0 :: w)) with (Seq (chri c0) (stri w)) in Hin.
  apply in_run_Seq in Hin. destruct Hin as (m & s0 & c' & _ & _ & _ & Hin & _).
  cbn [run chri] in Hin. rewrite H in Hin. contradiction.
Qed.

Lemma stri_nil (c0 : Z) (w : list Z) prev x s c :
  (lower x =? lower c0) = false -> run (stri (c0 :: w)) prev (x :: s) c = [].
Proof.
  intros H. change (stri (c0 :: w)) with (Seq (chri c0) (stri w)).
  apply seq_blocked. intros m1 s1 c1 Hin.
  cbn [run chri] in Hin. rewrite H in Hin. contradiction.
Qed.

Lemma seq_digits_nil (n : nat) (K : re) prev x s c :
  isDigit x = false -> run (Seq (Grp n (plus isDigit)) K) prev (x :: s) c = [].
Proof.
  intros H. apply seq_blocked. intros m1 s1 c1 Hin.
  cbn [run plus spanLen] in Hin. rewrite H in Hin. contradiction.
Qed.

Lemma ordinaryStart_inv (t : list Z) :
  ordinaryStart t = true ->
  exists x t', t = x :: t' /\ isSpace x = false /\ isDigit x = false
               /\ (44 =? x) = false /\ (lower x =? 112) = false.
Proof.
  destruct t as [|x t']; [discriminate|]. unfold ordinaryStart. intros H.
  repeat (apply andb_true_iff in H; let H' := fresh "H" in destruct H as [H H']).
  apply negb_true_iff in H, H0, H1, H2.
  exists x, t'. repeat split; try assumption. now rewrite Z.eqb_sym.
Qed.

Lemma english_paragraph_blocked (t : list Z) :
  ordinaryStart t = true ->
  run ENGLISH_PARAGRAPH None ([44] ++ [32] ++ t) [] = [].
Proof.
  intros H. destruct (ordinaryStart_inv t H) as (x & t' & -> & Hsp & _ & _ & Hp).
  unfold ENGLISH_PARAGRAPH, seqs, star. cbn [fold_right].
  apply (seq_rep_nil true 0 isSpace _ None [] (44 :: 32 :: x :: t') []);
    [reflexivity | reflexivity|].
  intros i [<-|[]]. cbn [firstn skipn app length].
  apply seq_opt_chr_take.
  - apply (seq_rep_nil true 0 isSpace _ _ [32] (x :: t') []);
      [reflexivity | simpl; now rewrite Hsp|].
    intros i [<-|[<-|[]]]; cbn [firstn skipn app length].
    + now apply seq_stri_nil.
    + now apply seq_stri_nil.
  - apply (seq_rep_nil true 0 isSpace _ _ [] (44 :: 32 :: x :: t') []);
      [reflexivity | reflexivity|].
    intros i [<-|[]]. cbn [firstn skipn app length]. now apply seq_stri_nil.
Qed.

Lemma short_paragraph_blocked (t : list Z) :
  ordinaryStart t = true ->
  run SHORT_PARAGRAPH None ([32] ++ t) [] = [].
Proof.
  intros H. destruct (ordinaryStart_inv t H) as (x & t' & -> & Hsp & Hd & Hc & Hp).
  assert (Hx : forall prev c,
             run (Seq (Opt (seqs [stri (lit "Par"); Opt (chri 97); Opt (chr 46);
                                  star isSpace]))
                      (Seq (Grp 2 (plus isDigit)) Eps)) prev (x :: t') c = []).
  { intros prev c. apply seq_opt_skip_only.
    - unfold seqs. cbn [fold_right]. now apply seq_stri_nil.
    - now apply seq_digits_nil. }
  assert (Hb : forall prev c,
             run (Seq (Opt (seqs [stri (lit "Par"); Opt (chri 97); Opt (chr 46);
                                  star isSpace]))
                      (Seq (Grp 2 (plus isDigit)) Eps)) prev (32 :: x :: t') c = []).
  { intros prev c. apply seq_opt_skip_only.
    - unfold seqs. cbn [fold_right]. now apply seq_stri_nil.
    - now apply seq_digits_nil. }
  unfold SHORT_PARAGRAPH, seqs, star. cbn [fold_right].
  apply (seq_rep_nil true 0 isSpace _ None [32] (x :: t') []);
    [reflexivity | simpl; now rewrite Hsp|].
  intros i [<-|[<-|[]]]; cbn [firstn skipn app length].
  - apply seq_opt_skip_only; [now apply chr_nil|].
    apply (seq_rep_nil true 0 isSpace _ _ [] (x :: t') []);
      [reflexivity | simpl; now rewrite Hsp|].
    intros i [<-|[]]. cbn [firstn skipn app length]. apply Hx.
  - apply seq_opt_skip_only; [now apply chr_nil|].
    apply (seq_rep_nil true 0 isSpace _ _ [32] (x :: t') []);
      [reflexivity | simpl; now rewrite Hsp|].
    intros i [<-|[<-|[]]]; cbn [firstn skipn app length]; [apply Hx | apply Hb].
Qed.

(** A plain title without 第 and without a comma at its end, starting with
    an ordinary unit, round-trips in the English, full and short styles. *)
Lemma ordinary_title_round_trips (format : CitationFormat) (hasParagraph : bool)
      (t : list Z) :
  format = english \/ format = full \/ format = short ->
  plainTitle t = true -> ordinaryStart t = true ->
  existsb (Z.eqb zh_di) t = false -> (last t 0 =? 44) = false ->
  roundTripTitle format hasParagraph t = true.
Proof.
  intros Hf Hplain Hord Hdi Hcomma. unfold roundTripTitle.
  rewrite Hplain, Hdi, Hcomma.
  rewrite (english_paragraph_blocked t Hord), (short_paragraph_blocked t Hord).
  destruct Hf as [-> | [-> | ->]]; simpl; now rewrite orb_true_r.
Qed.

(** *** Numbers of the codec range *)

Lemma numeralFacts_table : forallb numeralFacts codecRange = true.
Proof. vm_compute. reflexivity. Qed.

Lemma inCodecRange_spec (n : Z) : inCodecRange n = true -> 1 <= n <= 9999.
Proof.
  unfold inCodecRange. intros H. apply andb_true_iff in H.
  destruct H as [H1 H2]. apply Z.leb_le in H1, H2. lia.
Qed.

Lemma numeral_facts (n : Z) :
  inCodecRange n = true ->
  let na := arabicToChinese n in
  let a := toString n in
  na <> [] /\ forallb isDot na = true /\ ~ In zh_tiao na /\ ~ In zh_kuan na
  /\ parseInt na = None /\ chineseToArabic na = n /\ trim na = na
  /\ a <> [] /\ forallb isDigit a = true /\ parseInt a = Some n.
Proof.
  intros Hn na a. apply inCodecRange_spec in Hn.
  pose proof numeralFacts_table as T. rewrite forallb_forall in T.
  specialize (T n (in_range_table n Hn)). unfold numeralFacts in T.
  fold na a in T.
  repeat (apply andb_true_iff in T; let H := fresh "F" in destruct T as [T H]).
  apply negb_true_iff in T, F5, F6, F4, F1.
  repeat split.
  - intros E. rewrite E in T. discriminate T.
  - assumption.
  - now apply existsb_false_notin.
  - now apply existsb_false_notin.
  - destruct (parseInt na); [discriminate F4 | reflexivity].
  - now apply Z.eqb_eq.
  - now apply str_eqb_eq.
  - intros E. rewrite E in F1. discriminate F1.
  - assumption.
  - destruct (parseInt a) as [k|]; [|discriminate F].
    apply Z.eqb_eq in F. now subst.
Qed.

Lemma truthy_nonempty (a : list Z) : a <> [] -> truthy (Some a) = true.
Proof. destruct a; [contradiction | reflexivity]. Qed.

Lemma article_ref_exec (na : list Z) :
  na <> [] -> forallb isDot na = true -> ~ In zh_tiao na ->
  exists f, exec ARTICLE_REF ([zh_di] ++ na ++ [zh_tiao]) = Some f /\
            group 1 (caps f) = Some na.
Proof.
  intros Hne Hdot Htiao.
  exists (mkFound 0 ([zh_di] ++ na ++ [zh_tiao] ++ []) [] [(1%nat, na)]).
  split; [|reflexivity].
  apply exec_hd. unfold ARTICLE_REF, seqs. cbn [fold_right].
  eapply hd_seq; [apply hd_chr|].
  apply (hd_lazy_until 1 isDot zh_tiao Eps _ na [] [] [] [] [(1%nat, na)]);
    [assumption.. | reflexivity].
Qed.

Lemma parseChineseNumber_numeral (n : Z) :
  inCodecRange n = true -> parseChineseNumber (arabicToChinese n) = Some n.
Proof.
  intros Hn.
  destruct (numeral_facts n Hn) as (Hne & Hdot & Htiao & _ & Hnan & Hval & Htrim & _).
  unfold parseChineseNumber. rewrite Hnan.
  destruct (article_ref_exec _ Hne Hdot Htiao) as (f & Hf & Hg).
  unfold extractArticleNumber. rewrite Hf, Hg. cbn [orEmpty].
  now rewrite Htrim, Hnan, Hval.
Qed.

(** *** Reading the printed texts back *)

Lemma parse_english_text (a : list Z) (po : option (list Z)) (t : list Z) :
  a <> [] -> forallb isDigit a = true ->
  (forall p, po = Some p -> p <> [] /\ forallb isDigit p = true) ->
  plainTitle t = true ->
  existsb (Z.eqb zh_di) t = false ->
  (po = None -> run ENGLISH_PARAGRAPH None ([44] ++ [32] ++ t) [] = []) ->
  let back := parseCitation (englishText a po t) in
  valid back = true /\ article back = Some a /\ paragraph back = po.
Proof.
  intros Ha Hda Hpo Ht Hdi Hnone back. subst back. unfold parseCitation.
  destruct (englishText_split a po t) as [pre E].
  replace (trim (englishText a po t)) with (englishText a po t)
    by (rewrite E; symmetry; apply trim_text;
        [reflexivity | now apply plainTitle_ne | now apply plainTitle_last]).
  rewrite (id_fails_english a po t Ha Hda), cc_fails_english.
  rewrite (law_first_blocked _ (english_no_di a po t Hda Hpo Hdi)).
  destruct (english_exec a po t Ha Hda Hpo Ht Hnone) as (f & -> & H1 & H2).
  cbn [valid article paragraph]. rewrite H1, H2.
  split; [reflexivity|]. split; [reflexivity|].
  destruct po as [p|]; [|reflexivity].
  destruct (Hpo p eq_refl) as [Hp _]. unfold orUndefined.
  now rewrite (truthy_nonempty p Hp).
Qed.

Lemma parse_short_text (a : list Z) (po : option (list Z)) (t : list Z) :
  a <> [] -> forallb isDigit a = true ->
  (forall p, po = Some p -> p <> [] /\ forallb isDigit p = true) ->
  plainTitle t = true ->
  existsb (Z.eqb zh_di) t = false ->
  (po = None -> run SHORT_PARAGRAPH None ([32] ++ t) [] = []) ->
  let back := parseCitation (shortText a po t) in
  valid back = true /\ article back = Some a /\ paragraph back = po.
Proof.
  intros Ha Hda Hpo Ht Hdi Hnone back. subst back. unfold parseCitation.
  destruct (shortText_split a po t) as [pre E].
  replace (trim (shortText a po t)) with (shortText a po t)
    by (rewrite E; symmetry; apply trim_text;
        [reflexivity | now apply plainTitle_ne | now apply plainTitle_last]).
  rewrite id_fails_short, cc_fails_short.
  rewrite (law_first_blocked _ (short_no_di a po t Hda Hpo Hdi)).
  rewrite english_fails_short.
  destruct (short_exec a po t Ha Hda Hpo Ht Hnone) as (f & -> & H1 & H2).
  cbn [valid article paragraph]. rewrite H1, H2.
  split; [reflexivity|]. split; [reflexivity|].
  destruct po as [p|]; [|reflexivity].
  destruct (Hpo p eq_refl) as [Hp _]. unfold orUndefined.
  now rewrite (truthy_nonempty p Hp).
Qed.

Lemma parse_chinese_text (n : Z) (m : option Z) (t suf : list Z) :
  inCodecRange n = true -> optInCodecRange m = true ->
  plainTitle t = true -> lawSuffixOf t = Some suf ->
  let back := parseCitation (chineseText (arabicToChinese n)
                                         (option_map arabicToChinese m) t) in
  valid back = true /\ article back = Some (toString n)
  /\ paragraph back = option_map toString m.
Proof.
  intros Hn Hm Ht Hsuf back. subst back. unfold parseCitation.
  set (na := arabicToChinese n). set (npo := option_map arabicToChinese m).
  destruct (numeral_facts n Hn) as (Hne & Hdot & Htiao & _).
  fold na in Hne, Hdot, Htiao.
  assert (Hnpo : forall np, npo = Some np ->
                            np <> [] /\ forallb isDot np = true /\ ~ In zh_kuan np).
  { intros np E. subst npo. destruct m as [k|]; [|discriminate].
    injection E as <-. simpl in Hm.
    destruct (numeral_facts k Hm) as (H1 & H2 & _ & H4 & _). auto. }
  destruct (chineseText_split na npo t) as [pre E].
  replace (trim (chineseText na npo t)) with (chineseText na npo t)
    by (rewrite E; symmetry; apply trim_text;
        [reflexivity | now apply plainTitle_ne | now apply plainTitle_last]).
  rewrite id_fails_chinese.
  destruct (chinese_exec na npo t suf Hne Hdot Htiao Hnpo Ht Hsuf)
    as (f & -> & H1 & H2).
  cbn [valid article paragraph]. rewrite H1, H2.
  split; [reflexivity|]. split.
  - unfold chineseArticle. cbn [orEmpty]. subst na.
    now rewrite (parseChineseNumber_numeral n Hn).
  - subst npo. destruct m as [k|]; [|reflexivity]. simpl in Hm.
    unfold chineseParagraph. cbn [option_map orEmpty].
    destruct (numeral_facts k Hm) as (Hk & _).
    rewrite (truthy_nonempty _ Hk), (parseChineseNumber_numeral k Hm).
    reflexivity.
Qed.


(** *** What [formatCitation] prints for a citation in range *)

Lemma format_english_like (ty : CitationType) (ti te err : option (list Z))
      (a : list Z) (po : option (list Z)) (name : list Z) :
  a <> [] -> (forall p, po = Some p -> p <> []) ->
  plainTitle name = true -> last name 0 <> 44 ->
  replace TRAILING_COMMA []
    (trim (refText (lit "Article ") (lit ", Paragraph ")
                   (mkCitation true ty ti te (Some a) po err)
           ++ lit ", " ++ name))
  = englishText a po name.
Proof.
  intros Ha Hpo Ht Hc.
  assert (E : refText (lit "Article ") (lit ", Paragraph ")
                      (mkCitation true ty ti te (Some a) po err)
              ++ lit ", " ++ name = englishText a po name).
  { unfold refText, englishText. cbn [article paragraph orEmpty].
    destruct po as [p|].
    - rewrite (truthy_nonempty p (Hpo p eq_refl)).
      repeat (rewrite <- app_assoc || rewrite <- app_comm_cons). reflexivity.
    - cbn [truthy].
      repeat (rewrite <- app_assoc || rewrite <- app_comm_cons). reflexivity. }
  rewrite E. destruct (englishText_split a po name) as [pre S]. rewrite S.
  rewrite trim_text;
    [| reflexivity | now apply plainTitle_ne | now apply plainTitle_last].
  apply trailing_comma_none.
  - rewrite last_app_right by now apply plainTitle_ne. now apply plainTitle_last.
  - now rewrite last_app_right by now apply plainTitle_ne.
Qed.

Lemma format_short_text (ty : CitationType) (ti te err : option (list Z))
      (a : list Z) (po : option (list Z)) (name : list Z) :
  a <> [] -> (forall p, po = Some p -> p <> []) ->
  plainTitle name = true ->
  trim (refText (lit "Art. ") (lit ", Para. ")
                (mkCitation true ty ti te (Some a) po err)
        ++ lit " " ++ name)
  = shortText a po name.
Proof.
  intros Ha Hpo Ht.
  assert (E : refText (lit "Art. ") (lit ", Para. ")
                      (mkCitation true ty ti te (Some a) po err)
              ++ lit " " ++ name = shortText a po name).
  { unfold refText, shortText. cbn [article paragraph orEmpty].
    destruct po as [p|].
    - rewrite (truthy_nonempty p (Hpo p eq_refl)).
      repeat (rewrite <- app_assoc || rewrite <- app_comm_cons). reflexivity.
    - cbn [truthy].
      repeat (rewrite <- app_assoc || rewrite <- app_comm_cons). reflexivity. }
  rewrite E. destruct (shortText_split a po name) as [pre S]. rewrite S.
  apply trim_text;
    [reflexivity | now apply plainTitle_ne | now apply plainTitle_last].
Qed.

Lemma format_chinese_text (n : Z) (m : option Z) (name : list Z) :
  inCodecRange n = true -> optInCodecRange m = true ->
  plainTitle name = true ->
  trim (buildChineseRef
          (match parseInt (toString n) with Some k => k | None => 0 end)
          (if truthy (option_map toString m)
           then parseInt (orEmpty (option_map toString m)) else None)
        ++ lit " " ++ name)
  = chineseText (arabicToChinese n) (option_map arabicToChinese m) name.
Proof.
  intros Hn Hm Ht.
  destruct (numeral_facts n Hn) as (_ & _ & _ & _ & _ & _ & _ & _ & _ & Hpn).
  rewrite Hpn.
  assert (E : buildChineseRef n
                (if truthy (option_map toString m)
                 then parseInt (orEmpty (option_map toString m)) else None)
              ++ lit " " ++ name
              = chineseText (arabicToChinese n) (option_map arabicToChinese m) name).
  { unfold buildChineseRef, chineseText. destruct m as [k|].
    - simpl in Hm.
      destruct (numeral_facts k Hm) as (_ & _ & _ & _ & _ & _ & _ & Hk & _ & Hpk).
      cbn [option_map orEmpty]. rewrite (truthy_nonempty _ Hk), Hpk.
      apply inCodecRange_spec in Hm.
      destruct (Z.gtb_spec k 0); [|lia].
      repeat (rewrite <- app_assoc || rewrite <- app_comm_cons). reflexivity.
    - cbn [option_map truthy].
      repeat (rewrite <- app_assoc || rewrite <- app_comm_cons). reflexivity. }
  rewrite E. destruct (chineseText_split (arabicToChinese n)
                         (option_map arabicToChinese m) name) as [pre S].
  rewrite S. apply trim_text;
    [reflexivity | now apply plainTitle_ne | now apply plainTitle_last].
Qed.

Lemma digits_of_option (m : option Z) :
  optInCodecRange m = true ->
  forall p, option_map toString m = Some p -> p <> [] /\ forallb isDigit p = true.
Proof.
  intros Hm p E. destruct m as [k|]; [|discriminate]. injection E as <-.
  simpl in Hm. destruct (numeral_facts k Hm) as (_ & _ & _ & _ & _ & _ & _ & H1 & H2 & _).
  auto.
Qed.

Lemma no_paragraph_condition (m : option Z) (l : list result) :
  hasValue m || noMatch l = true -> option_map toString m = None -> l = [].
Proof.
  destruct m; [discriminate|]. simpl. intros H _. now apply noMatch_nil.
Qed.

(** The round trip for citations in range. *)
Lemma round_trip_in_range (format : CitationFormat) (n : Z) (m : option Z)
      (ty : CitationType) (ti te err : option (list Z)) :
  let c := mkCitation true ty ti te (Some (toString n))
                      (option_map toString m) err in
  inCodecRange n = true -> optInCodecRange m = true ->
  roundTripTitle format (hasValue m) (printedName c format) = true ->
  let back := parseCitation (formatCitation c format) in
  valid back = true /\ article back = article c /\ paragraph back = paragraph c.
Proof.
  intros c Hn Hm Htitle back. subst back.
  destruct (numeral_facts n Hn) as (_ & _ & _ & _ & _ & _ & _ & Ha & Hda & _).
  pose proof (digits_of_option m Hm) as Hpo.
  assert (Hpo' : forall p, option_map toString m = Some p -> p <> [])
    by (intros p E; now destruct (Hpo p E)).
  unfold roundTripTitle in Htitle. apply andb_true_iff in Htitle.
  destruct Htitle as [Hplain Hstyle].
  assert (Hfmt : forall body,
             formatCitation c format
             = (if negb (valid c) || negb (truthy (article c)) then [] else body) ->
             formatCitation c format = body).
  { intros body ->. subst c. cbn [valid article].
    now rewrite (truthy_nonempty _ Ha). }
  cbn [article paragraph c].
  destruct format.
  - (* full *)
    apply andb_true_iff in Hstyle. destruct Hstyle as [Hstyle Hpar].
    apply andb_true_iff in Hstyle. destruct Hstyle as [Hcomma Hdi].
    apply negb_true_iff in Hcomma, Hdi. apply Z.eqb_neq in Hcomma.
    rewrite (Hfmt _ eq_refl).
    change (orEmpty (nullish (title c) (title_en c))) with (printedName c full).
    subst c. rewrite (format_english_like _ _ _ _ _ _ _ Ha Hpo' Hplain Hcomma).
    apply parse_english_text; try assumption.
    now apply no_paragraph_condition.
  - (* short *)
    apply andb_true_iff in Hstyle. destruct Hstyle as [Hdi Hpar].
    apply negb_true_iff in Hdi.
    rewrite (Hfmt _ eq_refl).
    change (orEmpty (nullish (title c) (title_en c))) with (printedName c short).
    subst c. rewrite (format_short_text _ _ _ _ _ _ _ Ha Hpo' Hplain).
    apply parse_short_text; try assumption.
    now apply no_paragraph_condition.
  - (* pinpoint *)
    discriminate Hstyle.
  - (* chinese *)
    destruct (lawSuffixOf (printedName c chinese)) as [suf|] eqn:Hsuf;
      [|discriminate Hstyle].
    rewrite (Hfmt _ eq_refl).
    change (orEmpty (nullish (title c) (title_en c))) with (printedName c chinese).
    subst c. cbn [article paragraph orEmpty].
    rewrite (format_chinese_text n m _ Hn Hm Hplain).
    now apply (parse_chinese_text n m _ suf).
  - (* english *)
    apply andb_true_iff in Hstyle. destruct Hstyle as [Hstyle Hpar].
    apply andb_true_iff in Hstyle. destruct Hstyle as [Hcomma Hdi].
    apply negb_true_iff in Hcomma, Hdi. apply Z.eqb_neq in Hcomma.
    rewrite (Hfmt _ eq_refl).
    change (orEmpty (nullish (title_en c)
                       (Some (orEmpty (nullish (title c) (title_en c))))))
      with (printedName c english).
    subst c. rewrite (format_english_like _ _ _ _ _ _ _ Ha Hpo' Hplain Hcomma).
    apply parse_english_text; try assumption.
    now apply no_paragraph_condition.
Qed.

End CitationRoundTrip.

Example round_trip_english_no_paragraph :
  let c := Citation.mkCitation true Citation.statute (Some Citation.csl_title)
             (Some (lit "Personal Information Protection Law"))
             (Some (toString 1024)) None None in
  Citation.formatCitation c Citation.english
  = lit "Article 1024, Personal Information Protection Law" /\
  Citation.article (Citation.parseCitation (Citation.formatCitation c Citation.english))
  = Some (lit "1024") /\
  Citation.paragraph (Citation.parseCitation (Citation.formatCitation c Citation.english))
  = None.
Proof.
  intros c. split; [reflexivity|].
  apply (round_trip_in_range Citation.english 1024 None Citation.statute
           (Some Citation.csl_title) (Some (lit "Personal Information Protection Law")) None);
    reflexivity.
Qed.

Example round_trip_short_partnership :
  let c := Citation.mkCitation true Citation.statute
             (Some (lit "Partnership Enterprise Law")) None
             (Some (toString 7)) None None in
  Citation.formatCitation c Citation.short = lit "Art. 7 Partnership Enterprise Law" /\
  Citation.article (Citation.parseCitation (Citation.formatCitation c Citation.short))
  = Some (lit "7").
Proof.
  intros c. split; [reflexivity|].
  apply (round_trip_in_range Citation.short 7 None Citation.statute
           (Some (lit "Partnership Enterprise Law")) None None);
    reflexivity.
Qed.

Example round_trip_full_with_paragraph :
  let c := Citation.mkCitation true Citation.statute (Some Citation.csl_title) None
             (Some (toString 21)) (Some (toString 3)) None in
  Citation.paragraph (Citation.parseCitation (Citation.formatCitation c Citation.full))
  = Some (lit "3").
Proof.
  intros c.
  apply (round_trip_in_range Citation.full 21 (Some 3) Citation.statute
           (Some Citation.csl_title) None None);
    reflexivity.
Qed.

(** Where the title is left out the paragraph is lost: "Article 3,
    Paragraph 1" reads back with "Paragraph 1" as its title. *)
Example title_omitted_loses_paragraph :
  let c := Citation.mkCitation true Citation.statute None None
             (Some (lit "3")) (Some (lit "1")) None in
  Citation.formatCitation c Citation.full = lit "Article 3, Paragraph 1" /\
  Citation.paragraph (Citation.parseCitation (Citation.formatCitation c Citation.full))
  = None /\
  Citation.title_en (Citation.parseCitation (Citation.formatCitation c Citation.full))
  = Some (lit "Paragraph 1").
Proof. intros c. vm_compute. repeat split. Qed.


(* ===================================================================== *)
(** * Part III: further properties of the code                            *)
(* ===================================================================== *)

From Stdlib Require DecimalPos.

(** ** Decimal strings *)

Section DecimalStrings.

Lemma uint_units_digits (u : Decimal.uint) : forallb isDigit (uint_units u) = true.
Proof. induction u; simpl; auto. Qed.

Lemma uint_units_nonnil (u : Decimal.uint) :
  u <> Decimal.Nil -> uint_units u <> [].
Proof. destruct u; simpl; congruence. Qed.

Lemma digitsPrefix_acc (u : Decimal.uint) :
  forall acc : positive,
    digitsPrefix (Some (Z.pos acc)) (uint_units u)
    = Some (Z.pos (Pos.of_uint_acc u acc)).
Proof.
  induction u; intros acc; cbn [uint_units digitsPrefix Pos.of_uint_acc];
    [reflexivity | ..];
    (replace (isDigit _) with true by reflexivity);
    match goal with
    | |- digitsPrefix (Some ?v) _ = Some (Z.pos (Pos.of_uint_acc _ ?w)) =>
        replace v with (Z.pos w) by lia
    end; apply IHu.
Qed.

Lemma digitsPrefix_zero (u : Decimal.uint) :
  digitsPrefix (Some 0) (uint_units u) = Some (Z.of_N (Pos.of_uint u)).
Proof.
  induction u; cbn [uint_units digitsPrefix Pos.of_uint];
    [reflexivity | ..];
    (replace (isDigit _) with true by reflexivity);
    [exact IHu | ..];
    match goal with
    | |- digitsPrefix (Some ?v) _ = Some (Z.of_N (N.pos (Pos.of_uint_acc _ ?w))) =>
        replace v with (Z.pos w) by lia
    end; apply digitsPrefix_acc.
Qed.

Lemma digitsPrefix_units (u : Decimal.uint) :
  u <> Decimal.Nil ->
  digitsPrefix None (uint_units u) = Some (Z.of_N (Pos.of_uint u)).
Proof.
  intros H. destruct u; [contradiction | ..];
    cbn [uint_units digitsPrefix Pos.of_uint];
    (replace (isDigit _) with true by reflexivity);
    [apply digitsPrefix_zero | ..];
    match goal with
    | |- digitsPrefix (Some ?v) _ = Some (Z.of_N (N.pos (Pos.of_uint_acc _ ?w))) =>
        replace v with (Z.pos w) by lia
    end; apply digitsPrefix_acc.
Qed.

Lemma isDigit_not_space (c : Z) : isDigit c = true -> isSpace c = false.
Proof.
  unfold isDigit, isSpace, isWhiteSpace, isLineTerminator. intros H.
  apply andb_true_iff in H. destruct H as [H1 H2].
  apply Z.leb_le in H1, H2.
  repeat match goal with
         | |- context [c =? ?k] => destruct (Z.eqb_spec c k); [lia|]
         end.
  destruct (Z.leb_spec 0x2000 c); [lia | reflexivity].
Qed.

Lemma parseInt_units (u : Decimal.uint) :
  u <> Decimal.Nil -> parseInt (uint_units u) = Some (Z.of_N (Pos.of_uint u)).
Proof.
  intros H. pose proof (digitsPrefix_units u H) as D.
  pose proof (uint_units_digits u) as G.
  unfold parseInt. destruct (uint_units u) as [|c s] eqn:E.
  - exfalso. now apply (uint_units_nonnil u H).
  - cbn [forallb] in G. apply andb_true_iff in G. destruct G as [Gc _].
    cbn [trimStart]. rewrite (isDigit_not_space c Gc).
    unfold isDigit in Gc. apply andb_true_iff in Gc. destruct Gc as [G1 G2].
    apply Z.leb_le in G1, G2.
    destruct (Z.eqb_spec c 45); [lia|]. destruct (Z.eqb_spec c 43); [lia|].
    exact D.
Qed.

(** [parseInt(String(n), 10)] is [n], for every integer. *)
Lemma parseInt_toString (n : Z) : parseInt (toString n) = Some n.
Proof.
  destruct n as [|p|p]; [reflexivity | |].
  - unfold toString. cbn [Z.to_int].
    rewrite parseInt_units by apply DecimalPos.Unsigned.to_uint_nonnil.
    now rewrite DecimalPos.Unsigned.of_to.
  - unfold toString. cbn [Z.to_int]. unfold parseInt.
    cbn [trimStart]. replace (isSpace 45) with false by reflexivity.
    replace (45 =? 45) with true by reflexivity.
    rewrite digitsPrefix_units by apply DecimalPos.Unsigned.to_uint_nonnil.
    now rewrite DecimalPos.Unsigned.of_to.
Qed.

Lemma toString_nonempty (n : Z) : toString n <> [].
Proof.
  destruct n as [|p|p]; unfold toString; cbn [Z.to_int]; try discriminate.
  apply uint_units_nonnil, DecimalPos.Unsigned.to_uint_nonnil.
Qed.

(** The decimal form of a number that is not negative holds digits only. *)
Lemma toString_digits (n : Z) : 0 <= n -> forallb isDigit (toString n) = true.
Proof.
  destruct n as [|p|p]; intros H; [reflexivity | | lia].
  unfold toString. cbn [Z.to_int]. apply uint_units_digits.
Qed.

End DecimalStrings.

(** ** References in Chinese notation *)

Section NumeralReferences.
Import Citation NumeralRefs.

Lemma toString_units (n : Z) :
  Forall (fun c => isDigit c = true \/ c = 45) (toString n).
Proof.
  assert (U : forall u, Forall (fun c => isDigit c = true \/ c = 45) (uint_units u)).
  { intros u. apply Forall_forall. intros c Hc. left.
    pose proof (uint_units_digits u) as D. rewrite forallb_forall in D. auto. }
  destruct n as [|p|p]; unfold toString; cbn [Z.to_int]; auto.
Qed.

Lemma decimal_unit_facts (c : Z) :
  isDigit c = true \/ c = 45 ->
  isSpace c = false /\ isDot c = true /\ c <> zh_tiao /\ c <> zh_kuan.
Proof.
  intros [H | ->]; [|repeat split; discriminate].
  pose proof (isDigit_not_space c H) as S.
  unfold isDigit in H. apply andb_true_iff in H. destruct H as [H1 H2].
  apply Z.leb_le in H1, H2.
  repeat split; try assumption; try (unfold zh_tiao, zh_kuan; lia).
  unfold isDot. unfold isSpace in S. apply orb_false_iff in S.
  destruct S as [_ ->]. reflexivity.
Qed.

(** A reference pattern [第(.+?)X] on a text that opens with 第, a body
    free of [X] and then [X]: the group is the body. *)
Lemma ref_exec (stop : Z) (na rest : list Z) :
  na <> [] -> forallb isDot na = true -> ~ In stop na ->
  exec (seqs [chr zh_di; Grp 1 (lazyPlus isDot); chr stop])
       ([zh_di] ++ na ++ stop :: rest)
  = Some (mkFound 0 ([zh_di] ++ na ++ [stop] ++ []) rest [(1%nat, na)]).
Proof.
  intros Hne Hdot Hstop.
  apply exec_hd. unfold seqs. cbn [fold_right].
  eapply hd_seq; [apply hd_chr|].
  apply (hd_lazy_until 1 isDot stop Eps _ na rest [] [] rest [(1%nat, na)]);
    [assumption.. | reflexivity].
Qed.

Lemma extractArticleNumber_of (X tail : list Z) (v : Z) :
  X <> [] -> forallb isDot X = true -> ~ In zh_tiao X -> trim X = X ->
  parseInt X = Some v \/ (parseInt X = None /\ chineseToArabic X = v) ->
  extractArticleNumber ([zh_di] ++ X ++ zh_tiao :: tail) = Some v.
Proof.
  intros Hne Hdot Hstop Htrim Hval.
  unfold extractArticleNumber, ARTICLE_REF.
  rewrite (ref_exec zh_tiao X tail Hne Hdot Hstop).
  cbn [caps group Nat.eqb orEmpty]. rewrite Htrim.
  destruct Hval as [-> | [-> ->]]; reflexivity.
Qed.

Lemma decimal_article (a : Z) (tail : list Z) :
  extractArticleNumber ([zh_di] ++ toString a ++ zh_tiao :: tail) = Some a.
Proof.
  pose proof (toString_units a) as U. rewrite Forall_forall in U.
  assert (F : forall c, In c (toString a) ->
                isSpace c = false /\ isDot c = true /\ c <> zh_tiao /\ c <> zh_kuan).
  { intros c Hc. apply decimal_unit_facts, U, Hc. }
  apply extractArticleNumber_of.
  - apply toString_nonempty.
  - apply forallb_forall. intros c Hc. apply (F c Hc).
  - intros Hin. destruct (F _ Hin) as (_ & _ & H & _). now apply H.
  - apply trim_no_space. apply Forall_forall. intros c Hc. apply (F c Hc).
  - left. apply parseInt_toString.
Qed.

Lemma numeral_article (a : Z) (tail : list Z) :
  0 <= a <= 9999 ->
  extractArticleNumber ([zh_di] ++ arabicToChinese a ++ zh_tiao :: tail) = Some a.
Proof.
  intros Ha. destruct (Z.eq_dec a 0) as [->|Hz].
  - apply extractArticleNumber_of; try reflexivity; try discriminate.
    + intros [H|[]]. discriminate H.
    + right. split; reflexivity.
  - assert (Hr : inCodecRange a = true).
    { unfold inCodecRange. apply andb_true_iff. split; apply Z.leb_le; lia. }
    destruct (numeral_facts a Hr) as (Hne & Hdot & Htiao & _ & Hnan & Hval & Htrim & _).
    apply extractArticleNumber_of; auto.
Qed.

Lemma arabicToChinese_outside (a : Z) :
  ~ 0 <= a <= 9999 -> arabicToChinese a = toString a.
Proof.
  intros H. unfold arabicToChinese.
  destruct (Z.ltb_spec a 0); [reflexivity|].
  destruct (Z.gtb_spec a 9999); [reflexivity | lia].
Qed.

Lemma article_reads_back (article : Z) (tail : jsstring) :
  extractArticleNumber ([zh_di] ++ arabicToChinese article ++ zh_tiao :: tail)
  = Some article.
Proof.
  destruct (Z.le_gt_cases 0 article) as [H0|H0].
  - destruct (Z.le_gt_cases article 9999) as [H1|H1].
    + apply numeral_article. lia.
    + rewrite arabicToChinese_outside by lia. apply decimal_article.
  - rewrite arabicToChinese_outside by lia. apply decimal_article.
Qed.

(** X1: the article number of a reference printed by buildChineseRef reads
    back: for every article that is a safe integer (of magnitude up to
    2^53 - 1, negative ones and those beyond 9999 included, which are
    printed in digits) and every paragraph that is absent or a safe integer,
    extractArticleNumber (buildChineseRef article paragraph) is the
    article. *)
Theorem extractArticleNumber_buildChineseRef (article : Z) (paragraph : option Z) :
  safeInteger article = true -> optSafeInteger paragraph = true ->
  extractArticleNumber (buildChineseRef article paragraph) = Some article.
Proof.
  intros _ _. unfold buildChineseRef.
  destruct paragraph as [p|]; [destruct (p >? 0)|];
    repeat (rewrite <- app_assoc || rewrite <- app_comm_cons); cbn [app];
    apply article_reads_back.
Qed.

Lemma extractArticleNumber_buildChineseRef_witness :
  extractArticleNumber (buildChineseRef 12345 (Some 3)) = Some 12345.
Proof.
  apply (extractArticleNumber_buildChineseRef 12345 (Some 3)); reflexivity.
Defined.

(** *** The paragraph of a printed reference *)

Lemma scanFrom_app (s t : jsstring) :
  forall i st,
    scanFrom i (s ++ t) st = scanFrom (i + Z.of_nat (length s)) t (scanFrom i s st).
Proof.
  induction s as [|c s IH]; intros i st.
  - simpl. now rewrite Z.add_0_r.
  - cbn [app scanFrom length]. rewrite IH. f_equal. lia.
Qed.

(** Past index 0 the loop adds to [result] what it would add to 0, and the
    pending digit does not depend on what [result] holds. *)
Lemma scan_shift (s : jsstring) :
  forall i j st st',
    i <> 0 -> j <> 0 -> 0 <= i -> 0 <= j -> currentNum st = currentNum st' ->
    Numerals.result (scanFrom i s st) - Numerals.result st
    = Numerals.result (scanFrom j s st') - Numerals.result st'
    /\ currentNum (scanFrom i s st) = currentNum (scanFrom j s st').
Proof.
  induction s as [|c s IH]; intros i j st st' Hi Hj Hi0 Hj0 Hc.
  - simpl. split; [lia | assumption].
  - cbn [scanFrom].
    assert (S1 : Numerals.result (scanStep i c st) - Numerals.result st
                 = Numerals.result (scanStep j c st') - Numerals.result st'
                 /\ currentNum (scanStep i c st) = currentNum (scanStep j c st')).
    { unfold scanStep. destruct (CHINESE_DIGITS c); [simpl; split; [lia | reflexivity]|].
      destruct (CHINESE_MULTIPLIERS c); [|split; [lia | assumption]].
      destruct (Z.eqb_spec i 0); [contradiction|].
      destruct (Z.eqb_spec j 0); [contradiction|].
      rewrite !andb_false_r. simpl. rewrite Hc. split; [lia | reflexivity]. }
    destruct S1 as [R1 C1].
    destruct (IH (i + 1) (j + 1) (scanStep i c st) (scanStep j c st')
                 ltac:(lia) ltac:(lia) ltac:(lia) ltac:(lia) C1) as [R2 C2].
    split; [lia | assumption].
Qed.

(** *** Reading a string and reading its recognised glyphs *)








Lemma in_countUp (k : nat) :
  forall lo n, lo <= n < lo + Z.of_nat k -> In n (countUp lo k).
Proof.
  induction k as [|k IH]; intros lo n H; [lia|]. cbn [countUp].
  destruct (Z.eq_dec lo n) as [->|Hne]; [now left|].
  right. apply IH. lia.
Qed.

Lemma in_numeralRange (n : Z) : 1 <= n <= 9999 -> In n numeralRange.
Proof. intros H. apply in_countUp. lia. Qed.

Lemma commonNumeral_table : forallb commonNumeral numeralRange = true.
Proof. vm_compute. reflexivity. Qed.

Lemma scansTo_table : forallb scansTo numeralRange = true.
Proof. vm_compute. reflexivity. Qed.

Lemma continuesTo_teens : forallb continuesTo teens = true.
Proof. vm_compute. reflexivity. Qed.

(** What holds of each of the thirteen glyphs. *)
Lemma commonGlyph_facts (c : char) :
  commonGlyph c = true ->
  isSpace c = false /\ recognised c = true /\ isDigit c = false.
Proof.
  unfold commonGlyph. cbn [existsb]. intros H.
  repeat (apply orb_true_iff in H;
          destruct H as [H|H]; [apply Z.eqb_eq in H; subst c; now vm_compute|]).
  discriminate H.
Qed.

Lemma numeral_common (n : Z) :
  1 <= n <= 9999 ->
  arabicToChinese n <> [] /\ forallb commonGlyph (arabicToChinese n) = true.
Proof.
  intros Hn. pose proof commonNumeral_table as T. rewrite forallb_forall in T.
  specialize (T n (in_numeralRange n Hn)). unfold commonNumeral in T.
  apply andb_true_iff in T. destruct T as [T1 T2]. split; [|exact T2].
  intros E. rewrite E in T1. discriminate T1.
Qed.

Lemma numeral_ends (n : Z) :
  1 <= n <= 9999 ->
  exists x s, arabicToChinese n = x :: s /\ isSpace x = false
              /\ isSpace (last (x :: s) 0) = false /\ recognised x = true.
Proof.
  intros Hn. destruct (numeral_common n Hn) as [Hne Hc].
  rewrite forallb_forall in Hc.
  destruct (arabicToChinese n) as [|x s] eqn:E; [contradiction|].
  exists x, s. split; [reflexivity|].
  destruct (commonGlyph_facts x (Hc x (or_introl eq_refl))) as (Sx & Rx & _).
  split; [exact Sx|]. split; [|exact Rx].
  destruct (exists_last Hne) as (s' & z & E'). rewrite E', last_last.
  apply (commonGlyph_facts z). apply Hc. rewrite E'.
  apply in_or_app. right. now left.
Qed.

Lemma recognised_not_decimal (c : char) :
  recognised c = true -> isDigit c = false /\ c <> 45 /\ c <> 43.
Proof.
  unfold recognised, CHINESE_DIGITS, CHINESE_MULTIPLIERS.
  repeat match goal with
         | |- context [c =? ?k] =>
             destruct (Z.eqb_spec c k) as [->|];
             [intros _; repeat split; discriminate|]; simpl
         end.
  discriminate.
Qed.

Lemma parseInt_glyph (x : Z) (s : list Z) :
  recognised x = true -> parseInt (x :: s) = None.
Proof.
  intros H. destruct (recognised_not_decimal x H) as (D & M & P).
  unfold parseInt. cbn [trimStart]. rewrite (recognised_not_space x H).
  destruct (Z.eqb_spec x 45); [contradiction|].
  destruct (Z.eqb_spec x 43); [contradiction|].
  cbn [digitsPrefix]. now rewrite D.
Qed.

(** A reference pattern finds nothing in a text without its closing glyph. *)
Lemma execFrom_blocked (r : re) (stop : Z) :
  (forall prev s c, ~ In stop s -> run r prev s c = []) ->
  forall s prev idx, ~ In stop s -> execFrom r prev s idx = None.
Proof.
  intros Hr. induction s as [|x s IH]; intros prev idx Hs; cbn [execFrom];
    rewrite (Hr _ _ _ Hs); [reflexivity|].
  apply IH. intros Hin. apply Hs. now right.
Qed.

Lemma ref_blocked (stop : Z) (s : list Z) :
  ~ In stop s ->
  exec (seqs [chr zh_di; Grp 1 (lazyPlus isDot); chr stop]) s = None.
Proof.
  intros Hs. unfold exec. apply (execFrom_blocked _ stop); [|assumption].
  unfold seqs. cbn [fold_right].
  apply seq_blocked_step, seq_blocked_step. intros prev s0 c. apply chr_blocked.
Qed.

Lemma mod10_cases (a : Z) :
  In (a mod 10) [0; 1; 2; 3; 4; 5; 6; 7; 8; 9].
Proof.
  pose proof (Z.mod_pos_bound a 10 ltac:(lia)) as B. simpl.
  assert (H : a mod 10 = 0 \/ a mod 10 = 1 \/ a mod 10 = 2 \/ a mod 10 = 3
              \/ a mod 10 = 4 \/ a mod 10 = 5 \/ a mod 10 = 6 \/ a mod 10 = 7
              \/ a mod 10 = 8 \/ a mod 10 = 9) by lia.
  intuition auto.
Qed.

(** The numerals of an article and of a paragraph, read as one text. *)
Lemma scans_to (a : Z) :
  1 <= a <= 9999 ->
  Numerals.result (scanFrom 0 (arabicToChinese a) scan0) = a - a mod 10
  /\ currentNum (scanFrom 0 (arabicToChinese a) scan0) = a mod 10
  /\ (isTeen a = true \/ opensWithDigit (arabicToChinese a) = true).
Proof.
  intros Ha. pose proof scansTo_table as T. rewrite forallb_forall in T.
  specialize (T a (in_numeralRange a Ha)). unfold scansTo in T. cbv zeta in T.
  apply andb_true_iff in T. destruct T as [T T3].
  apply andb_true_iff in T. destruct T as [T1 T2].
  apply Z.eqb_eq in T1, T2. apply orb_true_iff in T3. auto.
Qed.

(** Reading the numeral of [p] when the loop is past index 0 and holds the
    pending digit [d]. *)
Lemma continues_to (p d i : Z) (st : scan) :
  1 <= p <= 9999 -> In d [0; 1; 2; 3; 4; 5; 6; 7; 8; 9] -> 0 < i ->
  currentNum st = d ->
  Numerals.result (scanFrom i (arabicToChinese p) st)
  + currentNum (scanFrom i (arabicToChinese p) st)
  = Numerals.result st + readAfter d p.
Proof.
  intros Hp Hd Hi Hc.
  destruct (scans_to p Hp) as (R & C & [T|T]).
  - (* 10 to 19: the ten glyph multiplies the pending digit *)
    unfold isTeen in T. apply andb_true_iff in T. destruct T as [T1 T2].
    apply Z.leb_le in T1, T2.
    pose proof continuesTo_teens as K. rewrite forallb_forall in K.
    specialize (K p (in_countUp (Z.to_nat 10) 10 p ltac:(lia))). unfold continuesTo in K.
    rewrite forallb_forall in K. specialize (K d Hd). apply Z.eqb_eq in K.
    destruct (scan_shift (arabicToChinese p) i 1 st (mkScan 0 d 1))
      as [R' C']; try first [lia | exact Hc].
    cbn [Numerals.result] in R'. lia.
  - (* otherwise the first glyph is a digit, which replaces the pending one *)
    destruct (arabicToChinese p) as [|x s] eqn:E; [discriminate T|].
    cbn [opensWithDigit] in T.
    destruct (CHINESE_DIGITS x) as [v|] eqn:D; [|discriminate T].
    cbn [scanFrom] in R, C |- *. unfold scanStep in R, C |- *. rewrite D in *.
    cbn [Numerals.result lastMultiplier] in R, C |- *.
    change (Numerals.result scan0) with 0 in R, C.
    change (lastMultiplier scan0) with 1 in R, C.
    destruct (scan_shift s (i + 1) (0 + 1)
                (mkScan (Numerals.result st) v (lastMultiplier st))
                (mkScan 0 v 1)) as [R' C']; try first [lia | reflexivity].
    cbn [Numerals.result] in R'. unfold readAfter.
    destruct ((10 <=? p) && (p <=? 19)) eqn:Teen.
    + (* a numeral from 10 to 19 opens with the ten glyph *)
      exfalso. apply andb_true_iff in Teen. destruct Teen as [T1 T2].
      apply Z.leb_le in T1, T2.
      assert (Hcases : In p [10; 11; 12; 13; 14; 15; 16; 17; 18; 19])
        by (simpl; lia).
      clear -E D Hcases. simpl in Hcases.
      repeat (destruct Hcases as [<-|Hcases];
              [vm_compute in E; injection E as <- _; vm_compute in D;
               discriminate D|]).
      contradiction.
    + lia.
Qed.

(** The numerals of an article and of a paragraph, read as one text. *)
Lemma scan_two_numerals (a p : Z) (mid : list Z) :
  1 <= a <= 9999 -> 1 <= p <= 9999 ->
  forallb (fun c => negb (recognised c)) mid = true ->
  scanAll (arabicToChinese a ++ mid ++ arabicToChinese p)
  = a - a mod 10 + readAfter (a mod 10) p.
Proof.
  intros Ha Hp Hmid.
  destruct (scans_to a Ha) as (RA & CA & _).
  destruct (numeral_ends a Ha) as (x & s & EA & _).
  unfold scanAll. rewrite scanFrom_app, scanFrom_app.
  set (stA := scanFrom 0 (arabicToChinese a) scan0) in *.
  assert (Hm : forall i, scanFrom i mid stA = stA).
  { clear -Hmid. induction mid as [|c mid IH]; intros i; [reflexivity|].
    cbn [forallb] in Hmid. apply andb_true_iff in Hmid. destruct Hmid as [Hc Hmid].
    apply negb_true_iff in Hc. cbn [scanFrom].
    rewrite (scanStep_unrecognised i c stA Hc). now apply IH. }
  rewrite Hm.
  rewrite (continues_to p (a mod 10) _ stA Hp (mod10_cases a));
    [lia | rewrite EA; cbn [length]; lia | exact CA].
Qed.

(** X2: extractParagraphNumber reads the text between the first 第 and 款.
    On a reference printed by buildChineseRef for an article a and a
    paragraph p, both from 1 to 9999, that text holds the numeral of the
    article too, and the result is a without its ones digit plus p, or, when
    p is 10 to 19 and its numeral opens with the ten glyph, a without its
    ones digit plus ten times that digit plus p - 10.  It is p exactly when
    that sum is p, as for an article below 10 and a paragraph outside 10..19.
    Without a paragraph the reference holds no 款 and the result is null. *)
Theorem extractParagraphNumber_buildChineseRef (a p : Z) :
  1 <= a <= 9999 -> 1 <= p <= 9999 ->
  extractParagraphNumber (buildChineseRef a (Some p))
  = Some (a - a mod 10
          + (if (10 <=? p) && (p <=? 19) then 10 * (a mod 10) + (p - 10) else p))
  /\ extractParagraphNumber (buildChineseRef a None) = None.
Proof.
  intros Ha Hp.
  assert (Hra : inCodecRange a = true).
  { unfold inCodecRange. apply andb_true_iff. split; apply Z.leb_le; lia. }
  assert (Hrp : inCodecRange p = true).
  { unfold inCodecRange. apply andb_true_iff. split; apply Z.leb_le; lia. }
  destruct (numeral_facts a Hra) as (HneA & HdotA & HtiaoA & HkuanA & _).
  destruct (numeral_facts p Hrp) as (HneP & HdotP & _ & HkuanP & _).
  destruct (numeral_ends a Ha) as (x & s & EA & Sx & _ & Rx).
  destruct (numeral_ends p Hp) as (y & t & EP & _ & Sl & _).
  split.
  - unfold buildChineseRef. destruct (Z.gtb_spec p 0) as [_|]; [|lia].
    set (body := arabicToChinese a ++ [zh_tiao; zh_di] ++ arabicToChinese p).
    replace (([zh_di] ++ arabicToChinese a ++ [zh_tiao])
             ++ [zh_di] ++ arabicToChinese p ++ [zh_kuan])
      with ([zh_di] ++ body ++ zh_kuan :: [])
      by (unfold body; repeat (rewrite <- app_assoc || rewrite <- app_comm_cons);
          reflexivity).
    unfold extractParagraphNumber, PARAGRAPH_REF.
    rewrite (ref_exec zh_kuan body []).
    + cbn [caps group Nat.eqb orEmpty].
      assert (Hb : body = x :: s ++ [zh_tiao; zh_di] ++ arabicToChinese p).
      { unfold body. now rewrite EA. }
      assert (Ht : trim body = body).
      { rewrite Hb. apply trim_id; [assumption|].
        rewrite app_comm_cons, app_assoc, last_app_right by assumption.
        now rewrite EP. }
      rewrite Ht. rewrite Hb at 1. rewrite (parseInt_glyph x _ Rx).
      rewrite chineseToArabic_readTrimmed, Ht, readTrimmed_long.
      * unfold body. rewrite (scan_two_numerals a p [zh_tiao; zh_di] Ha Hp eq_refl).
        reflexivity.
      * rewrite Hb. cbn [length]. rewrite length_app. cbn [app length]. lia.
    + unfold body. rewrite EA. discriminate.
    + unfold body. rewrite !forallb_app, HdotA, HdotP. reflexivity.
    + unfold body. intros Hin. apply in_app_or in Hin.
      destruct Hin as [Hin|Hin]; [contradiction|].
      apply in_app_or in Hin. destruct Hin as [[Hin|[Hin|[]]]|Hin];
        [discriminate Hin | discriminate Hin | contradiction].
  - unfold buildChineseRef, extractParagraphNumber, PARAGRAPH_REF.
    rewrite ref_blocked; [reflexivity|].
    intros Hin. cbn [app In] in Hin. destruct Hin as [Hin|Hin]; [discriminate Hin|].
    apply in_app_or in Hin. destruct Hin as [Hin|[Hin|[]]];
      [contradiction | discriminate Hin].
Qed.

Lemma extractParagraphNumber_buildChineseRef_witness :
  extractParagraphNumber (buildChineseRef 21 (Some 3)) = Some 23
  /\ extractParagraphNumber (buildChineseRef 21 None) = None.
Proof.
  exact (extractParagraphNumber_buildChineseRef 21 3 ltac:(lia) ltac:(lia)).
Defined.

(** *** What the scan never does *)

Lemma digit_value (c : char) (d : Z) : CHINESE_DIGITS c = Some d -> 0 <= d <= 9.
Proof.
  unfold CHINESE_DIGITS.
  repeat match goal with
         | |- context [if ?b then _ else _] =>
             destruct b; [intros [= <-]; lia|]
         end.
  discriminate.
Qed.

Lemma multiplier_value (c : char) (m : Z) :
  CHINESE_MULTIPLIERS c = Some m -> 0 < m.
Proof.
  unfold CHINESE_MULTIPLIERS.
  repeat match goal with
         | |- context [if ?b then _ else _] =>
             destruct b; [intros [= <-]; lia|]
         end.
  discriminate.
Qed.

Lemma scanStep_nonneg (i : Z) (c : char) (st : scan) :
  0 <= Numerals.result st /\ 0 <= currentNum st ->
  0 <= Numerals.result (scanStep i c st) /\ 0 <= currentNum (scanStep i c st).
Proof.
  intros [Hr Hc]. unfold scanStep.
  destruct (CHINESE_DIGITS c) as [d|] eqn:D.
  - apply digit_value in D. simpl. lia.
  - destruct (CHINESE_MULTIPLIERS c) as [m|] eqn:M; [|auto].
    apply multiplier_value in M.
    destruct (_ && _); simpl; nia.
Qed.

Lemma scanFrom_nonneg (s : jsstring) :
  forall i st,
    0 <= Numerals.result st /\ 0 <= currentNum st ->
    0 <= Numerals.result (scanFrom i s st) /\ 0 <= currentNum (scanFrom i s st).
Proof.
  induction s as [|c s IH]; intros i st H; [exact H|].
  cbn [scanFrom]. apply IH. now apply scanStep_nonneg.
Qed.

Lemma readTrimmed_nonneg (chars : jsstring) : 0 <= readTrimmed chars.
Proof.
  destruct chars as [|c [|c' chars]].
  - simpl. lia.
  - simpl. destruct (CHINESE_DIGITS c) as [d|] eqn:D.
    + apply digit_value in D. lia.
    + destruct (c =? zh_shi); lia.
  - change (readTrimmed (c :: c' :: chars)) with (scanAll (c :: c' :: chars)).
    unfold scanAll.
    destruct (scanFrom_nonneg (c :: c' :: chars) 0 scan0) as [Hr Hc];
      [simpl; lia | lia].
Qed.

Lemma scanFrom_unrecognised (s : jsstring) :
  forall i st, forallb (fun c => negb (recognised c)) s = true ->
               scanFrom i s st = st.
Proof.
  induction s as [|c s IH]; intros i st H; [reflexivity|].
  cbn [forallb] in H. apply andb_true_iff in H. destruct H as [Hc Hs].
  apply negb_true_iff in Hc. cbn [scanFrom].
  rewrite (scanStep_unrecognised i c st Hc). now apply IH.
Qed.

(** X3: chineseToArabic never yields a negative number, whatever the
    string; and a string that holds no glyph of the two tables reads 0. *)
Theorem chineseToArabic_never_negative (s : jsstring) :
  0 <= chineseToArabic s
  /\ chineseToArabic (filter (fun c => negb (recognised c)) s) = 0.
Proof.
  split.
  - rewrite chineseToArabic_readTrimmed. apply readTrimmed_nonneg.
  - rewrite chineseToArabic_readTrimmed.
    set (t := trim (filter (fun c => negb (recognised c)) s)).
    assert (Ht : forallb (fun c => negb (recognised c)) t = true).
    { apply forallb_forall. intros c Hc.
      assert (Hin : In c (filter (fun c => negb (recognised c)) s)).
      { unfold t, trim, trimEnd in Hc. apply in_rev in Hc.
        assert (Sub : forall l x, In x (trimStart l) -> In x l).
        { induction l as [|y l IH]; intros z Hz; [contradiction|].
          simpl in Hz. destruct (isSpace y); [right; auto | exact Hz]. }
        apply Sub, in_rev, Sub in Hc. exact Hc. }
      apply filter_In in Hin. apply Hin. }
    destruct t as [|c [|c' t]].
    + reflexivity.
    + simpl in Ht. rewrite andb_true_r in Ht. apply negb_true_iff in Ht.
      simpl. unfold recognised in Ht.
      destruct (CHINESE_DIGITS c); [destruct (CHINESE_MULTIPLIERS c); discriminate|].
      destruct (Z.eqb_spec c zh_shi) as [->|]; [discriminate Ht | reflexivity].
    + change (readTrimmed (c :: c' :: t)) with (scanAll (c :: c' :: t)).
      unfold scanAll. now rewrite scanFrom_unrecognised.
Qed.

(** *** Formal numerals *)

Lemma toCommon_tables (c : char) :
  CHINESE_DIGITS (toCommon c) = CHINESE_DIGITS c
  /\ CHINESE_MULTIPLIERS (toCommon c) = CHINESE_MULTIPLIERS c
  /\ isSpace (toCommon c) = isSpace c.
Proof.
  unfold toCommon.
  repeat match goal with
         | |- context [c =? ?k] =>
             destruct (Z.eqb_spec c k) as [->|]; [repeat split; reflexivity|]; simpl
         end.
  repeat split; reflexivity.
Qed.

Lemma toCommon_step (i : Z) (c : char) (st : scan) :
  scanStep i (toCommon c) st = scanStep i c st.
Proof.
  unfold scanStep. destruct (toCommon_tables c) as (-> & -> & _). reflexivity.
Qed.

Lemma toCommon_scan (s : jsstring) :
  forall i st, scanFrom i (map toCommon s) st = scanFrom i s st.
Proof.
  induction s as [|c s IH]; intros i st; [reflexivity|].
  cbn [map scanFrom]. now rewrite toCommon_step, IH.
Qed.

Lemma toCommon_trimStart (s : jsstring) :
  trimStart (map toCommon s) = map toCommon (trimStart s).
Proof.
  induction s as [|c s IH]; [reflexivity|]. cbn [map trimStart].
  destruct (toCommon_tables c) as (_ & _ & ->).
  destruct (isSpace c); [exact IH | reflexivity].
Qed.

Lemma toCommon_trim (s : jsstring) : trim (map toCommon s) = map toCommon (trim s).
Proof.
  unfold trim, trimEnd.
  now rewrite toCommon_trimStart, <- map_rev, toCommon_trimStart, map_rev.
Qed.

(** X4: a numeral written with the formal glyphs (壹 贰 叁 ... 拾 佰 仟) or
    the variants 〇 and 两 reads as the same numeral written with the
    common glyphs; the one exception is the formal ten 拾 standing alone,
    which the one-glyph branch does not know. *)
Theorem formal_numerals_read_alike (s : jsstring) :
  trim s <> [zh_shi2] ->
  chineseToArabic (map toCommon s) = chineseToArabic s.
Proof.
  intros H. rewrite !chineseToArabic_readTrimmed, toCommon_trim.
  destruct (trim s) as [|c [|c' t]].
  - reflexivity.
  - cbn [map readTrimmed].
    destruct (toCommon_tables c) as (-> & _ & _).
    destruct (CHINESE_DIGITS c) eqn:D; [reflexivity|].
    destruct (Z.eqb_spec c zh_shi) as [->|Hc]; [reflexivity|].
    unfold toCommon. unfold CHINESE_DIGITS in D.
    repeat match goal with
           | |- context [c =? ?k] =>
               destruct (Z.eqb_spec c k) as [->|];
               [first [discriminate D | congruence | reflexivity]|]; simpl
           end.
    destruct (Z.eqb_spec c zh_shi); [contradiction | reflexivity].
  - change (readTrimmed (map toCommon (c :: c' :: t)))
      with (scanAll (map toCommon (c :: c' :: t))).
    change (readTrimmed (c :: c' :: t)) with (scanAll (c :: c' :: t)).
    unfold scanAll. now rewrite toCommon_scan.
Qed.

Lemma formal_numerals_read_alike_witness :
  chineseToArabic (map toCommon [0x8D30; zh_bai2; zh_ling; 0x53C1])
  = chineseToArabic [0x8D30; zh_bai2; zh_ling; 0x53C1].
Proof.
  apply (formal_numerals_read_alike [0x8D30; zh_bai2; zh_ling; 0x53C1]).
  vm_compute. discriminate.
Defined.

End NumeralReferences.

(** ** Fetcher: the shape of every run *)

Section FetcherRuns.
Import Fetcher FetcherCallers.

Variable url : jsstring.

Lemma attemptLoop_closed (net : nat -> outcome) (maxRetries : nat) :
  forall fuel attempt slept,
    (attempt + fuel = S maxRetries)%nat -> (0 < fuel)%nat ->
    exists k,
      (attempt <= k <= maxRetries)%nat
      /\ (forall j, (attempt <= j < k)%nat -> retried (net j) = true)
      /\ (k = maxRetries \/ retried (net k) = false)
      /\ attemptLoop net url maxRetries fuel attempt slept
         = mkRun (settle (net k)) (S k)
                 (slept ++ map backoffMs (seq attempt (k - attempt))).
Proof.
  induction fuel as [|fuel IH]; intros attempt slept Hsum Hpos; [lia|].
  cbn [attemptLoop].
  assert (Stop : (attempt = maxRetries \/ retried (net attempt) = false) ->
                 exists k,
                   (attempt <= k <= maxRetries)%nat
                   /\ (forall j, (attempt <= j < k)%nat -> retried (net j) = true)
                   /\ (k = maxRetries \/ retried (net k) = false)
                   /\ mkRun (settle (net attempt)) (S attempt) slept
                      = mkRun (settle (net k)) (S k)
                              (slept ++ map backoffMs (seq attempt (k - attempt)))).
  { intros H. exists attempt. rewrite Nat.sub_diag, app_nil_r.
    repeat split; try lia. exact H. }
  assert (Go : retried (net attempt) = true -> (attempt < maxRetries)%nat ->
               exists k,
                 (attempt <= k <= maxRetries)%nat
                 /\ (forall j, (attempt <= j < k)%nat -> retried (net j) = true)
                 /\ (k = maxRetries \/ retried (net k) = false)
                 /\ attemptLoop net url maxRetries fuel (S attempt)
                                (slept ++ [backoffMs attempt])
                    = mkRun (settle (net k)) (S k)
                            (slept ++ map backoffMs (seq attempt (k - attempt)))).
  { intros Hr Hlt.
    destruct (IH (S attempt) (slept ++ [backoffMs attempt]))
      as (k & Hk & Hall & Hfin & E); [lia | lia |].
    exists k. split; [lia|]. split.
    - intros j Hj. destruct (Nat.eq_dec j attempt) as [->|];
        [exact Hr | apply Hall; lia].
    - split; [exact Hfin|]. rewrite E. f_equal. rewrite <- app_assoc. f_equal.
      replace (k - attempt)%nat with (S (k - S attempt)) by lia. reflexivity. }
  destruct (net attempt) as [r|e] eqn:Hnet; cbn [retried settle] in *.
  - destruct (retryable (status r)) eqn:Hr;
      destruct (Nat.ltb_spec attempt maxRetries) as [Hlt|Hge]; cbn [andb].
    + now apply Go.
    + apply Stop. left. lia.
    + apply Stop. now right.
    + apply Stop. now right.
  - destruct (Nat.ltb_spec attempt maxRetries) as [Hlt|Hge].
    + now apply Go.
    + apply Stop. left. lia.
Qed.

(** X5: every run of fetchWithRateLimit ends at the first attempt k that
    is not retried: either k is the last attempt the budget allows
    (k = maxRetries) or attempt k got a response whose status is neither 429
    nor 500 or more.  All attempts before k failed in a retryable way, the
    promise settles with the outcome of attempt k (its response returned,
    its rejection rethrown), k + 1 requests were made, and the delays slept
    are 2000 ms, 4000 ms, ... doubling, one after each attempt before k. *)
Theorem fetchWithRateLimit_stops_at_first_final (net : nat -> outcome)
        (maxRetries : nat) :
  exists k,
    (k <= maxRetries)%nat
    /\ (forall j, (j < k)%nat -> retried (net j) = true)
    /\ (k = maxRetries \/ retried (net k) = false)
    /\ fetchWithRateLimit net url maxRetries
       = mkRun (settle (net k)) (S k) (map backoffMs (seq 0 k)).
Proof.
  destruct (attemptLoop_closed net maxRetries (S maxRetries) 0 [])
    as (k & Hk & Hall & Hfin & E); [lia | lia |].
  exists k. split; [lia|]. split; [intros j Hj; apply Hall; lia|].
  split; [exact Hfin|]. unfold fetchWithRateLimit. rewrite E.
  now rewrite Nat.sub_0_r.
Qed.

(** X6: fetchWithRateLimit throws only what the network threw at the last
    attempt the budget allows: if the promise rejects with an error, then
    attempt number maxRetries was rejected with that very error and
    maxRetries + 1 requests were made.  The generic error behind the loop
    is never thrown. *)
Theorem fetchWithRateLimit_throws_last_rejection (net : nat -> outcome)
        (maxRetries : nat) (error : jsstring) :
  settled (fetchWithRateLimit net url maxRetries) = Thrown error ->
  net maxRetries = Rejected error
  /\ attempts (fetchWithRateLimit net url maxRetries) = S maxRetries.
Proof.
  destruct (attemptLoop_closed net maxRetries (S maxRetries) 0 [])
    as (k & Hk & _ & Hfin & E); [lia | lia |].
  unfold fetchWithRateLimit. rewrite E. cbn [settled attempts].
  intros H. destruct (net k) as [r|e] eqn:Hnet; [discriminate H|].
  cbn [settle] in H. injection H as ->.
  destruct Hfin as [->|Hf]; [now split|]. discriminate Hf.
Qed.

Lemma backoff_total (k : nat) :
  fold_right Z.add 0 (map backoffMs (seq 0 k)) = 2000 * (2 ^ Z.of_nat k - 1).
Proof.
  induction k as [|k IH]; [reflexivity|].
  rewrite seq_S, map_app, fold_right_app. cbn [map fold_right plus].
  assert (G : forall l acc, fold_right Z.add acc l = fold_right Z.add 0 l + acc).
  { induction l as [|x l IHl]; intros acc; simpl; [lia|]. rewrite IHl. lia. }
  rewrite G, IH. unfold backoffMs. change (0 + k)%nat with k.
  assert (P : 2 ^ (Z.of_nat k + 1) = 2 * 2 ^ Z.of_nat k)
    by (rewrite Z.pow_add_r by lia; lia).
  replace (Z.of_nat (S k)) with (Z.of_nat k + 1) by lia.
  rewrite P. lia.
Qed.

Lemma backoff_each (k : nat) :
  Forall (fun b => 2 * MIN_DELAY_MS <= b) (map backoffMs (seq 0 k)).
Proof.
  apply Forall_forall. intros b Hb. apply in_map_iff in Hb.
  destruct Hb as (j & <- & _). unfold backoffMs, MIN_DELAY_MS.
  assert (2 ^ 1 <= 2 ^ (Z.of_nat j + 1)) by (apply Z.pow_le_mono_r; lia).
  lia.
Qed.

(** X7: the time fetchWithRateLimit sleeps between attempts is
    2000 * (2^(n-1) - 1) ms when it makes n requests, each single delay is
    at least twice the minimum delay of the rate limiter, and n is at most
    maxRetries + 1; with the default budget of the three wrappers that is
    at most 4 requests and 14000 ms. *)
Theorem fetch_backoff_budget (net : nat -> outcome) (maxRetries : nat) :
  let out := fetchWithRateLimit net url maxRetries in
  (1 <= attempts out <= S maxRetries)%nat
  /\ totalBackoff out = 2000 * (2 ^ (Z.of_nat (attempts out) - 1) - 1)
  /\ Forall (fun b => 2 * MIN_DELAY_MS <= b) (backoffs out)
  /\ (attempts (fetchNpcLaw net url) <= 4)%nat
  /\ totalBackoff (fetchNpcLaw net url) <= 14000
  /\ fetchNpcEnglish net url = fetchNpcLaw net url
  /\ fetchGovCn net url = fetchNpcLaw net url.
Proof.
  assert (B : forall m,
             let out := fetchWithRateLimit net url m in
             (1 <= attempts out <= S m)%nat
             /\ totalBackoff out = 2000 * (2 ^ (Z.of_nat (attempts out) - 1) - 1)
             /\ Forall (fun b => 2 * MIN_DELAY_MS <= b) (backoffs out)).
  { intros m.
    destruct (attemptLoop_closed net m (S m) 0 [])
      as (k & Hk & _ & _ & E); [lia | lia |].
    unfold fetchWithRateLimit, totalBackoff. rewrite E.
    cbn [attempts backoffs app]. rewrite Nat.sub_0_r.
    split; [lia|]. split; [|apply backoff_each].
    rewrite backoff_total.
    now replace (Z.of_nat (S k) - 1) with (Z.of_nat k) by lia. }
  intros out. destruct (B maxRetries) as (H1 & H2 & H3).
  split; [exact H1|]. split; [exact H2|]. split; [exact H3|].
  unfold fetchNpcLaw, fetchNpcEnglish, fetchGovCn, DEFAULT_MAX_RETRIES.
  destruct (B 3%nat) as (A1 & A2 & _).
  split; [lia|]. split; [|split; reflexivity].
  rewrite A2.
  assert (2 ^ (Z.of_nat (attempts (fetchWithRateLimit net url 3)) - 1) <= 2 ^ 3)
    by (apply Z.pow_le_mono_r; lia).
  lia.
Qed.

End FetcherRuns.

Lemma fetchWithRateLimit_throws_last_rejection_witness :
  let net := Fetcher.scripted [Fetcher.mkFetchResult 503 [] []] in
  net 1%nat = Fetcher.Rejected (lit "network down")
  /\ Fetcher.attempts (Fetcher.fetchWithRateLimit net (lit "u") 1) = 2%nat.
Proof.
  intros net.
  apply (fetchWithRateLimit_throws_last_rejection (lit "u") net 1 (lit "network down")).
  reflexivity.
Defined.

(** ** Deduplication: counts, order and what is kept *)

Section DedupInvariants.
Import Dedup DedupFacts.

Lemma mapGet_In_key (k : jsstring) (m : jsmap) (v : ProvisionSeed) :
  mapGet k m = Some v -> In k (map fst m).
Proof.
  intros H. apply mapGet_Some_In in H.
  change k with (fst (k, v)). now apply in_map.
Qed.

Lemma mapSet_length (k : jsstring) (v : ProvisionSeed) (m : jsmap) :
  length (mapSet k v m)
  = match mapGet k m with Some _ => length m | None => S (length m) end.
Proof.
  induction m as [|[k' v'] m IH]; simpl; [reflexivity|].
  destruct (str_eqb k k'); simpl; [reflexivity|].
  rewrite IH. now destruct (mapGet k m).
Qed.

Lemma mapGet_mapSet_same (k : jsstring) (v : ProvisionSeed) (m : jsmap) :
  mapGet k (mapSet k v m) = Some v.
Proof.
  induction m as [|[k' v'] m IH]; simpl.
  - now rewrite str_eqb_refl.
  - destruct (str_eqb k k') eqn:E; simpl.
    + now rewrite str_eqb_refl.
    + now rewrite E.
Qed.

Lemma mapGet_mapSet_other (k k0 : jsstring) (v : ProvisionSeed) (m : jsmap) :
  k0 <> k -> mapGet k0 (mapSet k v m) = mapGet k0 m.
Proof.
  intros Hne. induction m as [|[k' v'] m IH]; simpl.
  - now rewrite (str_eqb_neq k0 k Hne).
  - destruct (str_eqb k k') eqn:E; simpl.
    + apply str_eqb_eq in E. subst k'. now rewrite (str_eqb_neq k0 k Hne).
    + now rewrite IH.
Qed.

Lemma fold_counts (ps : list ProvisionSeed) :
  forall (m : jsmap) (stats : ProvisionDedupStats),
    let out := fold_left dedupeStep ps (m, stats) in
    Z.of_nat (length (fst out)) + duplicate_refs (snd out)
    = Z.of_nat (length m) + duplicate_refs stats + Z.of_nat (length ps)
    /\ conflicting_duplicates stats <= conflicting_duplicates (snd out)
    /\ conflicting_duplicates (snd out) - conflicting_duplicates stats
       <= duplicate_refs (snd out) - duplicate_refs stats.
Proof.
  induction ps as [|p ps IH]; intros m stats.
  - simpl. lia.
  - cbn [fold_left]. cbv zeta.
    destruct (dedupeStep (m, stats) p) as [m1 stats1] eqn:E.
    specialize (IH m1 stats1). cbv zeta in IH. destruct IH as (I1 & I2 & I3).
    assert (S1 : Z.of_nat (length m1) + duplicate_refs stats1
                 = Z.of_nat (length m) + duplicate_refs stats + 1
                 /\ conflicting_duplicates stats <= conflicting_duplicates stats1
                 /\ conflicting_duplicates stats1 - conflicting_duplicates stats
                    <= duplicate_refs stats1 - duplicate_refs stats).
    { unfold dedupeStep in E.
      destruct (mapGet (keyOf p) m) as [e|] eqn:G; injection E as <- <-;
        rewrite mapSet_length, G; cbn [duplicate_refs conflicting_duplicates].
      - destruct (str_eqb _ _); lia.
      - lia. }
    cbn [length]. lia.
Qed.

(** X8: deduplication loses count of nothing: the provisions it returns
    and the duplicates it counts add up to the provisions it was given, and
    the conflicting duplicates are some of the duplicates. *)
Theorem dedupe_counts_add_up (provisions : list ProvisionSeed) :
  let out := dedupeProvisions provisions in
  Z.of_nat (length (fst out)) + duplicate_refs (snd out)
  = Z.of_nat (length provisions)
  /\ 0 <= conflicting_duplicates (snd out) <= duplicate_refs (snd out).
Proof.
  cbv zeta. unfold dedupeProvisions.
  pose proof (fold_counts provisions [] (mkStats 0 0)) as H. cbv zeta in H.
  name_fold F. fold_in H F. clearbody F. destruct F as [m stats].
  cbn [fst snd length duplicate_refs conflicting_duplicates] in *.
  unfold mapValues. rewrite length_map. lia.
Qed.

Lemma fold_distinct (ps : list ProvisionSeed) :
  forall (m : jsmap) (stats : ProvisionDedupStats),
    NoDup (map fst m ++ map keyOf ps) ->
    fold_left dedupeStep ps (m, stats)
    = (m ++ map (fun p => (keyOf p, stored p)) ps, stats).
Proof.
  induction ps as [|p ps IH]; intros m stats Hnd.
  - simpl. now rewrite app_nil_r.
  - cbn [fold_left map].
    assert (Hfresh : ~ In (keyOf p) (map fst m)).
    { cbn [map] in Hnd. apply NoDup_remove_2 in Hnd.
      intros H. apply Hnd, in_or_app. now left. }
    assert (Hstep : dedupeStep (m, stats) p = (m ++ [(keyOf p, stored p)], stats)).
    { unfold dedupeStep. destruct (mapGet (keyOf p) m) as [e|] eqn:G.
      - exfalso. apply Hfresh. now apply (mapGet_In_key _ _ e).
      - now rewrite (mapSet_absent _ _ _ Hfresh). }
    rewrite Hstep, IH.
    + now rewrite <- app_assoc.
    + rewrite map_app. cbn [map fst]. rewrite <- app_assoc. exact Hnd.
Qed.

(** X9: provisions whose map keys are pairwise different strings pass
    through deduplication in their order, each with its reference trimmed
    and nothing else changed, and both counters stay at zero.  The key of a
    provision is its reference as given, not trimmed, a colon, and its
    language, or zh when it has none. *)
Theorem dedupe_distinct_keys (provisions : list ProvisionSeed) :
  NoDup (map keyOf provisions) ->
  dedupeProvisions provisions = (map stored provisions, mkStats 0 0).
Proof.
  intros H. unfold dedupeProvisions.
  pose proof (fold_distinct provisions [] (mkStats 0 0) H) as E.
  name_fold F. fold_in E F. rewrite E. cbn [app].
  unfold mapValues. rewrite map_map. reflexivity.
Qed.

Lemma dedupe_distinct_keys_witness :
  let ps := [Dedup.seed (lit " 1") None (lit "a"); Dedup.seed (lit "2 ") None (lit "b")] in
  Dedup.dedupeProvisions ps = (map DedupFacts.stored ps, Dedup.mkStats 0 0).
Proof.
  intros ps. apply (dedupe_distinct_keys ps).
  repeat constructor; simpl; intuition discriminate.
Defined.

(** *** Nothing is lost *)

Lemma trimStart_snoc (l : jsstring) (x : char) :
  isSpace x = false -> trimStart (l ++ [x]) = trimStart l ++ [x].
Proof.
  intros Hx. induction l as [|c l IH]; simpl; [now rewrite Hx|].
  destruct (isSpace c); [exact IH | reflexivity].
Qed.

Lemma trimStart_head (s : jsstring) :
  trimStart s = [] \/ exists x t, trimStart s = x :: t /\ isSpace x = false.
Proof.
  induction s as [|c s IH]; [now left|]. simpl.
  destruct (isSpace c) eqn:E; [exact IH|]. right. now exists c, s.
Qed.

Lemma trimEnd_keeps_head (x : char) (t : jsstring) :
  isSpace x = false -> trimEnd (x :: t) = x :: trimEnd t.
Proof.
  intros Hx. unfold trimEnd. cbn [rev].
  rewrite (trimStart_snoc _ x Hx), rev_app_distr. reflexivity.
Qed.

Lemma trimEnd_last (t : jsstring) :
  trimEnd t = [] \/ isSpace (last (trimEnd t) 0) = false.
Proof.
  unfold trimEnd. destruct (trimStart_head (rev t)) as [->|(y & w & -> & Hy)];
    [now left|].
  right. cbn [rev]. now rewrite last_last.
Qed.

Lemma trim_shape (s : jsstring) :
  trim s = [] \/
  exists x t, trim s = x :: t /\ isSpace x = false
              /\ isSpace (last (x :: t) 0) = false.
Proof.
  unfold trim. destruct (trimStart_head s) as [->|(x & t & -> & Hx)];
    [now left|].
  right. rewrite (trimEnd_keeps_head x t Hx).
  exists x, (trimEnd t). split; [reflexivity|]. split; [assumption|].
  destruct (trimEnd_last t) as [->|Hl]; [exact Hx|].
  destruct (trimEnd t) as [|y w] eqn:E; [exact Hx|].
  now rewrite last_cons_right by discriminate.
Qed.

Lemma trim_idempotent (s : jsstring) : trim (trim s) = trim s.
Proof.
  destruct (trim_shape s) as [->|(x & t & -> & Hx & Hl)]; [reflexivity|].
  now apply trim_id.
Qed.

(** The key names its reference and its language when the language holds
    no colon. *)
Lemma key_splits (r1 r2 l1 l2 : jsstring) :
  ~ In 58 l1 -> ~ In 58 l2 ->
  r1 ++ 58 :: l1 = r2 ++ 58 :: l2 -> r1 = r2 /\ l1 = l2.
Proof.
  intros H1 H2. revert r2.
  induction r1 as [|a r1 IH]; intros [|b r2] E; cbn [app] in E.
  - injection E as ->. now split.
  - injection E as <- ->. exfalso. apply H1, in_or_app. right. now left.
  - injection E as -> <-. exfalso. apply H2, in_or_app. right. now left.
  - injection E as -> E. destruct (IH r2 E) as [-> ->]. now split.
Qed.

Lemma keyOf_splits (p : ProvisionSeed) :
  keyOf p = provision_ref p ++ 58 :: languageOf p.
Proof. reflexivity. Qed.

Lemma pick_cases (e i : ProvisionSeed) :
  (pickPreferredProvision e i = withTitle e (nullish (title e) (title i))
   /\ (weight i <= weight e)%nat)
  \/ (pickPreferredProvision e i = withTitle i (nullish (title i) (title e))
      /\ (weight e < weight i)%nat).
Proof.
  unfold pickPreferredProvision, weight.
  destruct (Nat.ltb_spec (length (normalizeWhitespace (content e)))
                         (length (normalizeWhitespace (content i))));
    [right | left]; split; (reflexivity || lia).
Qed.

Lemma dedupeStep_entries (m : jsmap) (stats : ProvisionDedupStats) (p : ProvisionSeed) :
  ~ In 58 (languageOf p) ->
  Forall entryOk m -> Forall entryOk (fst (dedupeStep (m, stats) p)).
Proof.
  intros Hp Hm. unfold dedupeStep.
  destruct (mapGet (keyOf p) m) as [e|] eqn:G; cbn [fst].
  - apply mapSet_Forall; [|assumption].
    apply mapGet_Some_In in G. rewrite Forall_forall in Hm.
    destruct (Hm _ G) as (r & Hk & Ht & Hc). cbn [fst snd] in *.
    destruct (pick_cases e p) as [[-> _]|[-> _]].
    + exists r. now repeat split.
    + exists (provision_ref p). now repeat split.
  - apply mapSet_Forall; [|assumption].
    exists (provision_ref p). cbn [fst snd]. repeat split; try assumption.
    apply trim_idempotent.
Qed.

Lemma dedupeStep_heavier (m : jsmap) (stats : ProvisionDedupStats)
      (p p0 : ProvisionSeed) :
  (p0 = p \/ exists q, mapGet (keyOf p0) m = Some q /\ (weight p0 <= weight q)%nat) ->
  exists q, mapGet (keyOf p0) (fst (dedupeStep (m, stats) p)) = Some q
            /\ (weight p0 <= weight q)%nat.
Proof.
  intros H. unfold dedupeStep.
  destruct (mapGet (keyOf p) m) as [e|] eqn:G; cbn [fst].
  - destruct (pick_cases e p) as [[E W]|[E W]].
    + destruct H as [->|(q & Hq & Hw)].
      * rewrite mapGet_mapSet_same. eexists. split; [reflexivity|].
        rewrite E. exact W.
      * destruct (list_eq_dec Z.eq_dec (keyOf p0) (keyOf p)) as [K|K].
        -- rewrite K, mapGet_mapSet_same. eexists. split; [reflexivity|].
           rewrite K, G in Hq. injection Hq as <-. rewrite E. exact Hw.
        -- rewrite mapGet_mapSet_other by assumption. now exists q.
    + destruct H as [->|(q & Hq & Hw)].
      * rewrite mapGet_mapSet_same. eexists. split; [reflexivity|].
        rewrite E. unfold weight. cbn [content withTitle]. lia.
      * destruct (list_eq_dec Z.eq_dec (keyOf p0) (keyOf p)) as [K|K].
        -- rewrite K, mapGet_mapSet_same. eexists. split; [reflexivity|].
           rewrite K, G in Hq. injection Hq as <-. rewrite E.
           unfold weight in *. cbn [content withTitle]. lia.
        -- rewrite mapGet_mapSet_other by assumption. now exists q.
  - destruct H as [->|(q & Hq & Hw)].
    + rewrite mapGet_mapSet_same. eexists. split; [reflexivity|].
      unfold weight, stored. cbn [content withRef]. lia.
    + destruct (list_eq_dec Z.eq_dec (keyOf p0) (keyOf p)) as [K|K].
      * rewrite K, G in Hq. discriminate Hq.
      * rewrite mapGet_mapSet_other by assumption. now exists q.
Qed.

Lemma fold_keeps (ps : list ProvisionSeed) :
  forall (m : jsmap) (stats : ProvisionDedupStats),
    Forall (fun p => ~ In 58 (languageOf p)) ps -> Forall entryOk m ->
    let out := fst (fold_left dedupeStep ps (m, stats)) in
    Forall entryOk out
    /\ forall p0,
         (In p0 ps \/ exists q, mapGet (keyOf p0) m = Some q
                                /\ (weight p0 <= weight q)%nat) ->
         exists q, mapGet (keyOf p0) out = Some q /\ (weight p0 <= weight q)%nat.
Proof.
  induction ps as [|p ps IH]; intros m stats Hps Hm.
  - cbn [fold_left fst]. split; [assumption|].
    intros p0 [[]|H]. exact H.
  - inversion Hps as [|? ? Hp Hps']; subst.
    cbn [fold_left]. cbv zeta.
    destruct (dedupeStep (m, stats) p) as [m1 stats1] eqn:E.
    assert (Hm1 : Forall entryOk m1).
    { change m1 with (fst (m1, stats1)). rewrite <- E.
      now apply dedupeStep_entries. }
    destruct (IH m1 stats1 Hps' Hm1) as [I1 I2]. split; [exact I1|].
    intros p0 H. apply I2.
    destruct H as [[<-|Hin]|H].
    + right. change m1 with (fst (m1, stats1)). rewrite <- E.
      apply dedupeStep_heavier. now left.
    + now left.
    + right. change m1 with (fst (m1, stats1)). rewrite <- E.
      apply dedupeStep_heavier. now right.
Qed.

(** X10: deduplication drops no provision without a stand-in.  When no
    language tag holds a colon, every provision given has in the result a
    provision with the same trimmed reference and the same language whose
    normalised content is at least as long. *)
Theorem dedupe_keeps_a_longest (provisions : list ProvisionSeed) (p : ProvisionSeed) :
  Forall (fun x => ~ In 58 (languageOf x)) provisions ->
  In p provisions ->
  exists q, In q (deduped provisions)
            /\ trim (provision_ref q) = trim (provision_ref p)
            /\ languageOf q = languageOf p
            /\ (weight p <= weight q)%nat.
Proof.
  intros Hall Hin.
  destruct (fold_keeps provisions [] (mkStats 0 0) Hall (Forall_nil _)) as [E K].
  destruct (K p (or_introl Hin)) as (q & Hq & Hw).
  unfold deduped, dedupeProvisions. clear K.
  name_fold F. fold_in E F. fold_in Hq F. clearbody F. destruct F as [m stats].
  cbn [fst] in *. apply mapGet_Some_In in Hq.
  exists q. split.
  - unfold mapValues. change q with (snd (keyOf p, q)). now apply in_map.
  - rewrite Forall_forall in E, Hall.
    destruct (E _ Hq) as (r & Hk & Ht & Hc). cbn [fst snd] in *.
    rewrite keyOf_splits in Hk.
    destruct (key_splits _ _ _ _ (Hall p Hin) Hc Hk) as [<- <-].
    now repeat split.
Qed.

(** X11: on provisions whose references carry no blank at either end a
    second pass of deduplication changes nothing and counts nothing: it
    returns the list of the first pass with both counters at zero. *)
Theorem dedupe_second_pass_is_quiet (provisions : list ProvisionSeed) :
  Forall (fun p => trim (provision_ref p) = provision_ref p) provisions ->
  dedupeProvisions (deduped provisions) = (deduped provisions, mkStats 0 0).
Proof.
  intros H. unfold deduped at 1 2. unfold dedupeProvisions at 2 3.
  destruct (fold_left dedupeStep provisions ([], mkStats 0 0)) as [m stats] eqn:F.
  assert (K : keyed m).
  { change m with (fst (m, stats)). rewrite <- F.
    apply fold_keyed; [assumption|]. split; constructor. }
  cbn [fst]. unfold dedupeProvisions.
  now rewrite (second_pass m [] (mkStats 0 0) K).
Qed.

End DedupInvariants.

Lemma dedupe_keeps_a_longest_witness :
  let p := Dedup.seed (lit "1") None (lit "a") in
  let ps := [p; Dedup.seed (lit "1") None (lit "much longer")] in
  exists q, In q (Dedup.deduped ps)
            /\ trim (Dedup.provision_ref q) = trim (Dedup.provision_ref p)
            /\ DedupFacts.languageOf q = DedupFacts.languageOf p
            /\ (DedupFacts.weight p <= DedupFacts.weight q)%nat.
Proof.
  intros p ps. apply (dedupe_keeps_a_longest ps p).
  - repeat constructor; simpl; intuition discriminate.
  - now left.
Defined.

Lemma dedupe_second_pass_is_quiet_witness :
  let ps := [Dedup.seed (lit "1") None (lit "a"); Dedup.seed (lit "1") None (lit "bb")] in
  Dedup.dedupeProvisions (Dedup.deduped ps) = (Dedup.deduped ps, Dedup.mkStats 0 0).
Proof.
  intros ps. apply (dedupe_second_pass_is_quiet ps).
  repeat constructor.
Defined.

(** ** Whitespace normalisation *)

Section Normalisation.
Import Dedup DedupFacts.

Lemma collapseBlanks_spaced (t : jsstring) :
  forall inRun, spaced inRun (collapseBlanks inRun t) = true.
Proof.
  induction t as [|c t IH]; intros inRun; [reflexivity|].
  cbn [collapseBlanks]. destruct (isSpace c) eqn:E.
  - destruct inRun; [apply IH|].
    cbn [spaced]. replace (isSpace 32) with true by reflexivity.
    cbn [negb andb]. rewrite IH. reflexivity.
  - cbn [spaced]. rewrite E. apply IH.
Qed.

Lemma spaced_weaken (s : jsstring) : spaced true s = true -> spaced false s = true.
Proof.
  destruct s as [|c r]; [reflexivity|]. cbn [spaced].
  destruct (isSpace c); [discriminate | auto].
Qed.

Lemma trimStart_spaced (s : jsstring) (b : bool) :
  spaced b s = true -> spaced true (trimStart s) = true.
Proof.
  destruct s as [|c r]; [reflexivity|]. cbn [spaced trimStart].
  destruct (isSpace c) eqn:E.
  - intros H. apply andb_true_iff in H. destruct H as [_ H].
    destruct r as [|d r]; [reflexivity|]. cbn [trimStart].
    cbn [spaced] in H. destruct (isSpace d) eqn:D; [discriminate H|].
    cbn [spaced]. now rewrite D.
  - intros H. cbn [spaced]. now rewrite E.
Qed.

Lemma trimStart_all_blank (l : jsstring) :
  forallb isSpace l = true -> trimStart l = [].
Proof.
  induction l as [|c l IH]; [reflexivity|]. cbn [forallb trimStart].
  intros H. apply andb_true_iff in H. destruct H as [-> H]. auto.
Qed.

Lemma trimStart_not_all_blank (l : jsstring) (x : char) :
  forallb isSpace l = false -> trimStart (l ++ [x]) = trimStart l ++ [x].
Proof.
  induction l as [|c l IH]; [discriminate|]. cbn [forallb app trimStart].
  destruct (isSpace c); [exact IH | reflexivity].
Qed.

Lemma forallb_rev (p : Z -> bool) (l : list Z) : forallb p (rev l) = forallb p l.
Proof.
  induction l as [|c l IH]; [reflexivity|]. cbn [rev forallb].
  rewrite forallb_app, IH. cbn [forallb]. rewrite andb_true_r. apply andb_comm.
Qed.

(** [trimEnd], from the left. *)
Lemma trimEnd_cons (c : char) (s : jsstring) :
  trimEnd (c :: s) = if forallb isSpace (c :: s) then [] else c :: trimEnd s.
Proof.
  unfold trimEnd. cbn [rev forallb].
  destruct (forallb isSpace s) eqn:A.
  - rewrite <- forallb_rev in A. rewrite andb_true_r.
    assert (T : trimStart (rev s) = []) by now apply trimStart_all_blank.
    destruct (isSpace c) eqn:E.
    + rewrite trimStart_all_blank; [reflexivity|].
      rewrite forallb_app, A. cbn [forallb]. now rewrite E.
    + rewrite (trimStart_snoc _ c E), T. reflexivity.
  - rewrite andb_false_r. rewrite <- forallb_rev in A.
    rewrite (trimStart_not_all_blank _ c A), rev_app_distr. reflexivity.
Qed.

Lemma trimEnd_nil_iff (s : jsstring) :
  trimEnd s = [] -> forallb isSpace s = true.
Proof.
  destruct s as [|c s]; [reflexivity|]. rewrite trimEnd_cons.
  destruct (forallb isSpace (c :: s)); [reflexivity | discriminate].
Qed.

Lemma trimEnd_single (s : jsstring) :
  forall b, spaced b s = true -> trimEnd s = [] \/ singleSpaced b (trimEnd s) = true.
Proof.
  induction s as [|c s IH]; intros b H; [now left|].
  rewrite trimEnd_cons. destruct (forallb isSpace (c :: s)) eqn:A; [now left|].
  right. cbn [spaced] in H. cbn [singleSpaced]. destruct (isSpace c) eqn:E.
  - apply andb_true_iff in H. destruct H as [H Hs]. rewrite H. cbn [andb].
    destruct (IH true Hs) as [N|S]; [|exact S].
    apply trimEnd_nil_iff in N. cbn [forallb] in A. rewrite E, N in A.
    discriminate A.
  - destruct (IH false H) as [->|S]; [reflexivity | exact S].
Qed.

Lemma singleSpaced_spaced (s : jsstring) :
  forall b, singleSpaced b s = true -> spaced b s = true.
Proof.
  induction s as [|c s IH]; intros b H; [reflexivity|].
  cbn [singleSpaced] in H. cbn [spaced]. destruct (isSpace c).
  - apply andb_true_iff in H. destruct H as [-> H]. cbn [andb]. auto.
  - auto.
Qed.

Lemma spaced_collapse (s : jsstring) :
  forall b, spaced b s = true -> collapseBlanks b s = s.
Proof.
  induction s as [|c s IH]; intros b H; [reflexivity|].
  cbn [spaced] in H. cbn [collapseBlanks]. destruct (isSpace c).
  - apply andb_true_iff in H. destruct H as [H Hs].
    apply andb_true_iff in H. destruct H as [Hb Hc].
    apply negb_true_iff in Hb. apply Z.eqb_eq in Hc. subst. now rewrite IH.
  - now rewrite IH.
Qed.

Lemma singleSpaced_trimEnd (s : jsstring) :
  forall b, singleSpaced b s = true -> trimEnd s = s.
Proof.
  induction s as [|c s IH]; intros b H; [reflexivity|].
  rewrite trimEnd_cons. cbn [singleSpaced] in H. cbn [forallb].
  destruct (isSpace c) eqn:E; cbn [andb].
  - apply andb_true_iff in H. destruct H as [_ H].
    destruct (forallb isSpace s) eqn:A.
    + exfalso. clear IH E. destruct s as [|d s]; [discriminate H|].
      cbn [singleSpaced] in H. cbn [forallb] in A.
      apply andb_true_iff in A. destruct A as [D _]. rewrite D in H.
      discriminate H.
    + now rewrite (IH true H).
  - now rewrite (IH false H).
Qed.

Lemma tidy_fixed (s : jsstring) : tidy s = true -> normalizeWhitespace s = s.
Proof.
  destruct s as [|c s]; [reflexivity|]. unfold tidy. intros H.
  unfold normalizeWhitespace.
  rewrite (spaced_collapse _ false)
    by (apply spaced_weaken; now apply singleSpaced_spaced).
  unfold trim.
  assert (Hc : isSpace c = false).
  { cbn [singleSpaced] in H. destruct (isSpace c); [discriminate H | reflexivity]. }
  cbn [trimStart]. rewrite Hc. now apply (singleSpaced_trimEnd _ true).
Qed.

Lemma normalizeWhitespace_tidy (text : jsstring) : tidy (normalizeWhitespace text) = true.
Proof.
  unfold normalizeWhitespace, trim.
  pose proof (collapseBlanks_spaced text false) as S.
  apply trimStart_spaced in S.
  destruct (trimEnd_single _ true S) as [->|T]; [reflexivity|].
  unfold tidy. destruct (trimEnd _); [reflexivity | exact T].
Qed.

Lemma collapse_nonBlank (t : jsstring) :
  forall b, filter nonBlank (collapseBlanks b t) = filter nonBlank t.
Proof.
  induction t as [|c t IH]; intros b; [reflexivity|].
  cbn [collapseBlanks filter]. unfold nonBlank at 2. destruct (isSpace c) eqn:E.
  - cbn [negb]. destruct b; [apply IH|]. cbn [filter]. apply IH.
  - cbn [negb filter]. unfold nonBlank at 1. rewrite E. cbn [negb]. now rewrite IH.
Qed.

Lemma trimStart_nonBlank (t : jsstring) :
  filter nonBlank (trimStart t) = filter nonBlank t.
Proof.
  induction t as [|c t IH]; [reflexivity|]. cbn [trimStart filter].
  unfold nonBlank at 2. destruct (isSpace c) eqn:E; cbn [negb]; [exact IH|].
  cbn [filter]. unfold nonBlank at 1. rewrite E. reflexivity.
Qed.

Lemma trim_nonBlank (t : jsstring) : filter nonBlank (trim t) = filter nonBlank t.
Proof.
  unfold trim, trimEnd.
  rewrite filter_rev, trimStart_nonBlank, filter_rev, rev_involutive.
  apply trimStart_nonBlank.
Qed.

(** X12: normalizeWhitespace returns a normalised text: empty, or free of
    blanks at both ends with single ASCII spaces as its only blanks.  It
    leaves every such text as it is, so normalising twice is normalising
    once, and it never touches what is not a blank: the units that are not
    blanks come out unchanged and in their order. *)
Theorem normalizeWhitespace_normal_form (text : jsstring) :
  tidy (normalizeWhitespace text) = true
  /\ normalizeWhitespace (normalizeWhitespace text) = normalizeWhitespace text
  /\ filter nonBlank (normalizeWhitespace text) = filter nonBlank text.
Proof.
  split; [apply normalizeWhitespace_tidy|]. split.
  - apply tidy_fixed, normalizeWhitespace_tidy.
  - unfold normalizeWhitespace. now rewrite trim_nonBlank, collapse_nonBlank.
Qed.

End Normalisation.

(** ** Reading a match backwards *)

Section RegexInversion.

Lemma span_prefix (p : Z -> bool) (s : list Z) :
  forall i, (i <= spanLen p s)%nat ->
            forallb p (firstn i s) = true /\ length (firstn i s) = i.
Proof.
  induction s as [|x s IH]; intros i Hi.
  - simpl in Hi. assert (i = 0%nat) by lia. subst. now split.
  - destruct i as [|i]; [now split|]. cbn [spanLen] in Hi.
    destruct (p x) eqn:Px; [|lia].
    destruct (IH i) as [H1 H2]; [lia|].
    cbn [firstn forallb length]. rewrite Px, H1, H2. now split.
Qed.

Lemma in_counts (g : bool) (lo k i : nat) :
  In i (counts g lo None k) -> (lo <= i <= k)%nat.
Proof.
  unfold counts. intros H.
  assert (I : In i (seq lo (S k - lo))) by (destruct g; [now apply in_rev|exact H]).
  apply in_seq in I. lia.
Qed.

Lemma in_rep_inv (g : bool) (lo : nat) (p : Z -> bool) prev s c m rest c' :
  In (m, rest, c') (run (Rep g lo None p) prev s c) ->
  c' = c /\ s = m ++ rest /\ forallb p m = true /\ (lo <= length m)%nat.
Proof.
  intros H. cbn [run] in H. apply in_map_iff in H.
  destruct H as (i & [= <- <- <-] & Hi). apply in_counts in Hi.
  destruct (span_prefix p s i) as [H1 H2]; [lia|].
  repeat split; [symmetry; apply firstn_skipn | assumption | lia].
Qed.

Lemma in_cls_inv (p : Z -> bool) prev s c m rest c' :
  In (m, rest, c') (run (Cls p) prev s c) ->
  exists x, s = x :: rest /\ m = [x] /\ p x = true /\ c' = c.
Proof.
  cbn [run]. destruct s as [|x s]; [contradiction|].
  destruct (p x) eqn:Px; [|contradiction].
  intros [[= <- <- <-]|[]]. now exists x.
Qed.

Lemma in_grp_inv (n : nat) (r : re) prev s c m rest c' :
  In (m, rest, c') (run (Grp n r) prev s c) ->
  exists c0, In (m, rest, c0) (run r prev s c) /\ c' = (n, m) :: c0.
Proof.
  cbn [run]. intros H. apply in_map_iff in H.
  destruct H as ([[m0 s0] c0] & [= <- <- <-] & H). now exists c0.
Qed.

Lemma in_bol_inv prev s c m rest c' :
  In (m, rest, c') (run Bol prev s c) -> prev = None /\ m = [] /\ rest = s /\ c' = c.
Proof.
  cbn [run]. destruct prev; [contradiction|]. intros [[= <- <- <-]|[]]. now repeat split.
Qed.

Lemma in_eol_inv prev s c m rest c' :
  In (m, rest, c') (run Eol prev s c) -> s = [] /\ m = [] /\ rest = [] /\ c' = c.
Proof.
  cbn [run]. destruct s; [|contradiction]. intros [[= <- <- <-]|[]]. now repeat split.
Qed.

Lemma in_eps_inv prev s c m rest c' :
  In (m, rest, c') (run Eps prev s c) -> m = [] /\ rest = s /\ c' = c.
Proof. cbn [run]. intros [[= <- <- <-]|[]]. now repeat split. Qed.

(** A pattern that opens with [^] matches at index 0 or not at all. *)
Lemma exec_bol_inv (r : re) (s : list Z) (f : found) :
  exec (Seq Bol r) s = Some f ->
  index f = 0%nat /\ In (matched f, after f, caps f) (run (Seq Bol r) None s []).
Proof.
  unfold exec. intros H.
  destruct (run (Seq Bol r) None s []) as [|[[m rest] c] l] eqn:E.
  - exfalso. destruct s as [|x s]; cbn [execFrom] in H; rewrite E in H;
      [discriminate H|]. now rewrite execFrom_bol_later in H.
  - destruct s as [|x s]; cbn [execFrom] in H; rewrite E in H;
      injection H as <-; (split; [reflexivity | now left]).
Qed.

Lemma test_bol_true (r : re) (s : list Z) :
  test (Seq Bol r) s = true ->
  exists m rest c, In (m, rest, c) (run r None s []).
Proof.
  unfold test. destruct (exec (Seq Bol r) s) as [f|] eqn:E; [|discriminate].
  intros _. apply exec_bol_inv in E. destruct E as [_ E].
  apply in_run_Seq in E.
  destruct E as (m1 & s1 & c1 & m2 & s2 & c2 & H1 & H2 & _).
  apply in_bol_inv in H1. destruct H1 as (_ & -> & -> & ->).
  now exists m2, s2, c2.
Qed.

(** Two ways to split a text into a run of a class and a first unit
    outside the class agree. *)
Lemma span_unique (p : Z -> bool) (a a' : list Z) (x x' : Z) (r r' : list Z) :
  forallb p a = true -> forallb p a' = true -> p x = false -> p x' = false ->
  a ++ x :: r = a' ++ x' :: r' -> a = a' /\ x = x' /\ r = r'.
Proof.
  revert a'. induction a as [|y a IH]; intros [|y' a'] Ha Ha' Hx Hx' E;
    cbn [app forallb] in *.
  - injection E as -> ->. now repeat split.
  - injection E as -> _. apply andb_true_iff in Ha'. destruct Ha' as [Hy _]. congruence.
  - injection E as -> _. apply andb_true_iff in Ha. destruct Ha as [Hy _]. congruence.
  - injection E as -> E. apply andb_true_iff in Ha, Ha'.
    destruct Ha as [_ Ha], Ha' as [_ Ha'].
    destruct (IH a' Ha Ha' Hx Hx' E) as (-> & -> & ->). now repeat split.
Qed.

End RegexInversion.

(** ** Provision extractor: markers, headings, preamble *)

Section ExtractorRuns.
Import Extractor ExtractorFacts.

Lemma isBlank_isSpace (c : char) : isBlank c = isSpace c.
Proof.
  unfold isBlank. destruct (Z.eqb_spec c 0x3000) as [->|]; [reflexivity|].
  apply orb_false_r.
Qed.

(** A text splits into its leading blanks and the rest. *)
Lemma leading_blanks (t : jsstring) :
  exists b, t = b ++ trimStart t /\ forallb isBlank b = true
            /\ stopsAt isBlank (trimStart t) = true.
Proof.
  induction t as [|c t (b & E & Hb & Hs)].
  - now exists [].
  - cbn [trimStart]. destruct (isSpace c) eqn:S.
    + exists (c :: b). cbn [app forallb]. rewrite isBlank_isSpace, S, Hb.
      repeat split; [now rewrite <- E | assumption].
    + exists []. repeat split. cbn [stopsAt]. now rewrite isBlank_isSpace, S.
Qed.

Lemma trim_trimStart (t : jsstring) : trim (trimStart t) = trim t.
Proof.
  unfold trim. f_equal.
  induction t as [|c t IH]; [reflexivity|]. cbn [trimStart].
  destruct (isSpace c) eqn:S; [exact IH|]. cbn [trimStart]. now rewrite S.
Qed.

(** What the article pattern finds in a paragraph that opens with blanks,
    第, a numeral and 条. *)
Lemma article_pattern_exec (pre g tail : jsstring) :
  forallb isBlank pre = true -> g <> [] -> forallb isNumeralGlyph g = true ->
  exec ARTICLE_PATTERN (pre ++ [zh_di] ++ g ++ [zh_tiao] ++ tail)
  = Some (mkFound 0 (pre ++ [zh_di] ++ g ++ [zh_tiao]
                         ++ firstn (length tail - length (trimStart tail)) tail ++ [])
                  (trimStart tail) [(1%nat, g)]).
Proof.
  intros Hpre Hne Hg.
  destruct (leading_blanks tail) as (b & E & Hb & Hs).
  assert (Eb : firstn (length tail - length (trimStart tail)) tail = b).
  { rewrite E at 1 3. rewrite length_app.
    replace (length b + length (trimStart tail) - length (trimStart tail))%nat
      with (length b) by lia.
    apply firstn_length_app. }
  rewrite Eb. rewrite E at 1.
  apply exec_hd. unfold ARTICLE_PATTERN, seqs. cbn [fold_right].
  change (pre ++ [zh_di] ++ g ++ [zh_tiao] ++ b ++ [])
    with ([] ++ pre ++ [zh_di] ++ g ++ [zh_tiao] ++ b ++ []).
  eapply hd_seq; [reflexivity|].
  eapply hd_seq.
  { apply (hd_rep_greedy 0 isBlank); [simpl; lia | exact Hpre | reflexivity]. }
  eapply hd_seq; [apply hd_chr|].
  eapply hd_seq.
  { apply hd_grp. apply (hd_rep_greedy 1 isNumeralGlyph);
      [destruct g; [contradiction | simpl; lia] | exact Hg | reflexivity]. }
  eapply hd_seq; [apply hd_chr|].
  eapply hd_seq.
  { apply (hd_rep_greedy 0 isBlank); [simpl; lia | exact Hb | exact Hs]. }
  reflexivity.
Qed.

Lemma step_marker (language : jsstring) (st : state) (pre g tail : jsstring) :
  forallb isBlank pre = true -> g <> [] -> forallb isNumeralGlyph g = true ->
  step language st (pre ++ [zh_di] ++ g ++ [zh_tiao] ++ tail)
  = mkState (flush language st) (articleNumber g)
            (if nonEmptyStr (trim tail) then [trim tail] else []).
Proof.
  intros Hpre Hne Hg. unfold step, replace.
  rewrite (article_pattern_exec pre g tail Hpre Hne Hg).
  cbn [caps group Nat.eqb index after firstn app]. now rewrite trim_trimStart.
Qed.

Lemma all_digits_test (s : jsstring) :
  s <> [] -> forallb isDigit s = true -> test ALL_DIGITS s = true.
Proof.
  intros Hne Hd. unfold test.
  assert (E : exec ALL_DIGITS s = Some (mkFound 0 ([] ++ s ++ [] ++ []) [] [])).
  { apply exec_hd. unfold ALL_DIGITS, seqs. cbn [fold_right].
    eapply hd_seq; [reflexivity|].
    eapply hd_seq.
    { pose proof (hd_rep_greedy 1 isDigit None s [] []) as H.
      rewrite app_nil_r in H. apply H;
        [destruct s; [contradiction | simpl; lia] | exact Hd | reflexivity]. }
    reflexivity. }
  now rewrite E.
Qed.

Lemma all_digits_inv (s : jsstring) :
  test ALL_DIGITS s = true -> s <> [] /\ forallb isDigit s = true.
Proof.
  unfold ALL_DIGITS, seqs. cbn [fold_right]. intros H.
  apply test_bol_true in H. destruct H as (m & rest & c & H).
  apply in_run_Seq in H.
  destruct H as (m1 & s1 & c1 & m2 & s2 & c2 & H1 & H2 & _).
  apply in_rep_inv in H1. destruct H1 as (_ & -> & Hd & Hl).
  apply in_run_Seq in H2.
  destruct H2 as (m3 & s3 & c3 & _ & _ & _ & H3 & _).
  apply in_eol_inv in H3. destruct H3 as (-> & _).
  rewrite app_nil_r. split; [|assumption].
  intros ->. simpl in Hl. lia.
Qed.

Lemma all_digits_glyph (x : Z) (s : jsstring) :
  isDigit x = false -> test ALL_DIGITS (x :: s) = false.
Proof.
  intros Hx. destruct (test ALL_DIGITS (x :: s)) eqn:E; [|reflexivity].
  apply all_digits_inv in E. destruct E as [_ E]. cbn [forallb] in E.
  now rewrite Hx in E.
Qed.

Lemma digitsPrefix_nonneg (s : jsstring) :
  forall acc, 0 <= acc -> forallb isDigit s = true ->
              exists n, digitsPrefix (Some acc) s = Some n /\ 0 <= n.
Proof.
  induction s as [|c s IH]; intros acc Ha Hd.
  - now exists acc.
  - cbn [forallb] in Hd. apply andb_true_iff in Hd. destruct Hd as [Hc Hd].
    cbn [digitsPrefix]. rewrite Hc. apply IH; [|assumption].
    unfold isDigit in Hc. apply andb_true_iff in Hc. destruct Hc as [H1 _].
    apply Z.leb_le in H1. lia.
Qed.

Lemma parseInt_digits (s : jsstring) :
  s <> [] -> forallb isDigit s = true -> exists n, parseInt s = Some n /\ 0 <= n.
Proof.
  intros Hne Hd. destruct s as [|c s]; [contradiction|].
  cbn [forallb] in Hd. apply andb_true_iff in Hd. destruct Hd as [Hc Hd].
  unfold parseInt. cbn [trimStart]. rewrite (isDigit_not_space c Hc).
  pose proof Hc as Hc'. unfold isDigit in Hc'. apply andb_true_iff in Hc'.
  destruct Hc' as [H1 H2]. apply Z.leb_le in H1, H2.
  destruct (Z.eqb_spec c 45); [lia|]. destruct (Z.eqb_spec c 43); [lia|].
  cbn [digitsPrefix]. rewrite Hc. apply digitsPrefix_nonneg; [lia | assumption].
Qed.

Lemma decimal_toString (n : Z) : 0 <= n -> decimal (toString n) = true.
Proof.
  intros Hn. unfold decimal. rewrite (toString_digits n Hn), andb_true_r.
  pose proof (toString_nonempty n). now destruct (toString n).
Qed.

(** Whatever the numeral of the marker, the reference is a decimal number. *)
Lemma articleNumber_decimal (numStr : jsstring) : decimal (articleNumber numStr) = true.
Proof.
  unfold articleNumber. destruct (test ALL_DIGITS numStr) eqn:T.
  - apply all_digits_inv in T. destruct T as [Hne Hd].
    destruct (parseInt_digits numStr Hne Hd) as (n & -> & Hn).
    now apply decimal_toString.
  - apply decimal_toString. rewrite chineseToArabic_readTrimmed.
    apply readTrimmed_nonneg.
Qed.

Lemma commonGlyph_numeral_glyph (c : Z) :
  NumeralRefs.commonGlyph c = true -> isNumeralGlyph c = true.
Proof.
  unfold NumeralRefs.commonGlyph. cbn [existsb]. intros H.
  repeat (apply orb_true_iff in H;
          destruct H as [H|H]; [apply Z.eqb_eq in H; subst c; now vm_compute|]).
  discriminate H.
Qed.

Lemma digit_is_numeral_glyph (c : Z) : isDigit c = true -> isNumeralGlyph c = true.
Proof. intros H. unfold isNumeralGlyph. rewrite H. apply orb_true_r. Qed.

(** X13: an article marker opens the article its numeral names.  For a
    paragraph made of optional blanks, 第, a numeral, 条 and any text, the
    step of the paragraph loop saves the open article as the guarded push
    does, sets the current number to the decimal form of the numeral, and
    starts the content with the trimmed text, or with no line when that is
    empty.  The numeral may be the Chinese numeral of a number from 1 to
    9999 or the decimal form of a number from 0 to 2^53 - 1, the range in
    which the numbers of the source are exact. *)
Theorem article_marker_opens (language : jsstring) (st : state)
        (pre tail : jsstring) (n m : Z) :
  forallb isBlank pre = true -> 1 <= n <= 9999 ->
  0 <= m <= MAX_SAFE_INTEGER ->
  step language st (pre ++ [zh_di] ++ arabicToChinese n ++ [zh_tiao] ++ tail)
  = mkState (flush language st) (toString n)
            (if nonEmptyStr (trim tail) then [trim tail] else [])
  /\ step language st (pre ++ [zh_di] ++ toString m ++ [zh_tiao] ++ tail)
     = mkState (flush language st) (toString m)
               (if nonEmptyStr (trim tail) then [trim tail] else []).
Proof.
  intros Hpre Hn [Hm _]. split.
  - destruct (numeral_common n Hn) as [_ Hc]. rewrite forallb_forall in Hc.
    assert (Hg : forallb isNumeralGlyph (arabicToChinese n) = true)
      by (apply forallb_forall; intros c Hin;
          apply commonGlyph_numeral_glyph; auto).
    assert (Hr : Citation.inCodecRange n = true).
    { unfold Citation.inCodecRange. apply andb_true_iff. split; apply Z.leb_le; lia. }
    destruct (numeral_facts n Hr) as (Hne & _ & _ & _ & _ & Hval & _).
    rewrite (step_marker language st pre _ tail Hpre Hne Hg). f_equal.
    unfold articleNumber.
    destruct (arabicToChinese n) as [|x s] eqn:E; [contradiction|].
    destruct (commonGlyph_facts x (Hc x (or_introl eq_refl))) as (_ & _ & Hx).
    rewrite (all_digits_glyph x s Hx).
    now rewrite Hval.
  - pose proof (toString_digits m Hm) as Hd.
    pose proof (toString_nonempty m) as Hne.
    rewrite (step_marker language st pre _ tail Hpre Hne).
    + f_equal. unfold articleNumber.
      now rewrite (all_digits_test _ Hne Hd), parseInt_toString.
    + apply forallb_forall. intros c Hc. apply digit_is_numeral_glyph.
      rewrite forallb_forall in Hd. auto.
Qed.

Lemma article_marker_opens_witness :
  Extractor.step (lit "zh") Extractor.state0
    ([] ++ [zh_di] ++ arabicToChinese 21 ++ [zh_tiao] ++ lit " text")
  = Extractor.mkState [] (lit "21") [lit "text"]
  /\ Extractor.step (lit "zh") Extractor.state0
       ([] ++ [zh_di] ++ toString 7 ++ [zh_tiao] ++ lit " text")
     = Extractor.mkState [] (lit "7") [lit "text"].
Proof.
  exact (article_marker_opens (lit "zh") Extractor.state0 [] (lit " text") 21 7
           eq_refl ltac:(lia) ltac:(unfold MAX_SAFE_INTEGER; lia)).
Defined.

(** *** What every extracted provision looks like *)

Lemma decimal_inv (s : jsstring) :
  decimal s = true -> s <> [] /\ forallb isDigit s = true.
Proof.
  unfold decimal. intros H. apply andb_true_iff in H. destruct H as [H1 H2].
  split; [|assumption]. intros ->. discriminate H1.
Qed.

Lemma flush_refOk (language : jsstring) (st : state) :
  numOk st -> Forall (refOk language) (collected st) ->
  Forall (refOk language) (flush language st).
Proof.
  intros Hn Hc. unfold flush.
  destruct (nonEmptyStr (currentArticleNum st)) eqn:N; cbn [andb]; [|assumption].
  destruct (nonEmptyList (currentArticleContent st)); [|assumption].
  apply Forall_app. split; [assumption|]. constructor; [|constructor].
  destruct Hn as [E|D]; [rewrite E in N; discriminate N|].
  apply decimal_inv in D. destruct D as [D1 D2].
  unfold refOk, provisionOf. cbn. now repeat split.
Qed.

Lemma step_refOk (language : jsstring) (st : state) (para : jsstring) :
  numOk st /\ Forall (refOk language) (collected st) ->
  numOk (step language st para)
  /\ Forall (refOk language) (collected (step language st para)).
Proof.
  intros [Hn Hc]. unfold step.
  destruct (exec ARTICLE_PATTERN para) as [f|].
  - cbn [currentArticleNum collected]. split.
    + right. apply articleNumber_decimal.
    + now apply flush_refOk.
  - destruct (nonEmptyStr (currentArticleNum st)); [|now split].
    destruct (negb (test CHAPTER_PATTERN para)); now split.
Qed.

Lemma fold_refOk (language : jsstring) (paragraphs : list jsstring) :
  forall st,
    numOk st /\ Forall (refOk language) (collected st) ->
    numOk (fold_left (step language) paragraphs st)
    /\ Forall (refOk language) (collected (fold_left (step language) paragraphs st)).
Proof.
  induction paragraphs as [|para ps IH]; intros st H; [exact H|].
  cbn [fold_left]. apply IH. now apply step_refOk.
Qed.

(** X14: when no article marker among the paragraphs holds a numeral of
    more than 15 units (so that every number is exact), every provision the
    extractor returns carries a reference that is a non-empty string of
    decimal digits; its section repeats the reference, its title is empty
    and its language is the one asked for. *)
Theorem extracted_provisions_are_numbered (language : jsstring)
        (paragraphs : list jsstring) :
  Forall (fun para => shortNumeral para = true) paragraphs ->
  Forall (fun p => provision_ref p <> [] /\ forallb isDigit (provision_ref p) = true
                   /\ section p = provision_ref p /\ title p = []
                   /\ Extractor.language p = language)
         (extractProvisions language paragraphs).
Proof.
  intros _. unfold extractProvisions.
  destruct (fold_refOk language paragraphs state0) as [Hn Hc].
  { split; [now left | constructor]. }
  exact (flush_refOk language _ Hn Hc).
Qed.

Lemma extracted_provisions_are_numbered_witness :
  Forall (fun p => Extractor.provision_ref p <> []
                   /\ forallb isDigit (Extractor.provision_ref p) = true
                   /\ Extractor.section p = Extractor.provision_ref p
                   /\ Extractor.title p = []
                   /\ Extractor.language p = lit "zh")
         (Extractor.extractProvisions (lit "zh")
                                      [Extractor.para_1; Extractor.para_2]).
Proof.
  apply (extracted_provisions_are_numbered (lit "zh")
           [Extractor.para_1; Extractor.para_2]).
  repeat constructor.
Defined.

(** *** Content *)

Lemma trim_nonempty_iff (s : jsstring) :
  trim s <> [] <-> filter DedupFacts.nonBlank s <> [].
Proof.
  rewrite <- (trim_nonBlank s). split.
  - intros H. destruct (trim_shape s) as [E|(x & t & E & Hx & _)]; [contradiction|].
    rewrite E. cbn [filter]. unfold DedupFacts.nonBlank at 1. rewrite Hx. discriminate.
  - intros H E. rewrite E in H. now apply H.
Qed.

Lemma join_inked (sep : jsstring) (l : jsstring) (ls : list jsstring) :
  trim l <> [] -> trim (join sep (l :: ls)) <> [].
Proof.
  rewrite !trim_nonempty_iff. intros H. cbn [join].
  destruct ls as [|l' ls]; [exact H|].
  rewrite filter_app. intros E. apply app_eq_nil in E. now destruct E.
Qed.

Lemma flush_content (language : jsstring) (st : state) :
  linesOk st -> Forall (fun p => content p <> []) (collected st) ->
  Forall (fun p => content p <> []) (flush language st).
Proof.
  intros Hl Hc. unfold flush.
  destruct (nonEmptyStr (currentArticleNum st)); cbn [andb]; [|assumption].
  destruct (currentArticleContent st) as [|l ls] eqn:E; cbn [nonEmptyList];
    [assumption|].
  apply Forall_app. split; [assumption|]. constructor; [|constructor].
  unfold provisionOf. cbn [content]. rewrite E.
  apply join_inked. unfold linesOk in Hl. rewrite E in Hl. now inversion Hl.
Qed.

Lemma step_content (language : jsstring) (st : state) (para : jsstring) :
  trim para <> [] ->
  linesOk st /\ Forall (fun p => content p <> []) (collected st) ->
  linesOk (step language st para)
  /\ Forall (fun p => content p <> []) (collected (step language st para)).
Proof.
  intros Hp [Hl Hc]. unfold step.
  destruct (exec ARTICLE_PATTERN para) as [f|].
  - cbn [currentArticleContent collected]. split; [|now apply flush_content].
    unfold linesOk. cbn [currentArticleContent].
    destruct (trim (replace ARTICLE_PATTERN [] para)) as [|x t] eqn:E;
      cbn [nonEmptyStr]; constructor; [|constructor].
    rewrite <- E, trim_idempotent, E. discriminate.
  - destruct (nonEmptyStr (currentArticleNum st)); [|now split].
    destruct (negb (test CHAPTER_PATTERN para)); [|now split].
    split; [|assumption]. unfold linesOk. cbn [currentArticleContent].
    apply Forall_app. split; [assumption|]. now repeat constructor.
Qed.

(** X15: when every paragraph handed to the extractor holds a unit that is
    not a blank, as the paragraph collector sees to, no provision comes out
    with empty content. *)
Theorem extracted_content_is_not_empty (language : jsstring)
        (paragraphs : list jsstring) :
  Forall (fun para => trim para <> []) paragraphs ->
  Forall (fun p => content p <> []) (extractProvisions language paragraphs).
Proof.
  intros H. unfold extractProvisions.
  assert (K : forall st,
             linesOk st /\ Forall (fun p => content p <> []) (collected st) ->
             linesOk (fold_left (step language) paragraphs st)
             /\ Forall (fun p => content p <> [])
                       (collected (fold_left (step language) paragraphs st))).
  { induction H as [|para ps Hp Hps IH]; intros st Hst; [exact Hst|].
    cbn [fold_left]. apply IH. now apply step_content. }
  destruct (K state0) as [Hl Hc]; [split; constructor|].
  now apply flush_content.
Qed.

Lemma extracted_content_is_not_empty_witness :
  Forall (fun p => Extractor.content p <> [])
         (Extractor.extractProvisions (lit "zh") [Extractor.para_1; Extractor.para_2]).
Proof.
  apply (extracted_content_is_not_empty (lit "zh") [Extractor.para_1; Extractor.para_2]).
  repeat constructor; vm_compute; discriminate.
Defined.

(** *** Preamble and headings *)

Lemma step_idle (language : jsstring) (para : jsstring) :
  exec ARTICLE_PATTERN para = None -> step language state0 para = state0.
Proof. intros H. unfold step. now rewrite H. Qed.

(** X16: what stands in front of the first article marker is dropped:
    paragraphs that the article pattern does not match, put before the
    body, change nothing in what the extractor returns. *)
Theorem preamble_is_dropped (language : jsstring) (preamble rest : list jsstring) :
  Forall (fun para => exec ARTICLE_PATTERN para = None) preamble ->
  extractProvisions language (preamble ++ rest) = extractProvisions language rest.
Proof.
  intros H. unfold extractProvisions. rewrite fold_left_app. do 2 f_equal.
  induction H as [|para ps Hp Hps IH]; [reflexivity|].
  cbn [fold_left]. now rewrite (step_idle language para Hp).
Qed.

Lemma preamble_is_dropped_witness :
  Extractor.extractProvisions (lit "zh") ([lit "Preamble"] ++ [Extractor.para_1])
  = Extractor.extractProvisions (lit "zh") [Extractor.para_1].
Proof.
  apply (preamble_is_dropped (lit "zh") [lit "Preamble"] [Extractor.para_1]).
  repeat constructor.
Defined.

Lemma heading_unit_not_numeral (u : Z) :
  isHeadingUnit u = true -> isNumeralGlyph u = false.
Proof.
  unfold isHeadingUnit. intros H.
  apply orb_true_iff in H. destruct H as [H|H];
    [apply orb_true_iff in H; destruct H as [H|H]|];
    apply Z.eqb_eq in H; subst; reflexivity.
Qed.

(** A heading is no article marker: after the numeral the two patterns
    ask for different glyphs. *)
Lemma heading_is_no_marker (h : jsstring) :
  test CHAPTER_PATTERN h = true -> exec ARTICLE_PATTERN h = None.
Proof.
  intros Hc. destruct (exec ARTICLE_PATTERN h) as [f|] eqn:Ha; [|reflexivity].
  exfalso.
  (* the heading *)
  unfold CHAPTER_PATTERN, seqs in Hc. cbn [fold_right] in Hc.
  apply test_bol_true in Hc. destruct Hc as (m & rest & c & Hc).
  apply in_run_Seq in Hc.
  destruct Hc as (b & s1 & c1 & m1 & r1 & k1 & Hb & Hc & _).
  apply in_rep_inv in Hb. destruct Hb as (_ & Eh & Hb & _).
  apply in_run_Seq in Hc.
  destruct Hc as (d & s2 & c2 & m2 & r2 & k2 & Hd & Hc & _).
  apply in_cls_inv in Hd. destruct Hd as (x & E1 & _ & Hx & _).
  apply Z.eqb_eq in Hx. subst x.
  apply in_run_Seq in Hc.
  destruct Hc as (g & s3 & c3 & m3 & r3 & k3 & Hg & Hc & _).
  apply in_grp_inv in Hg. destruct Hg as (c0 & Hg & _).
  apply in_rep_inv in Hg. destruct Hg as (_ & E2 & Hg & _).
  apply in_run_Seq in Hc.
  destruct Hc as (u & s4 & c4 & m4 & r4 & k4 & Hu & _ & _).
  apply in_cls_inv in Hu. destruct Hu as (y & E3 & _ & Hy & _).
  (* the marker *)
  unfold ARTICLE_PATTERN, seqs in Ha. cbn [fold_right] in Ha.
  apply exec_bol_inv in Ha. destruct Ha as [_ Ha].
  apply in_run_Seq in Ha.
  destruct Ha as (z0 & t0 & e0 & z & t & e & Hz & Ha & _).
  apply in_bol_inv in Hz. destruct Hz as (_ & _ & -> & _).
  apply in_run_Seq in Ha.
  destruct Ha as (b' & t1 & e1 & n1 & q1 & j1 & Hb' & Ha & _).
  apply in_rep_inv in Hb'. destruct Hb' as (_ & Eh' & Hb' & _).
  apply in_run_Seq in Ha.
  destruct Ha as (d' & t2 & e2 & n2 & q2 & j2 & Hd' & Ha & _).
  apply in_cls_inv in Hd'. destruct Hd' as (x' & E1' & _ & Hx' & _).
  apply Z.eqb_eq in Hx'. subst x'.
  apply in_run_Seq in Ha.
  destruct Ha as (g' & t3 & e3 & n3 & q3 & j3 & Hg' & Ha & _).
  apply in_grp_inv in Hg'. destruct Hg' as (c0' & Hg' & _).
  apply in_rep_inv in Hg'. destruct Hg' as (_ & E2' & Hg' & _).
  apply in_run_Seq in Ha.
  destruct Ha as (u' & t4 & e4 & n4 & q4 & j4 & Hu' & _ & _).
  apply in_cls_inv in Hu'. destruct Hu' as (y' & E3' & _ & Hy' & _).
  apply Z.eqb_eq in Hy'. subst y'.
  (* the two splits of the paragraph agree *)
  subst s1 t1 s2 t2 s3 t3.
  rewrite Eh' in Eh.
  destruct (span_unique isBlank b' b zh_di zh_di _ _ Hb' Hb eq_refl eq_refl Eh)
    as (_ & _ & Et).
  destruct (span_unique isNumeralGlyph g' g zh_tiao y _ _ Hg' Hg eq_refl
              (heading_unit_not_numeral y Hy) Et) as (_ & <- & _).
  discriminate Hy.
Qed.

Lemma step_heading (language : jsstring) (st : state) (h : jsstring) :
  test CHAPTER_PATTERN h = true -> step language st h = st.
Proof.
  intros H. unfold step. rewrite (heading_is_no_marker h H), H. cbn [negb].
  now destruct (nonEmptyStr (currentArticleNum st)).
Qed.

(** X17: chapter and section headings never reach the text of an article:
    a paragraph that the heading pattern matches can be taken out of the
    body, wherever it stands, without changing what the extractor returns. *)
Theorem headings_are_skipped (language : jsstring)
        (before after : list jsstring) (heading : jsstring) :
  test CHAPTER_PATTERN heading = true ->
  extractProvisions language (before ++ heading :: after)
  = extractProvisions language (before ++ after).
Proof.
  intros H. unfold extractProvisions. rewrite !fold_left_app. cbn [fold_left].
  now rewrite (step_heading language _ heading H).
Qed.

Lemma headings_are_skipped_witness :
  let heading := [zh_di; zh_yi; 0x7AE0; 32; 0x603B; 0x5219] in
  Extractor.extractProvisions (lit "zh")
    ([Extractor.para_1] ++ heading :: [Extractor.para_2])
  = Extractor.extractProvisions (lit "zh") ([Extractor.para_1] ++ [Extractor.para_2]).
Proof.
  intros heading.
  apply (headings_are_skipped (lit "zh") [Extractor.para_1] [Extractor.para_2] heading).
  reflexivity.
Defined.

(** *** The article marker and the page *)

Lemma contentOf_none (selections : list NpcPage.selection) :
  Forall (fun el => (length (trim (NpcPage.selectionText el)) <= 100)%nat)
         selections ->
  NpcPage.contentOf selections = None.
Proof.
  unfold NpcPage.contentOf. induction 1 as [|el l Hel _ IH]; [reflexivity|].
  cbn [find]. destruct (Nat.ltb_spec 100 (length (trim (NpcPage.selectionText el))));
    [lia | exact IH].
Qed.

(** C6 (amended): a paragraph matching the article-marker pattern saves the
    open article as a completed provision when that article has gathered at
    least one content line, drops it otherwise, and then starts the new
    article under the number the marker resolves to.  When the content
    container the parser settles on, the first candidate selection with
    more than 100 units of trimmed text, holds the paragraphs "第一条 内容甲"
    and "第二条 内容乙", the law comes out with exactly two provisions, with
    references "1" and "2" and the matching content.  When no candidate has
    more than 100 units of text, as on a page that holds these two short
    paragraphs and nothing else, the law comes out without a provision. *)
Theorem C6_article_marker_flushes (language : jsstring) (st : state)
        (para : jsstring) (m : found) :
  exec ARTICLE_PATTERN para = Some m ->
  collected (step language st para)
  = (if nonEmptyStr (currentArticleNum st) && nonEmptyList (currentArticleContent st)
     then collected st ++ [provisionOf language st]
     else collected st)
  /\ currentArticleNum (step language st para)
     = articleNumber (match group 1 (caps m) with Some g => g | None => [] end)
  /\ (forall selections el lawId lawTitle lawTitleEn,
        NpcPage.contentOf selections = Some el ->
        NpcPage.paragraphTexts el = [para_1; para_2] ->
        provisions (NpcPage.parseNpcHtml selections lawId lawTitle lawTitleEn
                                         language)
        = [mkParsed (lit "1") (lit "1") [] [0x5185; 0x5BB9; 0x7532] language;
           mkParsed (lit "2") (lit "2") [] [0x5185; 0x5BB9; 0x4E59] language])
  /\ (forall selections lawId lawTitle lawTitleEn,
        Forall (fun el => (length (trim (NpcPage.selectionText el)) <= 100)%nat)
               selections ->
        provisions (NpcPage.parseNpcHtml selections lawId lawTitle lawTitleEn
                                         language)
        = [])
  /\ (forall lawId lawTitle lawTitleEn,
        provisions (NpcPage.parseNpcHtml [NpcPage.scenarioOnly] lawId lawTitle
                                         lawTitleEn language)
        = []
        /\ provisions (NpcPage.parseNpcHtml [NpcPage.scenarioOnly;
                                             NpcPage.scenarioWithin]
                                            lawId lawTitle lawTitleEn language)
           = [mkParsed (lit "1") (lit "1") [] [0x5185; 0x5BB9; 0x7532] language;
              mkParsed (lit "2") (lit "2") [] [0x5185; 0x5BB9; 0x4E59] language]).
Proof.
  intros H.
  assert (Two : extractProvisions language [para_1; para_2]
                = [mkParsed (lit "1") (lit "1") [] [0x5185; 0x5BB9; 0x7532] language;
                   mkParsed (lit "2") (lit "2") [] [0x5185; 0x5BB9; 0x4E59] language])
    by reflexivity.
  assert (Page : forall selections el lawId lawTitle lawTitleEn,
             NpcPage.contentOf selections = Some el ->
             NpcPage.paragraphTexts el = [para_1; para_2] ->
             provisions (NpcPage.parseNpcHtml selections lawId lawTitle lawTitleEn
                                              language)
             = extractProvisions language [para_1; para_2]).
  { intros selections el lawId lawTitle lawTitleEn Hc Hp.
    unfold NpcPage.parseNpcHtml. rewrite Hc. cbn [option_map].
    unfold NpcPage.paragraphsOf. rewrite Hp.
    change (NpcPage.nonEmptyTrimmed [para_1; para_2]) with [para_1; para_2].
    reflexivity. }
  assert (Bare : forall selections lawId lawTitle lawTitleEn,
             Forall (fun el => (length (trim (NpcPage.selectionText el)) <= 100)%nat)
                    selections ->
             provisions (NpcPage.parseNpcHtml selections lawId lawTitle lawTitleEn
                                              language)
             = []).
  { intros selections lawId lawTitle lawTitleEn Hs.
    unfold NpcPage.parseNpcHtml. now rewrite (contentOf_none selections Hs). }
  split; [|split; [|split; [|split]]].
  - unfold step. now rewrite H.
  - unfold step. now rewrite H.
  - intros selections el lawId lawTitle lawTitleEn Hc Hp.
    now rewrite (Page selections el lawId lawTitle lawTitleEn Hc Hp).
  - exact Bare.
  - intros lawId lawTitle lawTitleEn. split.
    + apply Bare. constructor; [apply Nat.leb_le; reflexivity | constructor].
    + rewrite (Page _ NpcPage.scenarioWithin lawId lawTitle lawTitleEn);
        [exact Two | reflexivity | reflexivity].
Qed.

Lemma C6_article_marker_flushes_witness :
  Extractor.collected
    (Extractor.step (lit "zh") (Extractor.step (lit "zh") Extractor.state0
                                               Extractor.para_1)
                    Extractor.para_2)
  = [Extractor.mkParsed (lit "1") (lit "1") [] [0x5185; 0x5BB9; 0x7532] (lit "zh")].
Proof.
  destruct (C6_article_marker_flushes (lit "zh")
              (Extractor.step (lit "zh") Extractor.state0 Extractor.para_1)
              Extractor.para_2 _ eq_refl) as [H _].
  rewrite H. reflexivity.
Defined.

End ExtractorRuns.

(** ** Index page and text normaliser *)

Section IndexAndNormaliser.
Import NpcIndex.

Lemma indexEntry_ok (a : anchor) (e : LawIndexEntry) :
  indexEntry a = Some e ->
  startsWith (lit "http") (url e) = true /\ title e <> []
  /\ trim (title e) = title e /\ namesLaw (title e) = true
  /\ title e = trim (text a) /\ title_en e = [].
Proof.
  unfold indexEntry. destruct (href a) as [h|]; [|discriminate].
  destruct (negb (isNil h) && negb (isNil (trim (text a))) && namesLaw (trim (text a)))
    eqn:G; [|discriminate].
  apply andb_true_iff in G. destruct G as [G Hn].
  apply andb_true_iff in G. destruct G as [_ Ht].
  intros E.
  assert (E' : e = mkEntry (trim (text a)) []
                           (if startsWith (lit "http") h then h else NPC_ORIGIN ++ h)
                           [] []) by congruence.
  subst e. clear E. unfold url, title, title_en. repeat split.
  - destruct (startsWith (lit "http") h) eqn:S; [exact S | reflexivity].
  - intros E. rewrite E in Ht. discriminate Ht.
  - apply trim_idempotent.
  - exact Hn.
Qed.

Lemma indexEntry_source (a : anchor) (e : LawIndexEntry) :
  indexEntry a = Some e ->
  exists h, href a = Some h /\ h <> []
            /\ e = mkEntry (trim (text a)) []
                          (if startsWith (lit "http") h then h else NPC_ORIGIN ++ h)
                          [] [].
Proof.
  unfold indexEntry. destruct (href a) as [h|]; [|discriminate].
  destruct (negb (isNil h) && negb (isNil (trim (text a))) && namesLaw (trim (text a)))
    eqn:G; [|discriminate].
  apply andb_true_iff in G. destruct G as [G _].
  apply andb_true_iff in G. destruct G as [Hh _].
  intros E. exists h. split; [reflexivity|]. split; [|congruence].
  intros ->. discriminate Hh.
Qed.

Lemma namesLaw_nonempty (t : jsstring) : namesLaw t = true -> t <> [].
Proof. intros H ->. discriminate H. Qed.

(** X18: every entry parseNpcIndex returns comes from a link of the page
    that has a non-empty href and whose trimmed text holds 法, 条例 or 典.
    The title of the entry is that trimmed text; its URL is the href itself
    when the href starts with http, and the NPC origin followed by the href
    otherwise, so that it always starts with http; its English title and
    its two dates are empty.  Every such link has its entry, and there are
    at most as many entries as links. *)
Theorem index_entries_are_absolute (anchors : list anchor) :
  Forall (fun e =>
            exists a h,
              In a anchors /\ href a = Some h /\ h <> []
              /\ title e = trim (text a) /\ title e <> []
              /\ namesLaw (title e) = true
              /\ url e = (if startsWith (lit "http") h then h else NPC_ORIGIN ++ h)
              /\ startsWith (lit "http") (url e) = true
              /\ title_en e = [] /\ adopted_date e = []
              /\ effective_date e = [])
         (parseNpcIndex anchors)
  /\ (forall a h,
        In a anchors -> href a = Some h -> h <> [] ->
        namesLaw (trim (text a)) = true ->
        In (mkEntry (trim (text a)) []
                    (if startsWith (lit "http") h then h else NPC_ORIGIN ++ h)
                    [] [])
           (parseNpcIndex anchors))
  /\ (length (parseNpcIndex anchors) <= length anchors)%nat.
Proof.
  split; [|split].
  - apply Forall_forall. intros e He. unfold parseNpcIndex in He.
    apply in_flat_map in He. destruct He as (a & Ha & He).
    destruct (indexEntry a) as [e'|] eqn:E; [|contradiction].
    destruct He as [<-|[]].
    destruct (indexEntry_ok a e' E) as (H1 & H2 & _ & H4 & H5 & H6).
    destruct (indexEntry_source a e' E) as (h & Hh & Hne & ->).
    exists a, h. cbn [title url title_en adopted_date effective_date] in *.
    repeat split; assumption.
  - intros a h Ha Hh Hne Hn. unfold parseNpcIndex. apply in_flat_map.
    exists a. split; [assumption|]. unfold indexEntry. rewrite Hh, Hn.
    destruct h as [|x h]; [contradiction|].
    destruct (trim (text a)) as [|y t] eqn:T;
      [exfalso; now apply (namesLaw_nonempty [] Hn)|].
    cbn [isNil negb andb]. now left.
  - unfold parseNpcIndex. induction anchors as [|a l IH]; [reflexivity|].
    cbn [flat_map]. rewrite length_app. destruct (indexEntry a); simpl; lia.
Qed.

Lemma collapse_ideographic (t : jsstring) :
  forall b,
    Dedup.collapseBlanks b (map (fun c => if c =? 0x3000 then 32 else c) t)
    = Dedup.collapseBlanks b t.
Proof.
  induction t as [|c t IH]; intros b; [reflexivity|].
  cbn [map Dedup.collapseBlanks].
  destruct (Z.eqb_spec c 0x3000) as [->|].
  - replace (isSpace 32) with true by reflexivity.
    replace (isSpace 0x3000) with true by reflexivity.
    now rewrite !IH.
  - now rewrite !IH.
Qed.

(** X19: normalizeChineseText of the parser and normalizeWhitespace of the
    database builder are the same function: the ideographic space is a
    blank already, so replacing it first changes nothing.  The result is a
    normalised text, and normalising it again leaves it as it is. *)
Theorem normalizeChineseText_agrees (text : jsstring) :
  normalizeChineseText text = Dedup.normalizeWhitespace text
  /\ DedupFacts.tidy (normalizeChineseText text) = true
  /\ normalizeChineseText (normalizeChineseText text) = normalizeChineseText text.
Proof.
  assert (E : forall t, normalizeChineseText t = Dedup.normalizeWhitespace t).
  { intros t. unfold normalizeChineseText, Dedup.normalizeWhitespace.
    now rewrite collapse_ideographic. }
  split; [apply E|]. rewrite !E. split.
  - apply normalizeWhitespace_tidy.
  - apply tidy_fixed, normalizeWhitespace_tidy.
Qed.

End IndexAndNormaliser.

(** ** Query normaliser: the primary variant *)

Section FtsPrimary.
Import Fts FtsFacts.

Variable sanitiseToken : jsstring -> jsstring.

Lemma execFrom_inv (r : re) (s : list Z) :
  forall prev idx f,
    execFrom r prev s idx = Some f ->
    exists pre s' prev',
      s = pre ++ s' /\ In (matched f, after f, caps f) (run r prev' s' []).
Proof.
  induction s as [|x s IH]; intros prev idx f H; cbn [execFrom] in H.
  - destruct (run r prev [] []) as [|[[m rest] c] l] eqn:E; [discriminate H|].
    injection H as <-. exists [], [], prev. split; [reflexivity|].
    rewrite E. now left.
  - destruct (run r prev (x :: s) []) as [|[[m rest] c] l] eqn:E.
    + destruct (IH _ _ _ H) as (pre & s' & prev' & -> & Hin).
      now exists (x :: pre), s', prev'.
    + injection H as <-. exists [], (x :: s), prev. split; [reflexivity|].
      rewrite E. now left.
Qed.

Lemma in_wordb_inv prev s c m rest c' :
  In (m, rest, c') (run WordB prev s c) -> m = [] /\ rest = s.
Proof.
  cbn [run]. destruct (xorb _ _); [|contradiction].
  intros [[= <- <- _]|[]]. now split.
Qed.

(** A word between two word boundaries: the text at the position opens
    with the first letter of the word. *)
Lemma bounded_word_head (n : nat) (a : Z) (w : list Z) prev s c m rest c' :
  In (m, rest, c') (run (Grp n (seqs [WordB; str (a :: w); WordB])) prev s c) ->
  exists t, s = a :: t.
Proof.
  intros H. apply in_grp_inv in H. destruct H as (c0 & H & _).
  unfold seqs in H. cbn [fold_right] in H. apply in_run_Seq in H.
  destruct H as (m1 & s1 & c1 & m2 & s2 & c2 & H1 & H2 & _).
  apply in_wordb_inv in H1. destruct H1 as [-> ->].
  apply in_run_Seq in H2.
  destruct H2 as (m3 & s3 & c3 & _ & _ & _ & H3 & _ & _).
  change (str (a :: w)) with (Seq (chr a) (str w)) in H3.
  apply in_run_Seq in H3.
  destruct H3 as (m4 & s4 & c4 & _ & _ & _ & H4 & _ & _).
  apply in_cls_inv in H4. destruct H4 as (x & -> & _ & Hx & _).
  apply Z.eqb_eq in Hx. subst x. now exists s4.
Qed.

(** A text with explicit syntax holds a unit the repair keeps. *)
Lemma explicit_has_kept (t : jsstring) :
  test EXPLICIT_FTS_SYNTAX t = true -> exists c, In c t /\ kept c = true.
Proof.
  unfold test. destruct (exec EXPLICIT_FTS_SYNTAX t) as [f|] eqn:E; [|discriminate].
  intros _. apply execFrom_inv in E.
  destruct E as (pre & s' & prev' & -> & Hin).
  assert (Hd : exists c u, s' = c :: u /\ kept c = true).
  { unfold EXPLICIT_FTS_SYNTAX in Hin. cbn [run] in Hin.
    apply in_app_or in Hin. destruct Hin as [Hin|Hin].
    { change (In (matched f, after f, caps f)
                 (run (Cls (fun c => (c =? quote) || (c =? quote) || (c =? quote)))
                      prev' s' [])) in Hin.
      apply in_cls_inv in Hin. destruct Hin as (x & -> & _ & Hx & _).
      exists x, (after f). split; [reflexivity|].
      unfold kept. unfold quote in Hx.
      destruct (x =? 34); [reflexivity | discriminate Hx]. }
    apply in_app_or in Hin. destruct Hin as [Hin|Hin].
    { change (In (matched f, after f, caps f)
                 (run (Grp 1 (seqs [WordB; str (65 :: [78; 68]); WordB])) prev' s' []))
        in Hin.
      apply bounded_word_head in Hin. destruct Hin as (u & ->).
      now exists 65, u. }
    apply in_app_or in Hin. destruct Hin as [Hin|Hin].
    { change (In (matched f, after f, caps f)
                 (run (Grp 2 (seqs [WordB; str (79 :: [82]); WordB])) prev' s' []))
        in Hin.
      apply bounded_word_head in Hin. destruct Hin as (u & ->).
      now exists 79, u. }
    apply in_app_or in Hin. destruct Hin as [Hin|Hin].
    { change (In (matched f, after f, caps f)
                 (run (Grp 3 (seqs [WordB; str (78 :: [79; 84]); WordB])) prev' s' []))
        in Hin.
      apply bounded_word_head in Hin. destruct Hin as (u & ->).
      now exists 78, u. }
    change (In (matched f, after f, caps f)
               (run (Seq (chr 42) (Seq Eol Eps)) prev' s' [])) in Hin.
    apply in_run_Seq in Hin.
    destruct Hin as (m1 & s1 & c1 & _ & _ & _ & H1 & _ & _).
    apply in_cls_inv in H1. destruct H1 as (x & -> & _ & Hx & _).
    apply Z.eqb_eq in Hx. subst x. now exists 42, s1. }
  destruct Hd as (c & u & -> & Hk). exists c. split; [|assumption].
  apply in_or_app. right. now left.
Qed.

Lemma kept_cases (c : char) :
  kept c = true -> c <> 59 /\ c <> 45 /\ c <> 0x201C /\ c <> 0x201D.
Proof.
  unfold kept, isUpper. intros H.
  repeat split; intros ->; discriminate H.
Qed.

Lemma stripDashPairs_keeps (c : char) (s : jsstring) :
  c <> 45 -> In c s -> In c (stripDashPairs s).
Proof.
  intros Hc.
  induction s as [| a | rest IH | a b rest E IH] using stripDashPairs_ind2.
  - auto.
  - auto.
  - rewrite stripDashPairs_pair. intros [H|[H|H]]; [congruence | congruence | auto].
  - rewrite (stripDashPairs_keep a b rest E). intros [->|H]; [now left | right; auto].
Qed.

Lemma repair_keeps (c : char) (t : jsstring) :
  kept c = true -> In c t ->
  In c (stripDashPairs (stripSemicolons (straightenQuotes t))).
Proof.
  intros Hk Hin. destruct (kept_cases c Hk) as (H1 & H2 & H3 & H4).
  apply stripDashPairs_keeps; [assumption|].
  unfold stripSemicolons. apply filter_In. split.
  - unfold straightenQuotes. apply in_map_iff. exists c. split; [|assumption].
    destruct (Z.eqb_spec c 0x201C); [contradiction|].
    destruct (Z.eqb_spec c 0x201D); [contradiction|]. reflexivity.
  - destruct (Z.eqb_spec c 59); [contradiction | reflexivity].
Qed.

Lemma balanceQuotes_nonempty (n : jsstring) : n <> [] -> balanceQuotes n <> [].
Proof.
  intros H. destruct (balanceQuotes_cases n) as [-> | ->]; [assumption|].
  now destruct n.
Qed.

Lemma join_nonempty (sep x : jsstring) (l : list jsstring) :
  x <> [] -> join sep (x :: l) <> [].
Proof.
  intros H. cbn [join]. destruct l; [assumption|]. now destruct x.
Qed.

(** X20: the primary variant is never the empty string, whatever the
    query and whatever the token sanitiser: an empty or blank query and a
    query whose tokens all vanish give the empty phrase (two double
    quotes), a query with explicit syntax keeps at least the quote, the
    capital or the asterisk that made it explicit, and every token comes
    wrapped in quotes. *)
Theorem primary_is_never_empty (query : jsstring) :
  primary (buildFtsQueryVariants sanitiseToken query) <> [].
Proof.
  unfold buildFtsQueryVariants.
  set (trimmed := slice0 MAX_QUERY_LENGTH (trim query)).
  assert (Hlen : (length trimmed <= MAX_QUERY_LENGTH)%nat) by apply firstn_le_length.
  destruct trimmed as [|c0 t0] eqn:T; [discriminate|]. rewrite <- T in *.
  destruct (test EXPLICIT_FTS_SYNTAX trimmed) eqn:X.
  - cbn [primary]. apply balanceQuotes_nonempty.
    set (n := stripDashPairs (stripSemicolons (straightenQuotes trimmed))).
    assert (Hn : (length n <= MAX_QUERY_LENGTH)%nat).
    { pose proof (stripDashPairs_length (stripSemicolons (straightenQuotes trimmed))).
      pose proof (stripSemicolons_length (straightenQuotes trimmed)).
      pose proof (straightenQuotes_length trimmed). subst n. lia. }
    unfold slice0. rewrite firstn_all2 by exact Hn.
    destruct (explicit_has_kept trimmed X) as (c & Hin & Hk).
    pose proof (repair_keeps c trimmed Hk Hin) as K. fold n in K.
    intros E. rewrite E in K. contradiction.
  - destruct (filter (fun t => negb (isNil t))
                     (map sanitiseToken (splitBlanks [] trimmed))) as [|x l];
      [discriminate|].
    cbn [primary map]. apply join_nonempty. discriminate.
Qed.

Lemma quoteCount_app (a b : jsstring) :
  quoteCount (a ++ b) = (quoteCount a + quoteCount b)%nat.
Proof. unfold quoteCount. now rewrite filter_app, length_app. Qed.

Lemma quoteCount_none (t : jsstring) : ~ In quote t -> quoteCount t = 0%nat.
Proof.
  intros H. unfold quoteCount.
  induction t as [|c t IH]; [reflexivity|]. cbn [filter].
  destruct (Z.eqb_spec c quote) as [->|]; [exfalso; apply H; now left|].
  apply IH. intros Hin. apply H. now right.
Qed.

Lemma quoted_tokens_even (tokens : list jsstring) :
  Forall (fun t => ~ In quote t) tokens ->
  Nat.even (quoteCount (join (lit " ")
                             (map (fun t => [quote] ++ t ++ [quote; 42]) tokens)))
  = true.
Proof.
  induction 1 as [|t l Ht Hl IH]; [reflexivity|].
  assert (Q : quoteCount ([quote] ++ t ++ [quote; 42]) = 2%nat).
  { rewrite !quoteCount_app, (quoteCount_none t Ht). reflexivity. }
  destruct l as [|t' l'].
  - cbn [map join]. now rewrite Q.
  - set (F := fun t => [quote] ++ t ++ [quote; 42]) in *.
    change (join (lit " ") (map F (t :: t' :: l')))
      with (F t ++ lit " " ++ join (lit " ") (map F (t' :: l'))).
    rewrite !quoteCount_app. unfold F at 1. rewrite Q.
    replace (quoteCount (lit " ")) with 0%nat by reflexivity.
    cbn [plus]. exact IH.
Qed.

(** X21: with a token sanitiser that lets no double quote through, as the
    one of the source does (a quote is neither a letter, a number, an
    underscore nor a hyphen), the primary variant holds an even number of
    double quotes for every query, in all three branches. *)
Theorem primary_quotes_are_balanced (query : jsstring) :
  (forall t, ~ In quote (sanitiseToken t)) ->
  Nat.even (quoteCount (primary (buildFtsQueryVariants sanitiseToken query))) = true.
Proof.
  intros Hs. unfold buildFtsQueryVariants.
  set (trimmed := slice0 MAX_QUERY_LENGTH (trim query)).
  destruct trimmed as [|c0 t0] eqn:T; [reflexivity|]. rewrite <- T.
  destruct (test EXPLICIT_FTS_SYNTAX trimmed).
  - cbn [primary]. apply balanceQuotes_even.
  - set (tokens := filter (fun t => negb (isNil t))
                          (map sanitiseToken (splitBlanks [] trimmed))).
    assert (Ht : Forall (fun t => ~ In quote t) tokens).
    { apply Forall_forall. intros t Hin. apply filter_In in Hin.
      destruct Hin as [Hin _]. apply in_map_iff in Hin.
      destruct Hin as (u & <- & _). apply Hs. }
    destruct tokens as [|x l] eqn:K; [reflexivity|].
    cbn [primary]. now apply quoted_tokens_even.
Qed.

End FtsPrimary.

Lemma primary_quotes_are_balanced_witness :
  Nat.even (Fts.quoteCount
              (Fts.primary (Fts.buildFtsQueryVariants (filter isWord)
                              (lit "data " ++ [34] ++ lit " law"))))
  = true.
Proof.
  apply (primary_quotes_are_balanced (filter isWord)).
  intros t H. apply filter_In in H. destruct H as [_ H]. discriminate H.
Defined.

(** ** Patterns: what a match is bound to set *)

Section BoundGroups.
Import PatternFacts.

Lemma in_counts_hi (g : bool) (lo : nat) (hi : option nat) (k i : nat) :
  In i (counts g lo hi k) -> (lo <= i <= k)%nat.
Proof.
  unfold counts. intros H.
  set (k' := match hi with Some h => Nat.min h k | None => k end) in *.
  assert (Hk : (k' <= k)%nat) by (subst k'; destruct hi; lia).
  assert (I : In i (seq lo (S k' - lo))) by (destruct g; [now apply in_rev|exact H]).
  apply in_seq in I. lia.
Qed.

Lemma consumes_sound (r : re) :
  consumes r = true ->
  forall prev s c m rest c', In (m, rest, c') (run r prev s c) -> m <> [].
Proof.
  induction r as [| | | |p|g lo hi p|r IH|a IHa b IHb|a IHa b IHb|n r IH];
    cbn [consumes]; intros Hc prev s c m rest c' H; try discriminate Hc.
  - apply in_cls_inv in H. destruct H as (x & _ & -> & _). discriminate.
  - cbn [run] in H. apply in_map_iff in H.
    destruct H as (i & [= <- _ _] & Hi). apply in_counts_hi in Hi.
    apply Nat.leb_le in Hc.
    destruct (span_prefix p s i) as [_ L]; [lia|].
    intros E. rewrite E in L. simpl in L. lia.
  - apply in_run_Seq in H.
    destruct H as (m1 & s1 & c1 & m2 & s2 & c2 & H1 & H2 & [= -> _ _]).
    apply orb_true_iff in Hc. intros E. apply app_eq_nil in E.
    destruct E as [E1 E2]. destruct Hc as [Hc|Hc].
    + now apply (IHa Hc _ _ _ _ _ _ H1).
    + now apply (IHb Hc _ _ _ _ _ _ H2).
  - apply andb_true_iff in Hc. destruct Hc as [Ha Hb].
    cbn [run] in H. apply in_app_or in H. destruct H as [H|H].
    + now apply (IHa Ha _ _ _ _ _ _ H).
    + now apply (IHb Hb _ _ _ _ _ _ H).
  - apply in_grp_inv in H. destruct H as (c0 & H & _).
    now apply (IH Hc _ _ _ _ _ _ H).
Qed.

Lemma existsb_eqb_false (k : nat) (l : list nat) :
  existsb (Nat.eqb k) l = false -> ~ In k l.
Proof.
  intros H Hin. assert (E : existsb (Nat.eqb k) l = true).
  { apply existsb_exists. exists k. split; [assumption | apply Nat.eqb_refl]. }
  congruence.
Qed.

Lemma binds_sound (k : nat) (r : re) :
  binds k r = true ->
  forall prev s c m rest c',
    In (m, rest, c') (run r prev s c) ->
    exists g, group k c' = Some g /\ g <> [].
Proof.
  induction r as [| | | |p|g lo hi p|r IH|a IHa b IHb|a IHa b IHb|n r IH];
    cbn [binds]; intros Hb prev s c m rest c' H; try discriminate Hb.
  - apply in_run_Seq in H.
    destruct H as (m1 & s1 & c1 & m2 & s2 & c2 & H1 & H2 & [= _ _ ->]).
    apply orb_true_iff in Hb. destruct Hb as [Hb|Hb].
    + exact (IHb Hb _ _ _ _ _ _ H2).
    + apply andb_true_iff in Hb. destruct Hb as [Ha Hn].
      apply negb_true_iff, existsb_eqb_false in Hn.
      rewrite (run_group_kept b k _ _ _ _ _ _ Hn H2).
      exact (IHa Ha _ _ _ _ _ _ H1).
  - apply andb_true_iff in Hb. destruct Hb as [Ha Hb].
    cbn [run] in H. apply in_app_or in H. destruct H as [H|H].
    + exact (IHa Ha _ _ _ _ _ _ H).
    + exact (IHb Hb _ _ _ _ _ _ H).
  - apply in_grp_inv in H. destruct H as (c0 & H & ->). cbn [group].
    destruct (Nat.eqb_spec n k) as [->|Hne].
    + exists m. split; [reflexivity|]. exact (consumes_sound r Hb _ _ _ _ _ _ H).
    + exact (IH Hb _ _ _ _ _ _ H).
Qed.

(** A match of an anchored pattern that binds a group sets it. *)
Lemma exec_binds (k : nat) (r : re) (s : list Z) (f : found) :
  anchored r = true -> binds k r = true -> exec r s = Some f ->
  exists g, group k (caps f) = Some g /\ g <> [].
Proof.
  intros Ha Hb He. destruct r as [| | | | | | |a b| |]; try discriminate Ha.
  destruct a; try discriminate Ha.
  apply exec_bol_inv in He. destruct He as [_ He].
  exact (binds_sound k _ Hb _ _ _ _ _ _ He).
Qed.

End BoundGroups.

(** ** Citation resolver: what a valid result holds *)

Section ValidCitations.
Import Citation PatternFacts.

Lemma truthy_some (g : jsstring) : g <> [] -> truthy (Some g) = true.
Proof. destruct g; [contradiction | reflexivity]. Qed.

Lemma chineseArticle_truthy (o : option jsstring) :
  (exists g, o = Some g /\ g <> []) -> truthy (chineseArticle o) = true.
Proof.
  intros (g & -> & Hg). unfold chineseArticle.
  destruct (parseChineseNumber (orEmpty (Some g))) as [n|].
  - apply truthy_some, toString_nonempty.
  - now apply truthy_some.
Qed.

Lemma orUndefined_cases (o : option jsstring) :
  orUndefined o = None \/ truthy (orUndefined o) = true.
Proof. unfold orUndefined. destruct (truthy o) eqn:E; auto. Qed.

Lemma chineseParagraph_cases (o : option jsstring) :
  chineseParagraph o = None \/ truthy (chineseParagraph o) = true.
Proof.
  unfold chineseParagraph. destruct (truthy o); [|now left].
  destruct (parseChineseNumber (orEmpty o)) as [n|]; [|now left].
  right. apply truthy_some, toString_nonempty.
Qed.

Lemma group_truthy (k : nat) (r : re) (s : list Z) (f : found) :
  anchored r = true -> binds k r = true -> exec r s = Some f ->
  truthy (group k (caps f)) = true.
Proof.
  intros Ha Hb He. destruct (exec_binds k r s f Ha Hb He) as (g & -> & Hg).
  now apply truthy_some.
Qed.

(** What parseCitation returns is valid with an article, or invalid with a
    reason. *)
Lemma parseCitation_cases (citation : jsstring) :
  let c := parseCitation citation in
  (valid c = true /\ truthy (article c) = true /\ type c = statute
   /\ error c = None
   /\ (paragraph c = None \/ truthy (paragraph c) = true))
  \/ (valid c = false /\ article c = None
      /\ error c = Some (parseError (trim citation))).
Proof.
  cbv zeta. unfold parseCitation.
  destruct (exec ID_CITATION (trim citation)) as [f|] eqn:E1.
  { left. cbn [valid article type error paragraph].
    repeat split; [|apply orUndefined_cases].
    exact (group_truthy 2 ID_CITATION _ f eq_refl eq_refl E1). }
  destruct (exec CHINESE_CITATION (trim citation)) as [f|] eqn:E2.
  { left. cbn [valid article type error paragraph].
    repeat split; [|apply chineseParagraph_cases].
    apply chineseArticle_truthy. exact (exec_binds 1 CHINESE_CITATION _ f eq_refl eq_refl E2). }
  destruct (exec CHINESE_LAW_FIRST (trim citation)) as [f|] eqn:E3.
  { left. cbn [valid article type error paragraph].
    repeat split; [|apply chineseParagraph_cases].
    apply chineseArticle_truthy. exact (exec_binds 2 CHINESE_LAW_FIRST _ f eq_refl eq_refl E3). }
  destruct (exec ENGLISH_CITATION (trim citation)) as [f|] eqn:E4.
  { left. cbn [valid article type error paragraph].
    repeat split; [|apply orUndefined_cases].
    exact (group_truthy 1 ENGLISH_CITATION _ f eq_refl eq_refl E4). }
  destruct (exec SHORT_CITATION (trim citation)) as [f|] eqn:E5.
  { left. cbn [valid article type error paragraph].
    repeat split; [|apply orUndefined_cases].
    exact (group_truthy 1 SHORT_CITATION _ f eq_refl eq_refl E5). }
  destruct (exec BARE_CHINESE_ARTICLE (trim citation)) as [f|] eqn:E6.
  { left. cbn [valid article type error paragraph].
    repeat split; [|apply chineseParagraph_cases].
    apply chineseArticle_truthy. exact (exec_binds 1 BARE_CHINESE_ARTICLE _ f eq_refl eq_refl E6). }
  destruct (exec BARE_ENGLISH_ARTICLE (trim citation)) as [f|] eqn:E7.
  { left. cbn [valid article type error paragraph].
    repeat split; [|apply orUndefined_cases].
    exact (group_truthy 1 BARE_ENGLISH_ARTICLE _ f eq_refl eq_refl E7). }
  right. now repeat split.
Qed.

(** X22: a citation that parseCitation accepts always names an article:
    whenever the result is valid, its article is a non-empty string, its
    type is statute, it carries no error, and its paragraph is either absent
    or a non-empty string. *)
Theorem valid_citation_names_an_article (citation : jsstring) :
  valid (parseCitation citation) = true ->
  truthy (article (parseCitation citation)) = true
  /\ type (parseCitation citation) = statute
  /\ error (parseCitation citation) = None
  /\ (paragraph (parseCitation citation) = None
      \/ truthy (paragraph (parseCitation citation)) = true).
Proof.
  intros H. destruct (parseCitation_cases citation) as [(_ & K)|(V & _)].
  - exact K.
  - rewrite V in H. discriminate H.
Qed.

Lemma valid_citation_names_an_article_witness :
  truthy (Citation.article (Citation.parseCitation (lit "csl-2016, art. 3"))) = true
  /\ Citation.type (Citation.parseCitation (lit "csl-2016, art. 3")) = Citation.statute
  /\ Citation.error (Citation.parseCitation (lit "csl-2016, art. 3")) = None
  /\ (Citation.paragraph (Citation.parseCitation (lit "csl-2016, art. 3")) = None
      \/ truthy (Citation.paragraph (Citation.parseCitation (lit "csl-2016, art. 3")))
         = true).
Proof.
  apply (valid_citation_names_an_article (lit "csl-2016, art. 3")).
  vm_compute. reflexivity.
Defined.

End ValidCitations.

(** ** The format_citation tool *)

Section FormatCitationTool.
Import Citation FormatTool.

Lemma execFrom_index (r : re) (s : list Z) :
  forall prev idx f, execFrom r prev s idx = Some f -> (idx <= index f)%nat.
Proof.
  induction s as [|x s IH]; intros prev idx f H; cbn [execFrom] in H.
  - destruct (run r prev [] []) as [|[[m rest] c] l]; [discriminate H|].
    injection H as <-. cbn [index]. lia.
  - destruct (run r prev (x :: s) []) as [|[[m rest] c] l].
    + apply IH in H. lia.
    + injection H as <-. cbn [index]. lia.
Qed.

(** Replacing the first match keeps the first unit when the pattern cannot
    match at the start. *)
Lemma replace_keeps_head (r : re) (repl : jsstring) (x : Z) (s : jsstring) :
  run r None (x :: s) [] = [] -> replace r repl (x :: s) <> [].
Proof.
  intros H. unfold replace, exec. cbn [execFrom]. rewrite H.
  destruct (execFrom r (Some x) s 1) as [f|] eqn:E; [|discriminate].
  apply execFrom_index in E. destruct (index f) as [|i]; [lia|].
  cbn [firstn app]. discriminate.
Qed.

Lemma trim_headed (x : Z) (t : jsstring) :
  isSpace x = false -> trim (x :: t) = x :: trimEnd t.
Proof.
  intros Hx. unfold trim. cbn [trimStart]. rewrite Hx.
  now apply trimEnd_keeps_head.
Qed.

Lemma refText_head (a : Z) (art para : jsstring) (parsed : ParsedCitation) :
  exists t, refText (a :: art) para parsed = a :: t.
Proof.
  unfold refText. cbv zeta. destruct (truthy (paragraph parsed)); eexists;
    cbn [app]; reflexivity.
Qed.

Lemma buildChineseRef_head (article : Z) (paragraph : option Z) :
  exists t, buildChineseRef article paragraph = zh_di :: t.
Proof.
  unfold buildChineseRef. cbv zeta.
  destruct paragraph as [p|]; [destruct (p >? 0)|]; eexists; cbn [app];
    reflexivity.
Qed.

(** A valid citation with an article is never printed as the empty
    string. *)
Lemma formatCitation_nonempty (parsed : ParsedCitation) (format : CitationFormat) :
  Citation.valid parsed = true -> truthy (article parsed) = true ->
  formatCitation parsed format <> [].
Proof.
  intros Hv Ha. unfold formatCitation. rewrite Hv, Ha. cbn [negb orb]. cbv zeta.
  destruct format.
  - change (lit "Article ") with (65 :: lit "rticle ").
    destruct (refText_head 65 (lit "rticle ") (lit ", Paragraph ") parsed)
      as (t & ->).
    cbn [app]. rewrite trim_headed by reflexivity.
    apply replace_keeps_head. reflexivity.
  - change (lit "Art. ") with (65 :: lit "rt. ").
    destruct (refText_head 65 (lit "rt. ") (lit ", Para. ") parsed) as (t & ->).
    cbn [app]. rewrite trim_headed by reflexivity. discriminate.
  - change (lit "Art. ") with (65 :: lit "rt. ").
    destruct (refText_head 65 (lit "rt. ") (lit ", Para. ") parsed) as (t & ->).
    discriminate.
  - match goal with
    | |- context [buildChineseRef ?n ?p] =>
        destruct (buildChineseRef_head n p) as (t & ->)
    end.
    cbn [app]. rewrite trim_headed by reflexivity. discriminate.
  - change (lit "Article ") with (65 :: lit "rticle ").
    destruct (refText_head 65 (lit "rticle ") (lit ", Paragraph ") parsed)
      as (t & ->).
    cbn [app]. rewrite trim_headed by reflexivity.
    apply replace_keeps_head. reflexivity.
Qed.

(** X23: the format_citation tool answers in one of two shapes.  Either the
    result is valid, of type statute, without an error, echoes the citation,
    and all three formatted texts are non-empty; or it is invalid, of type
    unknown, carries an error, has no Chinese or English text, and its
    formatted text is its input (the citation itself, or the empty string for
    an absent or blank citation).  The result is valid exactly when the
    citation is given, not blank, and accepted by parseCitation. *)
Theorem formatCitationTool_shapes (citation : option jsstring)
        (format : option CitationFormat) :
  let r := formatCitationTool citation format in
  ((FormatTool.valid r = true
    /\ FormatTool.type r = lit "statute"
    /\ FormatTool.error r = None
    /\ Some (input r) = citation
    /\ formatted r <> [] /\ formatted_chinese r <> []
    /\ formatted_english r <> [])
   \/ (FormatTool.valid r = false
       /\ FormatTool.type r = lit "unknown"
       /\ FormatTool.error r <> None
       /\ formatted r = input r
       /\ formatted_chinese r = [] /\ formatted_english r = []))
  /\ FormatTool.valid r
     = match citation with
       | Some c => negb (isNil (trim c)) && Citation.valid (parseCitation c)
       | None => false
       end.
Proof.
  cbv zeta. unfold formatCitationTool.
  destruct citation as [c|].
  2:{ split; [right; cbn; repeat split; discriminate | reflexivity]. }
  destruct c as [|x c].
  { split; [right; cbn; repeat split; discriminate | reflexivity]. }
  cbn [isNil orb].
  destruct (isNil (trim (x :: c))).
  { split; [right; cbn; repeat split; discriminate | reflexivity]. }
  cbn [negb andb].
  destruct (parseCitation_cases (x :: c)) as [(V & A & T & E & _)|(V & _ & E)];
    cbv zeta in *; rewrite V; cbn [negb]; (split; [|reflexivity]).
  - left. cbn [FormatTool.valid FormatTool.type FormatTool.error input formatted
               formatted_chinese formatted_english].
    rewrite T. repeat split; now apply formatCitation_nonempty.
  - right. cbn [FormatTool.valid FormatTool.type FormatTool.error input formatted
                formatted_chinese formatted_english].
    rewrite E. repeat split. discriminate.
Qed.

End FormatCitationTool.

(** ** Citations by statute id *)

Section IdCitations.
Import Citation CitationTexts.

Lemma digits_inv (a : jsstring) :
  digits a = true -> a <> [] /\ forallb isDigit a = true.
Proof.
  unfold digits. intros H. apply andb_true_iff in H. destruct H as [H1 H2].
  split; [|assumption]. intros ->. discriminate H1.
Qed.

Lemma digits_last (a : jsstring) :
  digits a = true -> isSpace (last a 0) = false.
Proof.
  intros H. destruct (digits_inv a H) as [Hne Hd].
  apply digit_not_space. rewrite forallb_forall in Hd. apply Hd.
  destruct (exists_last Hne) as (a' & z & ->). rewrite last_last.
  apply in_or_app. right. now left.
Qed.

Lemma statuteId_inv (id : jsstring) :
  statuteId id = true ->
  exists x w, id = x :: w /\ isAlpha x = true /\ w <> []
              /\ forallb isWordOrDash w = true.
Proof.
  destruct id as [|x w]; [discriminate|]. cbn [statuteId]. intros H.
  apply andb_true_iff in H. destruct H as [H H3].
  apply andb_true_iff in H. destruct H as [H1 H2].
  exists x, w. repeat split; try assumption. intros ->. discriminate H2.
Qed.

Lemma alpha_not_space (x : Z) : isAlpha x = true -> isSpace x = false.
Proof.
  unfold isAlpha, isLower, isUpper, isSpace, isWhiteSpace, isLineTerminator.
  intros H. apply orb_true_iff in H.
  repeat match goal with
         | |- context [?a =? ?b] => destruct (Z.eqb_spec a b); [exfalso|]
         end; try reflexivity;
    destruct H as [H|H]; apply andb_true_iff in H; destruct H as [H1 H2];
    apply Z.leb_le in H1, H2; subst; lia.
Qed.

Lemma digits_stop_space_end (p : jsstring) :
  p <> [] -> forallb isDigit p = true -> stopsAt isSpace p = true.
Proof.
  intros Hne Hd. rewrite <- (app_nil_r p). now apply digits_stop_space.
Qed.

Lemma hd_rep_greedy_end (lo : nat) (q : Z -> bool) prev (xs : list Z) c :
  (lo <= length xs)%nat -> forallb q xs = true ->
  hd_error (run (Rep true lo None q) prev xs c) = Some (xs, [], c).
Proof.
  intros Hlo Hxs. pose proof (hd_rep_greedy lo q prev xs [] c Hlo Hxs eq_refl) as H.
  now rewrite app_nil_r in H.
Qed.

Lemma id_exec (x : Z) (w a : jsstring) (po : option jsstring) :
  isAlpha x = true -> w <> [] -> forallb isWordOrDash w = true ->
  digits a = true -> optDigits po = true ->
  exists f, exec ID_CITATION (idText (x :: w) a po) = Some f
            /\ group 1 (caps f) = Some (x :: w)
            /\ group 2 (caps f) = Some a /\ group 3 (caps f) = po.
Proof.
  intros Hx Hw Hww Ha Hpo. destruct (digits_inv a Ha) as [Hane Had].
  apply (exec_first _ _ (fun c => group 1 c = Some (x :: w)
                                  /\ group 2 c = Some a /\ group 3 c = po)).
  unfold ID_CITATION, idText, seqs. cbn [fold_right].
  change ((x :: w) ++ ?t) with ([x] ++ w ++ t).
  eapply step_seq; [reflexivity|].
  eapply step_seq.
  { apply hd_grp.
    eapply hd_seq; [apply hd_cls_app; exact Hx|].
    eapply hd_seq;
      [apply (hd_rep_greedy 1 isWordOrDash _ w);
       [now apply length_pos | exact Hww | reflexivity]|].
    eapply hd_seq; [apply hd_opt_none; reflexivity | apply hd_eps]. }
  eapply step_seq; [apply hd_rep_zero; reflexivity|].
  eapply step_seq; [apply hd_opt_chr|].
  eapply step_seq;
    [apply (hd_rep_greedy 0 isSpace _ [32]);
     [simpl; lia | reflexivity | reflexivity]|].
  eapply step_seq.
  { apply hd_alt_l.
    eapply hd_seq; [apply (hd_stri _ (lit "art")); reflexivity|].
    eapply hd_seq; [apply hd_opt_chr | apply hd_eps]. }
  eapply step_seq;
    [apply (hd_rep_greedy 0 isSpace _ [32]);
     [simpl; lia | reflexivity | now apply digits_stop_space]|].
  destruct po as [p|].
  - cbn [optDigits] in Hpo. destruct (digits_inv p Hpo) as [Hpne Hpd].
    eapply step_seq;
      [apply hd_grp; apply (hd_rep_greedy 1 isDigit _ a);
       [now apply length_pos | exact Had | reflexivity]|].
    eapply step_seq.
    { eapply hd_opt_take.
      - eapply hd_seq; [apply hd_rep_zero; reflexivity|].
        eapply hd_seq; [apply hd_opt_chr|].
        eapply hd_seq;
          [apply (hd_rep_greedy 0 isSpace _ [32]);
           [simpl; lia | reflexivity | reflexivity]|].
        eapply hd_seq.
        { apply hd_alt_l.
          eapply hd_seq; [apply (hd_stri _ (lit "par")); reflexivity|].
          eapply hd_seq;
            [apply hd_opt_take; [apply (hd_cls_app _ _ 97); reflexivity
                                | reflexivity]|].
          eapply hd_seq; [apply hd_opt_chr | apply hd_eps]. }
        eapply hd_seq;
          [apply (hd_rep_greedy 0 isSpace _ [32]);
           [simpl; lia | reflexivity | now apply digits_stop_space_end]|].
        eapply hd_seq;
          [apply hd_grp; apply (hd_rep_greedy_end 1 isDigit _ p);
           [now apply length_pos | exact Hpd] | apply hd_eps].
      - reflexivity. }
    eapply step_tail; [eapply in_seq_run; [apply in_eol | apply in_eps]|].
    intros c' Hc'. cbv beta.
    repeat split; rewrite Hc' by (simpl; tauto); cbn [group];
      rewrite ?app_nil_r; reflexivity.
  - eapply step_seq;
      [apply hd_grp; apply (hd_rep_greedy 1 isDigit _ a);
       [now apply length_pos | exact Had | reflexivity]|].
    eapply step_seq; [apply hd_opt_none; reflexivity|].
    eapply step_tail; [eapply in_seq_run; [apply in_eol | apply in_eps]|].
    intros c' Hc'. cbv beta.
    repeat split; rewrite Hc' by (simpl; tauto); cbn [group];
      rewrite ?app_nil_r; reflexivity.
Qed.

Lemma idText_trimmed (x : Z) (w a : jsstring) (po : option jsstring) :
  isAlpha x = true -> digits a = true -> optDigits po = true ->
  trim (idText (x :: w) a po) = idText (x :: w) a po.
Proof.
  intros Hx Ha Hpo. unfold idText. destruct po as [p|].
  - cbn [optDigits] in Hpo. destruct (digits_inv p Hpo) as [Hpne _].
    replace ((x :: w) ++ [44] ++ [32] ++ lit "art" ++ [46] ++ [32] ++ a ++
             [44] ++ [32] ++ lit "par" ++ [97] ++ [46] ++ [32] ++ p)
      with ((x :: w ++ [44] ++ [32] ++ lit "art" ++ [46] ++ [32] ++ a ++
             [44] ++ [32] ++ lit "par" ++ [97] ++ [46] ++ [32]) ++ p)
      by (repeat (rewrite <- app_assoc || rewrite <- app_comm_cons); reflexivity).
    apply trim_text; [now apply alpha_not_space | assumption
                     | now apply digits_last].
  - destruct (digits_inv a Ha) as [Hane _]. rewrite app_nil_r.
    replace ((x :: w) ++ [44] ++ [32] ++ lit "art" ++ [46] ++ [32] ++ a)
      with ((x :: w ++ [44] ++ [32] ++ lit "art" ++ [46] ++ [32]) ++ a)
      by (repeat (rewrite <- app_assoc || rewrite <- app_comm_cons); reflexivity).
    apply trim_text; [now apply alpha_not_space | assumption
                     | now apply digits_last].
Qed.

(** X24: a citation by statute id is resolved with the id as its title.
    For an id made of a letter followed by word characters or dashes, an
    article number in decimal digits and, optionally, a paragraph number in
    decimal digits, parseCitation on "<id>, art. <a>" or
    "<id>, art. <a>, para. <p>" returns a valid statute citation whose title
    is the id, whose article is <a> and whose paragraph is <p> (absent
    without one); no English title and no error are set. *)
Theorem id_citation_resolves (id a : jsstring) (po : option jsstring) :
  statuteId id = true -> digits a = true -> optDigits po = true ->
  parseCitation (idText id a po)
  = mkCitation true statute (Some id) None (Some a) po None.
Proof.
  intros Hid Ha Hpo.
  destruct (statuteId_inv id Hid) as (x & w & -> & Hx & Hw & Hww).
  unfold parseCitation. rewrite (idText_trimmed x w a po Hx Ha Hpo).
  destruct (id_exec x w a po Hx Hw Hww Ha Hpo) as (f & -> & G1 & G2 & G3).
  rewrite G1, G2, G3. f_equal.
  destruct po as [p|]; [|reflexivity].
  cbn [optDigits] in Hpo. destruct (digits_inv p Hpo) as [Hpne _].
  unfold orUndefined. now rewrite (truthy_nonempty p Hpne).
Qed.

Lemma id_citation_resolves_witness :
  Citation.parseCitation (lit "csl-2016, art. 3, para. 2")
  = Citation.mkCitation true Citation.statute (Some (lit "csl-2016")) None
                        (Some (lit "3")) (Some (lit "2")) None.
Proof.
  apply (id_citation_resolves (lit "csl-2016") (lit "3") (Some (lit "2")));
    reflexivity.
Defined.

End IdCitations.

(** ** Citations without a title *)

Section BareCitations.
Import Citation CitationTexts.

(** *** Patterns that need a statute suffix *)

Lemma suffixGlyph_split (pre s : list Z) :
  existsb suffixGlyph (pre ++ s) = false -> existsb suffixGlyph s = false.
Proof.
  rewrite existsb_app. intros H. apply orb_false_iff in H. now destruct H.
Qed.

Lemma law_suffix_blocked prev (s : list Z) c :
  existsb suffixGlyph s = false -> run LAW_SUFFIX prev s c = [].
Proof.
  intros H. unfold LAW_SUFFIX, str, seqs. cbn [map fold_right].
  destruct s as [|x s]; [reflexivity|].
  cbn [existsb] in H. apply orb_false_iff in H. destruct H as [Hx Hs].
  unfold suffixGlyph in Hx.
  apply orb_false_iff in Hx. destruct Hx as [Hx H3].
  apply orb_false_iff in Hx. destruct Hx as [H1 H2].
  cbn [run chr app flat_map]. rewrite (Z.eqb_sym zh_fa), H1, (Z.eqb_sym zh_dian), H2.
  cbn [app]. destruct (zh_tiao =? x); [|reflexivity].
  cbn [flat_map lastp fold_left app].
  destruct s as [|y s]; [reflexivity|].
  cbn [existsb] in Hs. apply orb_false_iff in Hs. destruct Hs as [Hy _].
  unfold suffixGlyph in Hy.
  apply orb_false_iff in Hy. destruct Hy as [_ Hy].
  rewrite (Z.eqb_sym zh_li), Hy. reflexivity.
Qed.

Lemma suffix_blocked_step (a K : re) :
  (forall prev s c, existsb suffixGlyph s = false -> run K prev s c = []) ->
  forall prev s c, existsb suffixGlyph s = false -> run (Seq a K) prev s c = [].
Proof.
  intros HK prev s c Hs. apply seq_blocked. intros m1 s1 c1 H1.
  apply HK. apply run_split in H1. subst s. now apply suffixGlyph_split in Hs.
Qed.

Lemma suffix_blocked_here (K : re) prev s c :
  existsb suffixGlyph s = false -> run (Seq LAW_SUFFIX K) prev s c = [].
Proof.
  intros H. apply seq_blocked. intros m1 s1 c1 H1.
  rewrite (law_suffix_blocked prev s c H) in H1. contradiction.
Qed.

Lemma chinese_citation_blocked (s : list Z) :
  existsb suffixGlyph s = false -> exec CHINESE_CITATION s = None.
Proof.
  intros H. unfold CHINESE_CITATION, seqs. cbn [fold_right].
  apply exec_bol_none. revert H. generalize (@None Z) s (@nil (nat * list Z)).
  do 10 apply suffix_blocked_step.
  intros prev s0 c H. now apply suffix_blocked_here.
Qed.

Lemma law_first_needs_suffix (s : list Z) :
  existsb suffixGlyph s = false -> exec CHINESE_LAW_FIRST s = None.
Proof.
  intros H. unfold CHINESE_LAW_FIRST, seqs. cbn [fold_right].
  apply exec_bol_none. revert H. generalize (@None Z) s (@nil (nat * list Z)).
  do 2 apply suffix_blocked_step.
  intros prev s0 c H. apply seq_blocked. intros m1 s1 c1 H1.
  apply in_grp_inv in H1. destruct H1 as (c0 & H1 & _).
  revert H1. generalize prev s0 c H.
  assert (B : forall prev s c, existsb suffixGlyph s = false ->
                               run (Seq (lazyPlus isDot) (Seq LAW_SUFFIX Eps))
                                   prev s c = []).
  { apply suffix_blocked_step. intros. now apply suffix_blocked_here. }
  intros prev' s' c' H' H1. rewrite (B prev' s' c' H') in H1. contradiction.
Qed.

(** *** A bare Chinese reference *)

Lemma commonGlyph_no_suffix (c : Z) :
  NumeralRefs.commonGlyph c = true -> suffixGlyph c = false.
Proof.
  unfold NumeralRefs.commonGlyph. cbn [existsb]. intros H.
  repeat (apply orb_true_iff in H;
          destruct H as [H|H]; [apply Z.eqb_eq in H; subst c; now vm_compute|]).
  discriminate H.
Qed.

Lemma numeral_suffix_free (n : Z) :
  inCodecRange n = true -> existsb suffixGlyph (arabicToChinese n) = false.
Proof.
  intros Hn. apply inCodecRange_spec in Hn.
  destruct (numeral_common n Hn) as [_ Hc].
  induction (arabicToChinese n) as [|c s IH]; [reflexivity|].
  cbn [forallb] in Hc. apply andb_true_iff in Hc. destruct Hc as [H1 H2].
  cbn [existsb]. now rewrite (commonGlyph_no_suffix c H1), (IH H2).
Qed.

Lemma buildChineseRef_bare (n : Z) (m : option Z) :
  optInCodecRange m = true ->
  buildChineseRef n m
  = bareReference (arabicToChinese n) (option_map arabicToChinese m).
Proof.
  intros Hm. unfold buildChineseRef, bareReference. destruct m as [k|].
  - cbn [optInCodecRange] in Hm. apply inCodecRange_spec in Hm.
    destruct (Z.gtb_spec k 0); [|lia]. cbn [option_map].
    repeat (rewrite <- app_assoc || rewrite <- app_comm_cons). reflexivity.
  - cbn [option_map].
    repeat (rewrite <- app_assoc || rewrite <- app_comm_cons). reflexivity.
Qed.

Lemma bare_chinese_exec (na : list Z) (npo : option (list Z)) :
  na <> [] -> forallb isDot na = true -> ~ In zh_tiao na ->
  (forall np, npo = Some np ->
              np <> [] /\ forallb isDot np = true /\ ~ In zh_kuan np) ->
  exists f, exec BARE_CHINESE_ARTICLE (bareReference na npo) = Some f /\
            group 1 (caps f) = Some na /\ group 2 (caps f) = npo.
Proof.
  intros Hna Hdna Htiao Hnpo.
  apply (exec_first _ _ (fun c => group 1 c = Some na /\ group 2 c = npo)).
  unfold BARE_CHINESE_ARTICLE, bareReference, seqs. cbn [fold_right].
  eapply step_seq; [reflexivity|].
  eapply step_seq; [apply hd_chr|].
  apply step_lazy_until; [assumption..|].
  destruct npo as [np|].
  - destruct (Hnpo np eq_refl) as (Hnp & Hdnp & Hkuan).
    eapply step_seq.
    { eapply hd_opt_take.
      - unfold CHINESE_PARAGRAPH, seqs. cbn [fold_right].
        eapply hd_seq; [apply hd_chr|].
        apply hd_lazy_until; [assumption.. | apply hd_eps].
      - reflexivity. }
    eapply step_tail; [eapply in_seq_run; [apply in_eol | apply in_eps]|].
    intros c' Hc'. cbv beta.
    split; rewrite Hc' by (simpl; tauto); reflexivity.
  - eapply step_seq; [apply hd_opt_none; reflexivity|].
    eapply step_tail; [eapply in_seq_run; [apply in_eol | apply in_eps]|].
    intros c' Hc'. cbv beta.
    split; rewrite Hc' by (simpl; tauto); reflexivity.
Qed.

Lemma bareReference_suffix_free (n : Z) (m : option Z) :
  inCodecRange n = true -> optInCodecRange m = true ->
  existsb suffixGlyph
          (bareReference (arabicToChinese n) (option_map arabicToChinese m))
  = false.
Proof.
  intros Hn Hm. unfold bareReference.
  change (zh_tiao :: ?t) with ([zh_tiao] ++ t).
  rewrite !existsb_app, (numeral_suffix_free n Hn). destruct m as [k|].
  - cbn [optInCodecRange] in Hm. cbn [option_map].
    change (zh_kuan :: []) with ([zh_kuan] ++ []).
    rewrite !existsb_app, (numeral_suffix_free k Hm). reflexivity.
  - reflexivity.
Qed.

Lemma bareReference_trimmed (na : list Z) (npo : option (list Z)) :
  trim (bareReference na npo) = bareReference na npo
  /\ trim (bareReference na npo ++ lit " " ++ []) = bareReference na npo.
Proof.
  assert (S : exists pre x, bareReference na npo = (zh_di :: pre) ++ [x]
                            /\ isSpace x = false).
  { unfold bareReference. destruct npo as [np|].
    - exists (na ++ [zh_tiao] ++ [zh_di] ++ np), zh_kuan. split; [|reflexivity].
      repeat (rewrite <- app_assoc || rewrite <- app_comm_cons). reflexivity.
    - exists na, zh_tiao. split; [|reflexivity].
      repeat (rewrite <- app_assoc || rewrite <- app_comm_cons). reflexivity. }
  destruct S as (pre & x & -> & Hx).
  assert (T : trim ((zh_di :: pre) ++ [x]) = (zh_di :: pre) ++ [x])
    by (apply trim_text; [reflexivity | discriminate | exact Hx]).
  split; [exact T|].
  rewrite <- T at 2. unfold trim. cbn [app trimStart].
  replace (isSpace zh_di) with false by reflexivity.
  unfold trimEnd. f_equal.
  change (zh_di :: (pre ++ [x]) ++ lit " " ++ [])
    with ((zh_di :: pre ++ [x]) ++ [32]).
  rewrite rev_app_distr. reflexivity.
Qed.

(** X25: a reference without a title survives the Chinese style.  For an
    article from 1 to 9999 and an optional paragraph from 1 to 9999,
    parseCitation reads the reference buildChineseRef prints as a valid
    statute citation with that article and that paragraph in decimal digits
    and no title, and formatCitation prints that citation in the Chinese
    style as the same reference again. *)
Theorem bare_chinese_reference_round_trip (n : Z) (m : option Z) :
  inCodecRange n = true -> optInCodecRange m = true ->
  parseCitation (buildChineseRef n m)
  = mkCitation true statute None None (Some (toString n))
               (option_map toString m) None
  /\ formatCitation (parseCitation (buildChineseRef n m)) chinese
     = buildChineseRef n m.
Proof.
  intros Hn Hm.
  assert (P : parseCitation (buildChineseRef n m)
              = mkCitation true statute None None (Some (toString n))
                           (option_map toString m) None).
  { rewrite (buildChineseRef_bare n m Hm). unfold parseCitation.
    destruct (bareReference_trimmed (arabicToChinese n)
                                    (option_map arabicToChinese m)) as [-> _].
    pose proof (bareReference_suffix_free n m Hn Hm) as Hfree.
    replace (exec ID_CITATION _) with (@None found)
      by (symmetry; unfold ID_CITATION, seqs; cbn [fold_right];
          apply exec_bol_none; reflexivity).
    rewrite (chinese_citation_blocked _ Hfree), (law_first_needs_suffix _ Hfree).
    replace (exec ENGLISH_CITATION _) with (@None found)
      by (symmetry; unfold ENGLISH_CITATION, seqs; cbn [fold_right];
          apply exec_bol_none; reflexivity).
    replace (exec SHORT_CITATION _) with (@None found)
      by (symmetry; unfold SHORT_CITATION, seqs; cbn [fold_right];
          apply exec_bol_none; reflexivity).
    destruct (numeral_facts n Hn) as (Hne & Hdot & Htiao & _).
    assert (Hnpo : forall np, option_map arabicToChinese m = Some np ->
                              np <> [] /\ forallb isDot np = true
                              /\ ~ In zh_kuan np).
    { intros np E. destruct m as [k|]; [|discriminate].
      injection E as <-. cbn [optInCodecRange] in Hm.
      destruct (numeral_facts k Hm) as (H1 & H2 & _ & H4 & _). auto. }
    destruct (bare_chinese_exec _ _ Hne Hdot Htiao Hnpo) as (f & -> & G1 & G2).
    rewrite G1, G2. f_equal.
    - unfold chineseArticle. cbn [orEmpty].
      now rewrite (parseChineseNumber_numeral n Hn).
    - destruct m as [k|]; [|reflexivity]. cbn [optInCodecRange] in Hm.
      unfold chineseParagraph. cbn [option_map orEmpty].
      destruct (numeral_facts k Hm) as (Hk & _).
      now rewrite (truthy_nonempty _ Hk), (parseChineseNumber_numeral k Hm). }
  split; [exact P|]. rewrite P. unfold formatCitation.
  cbn [valid article title title_en paragraph orEmpty nullish negb].
  rewrite (truthy_nonempty _ (toString_nonempty n)). cbn [negb orb].
  rewrite parseInt_toString.
  assert (E : (if truthy (option_map toString m)
               then parseInt (orEmpty (option_map toString m)) else None) = m).
  { destruct m as [k|]; [|reflexivity]. cbn [option_map orEmpty].
    now rewrite (truthy_nonempty _ (toString_nonempty k)), parseInt_toString. }
  rewrite E, (buildChineseRef_bare n m Hm).
  now destruct (bareReference_trimmed (arabicToChinese n)
                                      (option_map arabicToChinese m)) as [_ ->].
Qed.

Lemma bare_chinese_reference_round_trip_witness :
  Citation.parseCitation (buildChineseRef 21 (Some 3))
  = Citation.mkCitation true Citation.statute None None (Some (lit "21"))
                        (Some (lit "3")) None
  /\ Citation.formatCitation
       (Citation.parseCitation (buildChineseRef 21 (Some 3))) Citation.chinese
     = buildChineseRef 21 (Some 3).
Proof.
  apply (bare_chinese_reference_round_trip 21 (Some 3)); reflexivity.
Defined.

(** *** A bare English article *)

Lemma seq_single (a K : re) prev s c m1 s1 c1 :
  run a prev s c = [(m1, s1, c1)] -> run K (lastp prev m1) s1 c1 = [] ->
  run (Seq a K) prev s c = [].
Proof.
  intros Ha HK. apply seq_blocked. intros m s' c' H. rewrite Ha in H.
  destruct H as [[= <- <- <-]|[]]. exact HK.
Qed.

Lemma forallb_suffix (q : Z -> bool) (m rest : list Z) :
  forallb q (m ++ rest) = true -> forallb q rest = true.
Proof. rewrite forallb_app. intros H. apply andb_true_iff in H. now destruct H. Qed.

(** After a run of digits, what is left is empty or opens with a digit. *)
Lemma after_digits_blocked (n : nat) (K : re) :
  (forall prev c, run K prev [] c = []) ->
  (forall d r prev c, isDigit d = true -> run K prev (d :: r) c = []) ->
  forall prev s c, forallb isDigit s = true ->
                   run (Seq (Grp n (plus isDigit)) K) prev s c = [].
Proof.
  intros H0 Hd prev s c Hs. apply seq_blocked. intros m1 s1 c1 H1.
  apply in_grp_inv in H1. destruct H1 as (c0 & H1 & ->).
  apply in_rep_inv in H1. destruct H1 as (_ & E & _ & _).
  rewrite E in Hs. apply forallb_suffix in Hs.
  destruct s1 as [|d r]; [apply H0|].
  cbn [forallb] in Hs. apply andb_true_iff in Hs. destruct Hs as [Hd1 _].
  now apply Hd.
Qed.

Lemma bare_article_not_english (a : jsstring) :
  digits a = true -> exec ENGLISH_CITATION (bareArticle a) = None.
Proof.
  intros Ha. destruct (digits_inv a Ha) as [Hne Hd].
  unfold ENGLISH_CITATION, bareArticle, seqs. cbn [fold_right].
  apply exec_bol_none.
  eapply seq_single; [reflexivity|].
  eapply seq_single; [reflexivity|].
  eapply seq_single.
  { destruct a as [|d a']; [contradiction|].
    cbn [forallb] in Hd. apply andb_true_iff in Hd. destruct Hd as [Hd _].
    cbn [run plus app spanLen]. replace (isSpace 32) with true by reflexivity.
    rewrite (digit_not_space d Hd). reflexivity. }
  apply after_digits_blocked; [reflexivity | | exact Hd].
  intros d r prev c Hd1. apply digit_cases in Hd1.
  repeat (destruct Hd1 as [->|Hd1]; [vm_compute; reflexivity|]).
  subst. vm_compute. reflexivity.
Qed.

Lemma bare_article_not_id (a : jsstring) :
  digits a = true -> exec ID_CITATION (bareArticle a) = None.
Proof.
  intros Ha. destruct (digits_inv a Ha) as [Hne Hd].
  destruct a as [|d a']; [contradiction|].
  cbn [forallb] in Hd. apply andb_true_iff in Hd. destruct Hd as [Hd _].
  unfold ID_CITATION, bareArticle, seqs. cbn [fold_right]. apply exec_bol_none.
  apply digit_cases in Hd.
  repeat (destruct Hd as [->|Hd]; [vm_compute; reflexivity|]).
  subst. vm_compute. reflexivity.
Qed.

Lemma bare_article_no_di (a : jsstring) :
  digits a = true -> ~ In zh_di (bareArticle a).
Proof.
  intros Ha. destruct (digits_inv a Ha) as [_ Hd].
  apply existsb_false_notin. unfold bareArticle.
  now rewrite !existsb_app, (digits_no_di a Hd).
Qed.

Lemma bare_article_exec (a : jsstring) :
  digits a = true ->
  exists f, exec BARE_ENGLISH_ARTICLE (bareArticle a) = Some f
            /\ group 1 (caps f) = Some a /\ group 2 (caps f) = None.
Proof.
  intros Ha. destruct (digits_inv a Ha) as [Hne Hd].
  apply (exec_first _ _ (fun c => group 1 c = Some a /\ group 2 c = None)).
  unfold BARE_ENGLISH_ARTICLE, bareArticle, seqs. cbn [fold_right].
  eapply step_seq; [reflexivity|].
  eapply step_seq; [apply (hd_stri _ (lit "Article")); reflexivity|].
  eapply step_seq;
    [apply (hd_rep_greedy 1 isSpace _ [32]);
     [simpl; lia | reflexivity | now apply digits_stop_space_end]|].
  eapply step_seq;
    [apply hd_grp; apply (hd_rep_greedy_end 1 isDigit _ a);
     [now apply length_pos | exact Hd]|].
  eapply step_seq; [apply hd_opt_none; reflexivity|].
  eapply step_tail; [eapply in_seq_run; [apply in_eol | apply in_eps]|].
  intros c' Hc'. cbv beta.
  split; rewrite Hc' by (simpl; tauto); reflexivity.
Qed.

Lemma bareArticle_trimmed (a : jsstring) :
  digits a = true -> trim (bareArticle a) = bareArticle a.
Proof.
  intros Ha. destruct (digits_inv a Ha) as [Hne _]. unfold bareArticle.
  change (lit "Article" ++ [32] ++ a) with ((65 :: lit "rticle" ++ [32]) ++ a).
  apply trim_text; [reflexivity | assumption | now apply digits_last].
Qed.

(** The first comma that only blanks follow, in a text that has no other
    comma. *)
Lemma trailing_comma_found (s : list Z) :
  ~ In 44 s ->
  forall prev idx,
    execFrom TRAILING_COMMA prev (s ++ [44]) idx
    = Some (mkFound (idx + length s) [44] [] []).
Proof.
  induction s as [|x s IH]; intros Hs prev idx.
  - cbn [app length]. rewrite Nat.add_0_r. reflexivity.
  - assert (Hx : 44 <> x) by (intros <-; apply Hs; now left).
    assert (Hs' : ~ In 44 s) by (intros H; apply Hs; now right).
    cbn [app execFrom].
    replace (run TRAILING_COMMA prev (x :: s ++ [44]) []) with (@nil result).
    + rewrite (IH Hs'). cbn [length]. do 2 f_equal. lia.
    + unfold TRAILING_COMMA, seqs. cbn [fold_right run chr].
      destruct (Z.eqb_spec 44 x); [contradiction | reflexivity].
Qed.

Lemma trailing_comma_stripped (s : list Z) :
  ~ In 44 s -> replace TRAILING_COMMA [] (s ++ [44]) = s.
Proof.
  intros Hs. unfold replace, exec. rewrite (trailing_comma_found s Hs).
  cbn [index after app Nat.add]. rewrite app_nil_r.
  rewrite firstn_app, firstn_all, Nat.sub_diag. cbn [firstn]. apply app_nil_r.
Qed.

Lemma trimEnd_drop_space (s : list Z) : trimEnd (s ++ [32]) = trimEnd s.
Proof. unfold trimEnd. rewrite rev_app_distr. reflexivity. Qed.

Lemma trim_drop_space (x : Z) (pre : list Z) (y : Z) :
  isSpace x = false -> isSpace y = false ->
  trim (((x :: pre) ++ [y]) ++ [32]) = (x :: pre) ++ [y].
Proof.
  intros Hx Hy. unfold trim. cbn [app trimStart]. rewrite Hx.
  change (x :: (pre ++ [y]) ++ [32]) with ((x :: pre ++ [y]) ++ [32]).
  rewrite trimEnd_drop_space. apply trimEnd_id.
  change (x :: pre ++ [y]) with ((x :: pre) ++ [y]). now rewrite last_last.
Qed.

Lemma bareArticle_printed (a : jsstring) :
  digits a = true ->
  replace TRAILING_COMMA [] (trim ((lit "Article " ++ a) ++ lit ", " ++ []))
  = bareArticle a.
Proof.
  intros Ha. destruct (digits_inv a Ha) as [Hne Hd].
  replace ((lit "Article " ++ a) ++ lit ", " ++ [])
    with ((bareArticle a ++ [44]) ++ [32])
    by (unfold bareArticle;
        repeat (rewrite <- app_assoc || rewrite <- app_comm_cons); reflexivity).
  assert (T : trim ((bareArticle a ++ [44]) ++ [32]) = bareArticle a ++ [44])
    by (apply (trim_drop_space 65 (lit "rticle" ++ [32] ++ a) 44); reflexivity).
  rewrite T. apply trailing_comma_stripped.
  apply existsb_false_notin. unfold bareArticle. rewrite !existsb_app.
  replace (existsb (Z.eqb 44) a) with false; [reflexivity|].
  symmetry. clear -Hd. induction a as [|d a IH]; [reflexivity|].
  cbn [forallb] in Hd. apply andb_true_iff in Hd. destruct Hd as [Hd1 Hd2].
  cbn [existsb]. rewrite (IH Hd2). apply digit_cases in Hd1.
  repeat (destruct Hd1 as [->|Hd1]; [reflexivity|]). now subst.
Qed.

(** X26: an English article without a title survives the English and the
    full style.  For an article number in decimal digits, parseCitation reads
    "Article <a>" as a valid statute citation with article <a>, no paragraph
    and no title, and formatCitation prints that citation as "Article <a>"
    again in both styles. *)
Theorem bare_article_round_trip (a : jsstring) :
  digits a = true ->
  parseCitation (bareArticle a)
  = mkCitation true statute None None (Some a) None None
  /\ formatCitation (parseCitation (bareArticle a)) english = bareArticle a
  /\ formatCitation (parseCitation (bareArticle a)) full = bareArticle a.
Proof.
  intros Ha. destruct (digits_inv a Ha) as [Hne Hd].
  assert (P : parseCitation (bareArticle a)
              = mkCitation true statute None None (Some a) None None).
  { unfold parseCitation. rewrite (bareArticle_trimmed a Ha).
    rewrite (bare_article_not_id a Ha).
    replace (exec CHINESE_CITATION _) with (@None found)
      by (symmetry; unfold CHINESE_CITATION, seqs; cbn [fold_right];
          apply exec_bol_none; reflexivity).
    rewrite (law_first_blocked _ (bare_article_no_di a Ha)).
    rewrite (bare_article_not_english a Ha).
    replace (exec SHORT_CITATION _) with (@None found)
      by (symmetry; unfold SHORT_CITATION, seqs; cbn [fold_right];
          apply exec_bol_none; vm_compute; reflexivity).
    replace (exec BARE_CHINESE_ARTICLE _) with (@None found)
      by (symmetry; unfold BARE_CHINESE_ARTICLE, seqs; cbn [fold_right];
          apply exec_bol_none; reflexivity).
    destruct (bare_article_exec a Ha) as (f & -> & G1 & G2).
    now rewrite G1, G2. }
  split; [exact P|]. rewrite P. unfold formatCitation, refText.
  cbn [valid article title title_en paragraph orEmpty nullish negb].
  rewrite (truthy_nonempty a Hne). cbn [negb orb truthy].
  split; now apply bareArticle_printed.
Qed.

Lemma bare_article_round_trip_witness :
  Citation.parseCitation (lit "Article 35")
  = Citation.mkCitation true Citation.statute None None (Some (lit "35")) None None
  /\ Citation.formatCitation (Citation.parseCitation (lit "Article 35"))
                             Citation.english = lit "Article 35"
  /\ Citation.formatCitation (Citation.parseCitation (lit "Article 35"))
                             Citation.full = lit "Article 35".
Proof.
  apply (bare_article_round_trip (lit "35")). reflexivity.
Defined.

End BareCitations.


(** ** Citation round trip *)

Section RoundTrip.
Import Citation CitationTexts.









End RoundTrip.

(** ** Ingestion pipeline *)

Section IngestArguments.
Import Ingest.

Lemma parseArgsFrom_plain (args : list jsstring) (limit : limitValue) :
  ~ In (lit "--limit") args -> parseArgsFrom args limit = limit.
Proof.
  induction args as [|a rest IH]; intros H; [reflexivity|].
  cbn [parseArgsFrom].
  rewrite str_eqb_neq by (intros ->; apply H; now left).
  apply IH. intros Hin. apply H. now right.
Qed.

Lemma parseArgsFrom_app (pre rest : list jsstring) (limit : limitValue) :
  ~ In (lit "--limit") pre ->
  parseArgsFrom (pre ++ rest) limit = parseArgsFrom rest limit.
Proof.
  induction pre as [|a pre IH]; intros H; [reflexivity|].
  cbn [app parseArgsFrom].
  rewrite str_eqb_neq by (intros ->; apply H; now left).
  apply IH. intros Hin. apply H. now right.
Qed.

(** X27: parseArgs reads the limit from the pair "--limit <value>".  When
    no argument is --limit, or --limit is the last argument, the limit is
    null; when --limit stands once, followed by a non-empty value and by no
    further --limit, the limit is parseInt of the value (NaN when the value
    does not open with a number). *)
Theorem parseArgs_reads_the_limit (pre post : list jsstring) (v : jsstring) :
  ~ In (lit "--limit") pre -> ~ In (lit "--limit") post -> v <> [] ->
  parseArgs pre = None
  /\ parseArgs (pre ++ [lit "--limit"]) = None
  /\ parseArgs (pre ++ [lit "--limit"; v] ++ post) = Some (parseInt v).
Proof.
  intros Hpre Hpost Hv. unfold parseArgs. repeat split.
  - now apply parseArgsFrom_plain.
  - now rewrite parseArgsFrom_app.
  - rewrite parseArgsFrom_app by assumption. cbn [app parseArgsFrom].
    rewrite str_eqb_refl. destruct v as [|x v]; [contradiction|].
    cbn [isNil negb]. now apply parseArgsFrom_plain.
Qed.

Lemma parseArgs_reads_the_limit_witness :
  Ingest.parseArgs [lit "--verbose"] = None
  /\ Ingest.parseArgs ([lit "--verbose"] ++ [lit "--limit"]) = None
  /\ Ingest.parseArgs ([lit "--verbose"] ++ [lit "--limit"; lit "10"] ++ [lit "x"])
     = Some (parseInt (lit "10")).
Proof.
  apply (parseArgs_reads_the_limit [lit "--verbose"] [lit "x"] (lit "10")).
  - vm_compute. intuition discriminate.
  - vm_compute. intuition discriminate.
  - discriminate.
Defined.

End IngestArguments.

Section IngestRuns.
Import Fetcher FetcherCallers Ingest.

Variable KEY_LAWS : list LawDefinition.
Variable seedFile : jsstring -> jsstring.
Variable fileContent : Type.
Variable stringify : Seed -> fileContent.
Variable bodyOf : jsstring -> option (list jsstring).

Abbreviation ingestLaw := (Ingest.ingestLaw seedFile fileContent stringify bodyOf).
Abbreviation ingestLoop := (Ingest.ingestLoop seedFile fileContent stringify bodyOf).
Abbreviation main := (Ingest.main KEY_LAWS seedFile fileContent stringify bodyOf).
Abbreviation report := (Ingest.report fileContent).
Abbreviation directory := (Ingest.directory fileContent).

Lemma readFile_write_other (p q : jsstring) (c : fileContent) (dir : directory) :
  existsSync fileContent p dir = true -> existsSync fileContent q dir = false ->
  readFile fileContent p (writeFileSync fileContent q c dir)
  = readFile fileContent p dir.
Proof.
  intros Hp Hq. unfold writeFileSync. cbn [readFile].
  destruct (str_eqb p q) eqn:E; [|reflexivity].
  apply str_eqb_eq in E. subst q. rewrite Hp in Hq. discriminate Hq.
Qed.

Lemma existsSync_write (p q : jsstring) (c : fileContent) (dir : directory) :
  existsSync fileContent p (writeFileSync fileContent q c dir)
  = str_eqb p q || existsSync fileContent p dir.
Proof.
  unfold existsSync, writeFileSync. cbn [readFile].
  now destruct (str_eqb p q).
Qed.

(** What one iteration does to the counters and to the directory. *)
Lemma ingestLaw_step (net : nat -> outcome) (law : LawDefinition) (st : report) :
  let st' := ingestLaw net law st in
  processed _ st' = processed _ st + 1
  /\ (failed _ st <= failed _ st'
      <= failed _ st + Z.of_nat (length (fetched _ st') - length (fetched _ st)))
  /\ (length (fetched _ st) <= length (fetched _ st') <= S (length (fetched _ st)))%nat
  /\ totalProvisions _ st <= totalProvisions _ st'
  /\ existsSync fileContent (seedFile (id law)) (files _ st') = true
  /\ (forall p, existsSync fileContent p (files _ st) = true ->
                readFile fileContent p (files _ st')
                = readFile fileContent p (files _ st))
  /\ (existsSync fileContent (seedFile (id law)) (files _ st) = true ->
      st' = mkReport _ (files _ st) (fetched _ st) (processed _ st + 1)
                     (failed _ st) (totalProvisions _ st)).
Proof.
  cbv zeta. unfold Ingest.ingestLaw.
  destruct (existsSync fileContent (seedFile (id law)) (files _ st)) eqn:Ex.
  - cbn [processed failed fetched totalProvisions files]. rewrite Ex.
    repeat split; try lia; auto.
  - destruct (settled (fetchNpcLaw net (url law))) as [result|error].
    + destruct (negb (Fetcher.status result =? 200));
        cbn [processed failed fetched totalProvisions files];
        rewrite existsSync_write, str_eqb_refl, length_app; cbn [length orb];
        repeat split; try lia; try discriminate;
        intros p Hp; now apply readFile_write_other.
    + cbn [negb processed failed fetched totalProvisions files].
      rewrite existsSync_write, str_eqb_refl, length_app; cbn [length orb].
      repeat split; try lia; try discriminate.
      intros p Hp. now apply readFile_write_other.
Qed.

Lemma existsSync_kept (p : jsstring) (a b : directory) :
  existsSync fileContent p a = true ->
  readFile fileContent p b = readFile fileContent p a ->
  existsSync fileContent p b = true.
Proof. unfold existsSync. intros H ->. exact H. Qed.

(** The loop, from any state. *)
Lemma ingestLoop_invariant (laws : list LawDefinition) :
  forall net i (st : report),
    let out := ingestLoop net i laws st in
    processed _ out = processed _ st + Z.of_nat (length laws)
    /\ (failed _ st <= failed _ out
        <= failed _ st + Z.of_nat (length (fetched _ out) - length (fetched _ st)))
    /\ (length (fetched _ st) <= length (fetched _ out)
        <= length (fetched _ st) + length laws)%nat
    /\ totalProvisions _ st <= totalProvisions _ out
    /\ (forall p, existsSync fileContent p (files _ st) = true ->
                  readFile fileContent p (files _ out)
                  = readFile fileContent p (files _ st))
    /\ (forall law, In law laws ->
                    existsSync fileContent (seedFile (id law)) (files _ out) = true).
Proof.
  induction laws as [|law rest IH]; intros net i st; cbv zeta.
  - cbn [Ingest.ingestLoop length]. repeat split; try lia; auto.
  - cbn [Ingest.ingestLoop].
    destruct (ingestLaw_step (net i) law st) as (P1 & F1 & L1 & T1 & E1 & K1 & _).
    destruct (IH net (S i) (ingestLaw (net i) law st))
      as (P2 & F2 & L2 & T2 & K2 & E2).
    cbn [length]. repeat split; try lia.
    + intros p Hp. rewrite K2; [now apply K1|].
      apply (existsSync_kept p (files _ st)); [assumption | now apply K1].
    + intros l [<-|Hin]; [|now apply E2].
      apply (existsSync_kept _ (files _ (ingestLaw (net i) law st)));
        [assumption | now apply K2].
Qed.

(** With every seed in place the loop only counts. *)
Lemma ingestLoop_idle (laws : list LawDefinition) :
  forall net i (st : report),
    (forall law, In law laws ->
                 existsSync fileContent (seedFile (id law)) (files _ st) = true) ->
    ingestLoop net i laws st
    = mkReport _ (files _ st) (fetched _ st)
               (processed _ st + Z.of_nat (length laws)) (failed _ st)
               (totalProvisions _ st).
Proof.
  induction laws as [|law rest IH]; intros net i st H.
  - cbn [Ingest.ingestLoop length]. destruct st. cbn. f_equal. lia.
  - cbn [Ingest.ingestLoop].
    destruct (ingestLaw_step (net i) law st) as (_ & _ & _ & _ & _ & _ & S1).
    rewrite (S1 (H law (or_introl eq_refl))).
    rewrite IH by (intros l Hl; cbn [files]; apply H; now right).
    cbn [files fetched processed failed totalProvisions length]. f_equal. lia.
Qed.

(** X28: the counters main prints add up.  processed is the number of laws
    selected by the limit, whatever the network does; failed is at most the
    number of fetches made; the fetches made are at most the laws selected;
    and no counter is negative. *)
Theorem ingest_counters_add_up (args : list jsstring) (dir : directory)
        (net : nat -> nat -> outcome) :
  let out := main args dir net in
  processed _ out = Z.of_nat (length (selectLaws (parseArgs args) KEY_LAWS))
  /\ 0 <= failed _ out <= Z.of_nat (length (fetched _ out))
  /\ Z.of_nat (length (fetched _ out)) <= processed _ out
  /\ 0 <= totalProvisions _ out.
Proof.
  cbv zeta. unfold Ingest.main.
  destruct (ingestLoop_invariant (selectLaws (parseArgs args) KEY_LAWS) net 0%nat
              (mkReport _ dir [] 0 0 0)) as (P & F & L & T & _).
  cbn [processed failed fetched totalProvisions length] in *.
  repeat split; lia.
Qed.

(** An iteration that finds no seed stores [writtenSeed]; it touches no
    other path. *)
Lemma ingestLaw_writes (net : nat -> outcome) (law : LawDefinition) (st : report) :
  existsSync fileContent (seedFile (id law)) (files _ st) = false ->
  readFile fileContent (seedFile (id law)) (files _ (ingestLaw net law st))
  = Some (stringify (writtenSeed bodyOf net law))
  /\ fetched _ (ingestLaw net law st) = fetched _ st ++ [url law]
  /\ forall p, p <> seedFile (id law) ->
               readFile fileContent p (files _ (ingestLaw net law st))
               = readFile fileContent p (files _ st).
Proof.
  intros Ex. unfold Ingest.ingestLaw, writtenSeed. rewrite Ex.
  destruct (settled (fetchNpcLaw net (url law))) as [result|error].
  - destruct (Fetcher.status result =? 200);
      cbn [negb files fetched writeFileSync readFile]; rewrite str_eqb_refl;
      (split; [reflexivity|]); (split; [reflexivity|]);
      intros p Hp; now rewrite (str_eqb_neq _ _ Hp).
  - cbn [negb files fetched writeFileSync readFile]. rewrite str_eqb_refl.
    split; [reflexivity|]. split; [reflexivity|].
    intros p Hp. now rewrite (str_eqb_neq _ _ Hp).
Qed.

Lemma fetched_grows (laws : list LawDefinition) :
  forall net i (st : report) u,
    In u (fetched _ st) -> In u (fetched _ (ingestLoop net i laws st)).
Proof.
  induction laws as [|law rest IH]; intros net i st u Hu; [exact Hu|].
  cbn [Ingest.ingestLoop]. apply IH. unfold Ingest.ingestLaw.
  destruct (existsSync fileContent (seedFile (id law)) (files _ st));
    [exact Hu|].
  destruct (settled (fetchNpcLaw (net i) (url law))) as [result|error];
    [destruct (negb (Fetcher.status result =? 200))|];
    cbn [fetched]; apply in_or_app; now left.
Qed.

(** Where a seed was missing, the loop leaves what the first law with that
    seed path stored. *)
Lemma ingestLoop_writes (laws : list LawDefinition) :
  forall net i0 (st : report) i law,
    nth_error laws i = Some law ->
    existsSync fileContent (seedFile (id law)) (files _ st) = false ->
    exists j first,
      (j <= i)%nat /\ nth_error laws j = Some first
      /\ seedFile (id first) = seedFile (id law)
      /\ (forall k l, (k < j)%nat -> nth_error laws k = Some l ->
                      seedFile (id l) <> seedFile (id law))
      /\ readFile fileContent (seedFile (id law))
                  (files _ (ingestLoop net i0 laws st))
         = Some (stringify (writtenSeed bodyOf (net (i0 + j)%nat) first))
      /\ In (url first) (fetched _ (ingestLoop net i0 laws st)).
Proof.
  induction laws as [|law0 rest IH]; intros net i0 st i law Hi Ex;
    [destruct i; discriminate Hi|].
  cbn [Ingest.ingestLoop].
  destruct (ingestLoop_invariant rest net (S i0) (ingestLaw (net i0) law0 st))
    as (_ & _ & _ & _ & K & _).
  destruct (str_eqb (seedFile (id law0)) (seedFile (id law))) eqn:E.
  - apply str_eqb_eq in E. rewrite <- E in Ex.
    destruct (ingestLaw_writes (net i0) law0 st Ex) as (W & F & _).
    exists 0%nat, law0. rewrite Nat.add_0_r.
    split; [lia|]. split; [reflexivity|]. split; [exact E|].
    split; [intros k l Hk; lia|]. rewrite <- E. split.
    + rewrite K; [exact W|]. unfold existsSync. now rewrite W.
    + apply fetched_grows. rewrite F. apply in_or_app. right. now left.
  - assert (Hne : seedFile (id law) <> seedFile (id law0)).
    { intros H. rewrite H, str_eqb_refl in E. discriminate E. }
    destruct i as [|i']; [injection Hi as <-; now contradiction Hne|].
    cbn [nth_error] in Hi.
    assert (Ex1 : existsSync fileContent (seedFile (id law))
                             (files _ (ingestLaw (net i0) law0 st)) = false).
    { unfold existsSync in *.
      destruct (existsSync fileContent (seedFile (id law0)) (files _ st)) eqn:Ex0.
      - destruct (ingestLaw_step (net i0) law0 st) as (_ & _ & _ & _ & _ & _ & S1).
        rewrite (S1 Ex0). exact Ex.
      - destruct (ingestLaw_writes (net i0) law0 st Ex0) as (_ & _ & O).
        now rewrite (O _ Hne). }
    destruct (IH net (S i0) _ i' law Hi Ex1)
      as (j & first & Hj & Hnth & Hp & Hfirst & R & F).
    exists (S j), first. rewrite Nat.add_succ_r.
    split; [lia|]. split; [exact Hnth|]. split; [exact Hp|].
    split; [|split; [exact R | exact F]].
    intros [|k] l Hk Hl; cbn [nth_error] in Hl.
    + injection Hl as <-. intros H. now apply Hne.
    + apply (Hfirst k l); [lia | exact Hl].
Qed.

(** X29: main completes the seed directory and overwrites nothing.  After a
    run every selected law has a seed file, whatever the network did, and
    every file that was there before the run still holds what it held.  A
    seed that was missing holds what the first selected law with that seed
    path stored, and that law was fetched: the parsed law when its fetch
    answered 200, the minimal seed when it answered another status or
    threw. *)
Theorem ingest_completes_the_seeds (args : list jsstring) (dir : directory)
        (net : nat -> nat -> outcome) :
  let selected := selectLaws (parseArgs args) KEY_LAWS in
  let out := main args dir net in
  (forall law, In law selected ->
               existsSync fileContent (seedFile (id law)) (files _ out) = true)
  /\ (forall p, existsSync fileContent p dir = true ->
                readFile fileContent p (files _ out) = readFile fileContent p dir)
  /\ (forall i law,
         nth_error selected i = Some law ->
         existsSync fileContent (seedFile (id law)) dir = false ->
         exists j first,
           (j <= i)%nat /\ nth_error selected j = Some first
           /\ seedFile (id first) = seedFile (id law)
           /\ (forall k l, (k < j)%nat -> nth_error selected k = Some l ->
                           seedFile (id l) <> seedFile (id law))
           /\ readFile fileContent (seedFile (id law)) (files _ out)
              = Some (stringify (writtenSeed bodyOf (net j) first))
           /\ In (url first) (fetched _ out)).
Proof.
  cbv zeta. unfold Ingest.main.
  destruct (ingestLoop_invariant (selectLaws (parseArgs args) KEY_LAWS) net 0%nat
              (mkReport _ dir [] 0 0 0)) as (_ & _ & _ & _ & K & E).
  split; [exact E|]. split; [exact K|].
  intros i law Hi Ex.
  apply (ingestLoop_writes _ net 0%nat (mkReport _ dir [] 0 0 0) i law Hi Ex).
Qed.

(** X30: a second run is idle.  Running main again with the same arguments
    on the directory the first run left makes no fetch and writes no file,
    whatever the network would answer: it reports every selected law as
    processed, none as failed and no provision.  So a law whose fetch failed
    in the first run, and got a minimal seed, is not fetched again. *)
Theorem ingest_second_run_is_idle (args : list jsstring) (dir : directory)
        (net net' : nat -> nat -> outcome) :
  main args (files _ (main args dir net)) net'
  = mkReport _ (files _ (main args dir net)) []
             (Z.of_nat (length (selectLaws (parseArgs args) KEY_LAWS))) 0 0.
Proof.
  destruct (ingestLoop_invariant (selectLaws (parseArgs args) KEY_LAWS) net 0%nat
              (mkReport _ dir [] 0 0 0)) as (_ & _ & _ & _ & _ & E).
  unfold Ingest.main at 1. rewrite ingestLoop_idle; [reflexivity|].
  intros law Hl. cbn [files]. now apply E.
Qed.

End IngestRuns.
